(** * LC0J oneAPI evaluator: a shallow embedding of
      [native/oneapi/lc0j_oneapi_jni.cpp]

    The embedding follows the translation unit top to bottom: device
    discovery, the device memory helpers ([sycl_alloc], [sycl_free], the
    blocking copies), the LC0J ".bin" parser ([read_i32],
    [read_float_array], [load_conv], [load_dense], [load_se]), the SYCL
    kernels, the forward pass [eval_one], the life cycle ([create_net],
    [destroy_net]) and the JNI entry points.

    Conventions.
    - [float] is IEEE binary32, given by the standard library's
      [spec_float] with 24 bits of precision; the two exponentials
      ([sycl::exp] on the device, [std::exp] on the host) are not part of
      the source and are taken as parameters ([Libm]).
    - [int] is a 32-bit two's complement integer held in [Z]; arithmetic
      that the source performs in [int] is wrapped with [wrap32],
      [int64_t] arithmetic with [wrap64], casts to [size_t] with
      [to_size_t].
    - Device memory is a finite map from addresses to typed buffers.  A
      fallible device operation (allocation, blocking copy) consults an
      oracle, so that every failure schedule can be replayed.
    - Kernel accesses outside a live buffer are undefined in the source; the
      model reads [fzero] there and drops such writes.  The theorems below
      carry the size hypotheses under which no such access happens.
    - The host has room for every [std::vector] the loader builds: a
      construction or resize raises only for a count above [max_size()]
      ([std::length_error]); [std::bad_alloc] is not modelled. *)

From Stdlib Require Import ZArith List Bool String Ascii Lia.
From Stdlib Require Import Floats.SpecFloat.
From Stdlib Require Import Strings.Byte.
From stdpp Require Import base gmap list.

Local Open Scope Z_scope.

(* ================================================================== *)
(** * Machine integers *)

Definition wrap32 (z : Z) : Z := (z + 2 ^ 31) mod 2 ^ 32 - 2 ^ 31.
Definition wrap64 (z : Z) : Z := (z + 2 ^ 63) mod 2 ^ 64 - 2 ^ 63.
Definition to_size_t (z : Z) : Z := z mod 2 ^ 64.

Definition int_mul (a b : Z) : Z := wrap32 (a * b).
Definition int_add (a b : Z) : Z := wrap32 (a + b).
Definition int_shl (a n : Z) : Z := wrap32 (Z.shiftl a n).
Definition int_shr (a n : Z) : Z := Z.shiftr a n.
Definition int_and (a b : Z) : Z := Z.land a b.

(** [x < lo || x >= hi], the range test of the convolution loops. *)
Definition out_of_range (x lo hi : Z) : bool := (x <? lo) || (hi <=? x).

(* ================================================================== *)
(** * binary32 *)

Definition float : Type := spec_float.

Definition fzero : float := S754_zero false.
Definition fone : float := S754_finite false 8388608 (-23).
Definition f64th : float := S754_finite false 8388608 (-29).

Definition fadd : float -> float -> float := SFadd 24 128.
Definition fsub : float -> float -> float := SFsub 24 128.
Definition fmul : float -> float -> float := SFmul 24 128.
Definition fdiv : float -> float -> float := SFdiv 24 128.
Definition fneg : float -> float := SFopp.
Definition flt : float -> float -> bool := SFltb.

(** [std::max(a, b)] is [(a < b) ? b : a]. *)
Definition fmax (a b : float) : float := if flt a b then b else a.

(** The value of a 32-bit pattern read from a weights file. *)
Definition float_of_bits (u : Z) : float :=
  let s := Z.testbit u 31 in
  let e := Z.land (Z.shiftr u 23) 255 in
  let m := Z.land u 8388607 in
  if e =? 0 then
    match m with
    | Zpos p => S754_finite s p (-149)
    | _ => S754_zero s
    end
  else if e =? 255 then
    if m =? 0 then S754_infinity s else S754_nan
  else
    match m + 8388608 with
    | Zpos p => S754_finite s p (e - 150)
    | _ => S754_nan
    end.

(** The exponentials used by the source and defined outside it. *)
Record Libm := mkLibm {
  sycl_exp : float -> float;
  std_exp : float -> float
}.

Definition relu (x : float) : float := if flt fzero x then x else fzero.

Definition sigmoid (lm : Libm) (x : float) : float :=
  fdiv fone (fadd fone (sycl_exp lm (fneg x))).

(* ================================================================== *)
(** * Byte streams *)

Definition byte_val (b : byte) : Z := Z.of_N (Byte.to_N b).

Definition le_u32 (b0 b1 b2 b3 : byte) : Z :=
  byte_val b0 + 256 * byte_val b1 + 65536 * byte_val b2 + 16777216 * byte_val b3.

Definition le_i32 (b0 b1 b2 b3 : byte) : Z := wrap32 (le_u32 b0 b1 b2 b3).

(** Decoding of a raw run of 4-byte little-endian words; a trailing partial
    word is dropped (the callers always pass a multiple of four bytes). *)
Fixpoint words_of_bytes (bs : list byte) : list Z :=
  match bs with
  | b0 :: b1 :: b2 :: b3 :: rest => le_u32 b0 b1 b2 b3 :: words_of_bytes rest
  | _ => []
  end.

Definition floats_of_bytes (bs : list byte) : list float :=
  float_of_bits <$> words_of_bytes bs.

Definition ints_of_bytes (bs : list byte) : list Z :=
  wrap32 <$> words_of_bytes bs.

(** Encoders, used to write model files down. *)
Definition byte_of_Z (z : Z) : byte :=
  default Byte.x00 (Byte.of_N (Z.to_N (z mod 256))).

Definition bytes_of_i32 (z : Z) : list byte :=
  [byte_of_Z z; byte_of_Z (z / 256); byte_of_Z (z / 65536); byte_of_Z (z / 16777216)].

Definition bytes_of_words (zs : list Z) : list byte :=
  concat (bytes_of_i32 <$> zs).

(* ================================================================== *)
(** * Device discovery *)

Record SyclDevice := mkSyclDevice {
  is_gpu : bool;
  vendor : string;
  usm_device_allocations : bool;
  usm_shared_allocations : bool
}.

(** What the SYCL runtime offers: the GPU devices it enumerates ([None] when
    the enumeration raises [sycl::exception]) and whether an in-order queue
    can be built on a device. *)
Record Platform := mkPlatform {
  gpu_devices : option (list SyclDevice);
  queue_ctor_ok : bool
}.

Definition tolower (c : ascii) : ascii :=
  let n := N_of_ascii c in
  if ((65 <=? n) && (n <=? 90))%N then ascii_of_N (n + 32) else c.

Fixpoint to_lower (v : string) : string :=
  match v with
  | EmptyString => EmptyString
  | String c v' => String (tolower c) (to_lower v')
  end.

Definition is_intel_gpu (dev : SyclDevice) : bool :=
  if negb (is_gpu dev) then false
  else match String.index 0 "intel" (to_lower (vendor dev)) with
       | Some _ => true
       | None => false
       end.

Definition intel_gpus (pf : Platform) : list SyclDevice :=
  match gpu_devices pf with
  | Some devices => List.filter is_intel_gpu devices
  | None => []
  end.

Definition device_count (pf : Platform) : Z :=
  wrap32 (Z.of_nat (length (intel_gpus pf))).

Definition select_intel_gpu (pf : Platform) : option SyclDevice :=
  head (intel_gpus pf).

Definition nativeDeviceCount (pf : Platform) : Z := device_count pf.

(* ================================================================== *)
(** * Device memory *)

Inductive buffer :=
| FloatBuf (l : list float)
| IntBuf (l : list Z).

Inductive elt := EltFloat | EltInt.

(** The dynamic state of the device behind a queue: live allocations, the
    next fresh address, the outcomes of the coming fallible operations
    ([true] succeeds, an exhausted oracle always succeeds) and the addresses
    passed to [sycl::free] that were not live. *)
Record DeviceMem := mkMem {
  mem : gmap Z buffer;
  brk : Z;
  oracle : list bool;
  bad_frees : list Z
}.

Definition nullptr : Z := 0.

Definition next_ok (h : DeviceMem) : bool * DeviceMem :=
  match oracle h with
  | [] => (true, h)
  | b :: o => (b, mkMem (mem h) (brk h) o (bad_frees h))
  end.

Definition mem_store (p : Z) (b : buffer) (h : DeviceMem) : DeviceMem :=
  mkMem (<[p := b]> (mem h)) (brk h) (oracle h) (bad_frees h).

(** Fresh device memory is not initialised by the source; the model fills it
    with zeros. *)
Definition fresh_buffer (t : elt) (count : Z) : buffer :=
  match t with
  | EltFloat => FloatBuf (replicate (Z.to_nat count) fzero)
  | EltInt => IntBuf (replicate (Z.to_nat count) 0)
  end.

(** [sycl::malloc_device] / [sycl::malloc_shared], with a [sycl::exception]
    folded into the null result as [sycl_alloc] does. *)
Definition usm_malloc (t : elt) (count : Z) (h : DeviceMem) : Z * DeviceMem :=
  let '(ok, h1) := next_ok h in
  if ok then
    (brk h1, mkMem (<[brk h1 := fresh_buffer t count]> (mem h1)) (brk h1 + 1)
                   (oracle h1) (bad_frees h1))
  else (nullptr, h1).

Definition sycl_alloc (dev : SyclDevice) (t : elt) (count : Z) (h : DeviceMem)
  : Z * DeviceMem :=
  if usm_device_allocations dev then usm_malloc t count h
  else if usm_shared_allocations dev then usm_malloc t count h
  else (nullptr, h).

Definition sycl_free (p : Z) (h : DeviceMem) : DeviceMem :=
  if p =? nullptr then h
  else match mem h !! p with
       | Some _ => mkMem (delete p (mem h)) (brk h) (oracle h) (bad_frees h)
       | None => mkMem (mem h) (brk h) (oracle h) (p :: bad_frees h)
       end.

(** A blocking copy into device memory.  A copy that does not fit a live
    allocation of the same element type is undefined in the source; the
    model reports it as a failed copy. *)
Definition sycl_copy_to_device (dst : Z) (src : buffer) (h : DeviceMem)
  : bool * DeviceMem :=
  let '(ok, h1) := next_ok h in
  if negb ok then (false, h1)
  else
    match mem h1 !! dst, src with
    | Some (FloatBuf old), FloatBuf s =>
        if (length s <=? length old)%nat
        then (true, mem_store dst (FloatBuf (s ++ drop (length s) old)) h1)
        else (false, h1)
    | Some (IntBuf old), IntBuf s =>
        if (length s <=? length old)%nat
        then (true, mem_store dst (IntBuf (s ++ drop (length s) old)) h1)
        else (false, h1)
    | _, _ => (false, h1)
    end.

(** A blocking copy of [count] floats back to the host. *)
Definition sycl_copy_to_host (src : Z) (count : Z) (h : DeviceMem)
  : option (list float) * DeviceMem :=
  let '(ok, h1) := next_ok h in
  if negb ok then (None, h1)
  else
    match mem h1 !! src with
    | Some (FloatBuf l) =>
        if (0 <=? count) && (count <=? Z.of_nat (length l))
        then (Some (take (Z.to_nat count) l), h1)
        else (None, h1)
    | _ => (None, h1)
    end.

(** Contents of a float (resp. int) buffer as a kernel sees them. *)
Definition fbuf (h : DeviceMem) (p : Z) : list float :=
  match mem h !! p with
  | Some (FloatBuf l) => l
  | _ => []
  end.

Definition ibuf (h : DeviceMem) (p : Z) : list Z :=
  match mem h !! p with
  | Some (IntBuf l) => l
  | _ => []
  end.

Definition fget (l : list float) (i : Z) : float :=
  if i <? 0 then fzero else default fzero (l !! Z.to_nat i).

Definition iget (l : list Z) (i : Z) : Z :=
  if i <? 0 then 0 else default 0 (l !! Z.to_nat i).

Definition fset (l : list float) (i : Z) (v : float) : list float :=
  if i <? 0 then l else <[Z.to_nat i := v]> l.

(* ================================================================== *)
(** * Layers and the network *)

Module Conv.
Record t := mk {
  inC : Z;
  outC : Z;
  k : Z;
  d_w : Z;      (* [outC][inC][k][k] *)
  d_b : Z;      (* [outC] *)
  params : Z
}.
Definition init : t := mk 0 0 0 nullptr nullptr 0.
Definition set_dims (i o kk : Z) (c : t) : t := mk i o kk (d_w c) (d_b c) (params c).
Definition set_params (p : Z) (c : t) : t := mk (inC c) (outC c) (k c) (d_w c) (d_b c) p.
Definition set_d_w (p : Z) (c : t) : t := mk (inC c) (outC c) (k c) p (d_b c) (params c).
Definition set_d_b (p : Z) (c : t) : t := mk (inC c) (outC c) (k c) (d_w c) p (params c).
End Conv.

Module Dense.
Record t := mk {
  inD : Z;
  outD : Z;
  d_w : Z;      (* [outD][inD] *)
  d_b : Z;      (* [outD] *)
  params : Z
}.
Definition init : t := mk 0 0 nullptr nullptr 0.
Definition set_dims (i o : Z) (d : t) : t := mk i o (d_w d) (d_b d) (params d).
Definition set_params (p : Z) (d : t) : t := mk (inD d) (outD d) (d_w d) (d_b d) p.
Definition set_d_w (p : Z) (d : t) : t := mk (inD d) (outD d) p (d_b d) (params d).
Definition set_d_b (p : Z) (d : t) : t := mk (inD d) (outD d) (d_w d) p (params d).
End Dense.

Module Se.
Record t := mk {
  channels : Z;
  hidden : Z;
  d_w1 : Z;     (* [hidden][channels] *)
  d_b1 : Z;     (* [hidden] *)
  d_w2 : Z;     (* [2*channels][hidden] *)
  d_b2 : Z;     (* [2*channels] *)
  params : Z
}.
Definition init : t := mk 0 0 nullptr nullptr nullptr nullptr 0.
Definition set_dims (c hd p : Z) (s : t) : t :=
  mk c hd (d_w1 s) (d_b1 s) (d_w2 s) (d_b2 s) p.
Definition set_d_w1 (p : Z) (s : t) : t :=
  mk (channels s) (hidden s) p (d_b1 s) (d_w2 s) (d_b2 s) (params s).
Definition set_d_b1 (p : Z) (s : t) : t :=
  mk (channels s) (hidden s) (d_w1 s) p (d_w2 s) (d_b2 s) (params s).
Definition set_d_w2 (p : Z) (s : t) : t :=
  mk (channels s) (hidden s) (d_w1 s) (d_b1 s) p (d_b2 s) (params s).
Definition set_d_b2 (p : Z) (s : t) : t :=
  mk (channels s) (hidden s) (d_w1 s) (d_b1 s) (d_w2 s) p (params s).
End Se.

Record ResidualBlock := mkBlock {
  conv1 : Conv.t;
  conv2 : Conv.t;
  hasSe : bool;
  se : Se.t
}.

Definition block_init : ResidualBlock := mkBlock Conv.init Conv.init false Se.init.

Definition set_conv1 (c : Conv.t) (b : ResidualBlock) : ResidualBlock :=
  mkBlock c (conv2 b) (hasSe b) (se b).
Definition set_conv2 (c : Conv.t) (b : ResidualBlock) : ResidualBlock :=
  mkBlock (conv1 b) c (hasSe b) (se b).
Definition set_hasSe (p : bool) (b : ResidualBlock) : ResidualBlock :=
  mkBlock (conv1 b) (conv2 b) p (se b).
Definition set_se (s : Se.t) (b : ResidualBlock) : ResidualBlock :=
  mkBlock (conv1 b) (conv2 b) (hasSe b) s.

(** The eight header fields of an LC0J file, in file order. *)
Record Header := mkHeader {
  h_inputC : Z;
  h_trunkC : Z;
  h_blocks : Z;
  h_policyC : Z;
  h_valueC : Z;
  h_valueHidden : Z;
  h_policyMapLen : Z;
  h_wdlOutputs : Z
}.

(** The device workspace of a network. *)
Record Workspace := mkWs {
  w_in : Z;            (* [inputC*64] *)
  w_cur : Z;           (* [trunkC*64] *)
  w_next : Z;          (* [trunkC*64] *)
  w_tmp : Z;           (* [trunkC*64] *)
  w_scratch : Z;       (* [trunkC*64] *)
  w_policyHidden : Z;  (* [trunkC*64] *)
  w_policyPlanes : Z;  (* [policyC*64] *)
  w_valueInput : Z;    (* [valueC*64] *)
  w_fc1 : Z;           (* [valueHidden] *)
  w_logits : Z;        (* [3] *)
  w_sePooled : Z;      (* [trunkC] *)
  w_seHidden : Z;      (* [maxHidden] *)
  w_seGates : Z        (* [2*trunkC] *)
}.

Definition ws_init : Workspace :=
  mkWs nullptr nullptr nullptr nullptr nullptr nullptr nullptr nullptr nullptr
       nullptr nullptr nullptr nullptr.

(** [SyclNet].  The queue is represented by the device it was built on; the
    workspace pointers of the source are grouped in [ws] and read through
    the accessors [d_in], [d_cur], ... below. *)
Record SyclNet := mkNet {
  q : SyclDevice;
  inputC : Z;
  trunkC : Z;
  blocks : Z;
  policyC : Z;
  valueC : Z;
  valueHidden : Z;
  policySize : Z;
  paramCount : Z;
  inputLayer : Conv.t;
  tower : list ResidualBlock;
  policyStem : Conv.t;
  policyOut : Conv.t;
  valueConv : Conv.t;
  valueFc1 : Dense.t;
  valueFc2 : Dense.t;
  d_policyMap : Z;
  policyMapLen : Z;
  d_policyMapped : Z;  (* [policySize] *)
  ws : Workspace;
  seMaxHidden : Z
}.

(** Field updates of [SyclNet] and [Workspace]. *)
Definition set_paramCount (v : Z) (n : SyclNet) : SyclNet :=
  mkNet
        (q n) (inputC n) (trunkC n) (blocks n) (policyC n) (valueC n)
        (valueHidden n) (policySize n) v (inputLayer n) (tower n)
        (policyStem n) (policyOut n) (valueConv n) (valueFc1 n) (valueFc2 n)
        (d_policyMap n) (policyMapLen n) (d_policyMapped n) (ws n)
        (seMaxHidden n).
Definition set_inputLayer (v : Conv.t) (n : SyclNet) : SyclNet :=
  mkNet
        (q n) (inputC n) (trunkC n) (blocks n) (policyC n) (valueC n)
        (valueHidden n) (policySize n) (paramCount n) v (tower n)
        (policyStem n) (policyOut n) (valueConv n) (valueFc1 n) (valueFc2 n)
        (d_policyMap n) (policyMapLen n) (d_policyMapped n) (ws n)
        (seMaxHidden n).
Definition set_tower (v : list ResidualBlock) (n : SyclNet) : SyclNet :=
  mkNet
        (q n) (inputC n) (trunkC n) (blocks n) (policyC n) (valueC n)
        (valueHidden n) (policySize n) (paramCount n) (inputLayer n) v
        (policyStem n) (policyOut n) (valueConv n) (valueFc1 n) (valueFc2 n)
        (d_policyMap n) (policyMapLen n) (d_policyMapped n) (ws n)
        (seMaxHidden n).
Definition set_policyStem (v : Conv.t) (n : SyclNet) : SyclNet :=
  mkNet
        (q n) (inputC n) (trunkC n) (blocks n) (policyC n) (valueC n)
        (valueHidden n) (policySize n) (paramCount n) (inputLayer n)
        (tower n) v (policyOut n) (valueConv n) (valueFc1 n) (valueFc2 n)
        (d_policyMap n) (policyMapLen n) (d_policyMapped n) (ws n)
        (seMaxHidden n).
Definition set_policyOut (v : Conv.t) (n : SyclNet) : SyclNet :=
  mkNet
        (q n) (inputC n) (trunkC n) (blocks n) (policyC n) (valueC n)
        (valueHidden n) (policySize n) (paramCount n) (inputLayer n)
        (tower n) (policyStem n) v (valueConv n) (valueFc1 n) (valueFc2 n)
        (d_policyMap n) (policyMapLen n) (d_policyMapped n) (ws n)
        (seMaxHidden n).
Definition set_valueConv (v : Conv.t) (n : SyclNet) : SyclNet :=
  mkNet
        (q n) (inputC n) (trunkC n) (blocks n) (policyC n) (valueC n)
        (valueHidden n) (policySize n) (paramCount n) (inputLayer n)
        (tower n) (policyStem n) (policyOut n) v (valueFc1 n) (valueFc2 n)
        (d_policyMap n) (policyMapLen n) (d_policyMapped n) (ws n)
        (seMaxHidden n).
Definition set_valueFc1 (v : Dense.t) (n : SyclNet) : SyclNet :=
  mkNet
        (q n) (inputC n) (trunkC n) (blocks n) (policyC n) (valueC n)
        (valueHidden n) (policySize n) (paramCount n) (inputLayer n)
        (tower n) (policyStem n) (policyOut n) (valueConv n) v (valueFc2 n)
        (d_policyMap n) (policyMapLen n) (d_policyMapped n) (ws n)
        (seMaxHidden n).
Definition set_valueFc2 (v : Dense.t) (n : SyclNet) : SyclNet :=
  mkNet
        (q n) (inputC n) (trunkC n) (blocks n) (policyC n) (valueC n)
        (valueHidden n) (policySize n) (paramCount n) (inputLayer n)
        (tower n) (policyStem n) (policyOut n) (valueConv n) (valueFc1 n) v
        (d_policyMap n) (policyMapLen n) (d_policyMapped n) (ws n)
        (seMaxHidden n).
Definition set_d_policyMap (v : Z) (n : SyclNet) : SyclNet :=
  mkNet
        (q n) (inputC n) (trunkC n) (blocks n) (policyC n) (valueC n)
        (valueHidden n) (policySize n) (paramCount n) (inputLayer n)
        (tower n) (policyStem n) (policyOut n) (valueConv n) (valueFc1 n)
        (valueFc2 n) v (policyMapLen n) (d_policyMapped n) (ws n)
        (seMaxHidden n).
Definition set_d_policyMapped (v : Z) (n : SyclNet) : SyclNet :=
  mkNet
        (q n) (inputC n) (trunkC n) (blocks n) (policyC n) (valueC n)
        (valueHidden n) (policySize n) (paramCount n) (inputLayer n)
        (tower n) (policyStem n) (policyOut n) (valueConv n) (valueFc1 n)
        (valueFc2 n) (d_policyMap n) (policyMapLen n) v (ws n)
        (seMaxHidden n).
Definition set_ws (v : Workspace) (n : SyclNet) : SyclNet :=
  mkNet
        (q n) (inputC n) (trunkC n) (blocks n) (policyC n) (valueC n)
        (valueHidden n) (policySize n) (paramCount n) (inputLayer n)
        (tower n) (policyStem n) (policyOut n) (valueConv n) (valueFc1 n)
        (valueFc2 n) (d_policyMap n) (policyMapLen n) (d_policyMapped n) v
        (seMaxHidden n).
Definition set_seMaxHidden (v : Z) (n : SyclNet) : SyclNet :=
  mkNet
        (q n) (inputC n) (trunkC n) (blocks n) (policyC n) (valueC n)
        (valueHidden n) (policySize n) (paramCount n) (inputLayer n)
        (tower n) (policyStem n) (policyOut n) (valueConv n) (valueFc1 n)
        (valueFc2 n) (d_policyMap n) (policyMapLen n) (d_policyMapped n)
        (ws n) v.
Definition set_w_in (v : Z) (w : Workspace) : Workspace :=
  mkWs
        v (w_cur w) (w_next w) (w_tmp w) (w_scratch w) (w_policyHidden w)
        (w_policyPlanes w) (w_valueInput w) (w_fc1 w) (w_logits w)
        (w_sePooled w) (w_seHidden w) (w_seGates w).
Definition set_w_cur (v : Z) (w : Workspace) : Workspace :=
  mkWs
        (w_in w) v (w_next w) (w_tmp w) (w_scratch w) (w_policyHidden w)
        (w_policyPlanes w) (w_valueInput w) (w_fc1 w) (w_logits w)
        (w_sePooled w) (w_seHidden w) (w_seGates w).
Definition set_w_next (v : Z) (w : Workspace) : Workspace :=
  mkWs
        (w_in w) (w_cur w) v (w_tmp w) (w_scratch w) (w_policyHidden w)
        (w_policyPlanes w) (w_valueInput w) (w_fc1 w) (w_logits w)
        (w_sePooled w) (w_seHidden w) (w_seGates w).
Definition set_w_tmp (v : Z) (w : Workspace) : Workspace :=
  mkWs
        (w_in w) (w_cur w) (w_next w) v (w_scratch w) (w_policyHidden w)
        (w_policyPlanes w) (w_valueInput w) (w_fc1 w) (w_logits w)
        (w_sePooled w) (w_seHidden w) (w_seGates w).
Definition set_w_scratch (v : Z) (w : Workspace) : Workspace :=
  mkWs
        (w_in w) (w_cur w) (w_next w) (w_tmp w) v (w_policyHidden w)
        (w_policyPlanes w) (w_valueInput w) (w_fc1 w) (w_logits w)
        (w_sePooled w) (w_seHidden w) (w_seGates w).
Definition set_w_policyHidden (v : Z) (w : Workspace) : Workspace :=
  mkWs
        (w_in w) (w_cur w) (w_next w) (w_tmp w) (w_scratch w) v
        (w_policyPlanes w) (w_valueInput w) (w_fc1 w) (w_logits w)
        (w_sePooled w) (w_seHidden w) (w_seGates w).
Definition set_w_policyPlanes (v : Z) (w : Workspace) : Workspace :=
  mkWs
        (w_in w) (w_cur w) (w_next w) (w_tmp w) (w_scratch w)
        (w_policyHidden w) v (w_valueInput w) (w_fc1 w) (w_logits w)
        (w_sePooled w) (w_seHidden w) (w_seGates w).
Definition set_w_valueInput (v : Z) (w : Workspace) : Workspace :=
  mkWs
        (w_in w) (w_cur w) (w_next w) (w_tmp w) (w_scratch w)
        (w_policyHidden w) (w_policyPlanes w) v (w_fc1 w) (w_logits w)
        (w_sePooled w) (w_seHidden w) (w_seGates w).
Definition set_w_fc1 (v : Z) (w : Workspace) : Workspace :=
  mkWs
        (w_in w) (w_cur w) (w_next w) (w_tmp w) (w_scratch w)
        (w_policyHidden w) (w_policyPlanes w) (w_valueInput w) v (w_logits w)
        (w_sePooled w) (w_seHidden w) (w_seGates w).
Definition set_w_logits (v : Z) (w : Workspace) : Workspace :=
  mkWs
        (w_in w) (w_cur w) (w_next w) (w_tmp w) (w_scratch w)
        (w_policyHidden w) (w_policyPlanes w) (w_valueInput w) (w_fc1 w) v
        (w_sePooled w) (w_seHidden w) (w_seGates w).
Definition set_w_sePooled (v : Z) (w : Workspace) : Workspace :=
  mkWs
        (w_in w) (w_cur w) (w_next w) (w_tmp w) (w_scratch w)
        (w_policyHidden w) (w_policyPlanes w) (w_valueInput w) (w_fc1 w)
        (w_logits w) v (w_seHidden w) (w_seGates w).
Definition set_w_seHidden (v : Z) (w : Workspace) : Workspace :=
  mkWs
        (w_in w) (w_cur w) (w_next w) (w_tmp w) (w_scratch w)
        (w_policyHidden w) (w_policyPlanes w) (w_valueInput w) (w_fc1 w)
        (w_logits w) (w_sePooled w) v (w_seGates w).
Definition set_w_seGates (v : Z) (w : Workspace) : Workspace :=
  mkWs
        (w_in w) (w_cur w) (w_next w) (w_tmp w) (w_scratch w)
        (w_policyHidden w) (w_policyPlanes w) (w_valueInput w) (w_fc1 w)
        (w_logits w) (w_sePooled w) (w_seHidden w) v.

Definition d_in (n : SyclNet) : Z := w_in (ws n).
Definition d_cur (n : SyclNet) : Z := w_cur (ws n).
Definition d_next (n : SyclNet) : Z := w_next (ws n).
Definition d_tmp (n : SyclNet) : Z := w_tmp (ws n).
Definition d_scratch (n : SyclNet) : Z := w_scratch (ws n).
Definition d_policyHidden (n : SyclNet) : Z := w_policyHidden (ws n).
Definition d_policyPlanes (n : SyclNet) : Z := w_policyPlanes (ws n).
Definition d_valueInput (n : SyclNet) : Z := w_valueInput (ws n).
Definition d_fc1 (n : SyclNet) : Z := w_fc1 (ws n).
Definition d_logits (n : SyclNet) : Z := w_logits (ws n).
Definition d_sePooled (n : SyclNet) : Z := w_sePooled (ws n).
Definition d_seHidden (n : SyclNet) : Z := w_seHidden (ws n).
Definition d_seGates (n : SyclNet) : Z := w_seGates (ws n).

Definition set_d_in (v : Z) (n : SyclNet) : SyclNet := set_ws (set_w_in v (ws n)) n.
Definition set_d_cur (v : Z) (n : SyclNet) : SyclNet := set_ws (set_w_cur v (ws n)) n.
Definition set_d_next (v : Z) (n : SyclNet) : SyclNet := set_ws (set_w_next v (ws n)) n.
Definition set_d_tmp (v : Z) (n : SyclNet) : SyclNet := set_ws (set_w_tmp v (ws n)) n.
Definition set_d_scratch (v : Z) (n : SyclNet) : SyclNet := set_ws (set_w_scratch v (ws n)) n.
Definition set_d_policyHidden (v : Z) (n : SyclNet) : SyclNet := set_ws (set_w_policyHidden v (ws n)) n.
Definition set_d_policyPlanes (v : Z) (n : SyclNet) : SyclNet := set_ws (set_w_policyPlanes v (ws n)) n.
Definition set_d_valueInput (v : Z) (n : SyclNet) : SyclNet := set_ws (set_w_valueInput v (ws n)) n.
Definition set_d_fc1 (v : Z) (n : SyclNet) : SyclNet := set_ws (set_w_fc1 v (ws n)) n.
Definition set_d_logits (v : Z) (n : SyclNet) : SyclNet := set_ws (set_w_logits v (ws n)) n.
Definition set_d_sePooled (v : Z) (n : SyclNet) : SyclNet := set_ws (set_w_sePooled v (ws n)) n.
Definition set_d_seHidden (v : Z) (n : SyclNet) : SyclNet := set_ws (set_w_seHidden v (ws n)) n.
Definition set_d_seGates (v : Z) (n : SyclNet) : SyclNet := set_ws (set_w_seGates v (ws n)) n.

(** The state of a freshly made [SyclNet] once the header has been stored
    (lines 670-692 of the source). *)
Definition net_of_header (dev : SyclDevice) (hd : Header) : SyclNet :=
  mkNet dev (h_inputC hd) (h_trunkC hd) (h_blocks hd) (h_policyC hd) (h_valueC hd)
        (h_valueHidden hd) (h_policyMapLen hd) 0
        Conv.init [] Conv.init Conv.init Conv.init Dense.init Dense.init
        nullptr (h_policyMapLen hd) nullptr ws_init 0.

Definition add_params (p : Z) (n : SyclNet) : SyclNet :=
  set_paramCount (wrap64 (paramCount n + p)) n.

(* ================================================================== *)
(** * The loader monad

    The parsing functions of the source take the stream, the queue and the
    object under construction by reference and return [false] at the first
    failure, leaving whatever they had stored so far in place.  [M T A] is
    that discipline: a computation over a context holding the rest of the
    stream, the device memory and the object of type [T], which either
    yields a value, fails ([return false]) or raises a C++ exception that
    nothing in the translation unit catches. *)

Inductive res (A : Type) :=
| Ok (a : A)
| Fail
| Throw.
Arguments Ok {A} a.
Arguments Fail {A}.
Arguments Throw {A}.

Record Ctx (T : Type) := mkCtx {
  cx_f : list byte;
  cx_q : DeviceMem;
  cx_out : T
}.
Arguments mkCtx {T} _ _ _.
Arguments cx_f {T} _.
Arguments cx_q {T} _.
Arguments cx_out {T} _.

Definition M (T A : Type) : Type := Ctx T -> res A * Ctx T.

Definition ret {T A} (a : A) : M T A := fun s => (Ok a, s).

Definition bind {T A B} (m : M T A) (k : A -> M T B) : M T B :=
  fun s =>
    match m s with
    | (Ok a, s') => k a s'
    | (Fail, s') => (Fail, s')
    | (Throw, s') => (Throw, s')
    end.

Declare Scope loader_scope.
Delimit Scope loader_scope with loader.
Notation "x <- m ;; k" := (bind m (fun x => k))
  (at level 100, m at next level, right associativity) : loader_scope.
Notation "m ;; k" := (bind m (fun _ => k))
  (at level 100, right associativity) : loader_scope.
Local Open Scope loader_scope.

Definition guard {T} (b : bool) : M T unit :=
  fun s => (if b then Ok tt else Fail, s).

Definition raise_if {T} (b : bool) : M T unit :=
  fun s => (if b then Throw else Ok tt, s).

Definition get_out {T} : M T T := fun s => (Ok (cx_out s), s).

Definition modify {T} (g : T -> T) : M T unit :=
  fun s => (Ok tt, mkCtx (cx_f s) (cx_q s) (g (cx_out s))).

(** Run a computation on a part of the object (a [ConvLayer&] argument). *)
Definition zoom {T U A} (get : T -> U) (set : U -> T -> T) (m : M U A) : M T A :=
  fun s =>
    let '(r, s') := m (mkCtx (cx_f s) (cx_q s) (get (cx_out s))) in
    (r, mkCtx (cx_f s') (cx_q s') (set (cx_out s') (cx_out s))).

Fixpoint for_each {T A B} (body : A -> B -> M T B) (l : list A) (acc : B) : M T B :=
  match l with
  | [] => ret acc
  | x :: l' => acc' <- body x acc ;; for_each body l' acc'
  end.

(** ** Stream reads.  A short read sets the fail bit of the stream. *)

Definition read_u8 {T} : M T Z :=
  fun s =>
    match cx_f s with
    | b :: rest => (Ok (byte_val b), mkCtx rest (cx_q s) (cx_out s))
    | _ => (Fail, mkCtx [] (cx_q s) (cx_out s))
    end.

Definition read_i32 {T} : M T Z :=
  fun s =>
    match cx_f s with
    | b0 :: b1 :: b2 :: b3 :: rest =>
        (Ok (le_i32 b0 b1 b2 b3), mkCtx rest (cx_q s) (cx_out s))
    | _ => (Fail, mkCtx [] (cx_q s) (cx_out s))
    end.

Definition read_bytes {T} (n : Z) : M T (list byte) :=
  fun s =>
    if Z.of_nat (length (cx_f s)) <? n
    then (Fail, mkCtx [] (cx_q s) (cx_out s))
    else (Ok (take (Z.to_nat n) (cx_f s)),
          mkCtx (drop (Z.to_nat n) (cx_f s)) (cx_q s) (cx_out s)).

Definition read_float_array {T} : M T (list float) :=
  size <- read_i32 ;;
  guard (0 <=? size) ;;
  bs <- read_bytes (4 * to_size_t size) ;;
  ret (floats_of_bytes bs).

(** [f.peek(); f.eof()] *)
Definition at_eof {T} : M T bool :=
  fun s => (Ok (match cx_f s with [] => true | _ => false end), s).

(** ** Device operations lifted to the monad *)

(** [sycl_alloc(q, &field, count)]: the field is overwritten in every case. *)
Definition alloc {T} (dev : SyclDevice) (t : elt) (count : Z) (store : Z -> T -> T)
  : M T unit :=
  fun s =>
    let '(p, h) := sycl_alloc dev t count (cx_q s) in
    (if p =? nullptr then Fail else Ok tt, mkCtx (cx_f s) h (store p (cx_out s))).

Definition upload {T} (dst : T -> Z) (src : buffer) : M T unit :=
  fun s =>
    let '(ok, h) := sycl_copy_to_device (dst (cx_out s)) src (cx_q s) in
    (if ok then Ok tt else Fail, mkCtx (cx_f s) h (cx_out s)).

Definition len {A} (l : list A) : Z := Z.of_nat (length l).

(** ** Layer records *)

Definition load_conv (dev : SyclDevice) : M Conv.t unit :=
  inC <- read_i32 ;;
  outC <- read_i32 ;;
  k <- read_i32 ;;
  guard (negb ((inC <=? 0) || (outC <=? 0) || (negb (k =? 1) && negb (k =? 3)))) ;;
  modify (Conv.set_dims inC outC k) ;;
  w <- read_float_array ;;
  b <- read_float_array ;;
  let expected := wrap64 (outC * inC * k * k) in
  guard (len w =? expected) ;;
  guard (len b =? outC) ;;
  modify (Conv.set_params (wrap64 (len w + len b))) ;;
  alloc dev EltFloat (len w) Conv.set_d_w ;;
  alloc dev EltFloat (len b) Conv.set_d_b ;;
  upload Conv.d_w (FloatBuf w) ;;
  upload Conv.d_b (FloatBuf b).

Definition load_dense (dev : SyclDevice) (expectedOut : Z) : M Dense.t unit :=
  inD <- read_i32 ;;
  outD <- read_i32 ;;
  guard (negb ((inD <=? 0) || (outD <=? 0) || negb (outD =? expectedOut))) ;;
  modify (Dense.set_dims inD outD) ;;
  w <- read_float_array ;;
  b <- read_float_array ;;
  let expected := wrap64 (outD * inD) in
  guard (len w =? expected) ;;
  guard (len b =? outD) ;;
  modify (Dense.set_params (wrap64 (len w + len b))) ;;
  alloc dev EltFloat (len w) Dense.set_d_w ;;
  alloc dev EltFloat (len b) Dense.set_d_b ;;
  upload Dense.d_w (FloatBuf w) ;;
  upload Dense.d_b (FloatBuf b).

(** [load_se]: the result carries the out-parameters [present] and
    [maxHidden]. *)
Definition load_se (dev : SyclDevice) (channels maxHidden : Z) : M Se.t (bool * Z) :=
  p <- read_u8 ;;
  if p =? 0 then ret (false, maxHidden)
  else
    hidden <- read_i32 ;;
    expectedChannels <- read_i32 ;;
    guard (expectedChannels =? channels) ;;
    w1 <- read_float_array ;;
    b1 <- read_float_array ;;
    w2 <- read_float_array ;;
    b2 <- read_float_array ;;
    modify (Se.set_dims channels hidden (wrap64 (len w1 + len b1 + len w2 + len b2))) ;;
    let maxHidden' := Z.max maxHidden hidden in
    alloc dev EltFloat (len w1) Se.set_d_w1 ;;
    alloc dev EltFloat (len b1) Se.set_d_b1 ;;
    alloc dev EltFloat (len w2) Se.set_d_w2 ;;
    alloc dev EltFloat (len b2) Se.set_d_b2 ;;
    upload Se.d_w1 (FloatBuf w1) ;;
    upload Se.d_b1 (FloatBuf b1) ;;
    upload Se.d_w2 (FloatBuf w2) ;;
    upload Se.d_b2 (FloatBuf b2) ;;
    ret (true, maxHidden').

(* ================================================================== *)
(** * Life cycle *)

Definition freeConv (c : Conv.t) (h : DeviceMem) : DeviceMem :=
  sycl_free (Conv.d_b c) (sycl_free (Conv.d_w c) h).

Definition freeDense (d : Dense.t) (h : DeviceMem) : DeviceMem :=
  sycl_free (Dense.d_b d) (sycl_free (Dense.d_w d) h).

Definition freeSe (s : Se.t) (h : DeviceMem) : DeviceMem :=
  sycl_free (Se.d_b2 s) (sycl_free (Se.d_w2 s) (sycl_free (Se.d_b1 s) (sycl_free (Se.d_w1 s) h))).

Definition freeBlock (b : ResidualBlock) (h : DeviceMem) : DeviceMem :=
  let h := freeConv (conv1 b) h in
  let h := freeConv (conv2 b) h in
  if hasSe b then freeSe (se b) h else h.

(** [destroy_net] on a non-null network. *)
Definition destroy_net (net : SyclNet) (h : DeviceMem) : DeviceMem :=
  let h := freeConv (inputLayer net) h in
  let h := foldl (fun h b => freeBlock b h) h (tower net) in
  let h := freeConv (policyStem net) h in
  let h := freeConv (policyOut net) h in
  let h := freeConv (valueConv net) h in
  let h := freeDense (valueFc1 net) h in
  let h := freeDense (valueFc2 net) h in
  let h := sycl_free (d_policyMap net) h in
  let h := sycl_free (d_policyMapped net) h in
  let h := sycl_free (d_in net) h in
  let h := sycl_free (d_cur net) h in
  let h := sycl_free (d_next net) h in
  let h := sycl_free (d_tmp net) h in
  let h := sycl_free (d_scratch net) h in
  let h := sycl_free (d_policyHidden net) h in
  let h := sycl_free (d_policyPlanes net) h in
  let h := sycl_free (d_valueInput net) h in
  let h := sycl_free (d_fc1 net) h in
  let h := sycl_free (d_logits net) h in
  let h := sycl_free (d_sePooled net) h in
  let h := sycl_free (d_seHidden net) h in
  sycl_free (d_seGates net) h.

(** [std::vector] refuses a length above [max_size()] with
    [std::length_error]; on the LP64 targets of the backend [max_size()] is
    [PTRDIFF_MAX / sizeof(T)].  Host allocations below that bound are taken
    to succeed. *)
Definition vector_max_size (elem_size : Z) : Z := (2 ^ 63 - 1) / elem_size.
Definition sizeof_ResidualBlock : Z := 136.
Definition sizeof_int32 : Z := 4.

Definition tower_at (n : SyclNet) (i : Z) : ResidualBlock :=
  default block_init (tower n !! Z.to_nat i).

Definition update_block (i : Z) (g : ResidualBlock -> ResidualBlock) (n : SyclNet)
  : SyclNet :=
  set_tower (alter g (Z.to_nat i) (tower n)) n.

(** The tag 'L' 'C' '0' 'J'. *)
Definition magic_ok (magic : list byte) : bool :=
  match magic with
  | [m0; m1; m2; m3] =>
      Byte.eqb m0 Byte.x4c && Byte.eqb m1 Byte.x43
      && Byte.eqb m2 Byte.x30 && Byte.eqb m3 Byte.x4a
  | _ => false
  end.

(** Magic, version and the eight header fields (lines 664-683). *)
Definition read_prelude : M unit Header :=
  magic <- read_bytes 4 ;;
  guard (magic_ok magic) ;;
  version <- read_i32 ;;
  guard (version =? 1) ;;
  inputC <- read_i32 ;;
  trunkC <- read_i32 ;;
  blocks <- read_i32 ;;
  policyC <- read_i32 ;;
  valueC <- read_i32 ;;
  valueHidden <- read_i32 ;;
  policyMapLen <- read_i32 ;;
  wdlOutputs <- read_i32 ;;
  guard (wdlOutputs =? 3) ;;
  ret (mkHeader inputC trunkC blocks policyC valueC valueHidden policyMapLen wdlOutputs).

(** One iteration of the tower loop (lines 700-707). *)
Definition load_block (dev : SyclDevice) (i : Z) (maxHidden : Z) : M SyclNet Z :=
  zoom (fun n => conv1 (tower_at n i)) (fun c => update_block i (set_conv1 c))
       (load_conv dev) ;;
  zoom (fun n => conv2 (tower_at n i)) (fun c => update_block i (set_conv2 c))
       (load_conv dev) ;;
  n <- get_out ;;
  modify (add_params (wrap64 (Conv.params (conv1 (tower_at n i))
                              + Conv.params (conv2 (tower_at n i))))) ;;
  r <- zoom (fun n => se (tower_at n i)) (fun s => update_block i (set_se s))
            (load_se dev (Conv.outC (conv2 (tower_at n i))) maxHidden) ;;
  modify (update_block i (set_hasSe (fst r))) ;;
  n' <- get_out ;;
  (if fst r then modify (add_params (Se.params (se (tower_at n' i)))) else ret tt) ;;
  ret (snd r).

(** The input layer (lines 694-695). *)
Definition load_input (dev : SyclDevice) : M SyclNet unit :=
  zoom inputLayer set_inputLayer (load_conv dev) ;;
  n <- get_out ;;
  modify (add_params (Conv.params (inputLayer n))).

(** [net->tower.resize(blocks)] (line 697). *)
Definition resize_tower (hd : Header) : M SyclNet unit :=
  raise_if (vector_max_size sizeof_ResidualBlock <? to_size_t (h_blocks hd)) ;;
  modify (set_tower (replicate (Z.to_nat (to_size_t (h_blocks hd))) block_init)).

(** The tower loop (lines 698-709). *)
Definition load_tower (dev : SyclDevice) (hd : Header) : M SyclNet unit :=
  maxHidden <- for_each (load_block dev) (seqZ 0 (h_blocks hd)) 0 ;;
  modify (set_seMaxHidden maxHidden).

(** Policy and value heads (lines 711-720). *)
Definition load_heads (dev : SyclDevice) (hd : Header) : M SyclNet unit :=
  zoom policyStem set_policyStem (load_conv dev) ;;
  zoom policyOut set_policyOut (load_conv dev) ;;
  zoom valueConv set_valueConv (load_conv dev) ;;
  n <- get_out ;;
  guard (Conv.outC (policyOut n) =? h_policyC hd) ;;
  guard (Conv.outC (valueConv n) =? h_valueC hd) ;;
  modify (add_params (wrap64 (Conv.params (policyStem n) + Conv.params (policyOut n)
                              + Conv.params (valueConv n)))) ;;
  zoom valueFc1 set_valueFc1 (load_dense dev (h_valueHidden hd)) ;;
  zoom valueFc2 set_valueFc2 (load_dense dev 3) ;;
  n <- get_out ;;
  modify (add_params (wrap64 (Dense.params (valueFc1 n) + Dense.params (valueFc2 n)))).

(** Policy map and end-of-stream check (lines 722-736). *)
Definition load_policy_map (dev : SyclDevice) (hd : Header) : M SyclNet unit :=
  mapEntries <- read_i32 ;;
  guard (mapEntries =? h_policyMapLen hd) ;;
  raise_if (vector_max_size sizeof_int32 <? to_size_t mapEntries) ;;
  bs <- read_bytes (sizeof_int32 * to_size_t mapEntries) ;;
  alloc dev EltInt (to_size_t mapEntries) set_d_policyMap ;;
  upload d_policyMap (IntBuf (ints_of_bytes bs)) ;;
  eof <- at_eof ;;
  guard eof.

Definition load_layers (dev : SyclDevice) (hd : Header) : M SyclNet unit :=
  load_input dev ;;
  resize_tower hd ;;
  load_tower dev hd ;;
  load_heads dev hd ;;
  load_policy_map dev hd.

(** Workspace allocations (lines 739-757). *)
Definition alloc_workspace (dev : SyclDevice) (hd : Header) : M SyclNet unit :=
  let trunk := to_size_t (to_size_t (h_trunkC hd) * 64) in
  alloc dev EltFloat (to_size_t (to_size_t (h_inputC hd) * 64)) set_d_in ;;
  alloc dev EltFloat trunk set_d_cur ;;
  alloc dev EltFloat trunk set_d_next ;;
  alloc dev EltFloat trunk set_d_tmp ;;
  alloc dev EltFloat trunk set_d_scratch ;;
  alloc dev EltFloat trunk set_d_policyHidden ;;
  alloc dev EltFloat (to_size_t (to_size_t (h_policyC hd) * 64)) set_d_policyPlanes ;;
  alloc dev EltFloat (to_size_t (to_size_t (h_valueC hd) * 64)) set_d_valueInput ;;
  alloc dev EltFloat (to_size_t (h_valueHidden hd)) set_d_fc1 ;;
  alloc dev EltFloat 3 set_d_logits ;;
  alloc dev EltFloat (to_size_t (h_trunkC hd)) set_d_sePooled ;;
  n <- get_out ;;
  (if 0 <? seMaxHidden n
   then alloc dev EltFloat (to_size_t (seMaxHidden n)) set_d_seHidden
   else alloc dev EltFloat 1 set_d_seHidden) ;;
  alloc dev EltFloat (to_size_t (int_mul 2 (h_trunkC hd))) set_d_seGates ;;
  n <- get_out ;;
  alloc dev EltFloat (to_size_t (policySize n)) set_d_policyMapped.

Definition load_net (dev : SyclDevice) (hd : Header) : M SyclNet unit :=
  load_layers dev hd ;;
  alloc_workspace dev hd.

(** What a call that may raise hands back. *)
Inductive outcome (A : Type) :=
| Returned (a : A)
| Thrown.
Arguments Returned {A} a.
Arguments Thrown {A}.

(** [create_net]; [file] is the content found at the path, [None] when the
    file cannot be opened. *)
Definition create_net (pf : Platform) (file : option (list byte)) (h : DeviceMem)
  : outcome (option SyclNet) * DeviceMem :=
  if device_count pf <=? 0 then (Returned None, h)
  else
    match select_intel_gpu pf with
    | None => (Returned None, h)
    | Some dev =>
        if negb (queue_ctor_ok pf) then (Returned None, h)
        else
          match file with
          | None => (Returned None, h)
          | Some bytes =>
              match read_prelude (mkCtx bytes h tt) with
              | (Ok hd, s) =>
                  match load_net dev hd (mkCtx (cx_f s) (cx_q s) (net_of_header dev hd)) with
                  | (Ok _, s') => (Returned (Some (cx_out s')), cx_q s')
                  | (Fail, s') => (Returned None, destroy_net (cx_out s') (cx_q s'))
                  | (Throw, s') => (Thrown, cx_q s')
                  end
              | (_, s) => (Returned None, cx_q s)
              end
          end
    end.

(** [nativeCreate]: the handle is the network itself, [None] standing for the
    zero handle; [jpath] is [None] for a null string, [utf_ok] tells whether
    [GetStringUTFChars] hands back the characters, and [fs] maps a path to
    the content of the file found there. *)
Definition backend_nativeCreate (pf : Platform) (fs : string -> option (list byte))
    (utf_ok : bool) (jpath : option string) (h : DeviceMem)
  : outcome (option SyclNet) * DeviceMem :=
  match jpath with
  | None => (Returned None, h)
  | Some path =>
      if negb utf_ok then (Returned None, h)
      else create_net pf (fs path) h
  end.

Definition nativeCreate := backend_nativeCreate.

(** [nativeDestroy]: [destroy_net] returns at once on a null handle. *)
Definition nativeDestroy (handle : option SyclNet) (h : DeviceMem) : DeviceMem :=
  match handle with
  | None => h
  | Some net => destroy_net net h
  end.

(** [nativeGetInfo]; [new_array_ok] tells whether [NewLongArray] yields an
    array. *)
Definition nativeGetInfo (new_array_ok : bool) (handle : option SyclNet)
  : option (list Z) :=
  match handle with
  | None => None
  | Some net =>
      let vals := [inputC net; trunkC net; blocks net; policyC net; valueC net;
                   policySize net; paramCount net] in
      if new_array_ok then Some vals else None
  end.

(* ================================================================== *)
(** * SYCL kernels

    A kernel is a [parallel_for] over a one-dimensional range whose work
    items each store at most one float into the output buffer.  The work
    items read the memory as it was when the kernel was submitted: in the
    source no work item reads a location another one writes. *)

Definition parallel_for (total : Z) (out : Z) (item : Z -> option (Z * float))
    (h : DeviceMem) : DeviceMem :=
  match mem h !! out with
  | Some (FloatBuf l) =>
      let step acc tid :=
        match item tid with
        | Some (i, v) => fset acc i v
        | None => acc
        end in
      mem_store out (FloatBuf (foldl step l (seqZ 0 total))) h
  | _ => h
  end.

(** ** 3x3 convolution *)

(** Body of the [kx] loop; the loop header increments [wIdx] also after a
    [continue]. *)
Definition conv3x3_kx (input w : list float) (inRowBase wBase col : Z)
    (st : float * Z) (kx : Z) : float * Z :=
  let '(acc, wIdx) := st in
  let c := int_add col kx in
  if out_of_range c 0 8 then (acc, int_add wIdx 1)
  else (fadd acc (fmul (fget input (int_add inRowBase c)) (fget w (int_add wBase wIdx))),
        int_add wIdx 1).

Definition conv3x3_ky (input w : list float) (inBase wBase row col : Z)
    (st : float * Z) (ky : Z) : float * Z :=
  let '(acc, wIdx) := st in
  let r := int_add row ky in
  if out_of_range r 0 8 then (acc, int_add wIdx 3)
  else
    let inRowBase := int_add inBase (int_shl r 3) in
    foldl (conv3x3_kx input w inRowBase wBase col) (acc, wIdx) [-1; 0; 1].

Definition conv3x3_ic (input w : list float) (ocBase row col : Z)
    (acc : float) (ic : Z) : float :=
  let inBase := int_mul ic 64 in
  let wBase := int_add ocBase (int_mul ic 9) in
  fst (foldl (conv3x3_ky input w inBase wBase row col) (acc, 0) [-1; 0; 1]).

Definition conv3x3_item (input w : list float) (inC outC : Z) (tid : Z)
  : option (Z * float) :=
  let idx := wrap32 tid in
  let oc := int_shr idx 6 in
  let s := int_and idx 63 in
  if outC <=? oc then None
  else
    let row := int_shr s 3 in
    let col := int_and s 7 in
    let ocBase := int_mul (int_mul oc inC) 9 in
    let acc := foldl (conv3x3_ic input w ocBase row col) fzero (seqZ 0 inC) in
    Some (int_add (int_mul oc 64) s, acc).

Definition k_conv3x3_no_bias (input w : Z) (inC outC : Z) (out : Z) (h : DeviceMem)
  : DeviceMem :=
  parallel_for (to_size_t (to_size_t outC * 64)) out
               (conv3x3_item (fbuf h input) (fbuf h w) inC outC) h.

(** ** 1x1 convolution *)

Definition conv1x1_item (input w : list float) (inC outC : Z) (tid : Z)
  : option (Z * float) :=
  let idx := wrap32 tid in
  let oc := int_shr idx 6 in
  let s := int_and idx 63 in
  if outC <=? oc then None
  else
    let ocBase := int_mul oc inC in
    let step acc ic :=
      fadd acc (fmul (fget input (int_add (int_mul ic 64) s))
                     (fget w (int_add ocBase ic))) in
    Some (int_add (int_mul oc 64) s, foldl step fzero (seqZ 0 inC)).

Definition k_conv1x1_no_bias (input w : Z) (inC outC : Z) (out : Z) (h : DeviceMem)
  : DeviceMem :=
  parallel_for (to_size_t (to_size_t outC * 64)) out
               (conv1x1_item (fbuf h input) (fbuf h w) inC outC) h.

(** ** Bias and residual kernels *)

Definition k_add_bias_relu (x b : Z) (channels : Z) (h : DeviceMem) : DeviceMem :=
  let xs := fbuf h x in
  let bs := fbuf h b in
  parallel_for (to_size_t (to_size_t channels * 64)) x
    (fun tid =>
       let idx := wrap32 tid in
       let ch := int_shr idx 6 in
       Some (idx, relu (fadd (fget xs idx) (fget bs ch)))) h.

Definition k_add_bias (x b : Z) (channels : Z) (h : DeviceMem) : DeviceMem :=
  let xs := fbuf h x in
  let bs := fbuf h b in
  parallel_for (to_size_t (to_size_t channels * 64)) x
    (fun tid =>
       let idx := wrap32 tid in
       let ch := int_shr idx 6 in
       Some (idx, fadd (fget xs idx) (fget bs ch))) h.

Definition k_add_residual_relu (convOut bias residual : Z) (channels : Z) (dest : Z)
    (h : DeviceMem) : DeviceMem :=
  let cs := fbuf h convOut in
  let bs := fbuf h bias in
  let rs := fbuf h residual in
  parallel_for (to_size_t (to_size_t channels * 64)) dest
    (fun tid =>
       let idx := wrap32 tid in
       let ch := int_shr idx 6 in
       let v := fadd (fadd (fget cs idx) (fget bs ch)) (fget rs idx) in
       Some (idx, relu v)) h.

(** ** Squeeze-excite *)

(** One round of the reduction tree: every work item [t < stride] adds
    [buf[t + stride]] to [buf[t]], then all meet at the barrier. *)
Definition reduce_round (buf : list float) (stride : Z) : list float :=
  imap (fun t x => if Z.of_nat t <? stride
                   then fadd x (fget buf (int_add (Z.of_nat t) stride))
                   else x) buf.

Definition tree_reduce (buf : list float) : list float :=
  foldl reduce_round buf [32; 16; 8; 4; 2; 1].

(** The work group of channel [ch]: 64 work items sharing [buf]; item 0
    stores the result.  The range has [channels * 64] items in groups of
    64. *)
Definition se_pool_group (convOut bias : list float) (g : Z) : option (Z * float) :=
  let ch := wrap32 g in
  let buf := (fun t => fget convOut (int_add (int_mul ch 64) t)) <$> seqZ 0 64 in
  let buf := tree_reduce buf in
  Some (ch, fadd (fmul (fget buf 0) f64th) (fget bias ch)).

Definition k_se_pool (convOut bias : Z) (channels : Z) (pooled : Z) (h : DeviceMem)
  : DeviceMem :=
  if channels <=? 0 then h
  else parallel_for (to_size_t (to_size_t channels * 64) / 64) pooled
                    (se_pool_group (fbuf h convOut) (fbuf h bias)) h.

(** [acc = b[o]; for (i < n) acc += row[i] * x[i]] with [row = w + o * n]. *)
Definition dot_row (w x : list float) (b0 : float) (o n : Z) : float :=
  let row := to_size_t (to_size_t o * to_size_t n) in
  foldl (fun acc i => fadd acc (fmul (fget w (row + i)) (fget x i))) b0 (seqZ 0 n).

Definition k_se_fc1 (pooled w1 b1 : Z) (channels hidden : Z) (outHidden : Z)
    (h : DeviceMem) : DeviceMem :=
  let ps := fbuf h pooled in
  let ws := fbuf h w1 in
  let bs := fbuf h b1 in
  parallel_for (to_size_t hidden) outHidden
    (fun tid =>
       let hh := wrap32 tid in
       Some (hh, relu (dot_row ws ps (fget bs hh) hh channels))) h.

Definition k_se_fc2 (hiddenVec w2 b2 : Z) (hidden outDim : Z) (gates : Z)
    (h : DeviceMem) : DeviceMem :=
  let hs := fbuf h hiddenVec in
  let ws := fbuf h w2 in
  let bs := fbuf h b2 in
  parallel_for (to_size_t outDim) gates
    (fun tid =>
       let o := wrap32 tid in
       Some (o, dot_row ws hs (fget bs o) o hidden)) h.

Definition se_apply_item (lm : Libm) (convOut bias residual gates : list float)
    (channels : Z) (tid : Z) : option (Z * float) :=
  let idx := wrap32 tid in
  let ch := int_shr idx 6 in
  let gamma := sigmoid lm (fget gates ch) in
  let betaExtra := fget gates (int_add ch channels) in
  let z := fadd (fget convOut idx) (fget bias ch) in
  let v := fadd (fadd (fmul gamma z) (fget residual idx)) betaExtra in
  Some (idx, relu v).

Definition k_se_apply (lm : Libm) (convOut bias residual gates : Z) (channels : Z)
    (dest : Z) (h : DeviceMem) : DeviceMem :=
  parallel_for (to_size_t (to_size_t channels * 64)) dest
    (se_apply_item lm (fbuf h convOut) (fbuf h bias) (fbuf h residual) (fbuf h gates)
                   channels) h.

(** ** Policy map and dense layers *)

Definition policy_map_item (planes : list float) (planesLen : Z) (policyMap : list Z)
    (tid : Z) : option (Z * float) :=
  let i := wrap32 tid in
  let idx := iget policyMap i in
  if (0 <=? idx) && (idx <? planesLen) then Some (i, fget planes idx)
  else Some (i, fzero).

Definition k_policy_map (planes : Z) (planesLen : Z) (policyMap : Z) (outLen : Z)
    (outPolicy : Z) (h : DeviceMem) : DeviceMem :=
  parallel_for (to_size_t outLen) outPolicy
               (policy_map_item (fbuf h planes) planesLen (ibuf h policyMap)) h.

Definition k_dense (x w b : Z) (inD outD : Z) (reluAct : bool) (y : Z) (h : DeviceMem)
  : DeviceMem :=
  let xs := fbuf h x in
  let ws := fbuf h w in
  let bs := fbuf h b in
  parallel_for (to_size_t outD) y
    (fun tid =>
       let o := wrap32 tid in
       let acc := dot_row ws xs (fget bs o) o inD in
       Some (o, if reluAct then relu acc else acc)) h.

Definition launch_conv_no_bias (layer : Conv.t) (input out : Z) (h : DeviceMem)
  : DeviceMem :=
  if Conv.k layer =? 3 then
    k_conv3x3_no_bias input (Conv.d_w layer) (Conv.inC layer) (Conv.outC layer) out h
  else if Conv.k layer =? 1 then
    k_conv1x1_no_bias input (Conv.d_w layer) (Conv.inC layer) (Conv.outC layer) out h
  else h.

(* ================================================================== *)
(** * Forward pass *)

(** The two convolutions of a residual block (lines 543-546); the output of
    [conv2], without its bias, ends in [d_scratch]. *)
Definition block_convs (b : ResidualBlock) (net : SyclNet) (h : DeviceMem) : DeviceMem :=
  let h := launch_conv_no_bias (conv1 b) (d_cur net) (d_tmp net) h in
  let h := k_add_bias_relu (d_tmp net) (Conv.d_b (conv1 b)) (Conv.outC (conv1 b)) h in
  launch_conv_no_bias (conv2 b) (d_tmp net) (d_scratch net) h.

(** Squeeze and first dense stage (lines 550-551). *)
Definition block_se_hidden (b : ResidualBlock) (net : SyclNet) (h : DeviceMem)
  : DeviceMem :=
  let h := k_se_pool (d_scratch net) (Conv.d_b (conv2 b)) (Conv.outC (conv2 b))
                     (d_sePooled net) h in
  k_se_fc1 (d_sePooled net) (Se.d_w1 (se b)) (Se.d_b1 (se b))
           (Conv.outC (conv2 b)) (Se.hidden (se b)) (d_seHidden net) h.

(** Second dense stage (line 552): the gates end in [d_seGates]. *)
Definition block_se_gates (b : ResidualBlock) (net : SyclNet) (h : DeviceMem)
  : DeviceMem :=
  k_se_fc2 (d_seHidden net) (Se.d_w2 (se b)) (Se.d_b2 (se b))
           (Se.hidden (se b)) (int_mul 2 (Conv.outC (conv2 b)))
           (d_seGates net) (block_se_hidden b net h).

(** One iteration of the tower loop of [eval_one] (lines 542-555). *)
Definition run_block (lm : Libm) (b : ResidualBlock) (st : SyclNet * DeviceMem)
  : SyclNet * DeviceMem :=
  let '(net, h) := st in
  let h := block_convs b net h in
  let h :=
    if negb (hasSe b) then
      k_add_residual_relu (d_scratch net) (Conv.d_b (conv2 b)) (d_cur net)
                          (Conv.outC (conv2 b)) (d_next net) h
    else
      k_se_apply lm (d_scratch net) (Conv.d_b (conv2 b)) (d_cur net) (d_seGates net)
                 (Conv.outC (conv2 b)) (d_next net) (block_se_gates b net h) in
  (set_d_next (d_cur net) (set_d_cur (d_next net) net), h).

Definition run_tower (lm : Libm) (st : SyclNet * DeviceMem) : SyclNet * DeviceMem :=
  foldl (fun st bi => run_block lm (tower_at (fst st) bi) st) st
        (seqZ 0 (blocks (fst st))).

(** Input convolution and residual tower (lines 536-556). *)
Definition run_trunk (lm : Libm) (net : SyclNet) (h : DeviceMem) : SyclNet * DeviceMem :=
  let h := launch_conv_no_bias (inputLayer net) (d_in net) (d_cur net) h in
  let h := k_add_bias_relu (d_cur net) (Conv.d_b (inputLayer net))
                           (Conv.outC (inputLayer net)) h in
  run_tower lm (net, h).

(** Policy head up to the policy planes (lines 558-562). *)
Definition run_policy_planes (net : SyclNet) (h : DeviceMem) : DeviceMem :=
  let h := launch_conv_no_bias (policyStem net) (d_cur net) (d_policyHidden net) h in
  let h := k_add_bias_relu (d_policyHidden net) (Conv.d_b (policyStem net))
                           (Conv.outC (policyStem net)) h in
  let h := launch_conv_no_bias (policyOut net) (d_policyHidden net) (d_policyPlanes net) h in
  k_add_bias (d_policyPlanes net) (Conv.d_b (policyOut net))
             (Conv.outC (policyOut net)) h.

(** Policy head up to the mapped policy vector (lines 558-565). *)
Definition run_policy_head (net : SyclNet) (h : DeviceMem) : DeviceMem :=
  k_policy_map (d_policyPlanes net) (int_mul (Conv.outC (policyOut net)) 64)
               (d_policyMap net) (policySize net) (d_policyMapped net)
               (run_policy_planes net h).

(** Value head up to the three logits (lines 568-574). *)
Definition run_value_head (net : SyclNet) (h : DeviceMem) : DeviceMem :=
  let h := launch_conv_no_bias (valueConv net) (d_cur net) (d_valueInput net) h in
  let h := k_add_bias_relu (d_valueInput net) (Conv.d_b (valueConv net))
                           (Conv.outC (valueConv net)) h in
  let h := k_dense (d_valueInput net) (Dense.d_w (valueFc1 net)) (Dense.d_b (valueFc1 net))
                   (Dense.inD (valueFc1 net)) (Dense.outD (valueFc1 net)) true
                   (d_fc1 net) h in
  k_dense (d_fc1 net) (Dense.d_w (valueFc2 net)) (Dense.d_b (valueFc2 net))
          (Dense.inD (valueFc2 net)) (Dense.outD (valueFc2 net)) false
          (d_logits net) h.

(** Host softmax (lines 580-591): the triple written to [outWdlHost] and the
    value [w - l]. *)
Definition softmax3 (lm : Libm) (logitsHost : list float) : list float * float :=
  let l0 := fget logitsHost 0 in
  let l1 := fget logitsHost 1 in
  let l2 := fget logitsHost 2 in
  let m := fmax l0 (fmax l1 l2) in
  let e0 := std_exp lm (fsub l0 m) in
  let e1 := std_exp lm (fsub l1 m) in
  let e2 := std_exp lm (fsub l2 m) in
  let s := fadd (fadd e0 e1) e2 in
  let w := if flt fzero s then fdiv e0 s else fzero in
  let d := if flt fzero s then fdiv e1 s else fzero in
  let l := if flt fzero s then fdiv e2 s else fzero in
  ([w; d; l], fsub w l).

(** What a successful [eval_one] hands back. *)
Record Evaluation := mkEval {
  ev_policy : list float;
  ev_wdl : list float;
  ev_value : float
}.

(** [eval_one] on a non-null network.  The result is [None] where the source
    returns [false]; the network comes back because the tower loop swaps its
    [d_cur] and [d_next]. *)
Definition eval_one (lm : Libm) (net : SyclNet) (encodedHost : list float)
    (h : DeviceMem) : option Evaluation * SyclNet * DeviceMem :=
  if negb (inputC net =? 112) then (None, net, h)
  else
    let count := to_size_t (to_size_t (inputC net) * 64) in
    let '(ok, h) := sycl_copy_to_device (d_in net)
                      (FloatBuf (take (Z.to_nat count) encodedHost)) h in
    if negb ok then (None, net, h)
    else
      let '(net, h) := run_trunk lm net h in
      let h := run_policy_head net h in
      let '(policy, h) := sycl_copy_to_host (d_policyMapped net)
                            (to_size_t (policySize net)) h in
      match policy with
      | None => (None, net, h)
      | Some outPolicyHost =>
          let h := run_value_head net h in
          let '(logits, h) := sycl_copy_to_host (d_logits net) 3 h in
          match logits with
          | None => (None, net, h)
          | Some logitsHost =>
              let '(wdl, value) := softmax3 lm logitsHost in
              (Some (mkEval outPolicyHost wdl value), net, h)
          end
      end.

(* ================================================================== *)
(** * [nativePredict] *)

Inductive jarray := JEncoded | JOutPolicy | JOutWdl.

Inductive JniCall :=
| GetArrayLength (a : jarray)
| GetFloatArrayRegion (a : jarray)
| SetFloatArrayRegion (a : jarray).

(** [SetFloatArrayRegion(arr, 0, n, data)] *)
Definition set_region (arr : list float) (n : Z) (data : list float) : list float :=
  take (Z.to_nat n) data ++ drop (Z.to_nat n) arr.

(** The observable result of a [nativePredict] call: the returned float, the
    two Java output arrays and the network and device memory after the call,
    the JNI functions called in order, and whether the call left through
    its last [return] (the only one that is not [return 0.0f]). *)
Record Predicted := mkPredicted {
  p_value : float;
  p_policyOut : option (list float);
  p_wdlOut : option (list float);
  p_net : option SyclNet;
  p_mem : DeviceMem;
  p_calls : list JniCall;
  p_done : bool
}.

(** A Java array reference is [None] when null. *)
Definition nativePredict (lm : Libm) (handle : option SyclNet)
    (jencoded joutPolicy joutWdl : option (list float)) (h : DeviceMem) : Predicted :=
  let failed net' h' calls :=
    mkPredicted fzero joutPolicy joutWdl net' h' calls false in
  match handle with
  | None => failed None h []
  | Some net =>
      match jencoded, joutPolicy, joutWdl with
      | Some encoded, Some outPolicy, Some outWdl =>
          let encLen := len encoded in
          let polLen := len outPolicy in
          let wdlLen := len outWdl in
          let lens := [GetArrayLength JEncoded; GetArrayLength JOutPolicy;
                       GetArrayLength JOutWdl] in
          if negb (encLen =? int_mul (inputC net) 64) then failed (Some net) h lens
          else if negb (polLen =? policySize net) then failed (Some net) h lens
          else if negb (wdlLen =? 3) then failed (Some net) h lens
          else
            let calls := lens ++ [GetFloatArrayRegion JEncoded] in
            match eval_one lm net encoded h with
            | (None, net', h') => failed (Some net') h' calls
            | (Some ev, net', h') =>
                mkPredicted (ev_value ev)
                  (Some (set_region outPolicy polLen (ev_policy ev)))
                  (Some (set_region outWdl 3 (ev_wdl ev)))
                  (Some net') h'
                  (calls ++ [SetFloatArrayRegion JOutPolicy; SetFloatArrayRegion JOutWdl])
                  true
            end
      | _, _, _ => failed (Some net) h []
      end
  end.

(* ================================================================== *)
(** * Reference definitions

    These follow the words of the specification and are what the theorems
    compare the code with. *)

(** The eight header fields as the format lays them out: eight
    little-endian int32 after the 4-byte magic and the 4-byte version. *)
Definition file_header (bytes : list byte) : option Header :=
  match ints_of_bytes (take 32 (drop 8 bytes)) with
  | [a; b; c; d; e; f; g; i] => Some (mkHeader a b c d e f g i)
  | _ => None
  end.

(** A tower entry that [load_block] has filled. *)
Definition block_loaded (b : ResidualBlock) : Prop :=
  0 < Conv.inC (conv1 b) /\ 0 < Conv.inC (conv2 b).

(** The square [(r, c)] lies on the 8x8 board. *)
Definition on_board (r c : Z) : bool :=
  (0 <=? r) && (r <? 8) && (0 <=? c) && (c <? 8).

(** What the neighbour at offset [(ky, kx)] of square [(row, col)] in input
    channel [ic] contributes to output channel [oc]: the product of the
    input at that neighbour with the weight [w[oc][ic][ky+1][kx+1]], and 0
    when the neighbour is off the board. *)
Definition conv3x3_term (input w : list float) (inC oc row col : Z)
    (ic ky kx : Z) : float :=
  if on_board (row + ky) (col + kx)
  then fmul (fget input (ic * 64 + (row + ky) * 8 + (col + kx)))
            (fget w (((oc * inC + ic) * 3 + (ky + 1)) * 3 + (kx + 1)))
  else fzero.

(** All (channel, offset) triples, channel-major, then [ky], then [kx]. *)
Definition conv3x3_taps (inC : Z) : list (Z * Z * Z) :=
  ic ← seqZ 0 inC; ky ← [-1; 0; 1]; kx ← [-1; 0; 1]; [(ic, ky, kx)].

(** The zero-padded 3x3 convolution sum, accumulated in binary32 in the
    order of [conv3x3_taps]. *)
Definition conv3x3_sum (input w : list float) (inC oc row col : Z) : float :=
  foldl (fun acc '(ic, ky, kx) => fadd acc (conv3x3_term input w inC oc row col ic ky kx))
        fzero (conv3x3_taps inC).

(** A binary32 value whose exponent is not below the least exponent of the
    format; every value read from a file or produced by the arithmetic is
    one. *)
Definition emin_ok (x : float) : Prop :=
  match x with
  | S754_finite _ _ e => -149 <= e
  | _ => True
  end.

(** The squeeze-excite fusion of the specification for one activation. *)
Definition se_fusion (lm : Libm) (gate offset bias convOut residual : float) : float :=
  relu (fadd (fadd (fmul (sigmoid lm gate) (fadd convOut bias)) residual) offset).

(* ================================================================== *)
(** * Sample platform and model files *)

Definition sample_gpu : SyclDevice :=
  mkSyclDevice true "Intel(R) Corporation" true false.

Definition sample_platform : Platform := mkPlatform (Some [sample_gpu]) true.

(** A device with nothing allocated whose operations all succeed. *)
Definition empty_mem : DeviceMem := mkMem ∅ 1 [] [].

(** Stand-ins for the two exponentials; the theorems hold for every
    [Libm]. *)
Definition sample_libm : Libm := mkLibm (fun _ => fone) (fun _ => fone).

Definition one_bits : Z := 1065353216.
Definition half_bits : Z := 1056964608.

Definition array_words (n : Z) (bits : Z) : list Z :=
  n :: replicate (Z.to_nat n) bits.

Definition conv_record (i o k : Z) : list Z :=
  [i; o; k] ++ array_words (o * i * k * k) half_bits ++ array_words o one_bits.

Definition dense_record (i o : Z) : list Z :=
  [i; o] ++ array_words (o * i) half_bits ++ array_words o one_bits.

(** A squeeze-excite record whose four arrays have the given lengths. *)
Definition se_record (hidden channels n_w1 n_b1 n_w2 n_b2 : Z) : list byte :=
  Byte.x01 :: bytes_of_words ([hidden; channels] ++ array_words n_w1 half_bits
                              ++ array_words n_b1 one_bits ++ array_words n_w2 half_bits
                              ++ array_words n_b2 one_bits).

Definition magic_bytes : list byte := [Byte.x4c; Byte.x43; Byte.x30; Byte.x4a].

(** An LC0J file with one trunk channel, one policy and one value channel,
    the given input channel count, tower and policy map. *)
Definition lc0j_file (inputC blocks : Z) (tower_bytes : list byte)
    (policyMapLen mapEntries : Z) (map : list Z) : list byte :=
  magic_bytes
  ++ bytes_of_words ([1; inputC; 1; blocks; 1; 1; 1; policyMapLen; 3]
                     ++ conv_record inputC 1 3)
  ++ tower_bytes
  ++ bytes_of_words (conv_record 1 1 1 ++ conv_record 1 1 1 ++ conv_record 1 1 1
                     ++ dense_record 64 1 ++ dense_record 1 3
                     ++ [mapEntries] ++ map).

(** No tower, a policy map of two entries, the second out of range. *)
Definition plain_file (inputC : Z) : list byte :=
  lc0j_file inputC 0 [] 2 2 [0; 64].

(** One residual block with a well-formed squeeze-excite record
    ([hidden = 2], [channels = 1]). *)
Definition se_file : list byte :=
  lc0j_file 112 1
    (bytes_of_words (conv_record 1 1 3 ++ conv_record 1 1 3) ++ se_record 2 1 2 2 4 2)
    2 2 [0; 64].

(** The same block, but each of the four squeeze-excite arrays holds a single
    float although [hidden = 2] and [channels = 1] call for 2, 2, 4 and 2. *)
Definition bad_se_file : list byte :=
  lc0j_file 112 1
    (bytes_of_words (conv_record 1 1 3 ++ conv_record 1 1 3) ++ se_record 2 1 1 1 1 1)
    2 2 [0; 64].

(** A file whose policy map announces -1 entries, in the header and in front
    of the map. *)
Definition negative_map_file : list byte :=
  lc0j_file 112 0 [] (-1) (-1) [].

Definition zeros (n : Z) : list float := replicate (Z.to_nat n) fzero.

(* ================================================================== *)
(** * Definitions used by the proofs *)

(** [keeps pi m]: running [m] leaves the view [pi] of the object unchanged,
    whatever the result. *)
Definition keeps {T X A} (pi : T -> X) (m : M T A) : Prop :=
  forall s r s', m s = (r, s') -> pi (cx_out s') = pi (cx_out s).

(** The fields that [nativeGetInfo] reports, except the parameter count. *)
Definition info_view (n : SyclNet) : list Z :=
  [inputC n; trunkC n; blocks n; policyC n; valueC n; policySize n].

(** Element type and length of a buffer, and of every live allocation. *)
Definition shape_of (b : buffer) : elt * nat :=
  match b with
  | FloatBuf l => (EltFloat, length l)
  | IntBuf l => (EltInt, length l)
  end.

Definition layout (h : DeviceMem) : gmap Z (elt * nat) := shape_of <$> mem h.

(** [p] is a live allocation of [n] floats. *)
Definition holds_floats (h : DeviceMem) (p : Z) (n : nat) : Prop :=
  layout h !! p = Some (EltFloat, n).

(** [h'] differs from [h] at most in the contents of float buffers. *)
Definition inert (h h' : DeviceMem) : Prop :=
  oracle h' = oracle h /\ layout h' = layout h.

(** A network up to the two pointers that the tower loop swaps. *)
Definition static_view (n : SyclNet) : SyclNet :=
  set_d_next nullptr (set_d_cur nullptr n).

(** The three buffers that the blocking copies of [eval_one] touch. *)
Definition net_ready (net : SyclNet) (h : DeviceMem) : Prop :=
  holds_floats h (d_in net) (Z.to_nat (to_size_t (to_size_t (inputC net) * 64)))
  /\ holds_floats h (d_policyMapped net) (Z.to_nat (to_size_t (policySize net)))
  /\ holds_floats h (d_logits net) 3.

(** The forward pass of the specification, with no room for failure: upload
    the encoded input, run the trunk, the policy head and the value head,
    read the mapped policy and the three logits back, take the softmax. *)
Definition upload_input (net : SyclNet) (encoded : list float) (h : DeviceMem)
  : DeviceMem :=
  mem_store (d_in net)
            (FloatBuf (encoded ++ drop (length encoded) (fbuf h (d_in net)))) h.

Definition forward_pass (lm : Libm) (net : SyclNet) (encoded : list float)
    (h : DeviceMem) : Evaluation * SyclNet * DeviceMem :=
  let '(net1, h1) := run_trunk lm net (upload_input net encoded h) in
  let h2 := run_policy_head net1 h1 in
  let policy := take (Z.to_nat (policySize net1)) (fbuf h2 (d_policyMapped net1)) in
  let h3 := run_value_head net1 h2 in
  let logits := take 3 (fbuf h3 (d_logits net1)) in
  (mkEval policy (softmax3 lm logits).1 (softmax3 lm logits).2, net1, h3).

(** The JNI calls of a [predict] that runs to its end. *)
Definition predict_calls : list JniCall :=
  [GetArrayLength JEncoded; GetArrayLength JOutPolicy; GetArrayLength JOutWdl;
   GetFloatArrayRegion JEncoded; SetFloatArrayRegion JOutPolicy;
   SetFloatArrayRegion JOutWdl].

(** An accumulator of a binary32 sum: never the negative zero, so that adding
    0.0 leaves it as it is. *)
Definition good_acc (x : float) : Prop := emin_ok x /\ x <> S754_zero true.

(** The taps of one kernel row and of one input channel, in order. *)
Definition row_taps (input w : list float) (inC oc row col ic ky : Z) (acc : float)
  : float :=
  foldl (fun a kx => fadd a (conv3x3_term input w inC oc row col ic ky kx)) acc [-1; 0; 1].

Definition channel_taps (input w : list float) (inC oc row col : Z) (acc : float) (ic : Z)
  : float :=
  foldl (fun a ky => row_taps input w inC oc row col ic ky a) acc [-1; 0; 1].

(** The address [p] is none of [ps]. *)
Definition apart (p : Z) (ps : list Z) : Prop := Forall (fun q => p <> q) ps.

(* ================================================================== *)
(** * Definitions used by the further properties *)

(** ** Values of binary32 data

    [scaled x] is the value of a finite [x] times [2 ^ 149]: an integer for
    every binary32 datum, whose least exponent is -149. *)
Definition scaled (x : float) : Z :=
  match x with
  | S754_finite s m e => cond_Zopp s (Zpos m * 2 ^ (e + 149))
  | _ => 0
  end.

(** A finite value that is [+0.0] or positive. *)
Definition nonneg_fin (x : float) : Prop :=
  match x with
  | S754_zero s => s = false
  | S754_finite s _ e => s = false /\ -149 <= e
  | _ => False
  end.

Definition is_finite (x : float) : bool :=
  match x with
  | S754_zero _ | S754_finite _ _ _ => true
  | _ => false
  end.

(** A finite binary32 datum in canonical form, as every finite [float] of the
    source is. *)
Definition finite_logit (x : float) : Prop :=
  is_finite x = true /\ valid_binary 24 128 x = true.

(** Zero, negative or minus infinity. *)
Definition nonpositive (x : float) : Prop :=
  match x with
  | S754_zero _ => True
  | S754_infinity s | S754_finite s _ _ => s = true
  | S754_nan => False
  end.

(** A finite value between 0 and 1. *)
Definition unit_float (x : float) : Prop := nonneg_fin x /\ scaled x <= 2 ^ 149.

(** What the host softmax needs of [std::exp]: [exp(+0.0)] is 1, and the
    exponential of a value that is not positive lies between 0 and 1. *)
Definition exp_spec (lm : Libm) : Prop :=
  std_exp lm (S754_zero false) = fone
  /\ forall x, nonpositive x -> unit_float (std_exp lm x).

(** A stand-in for the exponentials that maps NaN to NaN, as IEEE 754
    asks, and everything else to 1. *)
Definition nan_libm : Libm :=
  let f x := match x with S754_nan => S754_nan | _ => fone end in
  mkLibm f f.

(** ** Device memory as a heap

    The addresses handed out so far lie below [brk], and address 0 is the
    null pointer. *)
Definition heap_ok (h : DeviceMem) : Prop :=
  0 < brk h /\ forall p, brk h <= p -> mem h !! p = None.

(** ** Ownership of device buffers

    The device pointers a network records, layer by layer. *)
Definition conv_ptrs (c : Conv.t) : list Z := [Conv.d_w c; Conv.d_b c].

Definition dense_ptrs (d : Dense.t) : list Z := [Dense.d_w d; Dense.d_b d].

Definition se_ptrs (s : Se.t) : list Z :=
  [Se.d_w1 s; Se.d_b1 s; Se.d_w2 s; Se.d_b2 s].

Definition block_ptrs (b : ResidualBlock) : list Z :=
  conv_ptrs (conv1 b) ++ conv_ptrs (conv2 b)
  ++ (if hasSe b then se_ptrs (se b) else []).

Definition layer_ptrs (n : SyclNet) : list Z :=
  conv_ptrs (inputLayer n) ++ (tower n ≫= block_ptrs)
  ++ conv_ptrs (policyStem n) ++ conv_ptrs (policyOut n) ++ conv_ptrs (valueConv n)
  ++ dense_ptrs (valueFc1 n) ++ dense_ptrs (valueFc2 n) ++ [d_policyMap n].

Definition ws_ptrs (n : SyclNet) : list Z :=
  [d_in n; d_cur n; d_next n; d_tmp n; d_scratch n; d_policyHidden n;
   d_policyPlanes n; d_valueInput n; d_fc1 n; d_logits n; d_sePooled n;
   d_seHidden n; d_seGates n].

(** The pointers that [destroy_net] hands to [sycl_free], in its order
    (lines 617-643)... *)
Definition freed_ptrs (n : SyclNet) : list Z :=
  layer_ptrs n ++ [d_policyMapped n] ++ ws_ptrs n.

(** ... and the same pointers in the order in which [create_net] allocates
    them (lines 694-757). *)
Definition alloc_ptrs (n : SyclNet) : list Z :=
  layer_ptrs n ++ ws_ptrs n ++ [d_policyMapped n].

(** [h'] is [h] after the allocation of the buffers [ps], in this order, and
    nothing else: the buffers are live, every other address is as it was, and
    no invalid [sycl::free] has been added. *)
Definition extends_by (h h' : DeviceMem) (ps : list Z) : Prop :=
  ps = seqZ (brk h) (len ps)
  /\ brk h' = brk h + len ps
  /\ bad_frees h' = bad_frees h
  /\ (forall p, ~ (brk h <= p < brk h') -> mem h' !! p = mem h !! p)
  /\ (forall p, brk h <= p < brk h' -> is_Some (mem h' !! p)).

(** The pairwise sum that a reduction tree computes for slot [t]: with the
    strides of the rounds listed from the last round to the first, the last
    round adds the partial sum of slot [t + s] to the one of slot [t]. *)
Fixpoint tree_sum (x : Z -> float) (strides : list Z) (t : Z) : float :=
  match strides with
  | [] => x t
  | s :: rest => fadd (tree_sum x rest t) (tree_sum x rest (t + s))
  end.

(** The 1x1 convolution as a sum over the input channels, in channel order. *)
Definition conv1x1_sum (input w : list float) (inC oc sq : Z) : float :=
  foldl (fun acc ic => fadd acc (fmul (fget input (ic * 64 + sq)) (fget w (oc * inC + ic))))
        fzero (seqZ 0 inC).

(** A dense row: the bias, then one product per input, in input order. *)
Definition dense_sum (w x : list float) (b0 : float) (o n : Z) : float :=
  foldl (fun acc i => fadd acc (fmul (fget w (o * n + i)) (fget x i))) b0 (seqZ 0 n).

(** An activation that left a ReLU: [+0.0], or a value above zero. *)
Definition rectified (v : float) : Prop := v = fzero \/ flt fzero v = true.

(** The strides of the reduction tree of [k_se_pool], last round first. *)
Definition pool_strides : list Z := [1; 2; 4; 8; 16; 32].

(** The value a dense layer stores for row [o]. *)
Definition dense_out (act : bool) (w x b : list float) (o n : Z) : float :=
  let s := dense_sum w x (fget b o) o n in
  if act then relu s else s.

(** One residual block without a squeeze-excite unit, in a file like
    [se_file]. *)
Definition plain_block_file : list byte :=
  lc0j_file 112 1
    (bytes_of_words (conv_record 1 1 3 ++ conv_record 1 1 3) ++ [Byte.x00])
    2 2 [0; 64].

(** ** What a forward pass may touch *)

(** [h'] is [h] up to the contents of the buffers [W]: nothing was
    allocated or freed, no buffer changed its type or length, and every
    buffer outside [W] is as it was. *)
Definition writes_only (W : list Z) (h h' : DeviceMem) : Prop :=
  brk h' = brk h /\ bad_frees h' = bad_frees h /\ layout h' = layout h
  /\ forall p, p ∉ W -> mem h' !! p = mem h !! p.

(** The buffers that [eval_one] passes to a kernel as its output, or to a
    copy as its destination. *)
Definition scratch_ptrs (n : SyclNet) : list Z := d_policyMapped n :: ws_ptrs n.

(** [n'] is [n], possibly with the two trunk pointers swapped. *)
Definition same_up_to_swap (n n' : SyclNet) : Prop :=
  static_view n' = static_view n
  /\ ((d_cur n' = d_cur n /\ d_next n' = d_next n)
      \/ (d_cur n' = d_next n /\ d_next n' = d_cur n)).

(** Consecutive [predict] calls through one handle, each with its own three
    Java arrays: the results, and the network and device memory after the
    last call. *)
Fixpoint predict_seq (lm : Libm) (handle : option SyclNet) (h : DeviceMem)
    (calls : list (list float * list float * list float))
  : list Predicted * (option SyclNet * DeviceMem) :=
  match calls with
  | [] => ([], (handle, h))
  | (enc, pol, wdl) :: rest =>
      let r := nativePredict lm handle (Some enc) (Some pol) (Some wdl) h in
      let out := predict_seq lm (p_net r) (p_mem r) rest in
      (r :: out.1, out.2)
  end.

(** The arrays [predict] accepts for the network [n]. *)
Definition valid_call (n : SyclNet) (c : list float * list float * list float) : Prop :=
  len c.1.1 = int_mul (inputC n) 64 /\ len c.1.2 = policySize n /\ len c.2 = 3.

(** A network on which [eval_one] cannot fail: the buffers of its three
    blocking copies are live and of the right size, it has the 112 input
    planes that [eval_one] insists on, and no device operation is scheduled
    to fail. *)
Definition usable (n : SyclNet) (h : DeviceMem) : Prop :=
  net_ready n h /\ inputC n = 112 /\ oracle h = [] /\ 0 <= policySize n < 2 ^ 64.

(** ** Rolling back a failed [create] *)

(** A device on which [sycl_alloc] tries to allocate at all. *)
Definition capable (dev : SyclDevice) : bool :=
  usm_device_allocations dev || usm_shared_allocations dev.

Definition all_null (l : list Z) : Prop := Forall (fun p => p = nullptr) l.

(** The pointers [l] of a partly loaded object: the buffers allocated since
    [h], in order, followed by pointers that are still null. *)
Definition tidy (h h' : DeviceMem) (l : list Z) : Prop :=
  exists ps nulls, l = ps ++ nulls /\ extends_by h h' ps /\ all_null nulls.

(** A step that works on the stream and the host object only. *)
Definition host_only {T A} (m : M T A) : Prop :=
  forall s r s', m s = (r, s') -> cx_q s' = cx_q s.

(** A step that schedules no device failure. *)
Definition quiet {T A} (m : M T A) : Prop :=
  forall s r s', oracle (cx_q s) = [] -> m s = (r, s') -> oracle (cx_q s') = [].

(** A step that keeps the pointers [G] null when they are. *)
Definition keeps_null {T A} (G : T -> list Z) (m : M T A) : Prop :=
  forall s r s', all_null (G (cx_out s)) -> m s = (r, s') -> all_null (G (cx_out s')).

(** On a device without scheduled failures, a step that fails has allocated
    nothing and leaves the pointers [G] null. *)
Definition fails_clean {T A} (G : T -> list Z) (m : M T A) : Prop :=
  forall s s',
    oracle (cx_q s) = [] -> 0 < brk (cx_q s) -> all_null (G (cx_out s)) ->
    m s = (Fail, s') ->
    cx_q s' = cx_q s /\ all_null (G (cx_out s')).

(** On a device without scheduled failures, a step that starts with the
    pointers [G] null either returns with exactly the buffers [G] allocated,
    or fails with [G] tidy. *)
Definition local {T A} (G : T -> list Z) (m : M T A) : Prop :=
  forall s r s',
    oracle (cx_q s) = [] -> 0 < brk (cx_q s) -> all_null (G (cx_out s)) ->
    m s = (r, s') ->
    match r with
    | Ok _ => extends_by (cx_q s) (cx_q s') (G (cx_out s')) /\ oracle (cx_q s') = []
    | Fail => tidy (cx_q s) (cx_q s') (G (cx_out s'))
    | Throw => True
    end.

(** [plain_file 112] followed by one more byte. *)
Definition trailing_byte_file : list byte := plain_file 112 ++ [Byte.x00].

(** A step that does not look past what it reads: on a longer stream it
    returns the same result and leaves the extra bytes behind. *)
Definition framed {T A} (m : M T A) : Prop :=
  forall s a s' extra,
    m s = (Ok a, s') ->
    m (mkCtx (cx_f s ++ extra) (cx_q s) (cx_out s))
    = (Ok a, mkCtx (cx_f s' ++ extra) (cx_q s') (cx_out s')).

(** A step that returns only at the end of the stream: it fails when bytes
    follow. *)
Definition rejects_extra {T A} (m : M T A) : Prop :=
  forall s a s' extra,
    extra <> [] -> m s = (Ok a, s') ->
    exists s'', m (mkCtx (cx_f s ++ extra) (cx_q s) (cx_out s)) = (Fail, s'').

(** The output widths of the four head layers whose result leaves the
    device, and the header fields they are checked against. *)
Definition heads_view (n : SyclNet) : list Z :=
  [Conv.outC (policyOut n); Conv.outC (valueConv n);
   Dense.outD (valueFc1 n); Dense.outD (valueFc2 n)].

Definition header_view (n : SyclNet) : list Z :=
  [policyC n; valueC n; valueHidden n; policySize n; policyMapLen n].

(** ** Counting parameters *)

(** The number of floats that the buffers [ps] hold. *)
Definition sum_len (h : DeviceMem) (ps : list Z) : Z :=
  foldr (fun p acc => len (fbuf h p) + acc) 0 ps.

(** [p] is a live buffer of floats. *)
Definition is_float (h : DeviceMem) (p : Z) : Prop :=
  exists l, mem h !! p = Some (FloatBuf l).

(** The buffers [ps] are live float buffers that hold [x] floats in all. *)
Definition tally (h : DeviceMem) (ps : list Z) (x : Z) : Prop :=
  Forall (is_float h) ps /\ sum_len h ps = x.

(** A step that, when it returns, has allocated exactly the buffers [G], all
    of floats, and has added the number of floats they hold to [paramCount],
    an [int64_t]. *)
Definition counts {A} (G : SyclNet -> list Z) (m : M SyclNet A) : Prop :=
  forall s u s',
    m s = (Ok u, s') ->
    extends_by (cx_q s) (cx_q s') (G (cx_out s'))
    /\ exists x, tally (cx_q s') (G (cx_out s')) x
                 /\ wrap64 (paramCount (cx_out s')) = wrap64 (paramCount (cx_out s) + x).

(** The weight and bias buffers of a network, in allocation order. *)
Definition weight_ptrs (n : SyclNet) : list Z :=
  conv_ptrs (inputLayer n) ++ (tower n ≫= block_ptrs)
  ++ conv_ptrs (policyStem n) ++ conv_ptrs (policyOut n) ++ conv_ptrs (valueConv n)
  ++ dense_ptrs (valueFc1 n) ++ dense_ptrs (valueFc2 n).

(** ** Networks whose layers fit the workspace

    [create_net] checks every weight array of a convolution or dense layer
    against the dimensions of its record, and four dimensions against the
    header ([policyOut.outC], [valueConv.outC], [valueFc1.outD],
    [valueFc2.outD]).  It does not check the dimensions below, on which the
    indices of the kernels of [eval_one] rely: outside them a kernel of the
    source reads or stores past the end of a buffer, which is undefined,
    while the model reads [+0.0] and drops the store.  The statements about
    the forward pass are therefore made for networks that meet them. *)

(** A convolution from [i] to [o] channels. *)
Definition conv_shape (c : Conv.t) (i o : Z) : bool :=
  (Conv.inC c =? i) && (Conv.outC c =? o).

(** A squeeze-excite unit on [c] channels whose four arrays on the device
    have the shapes [hidden][c], [hidden], [2*c][hidden] and [2*c] that
    [k_se_fc1] and [k_se_fc2] index (lines 449-475). *)
Definition se_shape (h : DeviceMem) (c : Z) (s : Se.t) : bool :=
  (0 <? Se.hidden s)
  && (len (fbuf h (Se.d_w1 s)) =? Se.hidden s * c)
  && (len (fbuf h (Se.d_b1 s)) =? Se.hidden s)
  && (len (fbuf h (Se.d_w2 s)) =? 2 * c * Se.hidden s)
  && (len (fbuf h (Se.d_b2 s)) =? 2 * c).

(** A residual block on [c] channels: both convolutions read and write
    [c * 64] floats of the trunk buffers (lines 543-555). *)
Definition block_shape (h : DeviceMem) (c : Z) (b : ResidualBlock) : bool :=
  conv_shape (conv1 b) c c && conv_shape (conv2 b) c c
  && (if hasSe b then se_shape h c (se b) else true).

(** Every kernel of [eval_one] stays inside its buffers:
    - the [int] indices [channels * 64] do not overflow;
    - the input layer reads the [inputC * 64] floats of [d_in] and fills the
      [trunkC * 64] floats of [d_cur] (lines 537-538);
    - every block maps [trunkC] channels to [trunkC] channels;
    - the policy stem fills [d_policyHidden] ([trunkC * 64] floats), the last
      policy layer reads it and fills [d_policyPlanes], the value
      convolution reads the trunk and fills [d_valueInput] (lines 558-570);
    - the first dense layer reads the [valueC * 64] floats of
      [d_valueInput], the second the [valueHidden] floats of [d_fc1]
      (lines 572-574). *)
Definition well_shaped (n : SyclNet) (h : DeviceMem) : bool :=
  (trunkC n * 64 <? 2 ^ 31) && (policyC n * 64 <? 2 ^ 31) && (valueC n * 64 <? 2 ^ 31)
  && conv_shape (inputLayer n) (inputC n) (trunkC n)
  && forallb (block_shape h (trunkC n)) (tower n)
  && conv_shape (policyStem n) (trunkC n) (trunkC n)
  && conv_shape (policyOut n) (trunkC n) (policyC n)
  && conv_shape (valueConv n) (trunkC n) (valueC n)
  && (Dense.inD (valueFc1 n) =? valueC n * 64)
  && (Dense.inD (valueFc2 n) =? valueHidden n).

(** ** A file whose value head yields NaN *)

Definition nan_bits : Z := 2143289344.

(** [plain_file 112] with the three biases of the last dense layer set to
    NaN. *)
Definition nan_logit_file : list byte :=
  magic_bytes
  ++ bytes_of_words ([1; 112; 1; 0; 1; 1; 1; 2; 3]
                     ++ conv_record 112 1 3
                     ++ conv_record 1 1 1 ++ conv_record 1 1 1 ++ conv_record 1 1 1
                     ++ dense_record 64 1
                     ++ ([1; 3] ++ array_words 3 half_bits ++ array_words 3 nan_bits)
                     ++ [2; 0; 64]).

(** The three logits that [eval_one] reads back (line 577). *)
Definition logits_of (net : SyclNet) (h : DeviceMem) : list float :=
  take 3 (fbuf h (d_logits net)).

(** ** Exceptions and the rollback *)

(** A step that frees nothing: the buffers that were live are live, the
    addresses handed out since are live too, and no invalid [sycl::free]
    was added. *)
Definition grows (h h' : DeviceMem) : Prop :=
  brk h <= brk h'
  /\ bad_frees h' = bad_frees h
  /\ (forall p, is_Some (mem h !! p) -> is_Some (mem h' !! p))
  /\ (forall p, brk h <= p < brk h' -> is_Some (mem h' !! p)).

Definition frees_nothing {T A} (m : M T A) : Prop :=
  forall s r s', m s = (r, s') -> grows (cx_q s) (cx_q s').

(* ================================================================== *)
(** * Machine integers: basic facts *)

Lemma wrap32_small z : - 2 ^ 31 <= z < 2 ^ 31 -> wrap32 z = z.
Proof. intros Hz. unfold wrap32. rewrite Z.mod_small; lia. Qed.

Lemma wrap32_range z : - 2 ^ 31 <= wrap32 z < 2 ^ 31.
Proof.
  unfold wrap32.
  pose proof (Z.mod_pos_bound (z + 2 ^ 31) (2 ^ 32) ltac:(lia)). lia.
Qed.

Lemma wrap64_small z : - 2 ^ 63 <= z < 2 ^ 63 -> wrap64 z = z.
Proof. intros Hz. unfold wrap64. rewrite Z.mod_small; lia. Qed.

Lemma to_size_t_small z : 0 <= z < 2 ^ 64 -> to_size_t z = z.
Proof. intros Hz. unfold to_size_t. apply Z.mod_small. lia. Qed.

Lemma to_size_t_range z : 0 <= to_size_t z < 2 ^ 64.
Proof. unfold to_size_t. apply Z.mod_pos_bound. lia. Qed.

(** A negative [int] cast to [size_t] lands above every [max_size()]. *)
Lemma to_size_t_negative z : - 2 ^ 31 <= z < 0 -> 2 ^ 64 - 2 ^ 31 <= to_size_t z.
Proof.
  intros Hz. unfold to_size_t.
  replace z with (z + 2 ^ 64 + (-1) * 2 ^ 64) by lia.
  rewrite Z.mod_add by lia. rewrite Z.mod_small; lia.
Qed.

(* ================================================================== *)
(** * The loader monad: inversion and preservation *)

Lemma bind_ok {T A B} (m : M T A) (k : A -> M T B) s b s' :
  bind m k s = (Ok b, s') ->
  exists a s1, m s = (Ok a, s1) /\ k a s1 = (Ok b, s').
Proof.
  unfold bind. destruct (m s) as [[a| |] s1]; intros H; try discriminate.
  eauto.
Qed.

Lemma guard_ok {T} (b : bool) (s : Ctx T) u s' :
  guard b s = (Ok u, s') -> b = true /\ s' = s.
Proof. unfold guard. destruct b; intros H; inversion H; auto. Qed.

Lemma raise_if_ok {T} (b : bool) (s : Ctx T) u s' :
  raise_if b s = (Ok u, s') -> b = false /\ s' = s.
Proof. unfold raise_if. destruct b; intros H; inversion H; auto. Qed.

Lemma read_i32_ok {T} (s : Ctx T) v s' :
  read_i32 s = (Ok v, s') ->
  exists b0 b1 b2 b3,
    cx_f s = b0 :: b1 :: b2 :: b3 :: cx_f s' /\ v = le_i32 b0 b1 b2 b3
    /\ cx_q s' = cx_q s /\ cx_out s' = cx_out s.
Proof.
  unfold read_i32. destruct (cx_f s) as [|b0 [|b1 [|b2 [|b3 rest]]]];
    intros H; inversion H; subst; simpl. eauto 10.
Qed.

Lemma read_bytes_ok {T} n (s : Ctx T) bs s' :
  read_bytes n s = (Ok bs, s') ->
  cx_f s = bs ++ cx_f s' /\ bs = take (Z.to_nat n) (cx_f s)
  /\ cx_q s' = cx_q s /\ cx_out s' = cx_out s.
Proof.
  unfold read_bytes. destruct (_ <? _); intros H; inversion H; subst; simpl.
  rewrite take_drop. auto.
Qed.

Section Keeps.
Context {T X : Type} (pi : T -> X).

Lemma keeps_ret {A} (a : A) : keeps pi (ret a).
Proof. intros s r s' H. inversion H. reflexivity. Qed.

Lemma keeps_bind {A B} (m : M T A) (k : A -> M T B) :
  keeps pi m -> (forall a, keeps pi (k a)) -> keeps pi (bind m k).
Proof.
  intros Hm Hk s r s'. unfold bind.
  destruct (m s) as [[a| |] s1] eqn:E; intros H.
  - rewrite (Hk a _ _ _ H). eapply Hm, E.
  - inversion H; subst. eapply Hm, E.
  - inversion H; subst. eapply Hm, E.
Qed.

Lemma keeps_guard b : keeps pi (guard b).
Proof. intros s r s' H. inversion H. reflexivity. Qed.

Lemma keeps_raise_if b : keeps pi (raise_if b).
Proof. intros s r s' H. inversion H. reflexivity. Qed.

Lemma keeps_get_out : keeps pi get_out.
Proof. intros s r s' H. inversion H. reflexivity. Qed.

Lemma keeps_at_eof : keeps pi at_eof.
Proof. intros s r s' H. inversion H. reflexivity. Qed.

Lemma keeps_read_u8 : keeps pi read_u8.
Proof.
  intros s r s'. unfold read_u8. destruct (cx_f s); intros H; inversion H; reflexivity.
Qed.

Lemma keeps_read_i32 : keeps pi read_i32.
Proof.
  intros s r s'. unfold read_i32.
  destruct (cx_f s) as [|b0 [|b1 [|b2 [|b3 rest]]]]; intros H; inversion H; reflexivity.
Qed.

Lemma keeps_read_bytes n : keeps pi (read_bytes n).
Proof.
  intros s r s'. unfold read_bytes. destruct (_ <? _); intros H; inversion H; reflexivity.
Qed.

Lemma keeps_read_float_array : keeps pi read_float_array.
Proof.
  unfold read_float_array.
  repeat first [ apply keeps_bind; [|intros] | apply keeps_read_i32 | apply keeps_guard
               | apply keeps_read_bytes | apply keeps_ret ].
Qed.

Lemma keeps_modify (g : T -> T) : (forall x, pi (g x) = pi x) -> keeps pi (modify g).
Proof. intros Hg s r s' H. inversion H. simpl. apply Hg. Qed.

Lemma keeps_alloc dev t count (store : Z -> T -> T) :
  (forall p x, pi (store p x) = pi x) -> keeps pi (alloc dev t count store).
Proof.
  intros Hs s r s'. unfold alloc. destruct (sycl_alloc _ _ _ _) as [p h].
  intros H. inversion H. simpl. apply Hs.
Qed.

Lemma keeps_upload (dst : T -> Z) src : keeps pi (upload dst src).
Proof.
  intros s r s'. unfold upload. destruct (sycl_copy_to_device _ _ _) as [ok h].
  intros H. inversion H. reflexivity.
Qed.

Lemma keeps_zoom {U A} (get : T -> U) (set : U -> T -> T) (m : M U A) :
  (forall u x, pi (set u x) = pi x) -> keeps pi (zoom get set m).
Proof.
  intros Hs s r s'. unfold zoom. destruct (m _) as [r1 s1].
  intros H. inversion H. simpl. apply Hs.
Qed.

Lemma keeps_for_each {A B} (body : A -> B -> M T B) l acc :
  (forall x b, keeps pi (body x b)) -> keeps pi (for_each body l acc).
Proof.
  intros Hb. revert acc. induction l as [|x l IH]; intros acc; simpl.
  - apply keeps_ret.
  - apply keeps_bind; [apply Hb | intros; apply IH].
Qed.
End Keeps.

(** Discharges [keeps pi m] for a computation built from the primitives whose
    updates do not touch the view. *)
Ltac keeps_step :=
  first
    [ apply keeps_bind; [|intros]
    | apply keeps_ret | apply keeps_guard | apply keeps_raise_if | apply keeps_get_out
    | apply keeps_at_eof | apply keeps_read_u8 | apply keeps_read_i32
    | apply keeps_read_bytes | apply keeps_read_float_array | apply keeps_upload
    | apply keeps_modify; intros; reflexivity
    | apply keeps_alloc; intros; reflexivity
    | apply keeps_zoom; intros; reflexivity
    | match goal with
      | |- keeps _ (if ?b then _ else _) => destruct b
      end ].

Ltac solve_keeps := repeat keeps_step.

Lemma load_block_keeps_info dev i mh : keeps info_view (load_block dev i mh).
Proof. unfold load_block. solve_keeps. Qed.

Lemma load_layers_keeps_info dev hd : keeps info_view (load_layers dev hd).
Proof.
  unfold load_layers, load_input, resize_tower, load_tower, load_heads, load_policy_map.
  solve_keeps.
  apply keeps_for_each. intros. apply load_block_keeps_info.
Qed.

Lemma alloc_workspace_keeps_info dev hd : keeps info_view (alloc_workspace dev hd).
Proof. unfold alloc_workspace. solve_keeps. Qed.

Lemma load_net_keeps_info dev hd : keeps info_view (load_net dev hd).
Proof.
  unfold load_net. apply keeps_bind; [apply load_layers_keeps_info|].
  intros. apply alloc_workspace_keeps_info.
Qed.

(* ================================================================== *)
(** * The header and the tower after a successful load *)

Lemma modify_ok {T} (g : T -> T) (s : Ctx T) u s' :
  modify g s = (Ok u, s') -> s' = mkCtx (cx_f s) (cx_q s) (g (cx_out s)).
Proof. intros H. inversion H. reflexivity. Qed.

Lemma get_out_ok {T} (s : Ctx T) x s' :
  get_out s = (Ok x, s') -> x = cx_out s /\ s' = s.
Proof. intros H. inversion H. auto. Qed.

Lemma zoom_ok {T U A} (get : T -> U) (set : U -> T -> T) (m : M U A) s a s' :
  zoom get set m s = (Ok a, s') ->
  exists u, m (mkCtx (cx_f s) (cx_q s) (get (cx_out s))) = (Ok a, u)
            /\ s' = mkCtx (cx_f u) (cx_q u) (set (cx_out u) (cx_out s)).
Proof.
  unfold zoom. destruct (m _) as [r u] eqn:E. intros H. inversion H; subst. eauto.
Qed.

Lemma for_each_ok_inv {T A B} (body : A -> B -> M T B) (I : nat -> Ctx T -> Prop) l :
  forall k acc s r s',
    for_each body l acc s = (Ok r, s') ->
    I k s ->
    (forall j x b s1 r1 s2,
        l !! j = Some x -> I (k + j)%nat s1 -> body x b s1 = (Ok r1, s2) ->
        I (S (k + j)) s2) ->
    I (k + length l)%nat s'.
Proof.
  induction l as [|x l IH]; intros k acc s r s' Hrun Hk Hstep; simpl in *.
  - inversion Hrun; subst. rewrite Nat.add_0_r. exact Hk.
  - apply bind_ok in Hrun as (acc' & s1 & Hx & Hrest).
    replace (k + S (length l))%nat with (S k + length l)%nat by lia.
    eapply IH; [exact Hrest | |].
    + specialize (Hstep 0%nat x acc s acc' s1 eq_refl).
      rewrite Nat.add_0_r in Hstep. auto.
    + intros j y b t1 r1 t2 Hj Hi Hb.
      replace (S k + j)%nat with (k + S j)%nat in * by lia.
      eapply Hstep; eauto.
Qed.

(** Every header field comes out of [read_i32]. *)
Lemma le_i32_range b0 b1 b2 b3 : - 2 ^ 31 <= le_i32 b0 b1 b2 b3 < 2 ^ 31.
Proof. apply wrap32_range. Qed.

Lemma read_prelude_ok bytes h hd s :
  read_prelude (mkCtx bytes h tt) = (Ok hd, s) ->
  file_header bytes = Some hd
  /\ cx_q s = h
  /\ - 2 ^ 31 <= h_blocks hd < 2 ^ 31
  /\ - 2 ^ 31 <= h_policyMapLen hd < 2 ^ 31.
Proof.
  unfold read_prelude. intros H.
  apply bind_ok in H as (magic & s0 & Hm & H).
  apply read_bytes_ok in Hm as (Hf0 & Hmagic & Hq0 & _).
  apply bind_ok in H as (u & t & Hg & H). apply guard_ok in Hg as [Hmg ->].
  destruct magic as [|m0 [|m1 [|m2 [|m3 [|? ?]]]]]; try discriminate Hmg.
  repeat match type of H with
         | bind read_i32 _ _ = _ =>
             let v := fresh "v" in let t := fresh "t" in let Hr := fresh "Hr" in
             apply bind_ok in H as (v & t & Hr & H);
             apply read_i32_ok in Hr as (? & ? & ? & ? & ? & ? & ? & _)
         | bind (guard _) _ _ = _ =>
             let Hg := fresh "Hg" in
             apply bind_ok in H as (? & ? & Hg & H); apply guard_ok in Hg as [_ ->]
         end.
  inversion H; subst; clear H. simpl in *.
  repeat match goal with
         | Hx : cx_f ?a = _ :: _, Hy : context [cx_f ?a] |- _ => rewrite Hx in Hy
         end.
  subst bytes. cbn.
  repeat split; try congruence; try apply le_i32_range.
Qed.

Lemma create_net_ok pf bytes h net h' :
  create_net pf (Some bytes) h = (Returned (Some net), h') ->
  exists dev hd s s',
    select_intel_gpu pf = Some dev
    /\ read_prelude (mkCtx bytes h tt) = (Ok hd, s)
    /\ load_net dev hd (mkCtx (cx_f s) (cx_q s) (net_of_header dev hd)) = (Ok tt, s')
    /\ net = cx_out s' /\ h' = cx_q s'.
Proof.
  unfold create_net. intros H.
  destruct (device_count pf <=? 0); [discriminate|].
  destruct (select_intel_gpu pf) as [dev|]; [|discriminate].
  destruct (negb (queue_ctor_ok pf)); [discriminate|].
  destruct (read_prelude _) as [[hd| |] s] eqn:Hp; try discriminate.
  destruct (load_net _ _ _) as [[[]| |] s'] eqn:Hl; inversion H; subst.
  exists dev, hd, s, s'. auto.
Qed.

(** ** The tower *)

Lemma tower_at_update_same i g n :
  tower_at (update_block i g n) i
  = match tower n !! Z.to_nat i with Some b => g b | None => block_init end.
Proof.
  unfold tower_at, update_block. simpl. rewrite list_lookup_alter_eq.
  destruct (tower n !! Z.to_nat i); reflexivity.
Qed.

Lemma tower_at_update_ne i j g n :
  Z.to_nat i <> Z.to_nat j -> tower_at (update_block i g n) j = tower_at n j.
Proof.
  intros Hne. unfold tower_at, update_block. simpl.
  rewrite list_lookup_alter_ne by exact Hne. reflexivity.
Qed.

Lemma tower_length_update i g n :
  length (tower (update_block i g n)) = length (tower n).
Proof. unfold update_block. simpl. apply length_alter. Qed.

Lemma load_conv_ok dev s u s' :
  load_conv dev s = (Ok u, s') -> 0 < Conv.inC (cx_out s').
Proof.
  unfold load_conv. intros H.
  apply bind_ok in H as (inC & s1 & H1 & H).
  apply bind_ok in H as (outC & s2 & H2 & H).
  apply bind_ok in H as (k & s3 & H3 & H).
  apply bind_ok in H as (? & ? & Hg & H). apply guard_ok in Hg as [Hg ->].
  apply bind_ok in H as (? & s4 & Hm & H). apply modify_ok in Hm. subst s4.
  match type of H with
  | ?m ?a = (?r, ?b) =>
      assert (K : Conv.inC (cx_out b) = Conv.inC (cx_out a))
        by (apply (fun kp : keeps Conv.inC m => kp a r b H); solve_keeps)
  end.
  rewrite K. simpl.
  apply negb_true_iff in Hg. apply orb_false_iff in Hg as [Hg _].
  apply orb_false_iff in Hg as [Hg _]. lia.
Qed.

Lemma load_block_keeps_length dev i mh :
  keeps (fun n => length (tower n)) (load_block dev i mh).
Proof.
  unfold load_block.
  repeat first
    [ apply keeps_bind; [|intros]
    | apply keeps_ret | apply keeps_get_out
    | apply keeps_modify; intros; first [reflexivity | apply tower_length_update]
    | apply keeps_zoom; intros; apply tower_length_update
    | match goal with
      | |- keeps _ (if ?b then _ else _) => destruct b
      end ].
Qed.

Lemma load_block_keeps_other dev i j mh :
  Z.to_nat i <> Z.to_nat j ->
  keeps (fun n => tower_at n j) (load_block dev i mh).
Proof.
  intros Hne. unfold load_block.
  repeat first
    [ apply keeps_bind; [|intros]
    | apply keeps_ret | apply keeps_get_out
    | apply keeps_modify; intros; first [reflexivity | apply tower_at_update_ne, Hne]
    | apply keeps_zoom; intros; apply tower_at_update_ne, Hne
    | match goal with
      | |- keeps _ (if ?b then _ else _) => destruct b
      end ].
Qed.

(** [load_block i] fills entry [i] of the tower. *)
Lemma load_block_loads dev i mh s r s' :
  (Z.to_nat i < length (tower (cx_out s)))%nat ->
  load_block dev i mh s = (Ok r, s') ->
  block_loaded (tower_at (cx_out s') i).
Proof.
  intros Hlen. unfold load_block. intros H.
  apply bind_ok in H as (? & s1 & Hz1 & H).
  apply zoom_ok in Hz1 as (u1 & Hc1 & ->). apply load_conv_ok in Hc1.
  apply bind_ok in H as (? & s2 & Hz2 & H).
  apply zoom_ok in Hz2 as (u2 & Hc2 & ->). apply load_conv_ok in Hc2.
  simpl in H.
  destruct (lookup_lt_is_Some_2 _ _ Hlen) as [b0 Hb0].
  set (n2 := update_block i (set_conv2 (cx_out u2))
               (update_block i (set_conv1 (cx_out u1)) (cx_out s))) in *.
  assert (Hn2 : tower_at n2 i
                = set_conv2 (cx_out u2) (set_conv1 (cx_out u1) b0)).
  { unfold n2. rewrite tower_at_update_same.
    unfold update_block at 1. simpl. rewrite list_lookup_alter_eq, Hb0. reflexivity. }
  assert (K : forall c, (c = conv1 \/ c = conv2) ->
                        Conv.inC (c (tower_at (cx_out s') i)) = Conv.inC (c (tower_at n2 i))).
  { intros c Hc.
    match type of H with
    | ?m ?a = (?rr, ?b) =>
        apply (fun kp : keeps (fun n => Conv.inC (c (tower_at n i))) m => kp a rr b H)
    end.
    repeat first
      [ apply keeps_bind; [|intros]
      | apply keeps_ret | apply keeps_get_out
      | apply keeps_modify; intros; first [reflexivity | rewrite tower_at_update_same ]
      | apply keeps_zoom; intros; rewrite tower_at_update_same
      | match goal with
        | |- keeps _ (if ?b then _ else _) => destruct b
        end ];
      unfold tower_at;
      match goal with
      | |- context [tower ?x !! ?j] => destruct (tower x !! j)
      end;
      destruct Hc; subst c; reflexivity. }
  split.
  - rewrite (K conv1) by auto. rewrite Hn2. exact Hc1.
  - rewrite (K conv2) by auto. rewrite Hn2. exact Hc2.
Qed.

Lemma load_tower_ok dev hd s u s' :
  0 <= h_blocks hd ->
  length (tower (cx_out s)) = Z.to_nat (h_blocks hd) ->
  load_tower dev hd s = (Ok u, s') ->
  length (tower (cx_out s')) = Z.to_nat (h_blocks hd)
  /\ Forall block_loaded (tower (cx_out s')).
Proof.
  intros Hb Hlen. unfold load_tower. intros H.
  apply bind_ok in H as (mh & s1 & Hloop & H). apply modify_ok in H. subst s'.
  simpl.
  pose (I := fun (j : nat) (c : Ctx SyclNet) =>
               length (tower (cx_out c)) = Z.to_nat (h_blocks hd)
               /\ forall i, (i < j)%nat -> block_loaded (tower_at (cx_out c) (Z.of_nat i))).
  assert (HI : I (0 + length (seqZ 0 (h_blocks hd)))%nat s1).
  { eapply for_each_ok_inv with (I := I); [exact Hloop | |].
    - split; [exact Hlen | intros; lia].
    - intros j x b t1 r1 t2 Hj [Hl Hld] Hrun. simpl in *.
      apply lookup_seqZ in Hj as [-> Hj].
      split.
      + rewrite <- Hl.
        apply (load_block_keeps_length dev (0 + Z.of_nat j) b t1 (Ok r1) t2 Hrun).
      + intros i Hi. destruct (decide (i = j)) as [->|Hne].
        * eapply load_block_loads; [|exact Hrun]. rewrite Hl. lia.
        * rewrite (load_block_keeps_other dev (0 + Z.of_nat j) (Z.of_nat i) b
                     ltac:(lia) t1 (Ok r1) t2 Hrun).
          apply Hld. lia. }
  destruct HI as [Hl Hld]. split; [exact Hl|].
  apply Forall_lookup. intros i b Hi.
  rewrite length_seqZ in Hld. simpl in Hld.
  specialize (Hld i). unfold tower_at in Hld. rewrite Nat2Z.id, Hi in Hld.
  apply Hld. apply lookup_lt_Some in Hi. lia.
Qed.

Lemma max_size_below_negative_cast elem_size z :
  0 < elem_size -> - 2 ^ 31 <= z < 2 ^ 31 ->
  (vector_max_size elem_size <? to_size_t z) = false -> 0 <= z.
Proof.
  intros He Hz Hcmp. apply Z.ltb_ge in Hcmp.
  destruct (Z.lt_ge_cases z 0) as [Hneg|]; [|assumption].
  pose proof (to_size_t_negative z ltac:(lia)).
  assert (vector_max_size elem_size <= 2 ^ 63 - 1).
  { unfold vector_max_size. apply Z.div_le_upper_bound; nia. }
  lia.
Qed.

Lemma load_layers_tower dev hd s u s' :
  - 2 ^ 31 <= h_blocks hd < 2 ^ 31 ->
  load_layers dev hd s = (Ok u, s') ->
  0 <= h_blocks hd
  /\ length (tower (cx_out s')) = Z.to_nat (h_blocks hd)
  /\ Forall block_loaded (tower (cx_out s')).
Proof.
  intros Hrange. unfold load_layers. intros H.
  apply bind_ok in H as (? & s1 & _ & H).
  apply bind_ok in H as (? & s2 & Hres & H).
  apply bind_ok in H as (? & s3 & Htow & H).
  unfold resize_tower in Hres.
  apply bind_ok in Hres as (? & t & Hr & Hres). apply raise_if_ok in Hr as [Hr ->].
  apply modify_ok in Hres. subst s2.
  apply max_size_below_negative_cast in Hr; [|reflexivity|exact Hrange].
  eapply load_tower_ok in Htow; [|exact Hr|].
  2:{ simpl. rewrite length_replicate, to_size_t_small by lia. reflexivity. }
  match type of H with
  | ?m ?a = (?r, ?b) =>
      assert (K : tower (cx_out b) = tower (cx_out a))
        by (apply (fun kp : keeps tower m => kp a r b H);
            unfold load_heads, load_policy_map; solve_keeps)
  end.
  rewrite K. tauto.
Qed.

Lemma alloc_workspace_keeps_tower dev hd : keeps tower (alloc_workspace dev hd).
Proof. unfold alloc_workspace. solve_keeps. Qed.

(** C9.  After a successful load [getInfo] hands back the seven integers
    [inputC, trunkC, blocks, policyC, valueC, policySize, paramCount] in that
    order; the first five are the header fields of the file, [policySize] is
    the header's [policyMapLen], and [blocks] is the number of tower entries,
    each of which has been filled by the loader. *)
Theorem getInfo_reports_header pf bytes h net h' :
  create_net pf (Some bytes) h = (Returned (Some net), h') ->
  exists hd,
    file_header bytes = Some hd
    /\ nativeGetInfo true (Some net)
       = Some [h_inputC hd; h_trunkC hd; h_blocks hd; h_policyC hd; h_valueC hd;
               h_policyMapLen hd; paramCount net]
    /\ blocks net = len (tower net)
    /\ Forall block_loaded (tower net).
Proof.
  intros Hc. apply create_net_ok in Hc as (dev & hd & s & s' & _ & Hp & Hl & -> & _).
  apply read_prelude_ok in Hp as (Hhd & _ & Hb & _).
  exists hd. split; [exact Hhd|].
  pose proof (load_net_keeps_info dev hd _ _ _ Hl) as Hinfo.
  unfold info_view in Hinfo. simpl in Hinfo. inversion Hinfo as [[H1 H2 H3 H4 H5 H6]].
  unfold load_net in Hl. apply bind_ok in Hl as (? & s1 & Hlay & Hws).
  apply load_layers_tower in Hlay as (Hb0 & Hlen & Hld); [|exact Hb].
  rewrite <- (alloc_workspace_keeps_tower dev hd _ _ _ Hws) in Hlen, Hld.
  split; [|split].
  - simpl. rewrite H1, H2, H3, H4, H5, H6. reflexivity.
  - unfold len. rewrite Hlen, H3. lia.
  - exact Hld.
Qed.

Lemma getInfo_reports_header_witness :
  exists net h',
    create_net sample_platform (Some (plain_file 112)) empty_mem = (Returned (Some net), h')
    /\ exists hd,
         file_header (plain_file 112) = Some hd
         /\ nativeGetInfo true (Some net)
            = Some [h_inputC hd; h_trunkC hd; h_blocks hd; h_policyC hd; h_valueC hd;
                    h_policyMapLen hd; paramCount net]
         /\ blocks net = len (tower net)
         /\ Forall block_loaded (tower net).
Proof.
  eexists _, _. split; [vm_compute; reflexivity|].
  apply (getInfo_reports_header sample_platform (plain_file 112) empty_mem _
           (snd (create_net sample_platform (Some (plain_file 112)) empty_mem))).
  vm_compute. reflexivity.
Defined.

(** C10.  With a null handle, or a null reference for any of the three
    arrays, [predict] returns 0.0, calls no JNI function on any argument,
    leaves both output arrays as they were and does no device work. *)
Theorem predict_null_argument lm handle jencoded joutPolicy joutWdl h :
  handle = None \/ jencoded = None \/ joutPolicy = None \/ joutWdl = None ->
  let r := nativePredict lm handle jencoded joutPolicy joutWdl h in
  p_value r = fzero
  /\ p_calls r = []
  /\ p_policyOut r = joutPolicy
  /\ p_wdlOut r = joutWdl
  /\ p_mem r = h
  /\ p_net r = handle
  /\ p_done r = false.
Proof.
  intros Hnull. unfold nativePredict.
  destruct handle as [net|]; [|simpl; tauto].
  destruct jencoded, joutPolicy, joutWdl; simpl;
    try tauto.
  destruct Hnull as [?|[?|[?|?]]]; discriminate.
Qed.

Lemma predict_null_argument_witness :
  let r := nativePredict sample_libm None (Some (zeros 7168)) None (Some (zeros 3)) empty_mem in
  p_value r = fzero
  /\ p_calls r = []
  /\ p_policyOut r = None
  /\ p_wdlOut r = Some (zeros 3)
  /\ p_mem r = empty_mem
  /\ p_net r = None
  /\ p_done r = false.
Proof.
  apply (predict_null_argument sample_libm None (Some (zeros 7168)) None (Some (zeros 3))
           empty_mem).
  left. reflexivity.
Defined.

(* ================================================================== *)
(** * Kernels are inert

    Kernel launches are not checked by the source: they do not consult the
    oracle, and they change neither the set of allocations nor the length of
    a buffer. *)

Lemma inert_refl h : inert h h.
Proof. split; reflexivity. Qed.

Lemma inert_trans h1 h2 h3 : inert h1 h2 -> inert h2 h3 -> inert h1 h3.
Proof. intros [? ?] [? ?]. split; congruence. Qed.

Lemma length_fset l i v : length (fset l i v) = length l.
Proof. unfold fset. destruct (i <? 0); [reflexivity | apply length_insert]. Qed.

Lemma parallel_for_length (item : Z -> option (Z * float)) tids l :
  length (foldl (fun acc tid => match item tid with
                                | Some (i, v) => fset acc i v
                                | None => acc
                                end) l tids) = length l.
Proof.
  revert l. induction tids as [|t tids IH]; intros l; simpl; [reflexivity|].
  rewrite IH. destruct (item t) as [[i v]|]; [apply length_fset | reflexivity].
Qed.

Lemma parallel_for_inert total out item h : inert h (parallel_for total out item h).
Proof.
  unfold parallel_for. destruct (mem h !! out) as [[l|l]|] eqn:E; try apply inert_refl.
  split; [reflexivity|].
  unfold layout, mem_store. simpl. rewrite fmap_insert. apply insert_id.
  rewrite lookup_fmap, E. simpl. rewrite parallel_for_length. reflexivity.
Qed.

Lemma launch_conv_inert layer input out h :
  inert h (launch_conv_no_bias layer input out h).
Proof.
  unfold launch_conv_no_bias, k_conv3x3_no_bias, k_conv1x1_no_bias.
  repeat case_match; first [apply inert_refl | apply parallel_for_inert].
Qed.

(** Peels the kernels off a composition of launches. *)
Ltac inert_step :=
  first
    [ apply inert_refl
    | eapply inert_trans; [|apply parallel_for_inert]
    | eapply inert_trans; [|apply launch_conv_inert]
    | match goal with
      | |- inert _ (if ?b then _ else _) => destruct b
      end ].

Ltac solve_inert := repeat inert_step.

Lemma run_block_inert lm b st : inert st.2 (run_block lm b st).2.
Proof.
  destruct st as [net h]. unfold run_block. simpl.
  destruct (hasSe b); simpl;
    unfold block_se_gates, block_se_hidden, block_convs,
      k_add_residual_relu, k_se_apply, k_se_fc2, k_se_fc1, k_se_pool,
      k_add_bias_relu;
    solve_inert.
Qed.

Lemma run_tower_inert lm st : inert st.2 (run_tower lm st).2.
Proof.
  unfold run_tower. generalize (seqZ 0 (blocks st.1)). intros l.
  revert st. induction l as [|bi l IH]; intros st; simpl; [apply inert_refl|].
  eapply inert_trans; [apply run_block_inert | apply IH].
Qed.

Lemma run_trunk_inert lm net h : inert h (run_trunk lm net h).2.
Proof.
  unfold run_trunk. eapply inert_trans; [|apply run_tower_inert]. simpl.
  unfold k_add_bias_relu. solve_inert.
Qed.

Lemma run_policy_head_inert net h : inert h (run_policy_head net h).
Proof.
  unfold run_policy_head, run_policy_planes, k_policy_map, k_add_bias, k_add_bias_relu.
  solve_inert.
Qed.

Lemma run_value_head_inert net h : inert h (run_value_head net h).
Proof. unfold run_value_head, k_dense, k_add_bias_relu. solve_inert. Qed.

(** The tower loop only swaps [d_cur] and [d_next]. *)
Lemma run_block_static lm b st : static_view (run_block lm b st).1 = static_view st.1.
Proof. destruct st as [net h]. reflexivity. Qed.

Lemma run_tower_static lm st : static_view (run_tower lm st).1 = static_view st.1.
Proof.
  unfold run_tower. generalize (seqZ 0 (blocks st.1)). intros l.
  revert st. induction l as [|bi l IH]; intros st; simpl; [reflexivity|].
  rewrite IH. apply run_block_static.
Qed.

Lemma run_trunk_static lm net h : static_view (run_trunk lm net h).1 = static_view net.
Proof. unfold run_trunk. rewrite run_tower_static. reflexivity. Qed.

(** ** The blocking copies *)

Lemma next_ok_spec h ok h' :
  next_ok h = (ok, h') ->
  oracle h' = tail (oracle h) /\ mem h' = mem h /\ brk h' = brk h
  /\ bad_frees h' = bad_frees h
  /\ (head (oracle h) = Some false -> ok = false)
  /\ (head (oracle h) <> Some false -> ok = true).
Proof.
  unfold next_ok. destruct (oracle h) as [|b o] eqn:E; intros H; inversion H; subst; simpl.
  - rewrite E. repeat split; auto. discriminate.
  - repeat split; auto; [congruence|]. destruct ok; congruence.
Qed.

Lemma next_ok_reliable h : oracle h = [] -> next_ok h = (true, h).
Proof. unfold next_ok. intros ->. reflexivity. Qed.

Lemma copy_to_device_oracle dst src h ok h' :
  sycl_copy_to_device dst src h = (ok, h') ->
  oracle h' = tail (oracle h) /\ (head (oracle h) = Some false -> ok = false).
Proof.
  unfold sycl_copy_to_device. destruct (next_ok h) as [ok1 h1] eqn:E.
  apply next_ok_spec in E as (Ho & _ & _ & _ & Hf & _).
  intros H. repeat case_match; inversion H; subst; simpl; rewrite ?Ho; split; auto;
    intros Hh; specialize (Hf Hh); subst; discriminate.
Qed.

Lemma copy_to_host_oracle src count h r h' :
  sycl_copy_to_host src count h = (r, h') ->
  oracle h' = tail (oracle h) /\ (head (oracle h) = Some false -> r = None).
Proof.
  unfold sycl_copy_to_host. destruct (next_ok h) as [ok1 h1] eqn:E.
  apply next_ok_spec in E as (Ho & _ & _ & _ & Hf & _).
  intros H. repeat case_match; inversion H; subst; simpl; rewrite ?Ho; split; auto;
    intros Hh; specialize (Hf Hh); subst; discriminate.
Qed.

Lemma holds_floats_mem h p n :
  holds_floats h p n -> exists l, mem h !! p = Some (FloatBuf l) /\ length l = n.
Proof.
  unfold holds_floats, layout. rewrite lookup_fmap.
  destruct (mem h !! p) as [[l|l]|]; simpl; intros H; inversion H. eauto.
Qed.

Lemma holds_floats_inert h h' p n : inert h h' -> holds_floats h p n -> holds_floats h' p n.
Proof. intros [_ Hl]. unfold holds_floats. rewrite Hl. auto. Qed.

Lemma copy_to_device_succeeds dst src h n :
  holds_floats h dst n -> (length src <= n)%nat -> head (oracle h) <> Some false ->
  exists h', sycl_copy_to_device dst (FloatBuf src) h = (true, h')
             /\ oracle h' = tail (oracle h) /\ layout h' = layout h.
Proof.
  intros Hd Hlen Hok. unfold sycl_copy_to_device.
  destruct (next_ok h) as [ok1 h1] eqn:E.
  apply next_ok_spec in E as (Ho & Hm & _ & _ & _ & Ht). rewrite (Ht Hok). simpl.
  apply holds_floats_mem in Hd as (old & Hold & Hn). rewrite Hm, Hold.
  destruct (Nat.leb_spec (length src) (length old)); [|lia].
  eexists. split; [reflexivity|]. split; [exact Ho|].
  unfold layout, mem_store. simpl. rewrite fmap_insert, Hm. apply insert_id.
  rewrite lookup_fmap, Hold. simpl. rewrite length_app, length_drop.
  do 2 f_equal. lia.
Qed.

Lemma copy_to_host_succeeds src count h n :
  holds_floats h src n -> 0 <= count <= Z.of_nat n -> head (oracle h) <> Some false ->
  exists l h', sycl_copy_to_host src count h = (Some l, h')
               /\ l = take (Z.to_nat count) (fbuf h src)
               /\ oracle h' = tail (oracle h) /\ layout h' = layout h
               /\ mem h' = mem h.
Proof.
  intros Hd Hc Hok. unfold sycl_copy_to_host.
  destruct (next_ok h) as [ok1 h1] eqn:E.
  apply next_ok_spec in E as (Ho & Hm & _ & _ & _ & Ht). rewrite (Ht Hok). simpl.
  apply holds_floats_mem in Hd as (l & Hl & Hn). rewrite Hm, Hl.
  destruct (Z.leb_spec 0 count); [|lia].
  destruct (Z.leb_spec count (Z.of_nat (length l))); [|lia]. simpl.
  eexists _, _. split; [reflexivity|]. unfold fbuf. rewrite Hl.
  unfold layout. rewrite Hm. auto.
Qed.

Lemma head_lookup {A} (l : list A) : head l = l !! 0%nat.
Proof. destruct l; reflexivity. Qed.

(** The three blocking copies of [eval_one] are its first three fallible
    device operations; when any of them fails the evaluation fails. *)
Lemma eval_one_copy_failure lm net encoded h k :
  (k < 3)%nat -> oracle h !! k = Some false ->
  (eval_one lm net encoded h).1.1 = None.
Proof.
  intros Hk Hfail. unfold eval_one.
  destruct (negb (inputC net =? 112)); [reflexivity|].
  destruct (sycl_copy_to_device _ _ h) as [ok h1] eqn:E1.
  apply copy_to_device_oracle in E1 as [Ho1 Hf1]. rewrite head_lookup in Hf1.
  destruct ok; [|reflexivity]. simpl.
  destruct k as [|k]; [specialize (Hf1 Hfail); discriminate|].
  destruct (run_trunk lm net h1) as [net1 h2] eqn:E2.
  assert (Ho2 : oracle h2 = tail (oracle h)).
  { rewrite <- Ho1. change h2 with (net1, h2).2. rewrite <- E2. apply run_trunk_inert. }
  destruct (sycl_copy_to_host _ _ (run_policy_head net1 h2)) as [pol h3] eqn:E3.
  apply copy_to_host_oracle in E3 as [Ho3 Hf3].
  rewrite (proj1 (run_policy_head_inert _ _)), Ho2 in Ho3, Hf3.
  rewrite head_lookup, lookup_tail in Hf3.
  destruct pol as [pol|]; [|reflexivity].
  destruct k as [|k]; [specialize (Hf3 Hfail); discriminate|].
  destruct (sycl_copy_to_host _ _ (run_value_head net1 h3)) as [lg h4] eqn:E4.
  apply copy_to_host_oracle in E4 as [Ho4 Hf4].
  rewrite (proj1 (run_value_head_inert _ _)), Ho3 in Hf4.
  rewrite head_lookup, !lookup_tail in Hf4.
  destruct lg as [lg|]; [|reflexivity].
  destruct k as [|k]; [specialize (Hf4 Hfail); discriminate|]. lia.
Qed.

(** C8.  A [predict] call that does not reach its final [return] returns 0.0
    and leaves [policyOut] and [wdlOut] as they were; a null handle, a wrong
    length of any of the three arrays and the failure of any of the three
    blocking device copies each make the call fail. *)
Theorem predict_failure_leaves_outputs lm handle jencoded joutPolicy joutWdl h :
  let r := nativePredict lm handle jencoded joutPolicy joutWdl h in
  (p_done r = false ->
   p_value r = fzero /\ p_policyOut r = joutPolicy /\ p_wdlOut r = joutWdl)
  /\ (handle = None -> p_done r = false)
  /\ (forall net encoded,
        handle = Some net -> jencoded = Some encoded ->
        len encoded <> int_mul (inputC net) 64 -> p_done r = false)
  /\ (forall net outPolicy,
        handle = Some net -> joutPolicy = Some outPolicy ->
        len outPolicy <> policySize net -> p_done r = false)
  /\ (forall outWdl, joutWdl = Some outWdl -> len outWdl <> 3 -> p_done r = false)
  /\ (forall k, (k < 3)%nat -> oracle h !! k = Some false -> p_done r = false).
Proof.
  unfold nativePredict.
  destruct handle as [net|]; [|simpl; repeat split; auto; discriminate].
  destruct jencoded as [enc|], joutPolicy as [pol|], joutWdl as [wdl|];
    try (simpl; repeat split; auto; discriminate).
  destruct (len enc =? int_mul (inputC net) 64) eqn:E1; simpl;
    [|repeat split; auto].
  destruct (len pol =? policySize net) eqn:E2; simpl; [|repeat split; auto].
  destruct (len wdl =? 3) eqn:E3; simpl; [|repeat split; auto].
  destruct (eval_one lm net enc h) as [[[ev|] net'] h'] eqn:Ev; simpl.
  - repeat split; try discriminate.
    + intros n e Hn He Hne. inversion Hn; inversion He; subst. apply Z.eqb_eq in E1. lia.
    + intros n p Hn Hp Hne. inversion Hn; inversion Hp; subst. apply Z.eqb_eq in E2. lia.
    + intros w Hw Hne. inversion Hw; subst. apply Z.eqb_eq in E3. lia.
    + intros k Hk Hf.
      pose proof (eval_one_copy_failure lm net enc h k Hk Hf) as Hnone.
      rewrite Ev in Hnone. discriminate.
  - repeat split; auto.
Qed.

(* ================================================================== *)
(** * The loader on three particular files *)

(** C2.  [load_se] reads the four arrays of a squeeze-excite record without
    comparing their lengths with [hidden] and [channels]: the file
    [bad_se_file], whose record announces [hidden = 2], [channels = 1] and
    carries one float in each array, is loaded, and the device buffers of the
    unit hold one float each where the shapes call for 2, 2, 4 and 2. *)
Theorem load_se_accepts_mismatched_arrays :
  exists net h b,
    create_net sample_platform (Some bad_se_file) empty_mem = (Returned (Some net), h)
    /\ tower net = [b]
    /\ hasSe b = true
    /\ Se.hidden (se b) = 2
    /\ Se.channels (se b) = 1
    /\ len (fbuf h (Se.d_w1 (se b))) = 1
    /\ len (fbuf h (Se.d_b1 (se b))) = 1
    /\ len (fbuf h (Se.d_w2 (se b))) = 1
    /\ len (fbuf h (Se.d_b2 (se b))) = 1.
Proof.
  eexists _, _, _. split; [vm_compute; reflexivity|].
  split; [reflexivity|]. vm_compute. repeat split.
Qed.

(** C3.  On [negative_map_file], whose policy map announces -1 entries,
    [create_net] does not return: the [std::vector] constructor of line 726
    raises [std::length_error], nothing calls [destroy_net], and the twelve
    device buffers of the layers loaded so far stay allocated. *)
Theorem create_net_negative_map_leaks :
  exists h,
    create_net sample_platform (Some negative_map_file) empty_mem = (Thrown, h)
    /\ size (mem h) = 12%nat.
Proof.
  eexists. split; vm_compute; reflexivity.
Qed.

(** The claim C1 fails on a model whose [inputC] is not 112: the file
    [plain_file 1] loads, the three arrays have the lengths [predict] asks
    for, no device operation fails, and still the call returns the 0.0
    sentinel without writing the outputs. *)
Lemma predict_rejects_inputC_1 :
  exists net h,
    create_net sample_platform (Some (plain_file 1)) empty_mem = (Returned (Some net), h)
    /\ oracle h = []
    /\ len (zeros 64) = int_mul (inputC net) 64
    /\ len (zeros 2) = policySize net
    /\ len (zeros 3) = 3
    /\ let r := nativePredict sample_libm (Some net) (Some (zeros 64)) (Some (zeros 2))
                  (Some (zeros 3)) h in
       p_done r = false /\ p_value r = fzero
       /\ p_policyOut r = Some (zeros 2) /\ p_wdlOut r = Some (zeros 3).
Proof.
  eexists _, _. split; [vm_compute; reflexivity|].
  vm_compute. repeat split.
Qed.

(* ================================================================== *)
(** * The workspace of a loaded network *)

Lemma sycl_alloc_ok dev t count h p h' :
  sycl_alloc dev t count h = (p, h') -> p <> nullptr ->
  p = brk h
  /\ mem h' = <[brk h := fresh_buffer t count]> (mem h)
  /\ brk h' = brk h + 1.
Proof.
  unfold sycl_alloc, usm_malloc.
  destruct (next_ok h) as [ok h1] eqn:E.
  apply next_ok_spec in E as (_ & Hm & Hb & _).
  intros H Hp.
  destruct (usm_device_allocations dev); [|destruct (usm_shared_allocations dev)];
    try destruct ok; inversion H; subst; try congruence;
    simpl; rewrite Hm, Hb; auto.
Qed.

Lemma alloc_ok {T} dev t count (store : Z -> T -> T) s u s' :
  alloc dev t count store s = (Ok u, s') ->
  cx_out s' = store (brk (cx_q s)) (cx_out s)
  /\ mem (cx_q s') = <[brk (cx_q s) := fresh_buffer t count]> (mem (cx_q s))
  /\ brk (cx_q s') = brk (cx_q s) + 1.
Proof.
  unfold alloc. destruct (sycl_alloc _ _ _ _) as [p h1] eqn:E.
  destruct (p =? nullptr) eqn:Hp; intros H; inversion H; subst; simpl.
  apply Z.eqb_neq in Hp. apply sycl_alloc_ok in E as (-> & ? & ?); auto.
Qed.

Lemma alloc_workspace_ready dev hd s u s' :
  alloc_workspace dev hd s = (Ok u, s') ->
  let n := cx_out s' in
  holds_floats (cx_q s') (d_in n) (Z.to_nat (to_size_t (to_size_t (h_inputC hd) * 64)))
  /\ holds_floats (cx_q s') (d_policyMapped n)
                  (Z.to_nat (to_size_t (policySize (cx_out s))))
  /\ holds_floats (cx_q s') (d_logits n) 3.
Proof.
  unfold alloc_workspace. intros H.
  repeat match type of H with
         | bind (alloc _ _ _ _) _ _ = _ =>
             let t := fresh "t" in let Ha := fresh "Ha" in
             apply bind_ok in H as (? & t & Ha & H);
             apply alloc_ok in Ha as (? & ? & ?)
         | bind get_out _ _ = _ =>
             let Hg := fresh "Hg" in
             apply bind_ok in H as (? & ? & Hg & H);
             apply get_out_ok in Hg as [-> ->]
         | bind (if ?b then _ else _) _ _ = _ => destruct b
         end.
  all: apply alloc_ok in H as (Hout & Hmem & Hbrk).
  all: repeat match goal with
              | c : Ctx SyclNet |- _ => destruct c as [? ? ?]
              end; simpl in *; subst.
  all: unfold holds_floats, layout; rewrite !lookup_fmap.
  all: cbn [d_in d_policyMapped d_logits ws set_d_policyMapped set_d_seGates set_d_seHidden
              set_d_sePooled set_d_logits set_d_fc1 set_d_valueInput set_d_policyPlanes
              set_d_policyHidden set_d_scratch set_d_tmp set_d_next set_d_cur set_d_in
              set_ws w_in w_logits set_w_in set_w_cur set_w_next set_w_tmp set_w_scratch
              set_w_policyHidden set_w_policyPlanes set_w_valueInput set_w_fc1 set_w_logits
              set_w_sePooled set_w_seHidden set_w_seGates policySize].
  all: repeat match goal with
              | Hx : mem ?a = _ |- context [mem ?a] => rewrite Hx
              end.
  all: repeat split.
  all: repeat (rewrite lookup_insert_ne by lia).
  all: rewrite lookup_insert_eq; simpl; rewrite ?length_replicate; reflexivity.
Qed.

Lemma create_net_ready pf bytes h0 net h :
  create_net pf (Some bytes) h0 = (Returned (Some net), h) -> net_ready net h.
Proof.
  intros Hc. apply create_net_ok in Hc as (dev & hd & s & s' & _ & _ & Hl & -> & ->).
  pose proof (load_net_keeps_info dev hd _ _ _ Hl) as Hinfo.
  unfold info_view in Hinfo. simpl in Hinfo. inversion Hinfo as [[H1 H2 H3 H4 H5 H6]].
  unfold load_net in Hl. apply bind_ok in Hl as (? & s1 & Hlay & Hws).
  pose proof (load_layers_keeps_info dev hd _ _ _ Hlay) as Hinfo1.
  unfold info_view in Hinfo1. simpl in Hinfo1. inversion Hinfo1 as [[H1' H2' H3' H4' H5' H6']].
  apply alloc_workspace_ready in Hws. unfold net_ready.
  rewrite H1, H6, <- H6'. exact Hws.
Qed.

(** ** [eval_one] on a ready network *)

Lemma static_policySize n n' : static_view n' = static_view n -> policySize n' = policySize n.
Proof. intros H. change (policySize (static_view n') = policySize (static_view n)). now rewrite H. Qed.

Lemma static_d_policyMapped n n' :
  static_view n' = static_view n -> d_policyMapped n' = d_policyMapped n.
Proof.
  intros H. change (d_policyMapped (static_view n') = d_policyMapped (static_view n)).
  now rewrite H.
Qed.

Lemma static_d_logits n n' : static_view n' = static_view n -> d_logits n' = d_logits n.
Proof.
  intros H. change (d_logits (static_view n') = d_logits (static_view n)). now rewrite H.
Qed.

(** Without a failing copy, [eval_one] succeeds on a ready network with 112
    input planes. *)
Lemma eval_one_succeeds lm net encoded h :
  net_ready net h -> inputC net = 112 -> len encoded = 7168 ->
  (forall k, (k < 3)%nat -> oracle h !! k <> Some false) ->
  exists ev net' h', eval_one lm net encoded h = (Some ev, net', h').
Proof.
  intros (Hin & Hpm & Hlg) HC Hlen Hok. unfold eval_one.
  rewrite HC in *. change (negb (112 =? 112)) with false. cbv iota.
  change (to_size_t (to_size_t 112 * 64)) with 7168 in *.
  destruct (copy_to_device_succeeds (d_in net) (take (Z.to_nat 7168) encoded) h _ Hin)
    as (h1 & -> & Ho1 & Hl1).
  { rewrite length_take. lia. }
  { rewrite head_lookup. apply Hok. lia. }
  cbv iota. simpl negb. cbv iota.
  destruct (run_trunk lm net h1) as [net1 h2] eqn:E2.
  pose proof (run_trunk_inert lm net h1) as I2. rewrite E2 in I2. simpl in I2.
  pose proof (run_trunk_static lm net h1) as S2. rewrite E2 in S2. simpl in S2.
  pose proof (run_policy_head_inert net1 h2) as I3.
  assert (I13 : inert h1 (run_policy_head net1 h2)) by (eapply inert_trans; eauto).
  assert (Hpm3 : holds_floats (run_policy_head net1 h2) (d_policyMapped net1)
                   (Z.to_nat (to_size_t (policySize net1)))).
  { rewrite (static_d_policyMapped _ _ S2), (static_policySize _ _ S2).
    eapply holds_floats_inert; [exact I13|]. unfold holds_floats. rewrite Hl1. exact Hpm. }
  destruct (copy_to_host_succeeds _ (to_size_t (policySize net1)) _ _ Hpm3)
    as (pol & h3 & -> & _ & Ho3 & Hl3 & _).
  { pose proof (to_size_t_range (policySize net1)). lia. }
  { rewrite (proj1 I13), Ho1, head_lookup, lookup_tail. apply Hok. lia. }
  pose proof (run_value_head_inert net1 h3) as I4.
  assert (Hlg4 : holds_floats (run_value_head net1 h3) (d_logits net1) 3).
  { rewrite (static_d_logits _ _ S2).
    eapply holds_floats_inert; [exact I4|]. unfold holds_floats.
    rewrite Hl3, (proj2 I13), Hl1. exact Hlg. }
  destruct (copy_to_host_succeeds _ 3 _ _ Hlg4) as (lg & h4 & -> & _ & _).
  { lia. }
  { rewrite (proj1 I4), Ho3, (proj1 I13), Ho1, head_lookup, !lookup_tail. apply Hok. lia. }
  destruct (softmax3 lm lg) as [wdl v]. eauto.
Qed.

Lemma copy_to_device_reliable dst src h n :
  holds_floats h dst n -> (length src <= n)%nat -> oracle h = [] ->
  sycl_copy_to_device dst (FloatBuf src) h
  = (true, mem_store dst (FloatBuf (src ++ drop (length src) (fbuf h dst))) h).
Proof.
  intros Hd Hlen Hor. unfold sycl_copy_to_device. rewrite (next_ok_reliable h Hor). simpl.
  apply holds_floats_mem in Hd as (old & Hold & Hn). unfold fbuf. rewrite Hold.
  destruct (Nat.leb_spec (length src) (length old)); [reflexivity|lia].
Qed.

Lemma copy_to_host_reliable src count h n :
  holds_floats h src n -> 0 <= count <= Z.of_nat n -> oracle h = [] ->
  sycl_copy_to_host src count h = (Some (take (Z.to_nat count) (fbuf h src)), h).
Proof.
  intros Hd Hc Hor. unfold sycl_copy_to_host. rewrite (next_ok_reliable h Hor). simpl.
  apply holds_floats_mem in Hd as (l & Hl & Hn). unfold fbuf. rewrite Hl.
  destruct (Z.leb_spec 0 count); [|lia].
  destruct (Z.leb_spec count (Z.of_nat (length l))); [reflexivity|lia].
Qed.

(** On a device whose operations all succeed, [eval_one] is the forward
    pass. *)
Lemma eval_one_reliable lm net encoded h :
  net_ready net h -> inputC net = 112 -> len encoded = 7168 ->
  0 <= policySize net < 2 ^ 64 -> oracle h = [] ->
  eval_one lm net encoded h
  = (Some (forward_pass lm net encoded h).1.1, (forward_pass lm net encoded h).1.2,
     (forward_pass lm net encoded h).2).
Proof.
  intros (Hin & Hpm & Hlg) HC Hlen Hps Hor. unfold eval_one, forward_pass.
  rewrite HC in *. change (negb (112 =? 112)) with false. cbv iota.
  change (to_size_t (to_size_t 112 * 64)) with 7168 in *.
  assert (Htake : take (Z.to_nat 7168) encoded = encoded).
  { apply take_ge. unfold len in Hlen. lia. }
  rewrite Htake.
  rewrite (copy_to_device_reliable _ _ _ _ Hin) by (unfold len in Hlen; first [lia | exact Hor]).
  simpl negb. cbv iota. fold (upload_input net encoded h).
  assert (I1 : inert h (upload_input net encoded h)).
  { split; [reflexivity|]. unfold upload_input, layout, mem_store. simpl.
    rewrite fmap_insert. apply insert_id.
    destruct (holds_floats_mem _ _ _ Hin) as (old & Hold & Hn).
    rewrite lookup_fmap. unfold fbuf. rewrite Hold. simpl.
    rewrite length_app, length_drop. unfold len in Hlen. do 2 f_equal. lia. }
  destruct (run_trunk lm net (upload_input net encoded h)) as [net1 h2] eqn:E2.
  pose proof (run_trunk_inert lm net (upload_input net encoded h)) as I2.
  rewrite E2 in I2. simpl in I2.
  pose proof (run_trunk_static lm net (upload_input net encoded h)) as S2.
  rewrite E2 in S2. simpl in S2.
  pose proof (run_policy_head_inert net1 h2) as I3.
  assert (I03 : inert h (run_policy_head net1 h2)) by (repeat (eapply inert_trans; eauto)).
  assert (Hpm3 : holds_floats (run_policy_head net1 h2) (d_policyMapped net1)
                   (Z.to_nat (to_size_t (policySize net1)))).
  { rewrite (static_d_policyMapped _ _ S2), (static_policySize _ _ S2).
    eapply holds_floats_inert; eauto. }
  rewrite (copy_to_host_reliable _ _ _ _ Hpm3).
  2:{ pose proof (to_size_t_range (policySize net1)). lia. }
  2:{ rewrite (proj1 I03). exact Hor. }
  pose proof (run_value_head_inert net1 (run_policy_head net1 h2)) as I4.
  assert (Hlg4 : holds_floats (run_value_head net1 (run_policy_head net1 h2))
                   (d_logits net1) 3).
  { rewrite (static_d_logits _ _ S2). eapply holds_floats_inert; [exact I4|].
    eapply holds_floats_inert; eauto. }
  rewrite (copy_to_host_reliable _ _ _ _ Hlg4) by
    first [lia | rewrite (proj1 I4), (proj1 I03); exact Hor].
  destruct (holds_floats_mem _ _ _ Hpm3) as (lp & Hlp & Hnp).
  rewrite (static_policySize _ _ S2) in *.
  assert (Hsz : to_size_t (policySize net) = policySize net)
    by (apply to_size_t_small; lia).
  rewrite Hsz.
  destruct (softmax3 lm _) as [wdl v] eqn:Esm. reflexivity.
Qed.

Lemma oracle_prefix_cases (o : list bool) :
  (forall k, (k < 3)%nat -> o !! k <> Some false)
  \/ (exists k, (k < 3)%nat /\ o !! k = Some false).
Proof.
  destruct (o !! 0%nat) as [[|]|] eqn:E0;
    destruct (o !! 1%nat) as [[|]|] eqn:E1;
    destruct (o !! 2%nat) as [[|]|] eqn:E2;
    try (right; exists 0%nat; split; [lia | assumption]);
    try (right; exists 1%nat; split; [lia | assumption]);
    try (right; exists 2%nat; split; [lia | assumption]);
    left; intros k Hk; destruct k as [|[|[|k]]]; try lia; congruence.
Qed.

Lemma set_region_all (arr data : list float) n :
  len arr = n -> (length data <= Z.to_nat n)%nat -> set_region arr n data = data.
Proof.
  intros Ha Hd. unfold set_region, len in *.
  rewrite take_ge by lia. rewrite drop_ge by lia. apply app_nil_r.
Qed.

(** C1, amended.  On a handle that [create] has just returned, with the three
    arrays of the lengths [predict] asks for:
    - when [inputC] is not 112, [predict] returns the 0.0 sentinel and leaves
      the outputs alone, whatever the device does;
    and, when the layers of the network fit the workspace ([well_shaped], which
    [create] does not check, and without which the kernels of the forward
    pass leave their buffers):
    - [predict] fails only when [inputC] is not 112 or one of the three
      blocking device copies fails;
    - when [inputC] is 112 and no device operation fails, [predict] performs
      the forward pass, stores its policy and WDL triple and returns win
      minus loss. *)
Theorem predict_on_loaded_net lm pf bytes h0 net h encoded outPolicy outWdl :
  create_net pf (Some bytes) h0 = (Returned (Some net), h) ->
  len encoded = int_mul (inputC net) 64 ->
  len outPolicy = policySize net ->
  len outWdl = 3 ->
  let r := nativePredict lm (Some net) (Some encoded) (Some outPolicy) (Some outWdl) h in
  (inputC net <> 112 ->
   p_done r = false /\ p_value r = fzero
   /\ p_policyOut r = Some outPolicy /\ p_wdlOut r = Some outWdl)
  /\ (well_shaped net h = true ->
      (p_done r = false ->
       inputC net <> 112 \/ exists k, (k < 3)%nat /\ oracle h !! k = Some false)
      /\ (inputC net = 112 -> oracle h = [] ->
          let ev := (forward_pass lm net encoded h).1.1 in
          p_done r = true
          /\ p_policyOut r = Some (ev_policy ev)
          /\ p_wdlOut r = Some (ev_wdl ev)
          /\ p_value r = ev_value ev
          /\ (exists w d l, ev_wdl ev = [w; d; l] /\ ev_value ev = fsub w l)
          /\ p_calls r = predict_calls)).
Proof.
  intros Hc Henc Hpol Hwdl.
  pose proof (create_net_ready _ _ _ _ _ Hc) as Hready.
  unfold nativePredict.
  rewrite (proj2 (Z.eqb_eq _ _) Henc), (proj2 (Z.eqb_eq _ _) Hpol),
    (proj2 (Z.eqb_eq _ _) Hwdl). simpl negb. cbv iota.
  split; [|intros _; split].
  - intros Hne. unfold eval_one.
    rewrite (proj2 (Z.eqb_neq _ _) Hne). simpl. auto.
  - destruct (Z.eq_dec (inputC net) 112) as [HC|HC]; [|auto].
    destruct (oracle_prefix_cases (oracle h)) as [Hok|Hbad]; [|auto].
    rewrite HC in Henc. change (int_mul 112 64) with 7168 in Henc.
    destruct (eval_one_succeeds lm net encoded h Hready HC Henc Hok)
      as (ev & net' & h' & ->).
    simpl. discriminate.
  - intros HC Hor.
    rewrite HC in Henc. change (int_mul 112 64) with 7168 in Henc.
    assert (Hps : 0 <= policySize net < 2 ^ 64).
    { apply create_net_ok in Hc as (dev & hd & s & s' & _ & Hp & Hl & -> & _).
      apply read_prelude_ok in Hp as (_ & _ & _ & Hr).
      pose proof (load_net_keeps_info dev hd _ _ _ Hl) as Hinfo.
      unfold info_view in Hinfo. simpl in Hinfo.
      inversion Hinfo as [[H1 H2 H3 H4 H5 H6]].
      rewrite H6. unfold len in Hpol. rewrite H6 in Hpol. lia. }
    rewrite (eval_one_reliable lm net encoded h Hready HC Henc Hps Hor).
    unfold forward_pass.
    destruct (run_trunk lm net (upload_input net encoded h)) as [net1 h1] eqn:E.
    pose proof (run_trunk_static lm net (upload_input net encoded h)) as S.
    rewrite E in S. simpl in S.
    cbn [fst snd ev_policy ev_wdl ev_value p_done p_policyOut p_wdlOut p_value p_calls].
    unfold softmax3. cbn [fst snd].
    repeat split.
    + f_equal. apply set_region_all; [reflexivity|].
      rewrite (static_policySize _ _ S), <- Hpol, length_take. lia.
    + f_equal. apply set_region_all; [exact Hwdl | simpl; lia].
    + eexists _, _, _. split; reflexivity.
Qed.

Lemma predict_on_loaded_net_witness :
  exists net h,
    create_net sample_platform (Some (plain_file 112)) empty_mem = (Returned (Some net), h)
    /\ well_shaped net h = true
    /\ let r := nativePredict sample_libm (Some net) (Some (zeros 7168)) (Some (zeros 2))
                  (Some (zeros 3)) h in
       (inputC net <> 112 ->
        p_done r = false /\ p_value r = fzero
        /\ p_policyOut r = Some (zeros 2) /\ p_wdlOut r = Some (zeros 3))
       /\ (well_shaped net h = true ->
           (p_done r = false ->
            inputC net <> 112 \/ exists k, (k < 3)%nat /\ oracle h !! k = Some false)
           /\ (inputC net = 112 -> oracle h = [] ->
               let ev := (forward_pass sample_libm net (zeros 7168) h).1.1 in
               p_done r = true
               /\ p_policyOut r = Some (ev_policy ev)
               /\ p_wdlOut r = Some (ev_wdl ev)
               /\ p_value r = ev_value ev
               /\ (exists w d l, ev_wdl ev = [w; d; l] /\ ev_value ev = fsub w l)
               /\ p_calls r = predict_calls)).
Proof.
  eexists _, _. split; [vm_compute; reflexivity|]. split; [vm_compute; reflexivity|].
  apply (predict_on_loaded_net sample_libm sample_platform (plain_file 112) empty_mem);
    vm_compute; reflexivity.
Defined.

(* ================================================================== *)
(** * What a kernel stores *)

(** Closed side conditions of the witnesses. *)
Ltac by_compute :=
  vm_compute; repeat split;
  first [ reflexivity | let H := fresh in intros H; discriminate H ].

Lemma fget_lookup l i x : 0 <= i -> l !! Z.to_nat i = Some x -> fget l i = x.
Proof.
  intros Hi Hl. unfold fget. destruct (Z.ltb_spec i 0); [lia|]. rewrite Hl. reflexivity.
Qed.

Lemma fset_nat l (n : nat) v : fset l (Z.of_nat n) v = <[n := v]> l.
Proof.
  unfold fset. destruct (Z.ltb_spec (Z.of_nat n) 0); [lia|]. rewrite Nat2Z.id. reflexivity.
Qed.

(** A range whose work item [tid] stores [f tid] at index [tid]. *)
Lemma foldl_items (item : Z -> option (Z * float)) (f : Z -> float) (n : nat) :
  forall l,
    (n <= length l)%nat ->
    (forall tid, 0 <= tid < Z.of_nat n -> item tid = Some (tid, f tid)) ->
    let r := foldl (fun acc tid => match item tid with
                                   | Some (i, v) => fset acc i v
                                   | None => acc
                                   end) l (seqZ 0 (Z.of_nat n)) in
    forall i, (i < n)%nat -> r !! i = Some (f (Z.of_nat i)).
Proof.
  induction n as [|n IH]; intros l Hlen Hitem r i Hi; [lia|].
  subst r. rewrite seqZ_S, foldl_app. simpl. rewrite Z.add_0_l.
  rewrite Hitem by lia. rewrite fset_nat.
  destruct (decide (i = n)) as [->|Hne].
  - apply list_lookup_insert_eq. rewrite parallel_for_length. lia.
  - rewrite list_lookup_insert_ne by congruence.
    apply IH; [lia | intros; apply Hitem; lia | lia].
Qed.

Lemma parallel_for_stores total out item h n (f : Z -> float) i :
  holds_floats h out n ->
  0 <= total <= Z.of_nat n ->
  (forall tid, 0 <= tid < total -> item tid = Some (tid, f tid)) ->
  0 <= i < total ->
  fget (fbuf (parallel_for total out item h) out) i = f i.
Proof.
  intros Hout Htot Hitem Hi.
  apply holds_floats_mem in Hout as (l & Hl & Hn).
  unfold parallel_for, fbuf. rewrite Hl. unfold mem_store. simpl.
  rewrite lookup_insert_eq.
  apply fget_lookup; [lia|].
  replace total with (Z.of_nat (Z.to_nat total)) at 1 by lia.
  rewrite (foldl_items item f (Z.to_nat total)); try lia.
  - rewrite Z2Nat.id by lia. reflexivity.
  - intros tid Ht. apply Hitem. lia.
Qed.

(** A kernel leaves every buffer but its output alone, and never touches an
    int buffer. *)
Lemma parallel_for_other total out item h p :
  p <> out -> fbuf (parallel_for total out item h) p = fbuf h p.
Proof.
  intros Hne. unfold parallel_for.
  destruct (mem h !! out) as [[l|l]|]; try reflexivity.
  unfold fbuf, mem_store. simpl. rewrite lookup_insert_ne by congruence. reflexivity.
Qed.

Lemma parallel_for_ibuf total out item h p :
  ibuf (parallel_for total out item h) p = ibuf h p.
Proof.
  unfold parallel_for. destruct (mem h !! out) as [[l|l]|] eqn:E; try reflexivity.
  unfold ibuf, mem_store. simpl.
  destruct (decide (p = out)) as [->|Hne].
  - rewrite lookup_insert_eq, E. reflexivity.
  - rewrite lookup_insert_ne by congruence. reflexivity.
Qed.

Lemma launch_conv_ibuf layer input out h p :
  ibuf (launch_conv_no_bias layer input out h) p = ibuf h p.
Proof.
  unfold launch_conv_no_bias, k_conv3x3_no_bias, k_conv1x1_no_bias.
  repeat case_match; try reflexivity; apply parallel_for_ibuf.
Qed.

Lemma launch_conv_other layer input out h p :
  p <> out -> fbuf (launch_conv_no_bias layer input out h) p = fbuf h p.
Proof.
  intros Hne. unfold launch_conv_no_bias, k_conv3x3_no_bias, k_conv1x1_no_bias.
  repeat case_match; try reflexivity; apply parallel_for_other, Hne.
Qed.

Lemma run_policy_planes_ibuf net h p : ibuf (run_policy_planes net h) p = ibuf h p.
Proof.
  unfold run_policy_planes, k_add_bias, k_add_bias_relu.
  repeat first [ rewrite parallel_for_ibuf | rewrite launch_conv_ibuf ]. reflexivity.
Qed.

Lemma run_policy_planes_inert net h : inert h (run_policy_planes net h).
Proof. unfold run_policy_planes, k_add_bias, k_add_bias_relu. solve_inert. Qed.

(** C4.  In the policy-index remap of [eval_one], output slot [i] below
    [policySize] is exactly 0.0 when the policy-map entry at [i] lies outside
    [0, policyC*64), and otherwise it is the value at that index of the
    flattened policy planes (the output of the policy head after its bias).
    The hypotheses say that the mapped buffer has room for [policySize]
    floats, that the policy-output layer has [policyC] channels (which the
    loader checks) and that the sizes fit an [int]. *)
Theorem policy_remap_slots net h n i :
  holds_floats h (d_policyMapped net) n ->
  policySize net <= Z.of_nat n ->
  policySize net < 2 ^ 31 ->
  Conv.outC (policyOut net) = policyC net ->
  0 <= policyC net * 64 < 2 ^ 31 ->
  0 <= i < policySize net ->
  let planes := fbuf (run_policy_planes net h) (d_policyPlanes net) in
  let idx := iget (ibuf h (d_policyMap net)) i in
  fget (fbuf (run_policy_head net h) (d_policyMapped net)) i
  = if (idx <? 0) || (policyC net * 64 <=? idx) then fzero else fget planes idx.
Proof.
  intros Hout Hn Hps HoutC Hpc Hi planes idx.
  unfold run_policy_head, k_policy_map.
  rewrite to_size_t_small by lia.
  rewrite (parallel_for_stores _ _ _ _ n
             (fun tid =>
                let idx := iget (ibuf h (d_policyMap net)) tid in
                if (idx <? 0) || (policyC net * 64 <=? idx) then fzero
                else fget planes idx)); try lia; try reflexivity.
  - eapply holds_floats_inert; [apply run_policy_planes_inert | exact Hout].
  - intros tid Ht. unfold policy_map_item.
    rewrite wrap32_small by lia. rewrite run_policy_planes_ibuf.
    rewrite HoutC. unfold int_mul. rewrite wrap32_small by lia.
    fold planes.
    destruct (Z.leb_spec 0 (iget (ibuf h (d_policyMap net)) tid));
      destruct (Z.ltb_spec (iget (ibuf h (d_policyMap net)) tid) (policyC net * 64));
      destruct (Z.ltb_spec (iget (ibuf h (d_policyMap net)) tid) 0);
      destruct (Z.leb_spec (policyC net * 64) (iget (ibuf h (d_policyMap net)) tid));
      simpl; try lia; reflexivity.
Qed.

Lemma policy_remap_slots_witness :
  exists net h,
    create_net sample_platform (Some (plain_file 112)) empty_mem = (Returned (Some net), h)
    /\ iget (ibuf h (d_policyMap net)) 1 = 64
    /\ let planes := fbuf (run_policy_planes net h) (d_policyPlanes net) in
       let idx := iget (ibuf h (d_policyMap net)) 1 in
       fget (fbuf (run_policy_head net h) (d_policyMapped net)) 1
       = if (idx <? 0) || (policyC net * 64 <=? idx) then fzero else fget planes idx.
Proof.
  eexists _, _. split; [vm_compute; reflexivity|].
  split; [vm_compute; reflexivity|].
  apply (policy_remap_slots _ _ 2%nat 1); by_compute.
Defined.

(* ================================================================== *)
(** * binary32: the sign of zero in a running sum *)

Lemma digits2_pos_bounds p :
  2 ^ (Zpos (digits2_pos p) - 1) <= Zpos p < 2 ^ Zpos (digits2_pos p).
Proof.
  induction p as [p IH|p IH|]; simpl digits2_pos.
  - rewrite Pos2Z.inj_succ, (Pos2Z.inj_xI p).
    replace (Z.succ (Zpos (digits2_pos p)) - 1) with (Z.succ (Zpos (digits2_pos p) - 1)) by lia.
    rewrite !Z.pow_succ_r by lia. lia.
  - rewrite Pos2Z.inj_succ, (Pos2Z.inj_xO p).
    replace (Z.succ (Zpos (digits2_pos p)) - 1) with (Z.succ (Zpos (digits2_pos p) - 1)) by lia.
    rewrite !Z.pow_succ_r by lia. lia.
  - simpl. lia.
Qed.

Lemma shr_1_m mrs : 0 <= shr_m mrs -> shr_m (shr_1 mrs) = shr_m mrs / 2.
Proof.
  destruct mrs as [m r s]. simpl. intros Hm. rewrite <- Z.div2_div.
  destruct m as [|[p|p|]|p]; try reflexivity; lia.
Qed.

Lemma iter_pos_shr_m n :
  forall mrs, 0 <= shr_m mrs ->
              shr_m (SpecFloat.iter_pos shr_1 n mrs) = shr_m mrs / 2 ^ Zpos n.
Proof.
  induction n as [n IH|n IH|]; intros mrs Hm; simpl SpecFloat.iter_pos.
  - assert (H1 : 0 <= shr_m (shr_1 mrs)).
    { rewrite shr_1_m by assumption. apply Z.div_pos; lia. }
    assert (H2 : 0 <= shr_m (SpecFloat.iter_pos shr_1 n (shr_1 mrs))).
    { rewrite IH by assumption. apply Z.div_pos; [assumption|]. apply Z.pow_pos_nonneg; lia. }
    rewrite IH, IH, shr_1_m by assumption.
    assert (Hp : 0 < 2 ^ Zpos n) by (apply Z.pow_pos_nonneg; lia).
    rewrite !Z.div_div by lia.
    f_equal. rewrite (Pos2Z.inj_xI n).
    replace (2 * Zpos n + 1) with (1 + Zpos n + Zpos n) by lia.
    rewrite !Z.pow_add_r by lia. lia.
  - assert (H2 : 0 <= shr_m (SpecFloat.iter_pos shr_1 n mrs)).
    { rewrite IH by assumption. apply Z.div_pos; [assumption|]. apply Z.pow_pos_nonneg; lia. }
    rewrite IH, IH by assumption.
    assert (Hp : 0 < 2 ^ Zpos n) by (apply Z.pow_pos_nonneg; lia).
    rewrite Z.div_div by lia.
    f_equal. rewrite (Pos2Z.inj_xO n).
    replace (2 * Zpos n) with (Zpos n + Zpos n) by lia.
    rewrite Z.pow_add_r by lia. reflexivity.
  - rewrite shr_1_m by assumption. reflexivity.
Qed.

Lemma shr_record_of_loc_m m l : shr_m (shr_record_of_loc m l) = m.
Proof. destruct l as [|[]]; reflexivity. Qed.

Lemma fexp32 e : fexp 24 128 e = Z.max (e - 24) (-149).
Proof. reflexivity. Qed.

(** Rounding never takes the exponent below -149... *)
Lemma shr_fexp_emin m e l : -149 <= (shr_fexp 24 128 m e l).2.
Proof.
  unfold shr_fexp, shr. rewrite fexp32.
  destruct (Z.max (Zdigits2 m + e - 24) (-149) - e) as [|p|p] eqn:E; simpl; lia.
Qed.

(** ... and never shifts every bit of a positive mantissa out when the
    exponent it starts from is at least -149. *)
Lemma shr_fexp_pos m e l :
  0 < m -> -149 <= e -> 0 < shr_m (shr_fexp 24 128 m e l).1.
Proof.
  intros Hm He. unfold shr_fexp, shr. rewrite fexp32.
  destruct (Z.max (Zdigits2 m + e - 24) (-149) - e) as [|p|p] eqn:E; simpl;
    rewrite ?shr_record_of_loc_m; try assumption.
  rewrite iter_pos_shr_m by (rewrite shr_record_of_loc_m; lia).
  rewrite shr_record_of_loc_m.
  destruct m as [|q|q]; try lia. simpl Zdigits2 in E.
  pose proof (digits2_pos_bounds q) as [Hlo _].
  apply Z.div_str_pos. split; [apply Z.pow_pos_nonneg; lia|].
  eapply Z.le_trans; [|exact Hlo]. apply Z.pow_le_mono_r; lia.
Qed.

Lemma round_nearest_even_ge m l : m <= round_nearest_even m l.
Proof. destruct l as [|[]]; simpl; try destruct (Z.even m); lia. Qed.

Lemma binary_round_aux_emin sx mx ex lx : emin_ok (binary_round_aux 24 128 sx mx ex lx).
Proof.
  unfold binary_round_aux.
  destruct (shr_fexp 24 128 mx ex lx) as [mrs' e'] eqn:E1.
  destruct (shr_fexp 24 128 _ e' loc_Exact) as [mrs'' e''] eqn:E2.
  pose proof (shr_fexp_emin (round_nearest_even (shr_m mrs') (loc_of_shr_record mrs'))
                e' loc_Exact) as H2.
  rewrite E2 in H2. simpl in H2.
  destruct (shr_m mrs''); simpl; auto. destruct (_ <=? _)%Z; simpl; auto.
Qed.

Lemma binary_round_aux_sign sx mx ex lx s :
  binary_round_aux 24 128 sx mx ex lx = S754_zero s -> s = sx.
Proof.
  unfold binary_round_aux.
  destruct (shr_fexp 24 128 mx ex lx) as [mrs' e'].
  destruct (shr_fexp 24 128 _ e' loc_Exact) as [mrs'' e''].
  destruct (shr_m mrs''); [|destruct (_ <=? _)%Z|]; intros H; inversion H. reflexivity.
Qed.

Lemma binary_round_aux_nonzero sx mx ex lx s :
  0 < mx -> -149 <= ex -> binary_round_aux 24 128 sx mx ex lx <> S754_zero s.
Proof.
  intros Hm He. unfold binary_round_aux.
  pose proof (shr_fexp_pos mx ex lx Hm He) as H1.
  pose proof (shr_fexp_emin mx ex lx) as H1e.
  destruct (shr_fexp 24 128 mx ex lx) as [mrs' e'] eqn:E1. simpl in H1, H1e.
  pose proof (round_nearest_even_ge (shr_m mrs') (loc_of_shr_record mrs')) as Hr.
  pose proof (shr_fexp_pos (round_nearest_even (shr_m mrs') (loc_of_shr_record mrs'))
                e' loc_Exact ltac:(lia) H1e) as H2.
  destruct (shr_fexp 24 128 _ e' loc_Exact) as [mrs'' e''] eqn:E2. simpl in H2.
  destruct (shr_m mrs''); [lia|destruct (_ <=? _)%Z; discriminate|lia].
Qed.

Lemma binary_round_emin sx mx ex : emin_ok (binary_round 24 128 sx mx ex).
Proof.
  unfold binary_round. destruct (shl_align _ _ _) as [mz ez]. apply binary_round_aux_emin.
Qed.

Lemma binary_round_sign sx mx ex s : binary_round 24 128 sx mx ex = S754_zero s -> s = sx.
Proof.
  unfold binary_round. destruct (shl_align _ _ _) as [mz ez]. apply binary_round_aux_sign.
Qed.

Lemma binary_round_nonzero sx mx ex s :
  -149 <= ex -> binary_round 24 128 sx mx ex <> S754_zero s.
Proof.
  intros He. unfold binary_round.
  destruct (shl_align mx ex _) as [mz ez] eqn:E.
  apply binary_round_aux_nonzero; [lia|].
  unfold shl_align in E. rewrite fexp32 in E.
  destruct (Z.max (Zpos (digits2_pos mx) + ex - 24) (-149) - ex) as [|p|p] eqn:E';
    inversion E; subst; lia.
Qed.

Lemma emin_ok_fmul a b : emin_ok (fmul a b).
Proof.
  destruct a as [sa|sa| |sa ma ea], b as [sb|sb| |sb mb eb]; simpl; auto.
  apply binary_round_aux_emin.
Qed.

Lemma emin_ok_fadd a b : emin_ok a -> emin_ok b -> emin_ok (fadd a b).
Proof.
  destruct a as [sa|sa| |sa ma ea], b as [sb|sb| |sb mb eb]; simpl; auto;
    try (destruct sa, sb; simpl; auto; fail).
  intros _ _. unfold binary_normalize.
  destruct (_ + _)%Z; simpl; auto; apply binary_round_emin.
Qed.

(** A sum is the negative zero only when both summands are. *)
Lemma fadd_not_neg_zero a b :
  emin_ok a -> emin_ok b -> a <> S754_zero true -> fadd a b <> S754_zero true.
Proof.
  destruct a as [sa|sa| |sa ma ea], b as [sb|sb| |sb mb eb]; simpl; intros Ha Hb Hnz;
    try discriminate; try (destruct sa, sb; simpl; congruence).
  unfold binary_normalize.
  destruct (_ + _)%Z eqn:E; [discriminate| |].
  - intros H. apply binary_round_sign in H. discriminate.
  - apply binary_round_nonzero. lia.
Qed.

Lemma fadd_zero_r a : a <> S754_zero true -> fadd a fzero = a.
Proof. destruct a as [[]| | |]; simpl; congruence. Qed.

Lemma good_acc_zero : good_acc fzero.
Proof. split; [exact I | discriminate]. Qed.

Lemma good_acc_fadd a t : good_acc a -> emin_ok t -> good_acc (fadd a t).
Proof.
  intros [Ha Hnz] Ht. split; [apply emin_ok_fadd | apply fadd_not_neg_zero]; assumption.
Qed.

Lemma emin_ok_term input w inC oc row col ic ky kx :
  emin_ok (conv3x3_term input w inC oc row col ic ky kx).
Proof. unfold conv3x3_term. destruct (on_board _ _); [apply emin_ok_fmul | exact I]. Qed.

Lemma good_acc_row_taps input w inC oc row col ic ky acc :
  good_acc acc -> good_acc (row_taps input w inC oc row col ic ky acc).
Proof.
  intros H. unfold row_taps. simpl. repeat apply good_acc_fadd; auto using emin_ok_term.
Qed.

Lemma good_acc_channel_taps input w inC oc row col acc ic :
  good_acc acc -> good_acc (channel_taps input w inC oc row col acc ic).
Proof.
  intros H. unfold channel_taps. simpl. repeat apply good_acc_row_taps. exact H.
Qed.

(* ================================================================== *)
(** * The 3x3 convolution *)

Lemma foldl_bind {A B C} (g : A -> C -> A) (f : B -> list C) (l : list B) (a : A) :
  foldl g a (l ≫= f) = foldl (fun a x => foldl g a (f x)) a l.
Proof.
  revert a. induction l as [|x l IH]; intros a; [reflexivity|].
  rewrite bind_cons, foldl_app. simpl. apply IH.
Qed.

Lemma foldl_pointwise {A B} (f g : A -> B -> A) (l : list B) (a : A) :
  (forall a x, f a x = g a x) -> foldl f a l = foldl g a l.
Proof.
  intros H. revert a. induction l as [|x l IH]; intros a; simpl; [reflexivity|].
  rewrite H. apply IH.
Qed.

Lemma conv3x3_sum_nested input w inC oc row col :
  conv3x3_sum input w inC oc row col
  = foldl (channel_taps input w inC oc row col) fzero (seqZ 0 inC).
Proof.
  unfold conv3x3_sum, conv3x3_taps. rewrite foldl_bind.
  apply foldl_pointwise. intros a ic.
  unfold channel_taps, row_taps. cbv [mbind list_bind app foldl]. reflexivity.
Qed.

(** One pass through the body of the [kx] loop: the weight index is the one
    of the offset [(ky, kx)], whether the tap is used or skipped. *)
Lemma conv3x3_kx_spec input w inC oc row col ic ky kx acc inRowBase wBase wIdx :
  good_acc acc ->
  inRowBase = ic * 64 + (row + ky) * 8 ->
  wBase = (oc * inC + ic) * 9 ->
  wIdx = (ky + 1) * 3 + (kx + 1) ->
  0 <= ic * 64 /\ ic * 64 + 63 < 2 ^ 31 ->
  0 <= (oc * inC + ic) * 9 /\ (oc * inC + ic) * 9 + 8 < 2 ^ 31 ->
  0 <= row + ky < 8 -> 0 <= col < 8 -> -1 <= ky <= 1 -> -1 <= kx <= 1 ->
  conv3x3_kx input w inRowBase wBase col (acc, wIdx) kx
  = (fadd acc (conv3x3_term input w inC oc row col ic ky kx), wIdx + 1).
Proof.
  intros [_ Hnz] -> -> -> Hi Hw Hr Hc Hky Hkx.
  unfold conv3x3_kx, conv3x3_term, on_board, out_of_range, int_add.
  rewrite (wrap32_small (col + kx)) by lia.
  destruct (Z.ltb_spec (col + kx) 0), (Z.leb_spec 8 (col + kx)),
    (Z.leb_spec 0 (row + ky)), (Z.ltb_spec (row + ky) 8),
    (Z.leb_spec 0 (col + kx)), (Z.ltb_spec (col + kx) 8);
    simpl; try lia;
    rewrite !wrap32_small by lia;
    rewrite ?(fadd_zero_r acc Hnz); try reflexivity.
  do 3 f_equal; f_equal; lia.
Qed.

(** One pass through the body of the [ky] loop. *)
Lemma conv3x3_ky_spec input w inC oc row col ic ky acc inBase wBase wIdx :
  good_acc acc ->
  inBase = ic * 64 ->
  wBase = (oc * inC + ic) * 9 ->
  wIdx = (ky + 1) * 3 ->
  0 <= ic * 64 /\ ic * 64 + 63 < 2 ^ 31 ->
  0 <= (oc * inC + ic) * 9 /\ (oc * inC + ic) * 9 + 8 < 2 ^ 31 ->
  0 <= row < 8 -> 0 <= col < 8 -> -1 <= ky <= 1 ->
  conv3x3_ky input w inBase wBase row col (acc, wIdx) ky
  = (row_taps input w inC oc row col ic ky acc, wIdx + 3).
Proof.
  intros Hacc -> -> -> Hi Hw Hr Hc Hky.
  assert (Hrk : int_add row ky = row + ky)
    by (unfold int_add; apply wrap32_small; lia).
  unfold conv3x3_ky, row_taps. rewrite !Hrk.
  unfold out_of_range.
  destruct (Z.ltb_spec (row + ky) 0) as [Hlo|Hlo];
    [|destruct (Z.leb_spec 8 (row + ky)) as [Hhi|Hhi]]; simpl orb; cbv iota.
  - (* the row above the board is skipped *)
    unfold int_add. rewrite wrap32_small by lia.
    cbn [foldl]. unfold conv3x3_term, on_board.
    destruct (Z.leb_spec 0 (row + ky)); [lia|]. simpl.
    destruct Hacc as [_ Hnz]. rewrite !(fadd_zero_r acc Hnz). reflexivity.
  - (* the row below the board is skipped *)
    unfold int_add. rewrite wrap32_small by lia.
    cbn [foldl]. unfold conv3x3_term, on_board.
    destruct (Z.ltb_spec (row + ky) 8); [lia|]. rewrite andb_false_r. simpl.
    destruct Hacc as [_ Hnz]. rewrite !(fadd_zero_r acc Hnz). reflexivity.
  - assert (Hbase : int_add (ic * 64) (int_shl (row + ky) 3) = ic * 64 + (row + ky) * 8).
    { unfold int_add, int_shl. rewrite Z.shiftl_mul_pow2 by lia.
      change (2 ^ 3) with 8. rewrite (wrap32_small ((row + ky) * 8)) by lia.
      rewrite wrap32_small by lia. reflexivity. }
    rewrite Hbase. cbn [foldl].
    erewrite (conv3x3_kx_spec input w inC oc row col ic ky (-1)); try reflexivity;
      try lia; [|exact Hacc].
    erewrite (conv3x3_kx_spec input w inC oc row col ic ky 0); try reflexivity;
      try lia; [|apply good_acc_fadd; [exact Hacc | apply emin_ok_term]].
    erewrite (conv3x3_kx_spec input w inC oc row col ic ky 1); try reflexivity;
      try lia;
      [|repeat apply good_acc_fadd; first [exact Hacc | apply emin_ok_term]].
    f_equal. lia.
Qed.

(** The body of the channel loop. *)
Lemma conv3x3_ic_spec input w inC oc row col ic acc :
  good_acc acc ->
  0 <= ic * 64 /\ ic * 64 + 63 < 2 ^ 31 ->
  0 <= oc * inC * 9 -> 0 <= ic * 9 -> (oc * inC + ic) * 9 + 8 < 2 ^ 31 ->
  0 <= row < 8 -> 0 <= col < 8 ->
  conv3x3_ic input w (int_mul (int_mul oc inC) 9) row col acc ic
  = channel_taps input w inC oc row col acc ic.
Proof.
  intros Hacc Hi Hoc Hic Hw Hr Hc.
  unfold conv3x3_ic, channel_taps.
  assert (Hwb : int_add (int_mul (int_mul oc inC) 9) (int_mul ic 9) = (oc * inC + ic) * 9).
  { unfold int_add, int_mul.
    rewrite (wrap32_small (oc * inC)) by lia.
    rewrite (wrap32_small (oc * inC * 9)) by lia.
    rewrite (wrap32_small (ic * 9)) by lia.
    rewrite wrap32_small by lia. lia. }
  assert (Hib : int_mul ic 64 = ic * 64).
  { unfold int_mul. rewrite wrap32_small; lia. }
  rewrite Hwb, Hib. cbn [foldl].
  assert (Hw' : 0 <= (oc * inC + ic) * 9 /\ (oc * inC + ic) * 9 + 8 < 2 ^ 31) by lia.
  rewrite (conv3x3_ky_spec input w inC oc row col ic (-1) acc _ _ 0
             Hacc eq_refl eq_refl eq_refl Hi Hw' Hr Hc ltac:(lia)).
  rewrite (conv3x3_ky_spec input w inC oc row col ic 0 _ _ _ (0 + 3)
             (good_acc_row_taps _ _ _ _ _ _ _ _ _ Hacc)
             eq_refl eq_refl eq_refl Hi Hw' Hr Hc ltac:(lia)).
  rewrite (conv3x3_ky_spec input w inC oc row col ic 1 _ _ _ (0 + 3 + 3)
             (good_acc_row_taps _ _ _ _ _ _ _ _ _
                (good_acc_row_taps _ _ _ _ _ _ _ _ _ Hacc))
             eq_refl eq_refl eq_refl Hi Hw' Hr Hc ltac:(lia)).
  reflexivity.
Qed.

Lemma conv3x3_channels input w inC oc row col (ics : list Z) :
  0 <= oc -> 0 < inC -> (oc * inC + inC) * 9 <= 2 ^ 31 -> inC * 64 <= 2 ^ 31 ->
  0 <= row < 8 -> 0 <= col < 8 ->
  Forall (fun ic => 0 <= ic < inC) ics ->
  forall acc,
    good_acc acc ->
    foldl (conv3x3_ic input w (int_mul (int_mul oc inC) 9) row col) acc ics
    = foldl (channel_taps input w inC oc row col) acc ics
    /\ good_acc (foldl (channel_taps input w inC oc row col) acc ics).
Proof.
  intros Hoc HinC Hw Hi Hr Hc Hics.
  induction Hics as [|ic ics Hic _ IH]; intros acc Hacc; simpl; [auto|].
  rewrite conv3x3_ic_spec; try assumption; try nia.
  apply IH. apply good_acc_channel_taps, Hacc.
Qed.

Lemma shr_land_64 idx :
  0 <= idx < 2 ^ 31 ->
  int_shr idx 6 = idx / 64 /\ int_and idx 63 = idx mod 64.
Proof.
  intros H. unfold int_shr, int_and. split.
  - rewrite Z.shiftr_div_pow2 by lia. reflexivity.
  - change 63 with (Z.ones 6). rewrite Z.land_ones by lia. reflexivity.
Qed.

Lemma shr_land_8 s :
  0 <= s < 64 -> int_shr s 3 = s / 8 /\ int_and s 7 = s mod 8.
Proof.
  intros H. unfold int_shr, int_and. split.
  - rewrite Z.shiftr_div_pow2 by lia. reflexivity.
  - change 7 with (Z.ones 3). rewrite Z.land_ones by lia. reflexivity.
Qed.

(** What the work item [tid] of the 3x3 kernel stores. *)
Lemma conv3x3_item_spec input w inC outC tid :
  0 < inC -> 0 < outC -> outC * inC * 9 < 2 ^ 31 -> inC * 64 < 2 ^ 31 ->
  outC * 64 < 2 ^ 31 ->
  0 <= tid < outC * 64 ->
  conv3x3_item input w inC outC tid
  = Some (tid, conv3x3_sum input w inC (tid / 64) (tid mod 64 / 8) (tid mod 64 mod 8)).
Proof.
  intros HinC HoutC Hw Hi Ho Ht. unfold conv3x3_item.
  rewrite wrap32_small by lia.
  destruct (shr_land_64 tid ltac:(lia)) as [-> ->].
  pose proof (Z.mod_pos_bound tid 64 ltac:(lia)) as Hs.
  destruct (shr_land_8 (tid mod 64) Hs) as [-> ->].
  pose proof (Z.mod_pos_bound (tid mod 64) 8 ltac:(lia)) as Hcol.
  assert (Hoc : 0 <= tid / 64 < outC).
  { split; [apply Z.div_pos; lia | apply Z.div_lt_upper_bound; lia]. }
  assert (Hrow : 0 <= tid mod 64 / 8 < 8).
  { split; [apply Z.div_pos; lia | apply Z.div_lt_upper_bound; lia]. }
  destruct (Z.leb_spec outC (tid / 64)); [lia|].
  f_equal. f_equal.
  - unfold int_add, int_mul. rewrite !wrap32_small; try lia.
    + pose proof (Z.div_mod tid 64 ltac:(lia)). lia.
    + rewrite wrap32_small by lia. pose proof (Z.div_mod tid 64 ltac:(lia)). lia.
  - rewrite conv3x3_sum_nested.
    apply conv3x3_channels; try lia; try nia.
    + apply Forall_seqZ. intros; lia.
    + apply good_acc_zero.
Qed.

(** C7.  After the 3x3 kernel, the output at channel [oc] and square
    [(row, col)] is the sum, over all input channels and all offsets
    [(ky, kx)] in {-1,0,1} x {-1,0,1}, of
    [input[ic][row+ky][col+kx] * w[oc][ic][ky+1][kx+1]], where a neighbour off
    the 8x8 board contributes 0; the sum runs in binary32 in channel-major
    order, and the weight index of each tap is the one of its offset.  The
    hypotheses say that the output buffer has room for [outC*64] floats and
    that the index arithmetic fits an [int]. *)
Theorem conv3x3_zero_padded h input w inC outC out n oc row col :
  holds_floats h out n ->
  outC * 64 <= Z.of_nat n ->
  0 < inC -> 0 < outC ->
  outC * inC * 9 < 2 ^ 31 -> inC * 64 < 2 ^ 31 -> outC * 64 < 2 ^ 31 ->
  0 <= oc < outC -> 0 <= row < 8 -> 0 <= col < 8 ->
  fget (fbuf (k_conv3x3_no_bias input w inC outC out h) out) (oc * 64 + row * 8 + col)
  = conv3x3_sum (fbuf h input) (fbuf h w) inC oc row col.
Proof.
  intros Hout Hn HinC HoutC Hw Hi Ho Hoc Hrow Hcol.
  unfold k_conv3x3_no_bias.
  rewrite (to_size_t_small outC), to_size_t_small by lia.
  rewrite (parallel_for_stores _ _ _ _ n
             (fun tid => conv3x3_sum (fbuf h input) (fbuf h w) inC
                           (tid / 64) (tid mod 64 / 8) (tid mod 64 mod 8)));
    try assumption; try lia.
  - assert (H1 : (oc * 64 + row * 8 + col) / 64 = oc).
    { symmetry. apply (Z.div_unique _ 64 oc (row * 8 + col)); lia. }
    assert (H2 : (oc * 64 + row * 8 + col) mod 64 = row * 8 + col).
    { symmetry. apply (Z.mod_unique _ 64 oc (row * 8 + col)); lia. }
    assert (H3 : (row * 8 + col) / 8 = row).
    { symmetry. apply (Z.div_unique _ 8 row col); lia. }
    assert (H4 : (row * 8 + col) mod 8 = col).
    { symmetry. apply (Z.mod_unique _ 8 row col); lia. }
    rewrite H1, H2, H3, H4. reflexivity.
  - intros tid Ht. apply conv3x3_item_spec; lia.
Qed.

Lemma conv3x3_zero_padded_witness :
  exists net h,
    create_net sample_platform (Some (plain_file 112)) empty_mem = (Returned (Some net), h)
    /\ fget (fbuf (k_conv3x3_no_bias (d_in net) (Conv.d_w (inputLayer net)) 112 1
                                     (d_cur net) h) (d_cur net)) (0 * 64 + 0 * 8 + 0)
       = conv3x3_sum (fbuf h (d_in net)) (fbuf h (Conv.d_w (inputLayer net))) 112 0 0 0.
Proof.
  eexists _, _. split; [vm_compute; reflexivity|].
  apply (conv3x3_zero_padded _ _ _ 112 1 _ 64%nat 0 0 0); by_compute.
Defined.

(* ================================================================== *)
(** * The squeeze-excite block *)

Lemma block_convs_inert b net h : inert h (block_convs b net h).
Proof. unfold block_convs, k_add_bias_relu. solve_inert. Qed.

Lemma block_se_hidden_inert b net h : inert h (block_se_hidden b net h).
Proof. unfold block_se_hidden, k_se_fc1, k_se_pool. solve_inert. Qed.

Lemma block_se_gates_inert b net h : inert h (block_se_gates b net h).
Proof.
  unfold block_se_gates, k_se_fc2.
  eapply inert_trans; [apply block_se_hidden_inert | apply parallel_for_inert].
Qed.

Lemma block_convs_other b net h p :
  apart p [d_tmp net; d_scratch net] -> fbuf (block_convs b net h) p = fbuf h p.
Proof.
  intros Hp. apply Forall_cons in Hp as [H1 Hp]. apply Forall_cons in Hp as [H2 _].
  unfold block_convs, k_add_bias_relu.
  rewrite launch_conv_other, parallel_for_other, launch_conv_other by assumption.
  reflexivity.
Qed.

Lemma k_se_pool_other convOut bias channels pooled h p :
  p <> pooled -> fbuf (k_se_pool convOut bias channels pooled h) p = fbuf h p.
Proof.
  intros Hp. unfold k_se_pool. destruct (channels <=? 0); [reflexivity|].
  apply parallel_for_other, Hp.
Qed.

Lemma block_se_hidden_other b net h p :
  apart p [d_sePooled net; d_seHidden net] -> fbuf (block_se_hidden b net h) p = fbuf h p.
Proof.
  intros Hp. apply Forall_cons in Hp as [H1 Hp]. apply Forall_cons in Hp as [H2 _].
  unfold block_se_hidden, k_se_fc1.
  rewrite parallel_for_other, k_se_pool_other by assumption. reflexivity.
Qed.

Lemma block_se_gates_other b net h p :
  apart p [d_sePooled net; d_seHidden net; d_seGates net] ->
  fbuf (block_se_gates b net h) p = fbuf h p.
Proof.
  intros Hp. apply Forall_cons in Hp as [H1 Hp]. apply Forall_cons in Hp as [H2 Hp].
  apply Forall_cons in Hp as [H3 _].
  unfold block_se_gates, k_se_fc2.
  rewrite parallel_for_other by assumption.
  apply block_se_hidden_other. repeat constructor; assumption.
Qed.

Lemma div_mod_square ch sq :
  0 <= sq < 64 -> (ch * 64 + sq) / 64 = ch.
Proof. intros H. symmetry. apply (Z.div_unique _ 64 ch sq); lia. Qed.

(** What the work item [tid] of [k_se_apply] stores. *)
Lemma se_apply_item_spec lm convOut bias residual gates channels tid :
  0 < channels -> channels * 64 < 2 ^ 31 -> 0 <= tid < channels * 64 ->
  se_apply_item lm convOut bias residual gates channels tid
  = Some (tid, se_fusion lm (fget gates (tid / 64)) (fget gates (tid / 64 + channels))
                         (fget bias (tid / 64)) (fget convOut tid) (fget residual tid)).
Proof.
  intros HC Hb Ht. unfold se_apply_item, se_fusion.
  rewrite wrap32_small by lia.
  destruct (shr_land_64 tid ltac:(lia)) as [-> _].
  assert (0 <= tid / 64 < channels).
  { split; [apply Z.div_pos; lia | apply Z.div_lt_upper_bound; lia]. }
  unfold int_add. rewrite wrap32_small by lia. reflexivity.
Qed.

(** What [k_se_fc2] leaves in the gates buffer. *)
Lemma k_se_fc2_stores hiddenVec w2 b2 hidden outDim gates h n o :
  holds_floats h gates n -> 0 <= outDim <= Z.of_nat n -> outDim < 2 ^ 31 ->
  0 <= o < outDim ->
  fget (fbuf (k_se_fc2 hiddenVec w2 b2 hidden outDim gates h) gates) o
  = dot_row (fbuf h w2) (fbuf h hiddenVec) (fget (fbuf h b2) o) o hidden.
Proof.
  intros Hg Hn Hb Ho. unfold k_se_fc2. rewrite to_size_t_small by lia.
  rewrite (parallel_for_stores _ _ _ _ n
             (fun tid => dot_row (fbuf h w2) (fbuf h hiddenVec) (fget (fbuf h b2) tid)
                                 tid hidden)); try assumption; try lia; try reflexivity.
  intros tid Ht. rewrite wrap32_small by lia. reflexivity.
Qed.

(** C6.  For a residual block with a squeeze-excite unit, every channel
    [ch] below [channels = conv2.outC] and every square [sq], the activation
    that the block leaves in the running trunk buffer is
    [ReLU(sigmoid(gate[ch]) * (convOut[sq] + bias[ch]) + residual[sq] + offset[ch])]
    where [gate] and [offset] are entries [ch] and [ch + channels] of the
    output of the second squeeze-excite dense stage, [convOut] is the output
    of [conv2], [bias] is the bias of [conv2] and [residual] is the
    activation the block started from.  The hypotheses say that the output
    and gates buffers have room, that the sizes fit an [int], and that the
    workspace buffers involved are distinct allocations. *)
Theorem se_block_fusion lm b net h n m ch sq :
  hasSe b = true ->
  let C := Conv.outC (conv2 b) in
  0 < C -> C * 64 < 2 ^ 31 ->
  holds_floats h (d_next net) n -> C * 64 <= Z.of_nat n ->
  holds_floats h (d_seGates net) m -> 2 * C <= Z.of_nat m ->
  apart (d_cur net)
        [d_tmp net; d_scratch net; d_sePooled net; d_seHidden net; d_seGates net] ->
  apart (Conv.d_b (conv2 b))
        [d_tmp net; d_scratch net; d_sePooled net; d_seHidden net; d_seGates net] ->
  apart (d_scratch net) [d_sePooled net; d_seHidden net; d_seGates net] ->
  0 <= ch < C -> 0 <= sq < 64 ->
  let hc := block_convs b net h in
  let hh := block_se_hidden b net hc in
  let gates := fbuf (block_se_gates b net hc) (d_seGates net) in
  let convOut := fbuf hc (d_scratch net) in
  let bias := fbuf h (Conv.d_b (conv2 b)) in
  let residual := fbuf h (d_cur net) in
  let out := run_block lm b (net, h) in
  fget (fbuf out.2 (d_cur out.1)) (ch * 64 + sq)
  = se_fusion lm (fget gates ch) (fget gates (ch + C)) (fget bias ch)
              (fget convOut (ch * 64 + sq)) (fget residual (ch * 64 + sq))
  /\ (forall o, 0 <= o < 2 * C ->
                fget gates o
                = dot_row (fbuf hh (Se.d_w2 (se b))) (fbuf hh (d_seHidden net))
                          (fget (fbuf hh (Se.d_b2 (se b))) o) o (Se.hidden (se b))).
Proof.
  intros Hse C HC Hb Hnext Hn Hgates Hm Hcur Hbias Hscr Hch Hsq hc hh gates convOut bias
    residual out.
  assert (Ihc : inert h hc) by apply block_convs_inert.
  assert (Ihg : inert hc (block_se_gates b net hc)) by apply block_se_gates_inert.
  split.
  - subst out. unfold run_block. rewrite Hse. simpl negb. cbv iota.
    cbn [fst snd].
    change (d_cur (set_d_next (d_cur net) (set_d_cur (d_next net) net))) with (d_next net).
    unfold k_se_apply. fold C. rewrite (to_size_t_small C), to_size_t_small by lia.
    fold hc.
    rewrite (parallel_for_stores _ _ _ _ n
               (fun tid =>
                  se_fusion lm (fget gates (tid / 64)) (fget gates (tid / 64 + C))
                    (fget (fbuf (block_se_gates b net hc) (Conv.d_b (conv2 b))) (tid / 64))
                    (fget (fbuf (block_se_gates b net hc) (d_scratch net)) tid)
                    (fget (fbuf (block_se_gates b net hc) (d_cur net)) tid)));
      try lia.
    + rewrite div_mod_square by lia.
      rewrite !block_se_gates_other; try assumption.
      * subst convOut bias residual hc.
        rewrite (block_convs_other b net h (Conv.d_b (conv2 b))),
          (block_convs_other b net h (d_cur net)); [reflexivity| |].
        -- apply Forall_cons in Hcur as [H1 Hcur]. apply Forall_cons in Hcur as [H2 _].
           repeat constructor; assumption.
        -- apply Forall_cons in Hbias as [H1 Hbias]. apply Forall_cons in Hbias as [H2 _].
           repeat constructor; assumption.
      * apply Forall_cons in Hcur as [_ Hcur]. apply Forall_cons in Hcur as [_ Hcur].
        exact Hcur.
      * apply Forall_cons in Hbias as [_ Hbias]. apply Forall_cons in Hbias as [_ Hbias].
        exact Hbias.
    + eapply holds_floats_inert; [exact Ihg|].
      eapply holds_floats_inert; [exact Ihc | exact Hnext].
    + intros tid Ht. apply se_apply_item_spec; lia.
  - intros o Ho. subst gates. unfold block_se_gates. fold hh.
    assert (H2C : int_mul 2 C = 2 * C) by (unfold int_mul; apply wrap32_small; lia).
    fold C. rewrite H2C.
    apply (k_se_fc2_stores _ _ _ _ _ _ _ m); try lia.
    eapply holds_floats_inert; [apply block_se_hidden_inert|].
    eapply holds_floats_inert; [exact Ihc | exact Hgates].
Qed.

Lemma se_block_fusion_witness :
  exists net h b,
    create_net sample_platform (Some se_file) empty_mem = (Returned (Some net), h)
    /\ tower net = [b]
    /\ fget (fbuf (run_block sample_libm b (net, h)).2
                  (d_cur (run_block sample_libm b (net, h)).1)) (0 * 64 + 9)
       = se_fusion sample_libm
           (fget (fbuf (block_se_gates b net (block_convs b net h)) (d_seGates net)) 0)
           (fget (fbuf (block_se_gates b net (block_convs b net h)) (d_seGates net))
                 (0 + Conv.outC (conv2 b)))
           (fget (fbuf h (Conv.d_b (conv2 b))) 0)
           (fget (fbuf (block_convs b net h) (d_scratch net)) (0 * 64 + 9))
           (fget (fbuf h (d_cur net)) (0 * 64 + 9)).
Proof.
  eexists _, _, _. split; [vm_compute; reflexivity|]. split; [reflexivity|].
  refine (proj1 (se_block_fusion sample_libm _ _ _ 64%nat 2%nat 0 9
                   _ _ _ _ _ _ _ _ _ _ _ _));
    try by_compute;
    vm_compute; repeat constructor; let H := fresh in intros H; discriminate H.
Defined.

(* ================================================================== *)
(** * The value head on the host *)

(** The WDL triple is the softmax of the three logits taken after
    subtracting their maximum. *)
Lemma softmax3_stable lm logits :
  let l0 := fget logits 0 in
  let l1 := fget logits 1 in
  let l2 := fget logits 2 in
  let m := fmax l0 (fmax l1 l2) in
  let e0 := std_exp lm (fsub l0 m) in
  let e1 := std_exp lm (fsub l1 m) in
  let e2 := std_exp lm (fsub l2 m) in
  let s := fadd (fadd e0 e1) e2 in
  flt fzero s = true ->
  (softmax3 lm logits).1 = [fdiv e0 s; fdiv e1 s; fdiv e2 s].
Proof. intros l0 l1 l2 m e0 e1 e2 s Hs. unfold softmax3. fold l0 l1 l2 m e0 e1 e2 s. rewrite Hs. reflexivity. Qed.

(** The value is the first entry of the triple minus the third. *)
Lemma softmax3_value lm logits :
  exists w d l, (softmax3 lm logits).1 = [w; d; l] /\ (softmax3 lm logits).2 = fsub w l.
Proof. unfold softmax3. simpl. eauto. Qed.

(** A [predict] that runs to its end returns exactly [wdlOut[0] - wdlOut[2]]
    when [wdlOut] has the three entries the call asks for. *)
Lemma predict_returns_win_minus_loss lm handle jencoded joutPolicy joutWdl h :
  let r := nativePredict lm handle jencoded joutPolicy joutWdl h in
  p_done r = true ->
  exists w d l, p_wdlOut r = Some [w; d; l] /\ p_value r = fsub w l.
Proof.
  unfold nativePredict.
  destruct handle as [net|]; [|discriminate].
  destruct jencoded as [enc|], joutPolicy as [pol|], joutWdl as [wdl|]; try discriminate.
  destruct (len enc =? int_mul (inputC net) 64); [|discriminate].
  destruct (len pol =? policySize net); [|discriminate].
  destruct (len wdl =? 3) eqn:E3; [|discriminate]. simpl negb. cbv iota.
  unfold eval_one.
  destruct (negb (inputC net =? 112)); [discriminate|].
  destruct (sycl_copy_to_device _ _ h) as [[] h1]; [|discriminate]. simpl negb. cbv iota.
  destruct (run_trunk lm net h1) as [net1 h2].
  destruct (sycl_copy_to_host _ _ (run_policy_head net1 h2)) as [[pol'|] h3];
    [|discriminate].
  destruct (sycl_copy_to_host _ _ (run_value_head net1 h3)) as [[lg|] h4];
    [|discriminate].
  destruct (softmax3_value lm lg) as (w & d & l & Hw & Hv).
  destruct (softmax3 lm lg) as [t v]. simpl in *. subst. intros _.
  exists w, d, l. split; [|reflexivity].
  f_equal. apply set_region_all; [apply Z.eqb_eq, E3 | simpl; lia].
Qed.

(** A device failure inside [load_se] also escapes the rollback: when the
    second allocation of the squeeze-excite unit fails, [hasSe] is still
    false and [destroy_net] passes over the buffer allocated first. *)
Lemma create_net_se_failure_leaks :
  exists h,
    create_net sample_platform (Some se_file)
               (mkMem ∅ 1 (replicate 13 true ++ [false]) []) = (Returned None, h)
    /\ size (mem h) = 1%nat.
Proof. eexists. split; vm_compute; reflexivity. Qed.

(** digits *)
Lemma Zdigits2_bounds m : 0 < m -> 2 ^ (Zdigits2 m - 1) <= m < 2 ^ Zdigits2 m.
Proof. destruct m as [|p|p]; try lia. intros _. apply digits2_pos_bounds. Qed.

Lemma Zdigits2_pos m : 0 < m -> 0 < Zdigits2 m.
Proof. destruct m as [|p|p]; simpl; lia. Qed.

Lemma Zdigits2_unique m k : 0 < m -> 2 ^ (k - 1) <= m < 2 ^ k -> Zdigits2 m = k.
Proof.
  intros Hm [Hlo Hhi]. pose proof (Zdigits2_bounds m Hm) as [Dlo Dhi].
  pose proof (Zdigits2_pos m Hm) as Hd.
  assert (0 < k).
  { destruct (Z.lt_trichotomy k 0) as [Hk|[->|Hk]]; [|simpl in Hhi; lia|assumption].
    rewrite Z.pow_neg_r in Hhi by assumption. lia. }
  destruct (Z.lt_trichotomy (Zdigits2 m) k) as [Hlt|[Heq|Hgt]]; [|assumption|].
  - assert (2 ^ Zdigits2 m <= 2 ^ (k - 1)) by (apply Z.pow_le_mono_r; lia). lia.
  - assert (2 ^ k <= 2 ^ (Zdigits2 m - 1)) by (apply Z.pow_le_mono_r; lia). lia.
Qed.

Lemma Zdigits2_le m k : 0 <= m < 2 ^ k -> 0 <= k -> Zdigits2 m <= k.
Proof.
  intros [Hlo Hhi] Hk. destruct (Z.eq_dec m 0) as [->|Hne]; [simpl; lia|].
  pose proof (Zdigits2_bounds m ltac:(lia)) as [Dlo Dhi].
  destruct (Z.le_gt_cases (Zdigits2 m) k); [assumption|].
  assert (2 ^ k <= 2 ^ (Zdigits2 m - 1)) by (apply Z.pow_le_mono_r; lia). lia.
Qed.

Lemma pow2_pos k : 0 < 2 ^ k \/ k < 0.
Proof. destruct (Z.lt_ge_cases k 0); [right; assumption | left; apply Z.pow_pos_nonneg; lia]. Qed.

Lemma shr_fexp_spec m e l :
  0 <= m ->
  let e1 := Z.max e (Z.max (Zdigits2 m + e - 24) (-149)) in
  (shr_fexp 24 128 m e l).2 = e1
  /\ shr_m (shr_fexp 24 128 m e l).1 = m / 2 ^ (e1 - e)
  /\ (l = loc_Exact -> e1 = e -> loc_of_shr_record (shr_fexp 24 128 m e l).1 = loc_Exact).
Proof.
  intros Hm e1. unfold shr_fexp, shr. rewrite fexp32. fold (Z.max (Zdigits2 m + e - 24) (-149)).
  destruct (Z.max (Zdigits2 m + e - 24) (-149) - e) as [|p|p] eqn:E; simpl.
  - assert (He : e1 = e) by (subst e1; lia).
    rewrite He, Z.sub_diag, Z.div_1_r, shr_record_of_loc_m.
    repeat split. intros -> _. reflexivity.
  - assert (He : e1 = e + Zpos p) by (subst e1; lia).
    rewrite He. replace (e + Zpos p - e) with (Zpos p) by lia.
    rewrite iter_pos_shr_m by (rewrite shr_record_of_loc_m; lia).
    rewrite shr_record_of_loc_m. repeat split. intros _ H. lia.
  - assert (He : e1 = e) by (subst e1; lia).
    rewrite He, Z.sub_diag, Z.div_1_r, shr_record_of_loc_m.
    repeat split. intros -> _. reflexivity.
Qed.

Lemma round_nearest_even_bounds m l : m <= round_nearest_even m l <= m + 1.
Proof. destruct l as [|[]]; simpl; try destruct (Z.even m); lia. Qed.

Lemma binary_round_aux_spec sx m e l :
  0 <= m ->
  let e1 := Z.max e (Z.max (Zdigits2 m + e - 24) (-149)) in
  let m' := m / 2 ^ (e1 - e) in
  exists m1,
    m' <= m1 <= m' + 1
    /\ (l = loc_Exact -> e1 = e -> m1 = m)
    /\ (m1 = 0 -> binary_round_aux 24 128 sx m e l = S754_zero sx)
    /\ (0 < m1 -> e1 <= 103 ->
        exists m'' e'',
          binary_round_aux 24 128 sx m e l = S754_finite sx m'' e''
          /\ e1 <= e'' /\ Zpos m'' * 2 ^ (e'' - e1) = m1).
Proof.
  intros Hm e1 m'.
  destruct (shr_fexp_spec m e l Hm) as (He1 & Hm' & Hex).
  fold e1 in He1, Hm', Hex. fold m' in Hm'.
  unfold binary_round_aux.
  destruct (shr_fexp 24 128 m e l) as [mrs' e'] eqn:E1. simpl in He1, Hm', Hex. subst e'.
  set (m1 := round_nearest_even (shr_m mrs') (loc_of_shr_record mrs')).
  pose proof (round_nearest_even_bounds (shr_m mrs') (loc_of_shr_record mrs')) as Hb.
  fold m1 in Hb. rewrite Hm' in Hb.
  assert (He1lo : -149 <= e1) by (subst e1; lia).
  assert (Hk : 0 <= e1 - e) by (subst e1; lia).
  assert (Hm'0 : 0 <= m') by (subst m'; apply Z.div_pos; [lia | apply Z.pow_pos_nonneg; lia]).
  assert (Hm'hi : m' < 2 ^ 24).
  { subst m'. apply Z.div_lt_upper_bound; [apply Z.pow_pos_nonneg; lia|].
    rewrite <- Z.pow_add_r by lia.
    destruct (Z.eq_dec m 0) as [->|Hne]; [apply Z.pow_pos_nonneg; lia|].
    pose proof (Zdigits2_bounds m ltac:(lia)) as [_ Hd].
    eapply Z.lt_le_trans; [exact Hd|]. apply Z.pow_le_mono_r; [lia|]. subst e1. lia. }
  assert (Hexact : l = loc_Exact -> e1 = e -> m1 = m).
  { intros Hl He. specialize (Hex Hl He). subst m1. rewrite Hex. simpl.
    rewrite Hm'. subst m'. rewrite He, Z.sub_diag, Z.div_1_r. reflexivity. }
  clearbody m1.
  exists m1. split; [exact Hb|]. split; [exact Hexact|].
  destruct (shr_fexp_spec m1 e1 loc_Exact ltac:(lia)) as (He2 & Hm2 & _).
  destruct (shr_fexp 24 128 m1 e1 loc_Exact) as [mrs'' e''] eqn:E2. simpl in He2, Hm2.
  rewrite <- He2 in Hm2.
  split.
  - intros H0. rewrite Hm2. subst m1. rewrite Z.div_0_l; [reflexivity|].
    apply Z.pow_nonzero; [lia|]. simpl in He2. lia.
  - intros Hpos Hov.
    assert (Hd1 : Zdigits2 m1 <= 25).
    { apply Zdigits2_le; [|lia]. split; [lia|]. change (2 ^ 25) with (2 * 2 ^ 24). lia. }
    destruct (Z.le_gt_cases (Zdigits2 m1) 24) as [Hd|Hd].
    + assert (H : e'' = e1) by lia.
      rewrite H, Z.sub_diag, Z.div_1_r in Hm2. rewrite Hm2.
      destruct m1 as [|p|p] eqn:Em1; try lia.
      rewrite H. destruct (Z.leb_spec e1 (128 - 24)); [|lia].
      exists p, e1. rewrite Z.sub_diag. simpl. repeat split; lia.
    + assert (Hd25 : Zdigits2 m1 = 25) by lia.
      pose proof (Zdigits2_bounds m1 Hpos) as [Hlo _]. rewrite Hd25 in Hlo.
      change (2 ^ (25 - 1)) with (2 ^ 24) in Hlo.
      assert (Hm1 : m1 = 2 ^ 24) by lia.
      assert (He'' : e'' = e1 + 1) by lia.
      rewrite He'' in Hm2 |- *. replace (e1 + 1 - e1) with 1 in Hm2 by lia.
      rewrite Hm1 in Hm2. change (2 ^ 24 / 2 ^ 1) with 8388608 in Hm2.
      rewrite Hm2. destruct (Z.leb_spec (e1 + 1) (128 - 24)); [|lia].
      exists 8388608%positive, (e1 + 1). replace (e1 + 1 - e1) with 1 by lia.
      rewrite Hm1. repeat split; first [lia | reflexivity].
Qed.

Lemma binary_round_aux_scaled m e l :
  0 <= m ->
  let e1 := Z.max e (Z.max (Zdigits2 m + e - 24) (-149)) in
  e1 <= 103 ->
  exists m1,
    nonneg_fin (binary_round_aux 24 128 false m e l)
    /\ scaled (binary_round_aux 24 128 false m e l) = m1 * 2 ^ (e1 + 149)
    /\ m / 2 ^ (e1 - e) <= m1 <= m / 2 ^ (e1 - e) + 1
    /\ (l = loc_Exact -> e1 = e -> m1 = m).
Proof.
  intros Hm e1 He1.
  destruct (binary_round_aux_spec false m e l Hm) as (m1 & Hb & Hex & Hz & Hp).
  fold e1 in Hb, Hex, Hz, Hp.
  exists m1.
  assert (Hk : 0 <= e1 - e) by (subst e1; lia).
  assert (H0 : 0 <= m / 2 ^ (e1 - e)) by (apply Z.div_pos; [lia | apply Z.pow_pos_nonneg; lia]).
  destruct (Z.eq_dec m1 0) as [Hm1|Hm1].
  - rewrite (Hz Hm1). simpl. subst m1. repeat split; auto; lia.
  - destruct (Hp ltac:(lia) He1) as (m'' & e'' & -> & Hge & Hval).
    assert (-149 <= e1) by (subst e1; lia).
    simpl. repeat split; auto; try lia.
    rewrite <- Hval, <- Z.mul_assoc, <- Z.pow_add_r by lia.
    do 2 f_equal. lia.
Qed.

Lemma binary_round_aux_class sx m e l :
  0 <= m ->
  match binary_round_aux 24 128 sx m e l with
  | S754_zero s | S754_infinity s | S754_finite s _ _ => s = sx
  | S754_nan => False
  end.
Proof.
  intros Hm. unfold binary_round_aux.
  destruct (shr_fexp_spec m e l Hm) as (He1 & Hm' & _).
  destruct (shr_fexp 24 128 m e l) as [mrs' e'] eqn:E1. simpl in He1, Hm'.
  pose proof (round_nearest_even_bounds (shr_m mrs') (loc_of_shr_record mrs')) as Hb.
  assert (H0 : 0 <= shr_m mrs').
  { rewrite Hm'. apply Z.div_pos; [lia | apply Z.pow_pos_nonneg; lia]. }
  destruct (shr_fexp_spec (round_nearest_even (shr_m mrs') (loc_of_shr_record mrs')) e'
              loc_Exact ltac:(lia)) as (He2 & Hm2 & _).
  destruct (shr_fexp 24 128 _ e' loc_Exact) as [mrs'' e''] eqn:E2. simpl in He2, Hm2.
  assert (H2 : 0 <= shr_m mrs'').
  { rewrite Hm2. apply Z.div_pos; [lia | apply Z.pow_pos_nonneg; lia]. }
  destruct (shr_m mrs''); [reflexivity | destruct (_ <=? _); reflexivity | lia].
Qed.

Lemma pos_iter_xO m d : Zpos (Pos.iter xO m d) = Zpos m * 2 ^ Zpos d.
Proof.
  induction d as [|d IH] using Pos.peano_ind.
  - simpl. lia.
  - rewrite Pos.iter_succ, Pos2Z.inj_succ, Z.pow_succ_r by lia.
    rewrite (Pos2Z.inj_xO (Pos.iter xO m d)), IH. lia.
Qed.

Lemma shl_align_spec mx ex ez :
  (shl_align mx ex ez).2 = Z.min ex ez
  /\ Zpos (shl_align mx ex ez).1 = Zpos mx * 2 ^ (ex - Z.min ex ez).
Proof.
  unfold shl_align. destruct (ez - ex) as [|p|p] eqn:E; simpl.
  - replace (Z.min ex ez) with ex by lia. rewrite Z.sub_diag. split; lia.
  - replace (Z.min ex ez) with ex by lia. rewrite Z.sub_diag. split; lia.
  - replace (Z.min ex ez) with ez by lia. split; [reflexivity|].
    rewrite pos_iter_xO. do 2 f_equal. lia.
Qed.

Lemma div_round_abs m D m1 :
  0 < D -> m / D <= m1 <= m / D + 1 -> Z.abs (m1 * D - m) <= D.
Proof.
  intros HD Hm1.
  pose proof (Z.div_mod m D ltac:(lia)) as Hdm.
  pose proof (Z.mod_pos_bound m D HD) as Hmod.
  set (q := m / D) in *. set (r := m mod D) in *. nia.
Qed.

Lemma round_error_arith mz K Q m1 :
  0 < K -> 0 < Q -> 2 ^ 23 * K <= mz -> mz / K <= m1 <= mz / K + 1 ->
  2 ^ 23 * Z.abs (m1 * K * Q - mz * Q) <= mz * Q.
Proof.
  intros HK HQ Hmz Hm1.
  pose proof (div_round_abs mz K m1 HK Hm1) as Hd.
  replace (m1 * K * Q - mz * Q) with ((m1 * K - mz) * Q) by ring.
  rewrite Z.abs_mul, (Z.abs_eq Q) by lia.
  transitivity (2 ^ 23 * (K * Q)).
  - apply Z.mul_le_mono_nonneg_l; [lia|]. apply Z.mul_le_mono_nonneg_r; lia.
  - rewrite Z.mul_assoc. apply Z.mul_le_mono_nonneg_r; lia.
Qed.

Lemma binary_round_value mx ex :
  -149 <= ex -> Zpos mx * 2 ^ (ex + 149) < 2 ^ 152 ->
  nonneg_fin (binary_round 24 128 false mx ex)
  /\ 2 ^ 23 * Z.abs (scaled (binary_round 24 128 false mx ex) - Zpos mx * 2 ^ (ex + 149))
     <= Zpos mx * 2 ^ (ex + 149).
Proof.
  intros Hex HX. unfold binary_round.
  destruct (shl_align_spec mx ex (fexp 24 128 (Zpos (digits2_pos mx) + ex))) as [Hez Hmz].
  destruct (shl_align mx ex _) as [mz ez]. simpl in Hez, Hmz. rewrite fexp32 in Hez, Hmz.
  rewrite <- Hez in Hmz.
  assert (Hezlo : -149 <= ez) by lia.
  assert (Hezhi : ez <= ex) by lia.
  assert (HXz : Zpos mx * 2 ^ (ex + 149) = Zpos mz * 2 ^ (ez + 149)).
  { rewrite Hmz, <- Z.mul_assoc, <- Z.pow_add_r by lia. do 2 f_equal. lia. }
  rewrite HXz in *.
  assert (HQ : 0 < 2 ^ (ez + 149)) by (apply Z.pow_pos_nonneg; lia).
  pose proof (Zdigits2_bounds (Zpos mz) ltac:(lia)) as [Dlo Dhi].
  pose proof (Zdigits2_pos (Zpos mz) ltac:(lia)) as Dpos.
  set (d := Zdigits2 (Zpos mz)) in *.
  assert (Hd : d + ez <= 3).
  { destruct (Z.le_gt_cases (d + ez) 3) as [H|H]; [assumption|exfalso].
    assert (2 ^ 152 <= 2 ^ (d - 1) * 2 ^ (ez + 149)).
    { rewrite <- Z.pow_add_r by lia. apply Z.pow_le_mono_r; lia. }
    assert (2 ^ (d - 1) * 2 ^ (ez + 149) <= Zpos mz * 2 ^ (ez + 149))
      by (apply Z.mul_le_mono_nonneg_r; lia).
    lia. }
  assert (Hez3 : ez <= 3) by lia.
  destruct (binary_round_aux_scaled (Zpos mz) ez loc_Exact ltac:(lia)) as (m1 & Hnn & Hs & Hb & Hexact).
  { fold d. lia. }
  fold d in Hs, Hb, Hexact.
  split; [exact Hnn|]. rewrite Hs.
  destruct (Z.le_gt_cases (d + ez - 24) ez) as [Hc|Hc].
  - replace (Z.max ez (Z.max (d + ez - 24) (-149))) with ez in * by lia.
    rewrite (Hexact eq_refl eq_refl), Z.sub_diag, Z.abs_0. lia.
  - replace (Z.max ez (Z.max (d + ez - 24) (-149))) with (d + ez - 24) in * by lia.
    replace (d + ez - 24 - ez) with (d - 24) in Hb by lia.
    replace (d + ez - 24 + 149) with ((d - 24) + (ez + 149)) by lia.
    rewrite Z.pow_add_r, Z.mul_assoc by lia.
    apply round_error_arith; try assumption.
    + apply Z.pow_pos_nonneg; lia.
    + rewrite <- Z.pow_add_r by lia. replace (23 + (d - 24)) with (d - 1) by lia. exact Dlo.
Qed.

Lemma nonneg_fin_scaled x : nonneg_fin x -> 0 <= scaled x.
Proof.
  destruct x as [s|s| |s m e]; simpl; try lia. intros [-> He]. simpl.
  apply Z.mul_nonneg_nonneg; [lia | apply Z.pow_nonneg; lia].
Qed.

Lemma fadd_value a b :
  nonneg_fin a -> nonneg_fin b -> scaled a + scaled b < 2 ^ 152 ->
  nonneg_fin (fadd a b)
  /\ 2 ^ 23 * Z.abs (scaled (fadd a b) - (scaled a + scaled b)) <= scaled a + scaled b.
Proof.
  intros Ha Hb Hlt.
  pose proof (nonneg_fin_scaled a Ha) as Ha0. pose proof (nonneg_fin_scaled b Hb) as Hb0.
  destruct a as [sa|sa| |sa ma ea], b as [sb|sb| |sb mb eb]; simpl in Ha, Hb; try contradiction.
  - subst. simpl. split; [reflexivity | lia].
  - destruct Hb as [-> Hb]. subst sa. unfold fadd. simpl SFadd. split; [simpl; auto|].
    replace (scaled (S754_zero false)) with 0 by reflexivity.
    rewrite Z.add_0_l, Z.sub_diag, Z.abs_0. lia.
  - destruct Ha as [-> Ha]. subst sb. unfold fadd. simpl SFadd. split; [simpl; auto|].
    replace (scaled (S754_zero false)) with 0 by reflexivity.
    rewrite Z.add_0_r, Z.sub_diag, Z.abs_0. lia.
  - destruct Ha as [-> Ha], Hb as [-> Hb]. unfold fadd, SFadd.
    destruct (shl_align_spec ma ea (Z.min ea eb)) as [_ Hma].
    destruct (shl_align_spec mb eb (Z.min ea eb)) as [_ Hmb].
    replace (Z.min ea (Z.min ea eb)) with (Z.min ea eb) in Hma by lia.
    replace (Z.min eb (Z.min ea eb)) with (Z.min ea eb) in Hmb by lia.
    set (ez := Z.min ea eb) in *.
    simpl cond_Zopp.
    set (ma' := (shl_align ma ea ez).1) in *. set (mb' := (shl_align mb eb ez).1) in *.
    change (Zpos ma' + Zpos mb') with (Zpos (ma' + mb')).
    unfold binary_normalize.
    assert (HX : scaled (S754_finite false ma ea) + scaled (S754_finite false mb eb)
                 = Zpos (ma' + mb') * 2 ^ (ez + 149)).
    { simpl scaled. rewrite Pos2Z.inj_add, Z.mul_add_distr_r, Hma, Hmb.
      rewrite <- !Z.mul_assoc, <- !Z.pow_add_r by lia.
      f_equal; do 2 f_equal; lia. }
    rewrite HX in *.
    apply binary_round_value; [lia | assumption].
Qed.

Lemma pow2_lt_inv a b : 0 <= b -> 2 ^ a < 2 ^ b -> a < b.
Proof.
  intros Hb H. destruct (Z.lt_ge_cases a b) as [Hc|Hc]; [assumption|exfalso].
  assert (2 ^ b <= 2 ^ a) by (apply Z.pow_le_mono_r; lia). lia.
Qed.

Lemma fdiv_value a mb eb :
  nonneg_fin a -> -149 <= eb ->
  scaled a < 2 * scaled (S754_finite false mb eb) ->
  nonneg_fin (fdiv a (S754_finite false mb eb))
  /\ Z.abs (scaled (fdiv a (S754_finite false mb eb)) * scaled (S754_finite false mb eb)
            - scaled a * 2 ^ 149) <= 2 ^ 126 * scaled (S754_finite false mb eb).
Proof.
  intros Ha Heb Hlt.
  assert (HS0 : 0 < scaled (S754_finite false mb eb)).
  { simpl. apply Z.mul_pos_pos; [lia | apply Z.pow_pos_nonneg; lia]. }
  destruct a as [sa|sa| |sa ma ea]; simpl in Ha; try contradiction.
  - subst sa. split; [reflexivity|].
    change (fdiv (S754_zero false) (S754_finite false mb eb)) with (S754_zero false).
    change (scaled (S754_zero false)) with 0. simpl Z.abs. lia.
  - destruct Ha as [-> Hea].
    set (S := scaled (S754_finite false mb eb)) in *.
    set (E := scaled (S754_finite false ma ea)) in *.
    assert (HS : S = Zpos mb * 2 ^ (eb + 149)) by reflexivity.
    assert (HE : E = Zpos ma * 2 ^ (ea + 149)) by reflexivity.
    unfold fdiv, SFdiv, SFdiv_core_binary. rewrite fexp32.
    change (xorb false false) with false.
    set (d1 := Zdigits2 (Zpos ma)). set (d2 := Zdigits2 (Zpos mb)).
    set (e' := Z.min (Z.max (d1 + ea - (d2 + eb) - 24) (-149)) (ea - eb)).
    set (s := ea - eb - e').
    match goal with |- context [Z.div_eucl ?x _] => set (m' := x) end.
    assert (Hs : 0 <= s) by (subst s e'; lia).
    assert (Hm' : m' = Zpos ma * 2 ^ s).
    { subst m'. destruct s as [|p|p] eqn:Es; [simpl; lia | | lia].
      rewrite Z.shiftl_mul_pow2 by lia. reflexivity. }
    (* the quotient is below 2 *)
    pose proof (Zdigits2_bounds (Zpos ma) ltac:(lia)) as [D1lo _]. fold d1 in D1lo.
    pose proof (Zdigits2_bounds (Zpos mb) ltac:(lia)) as [_ D2hi]. fold d2 in D2hi.
    pose proof (Zdigits2_pos (Zpos ma) ltac:(lia)) as D1pos. fold d1 in D1pos.
    pose proof (Zdigits2_pos (Zpos mb) ltac:(lia)) as D2pos. fold d2 in D2pos.
    assert (Hd : d1 + ea - (d2 + eb) <= 1).
    { assert (H1 : 2 ^ (d1 - 1 + (ea + 149)) <= E).
      { rewrite HE, (Z.pow_add_r 2 (d1 - 1)) by lia. apply Z.mul_le_mono_nonneg_r; [apply Z.pow_nonneg|]; lia. }
      assert (H2 : 2 * S < 2 ^ (d2 + 1 + (eb + 149))).
      { rewrite HS. replace (d2 + 1 + (eb + 149)) with (1 + (d2 + (eb + 149))) by lia.
        rewrite (Z.pow_add_r 2 1), (Z.pow_add_r 2 d2) by lia. change (2 ^ 1) with 2.
        assert (0 < 2 ^ (eb + 149)) by (apply Z.pow_pos_nonneg; lia). nia. }
      assert (d1 - 1 + (ea + 149) < d2 + 1 + (eb + 149)) by (apply pow2_lt_inv; lia).
      lia. }
    assert (He'hi : e' <= -23) by (subst e'; lia).
    assert (He'lo : 0 <= e' + eb + 298) by (subst e'; lia).
    set (G := 2 ^ (e' + eb + 298)).
    assert (HG : 0 < G) by (apply Z.pow_pos_nonneg; lia).
    assert (HEU : E * 2 ^ 149 = m' * G).
    { rewrite HE, Hm'. unfold G. rewrite <- !Z.mul_assoc, <- !Z.pow_add_r by lia.
      do 2 f_equal. subst s. lia. }
    assert (H2SU : 2 * S * 2 ^ 149 = 2 ^ (1 - e') * Zpos mb * G).
    { rewrite HS. unfold G.
      replace (2 * (Zpos mb * 2 ^ (eb + 149)) * 2 ^ 149)
        with (Zpos mb * (2 ^ 1 * 2 ^ (eb + 149) * 2 ^ 149)) by (change (2 ^ 1) with 2; ring).
      replace (2 ^ (1 - e') * Zpos mb * 2 ^ (e' + eb + 298))
        with (Zpos mb * (2 ^ (1 - e') * 2 ^ (e' + eb + 298))) by ring.
      rewrite <- !Z.pow_add_r by lia. do 2 f_equal. lia. }
    destruct (Z.div_eucl m' (Zpos mb)) as [q r] eqn:Eqr.
    assert (Hq : q = m' / Zpos mb) by (unfold Z.div; rewrite Eqr; reflexivity).
    assert (Hm'0 : 0 <= m').
    { rewrite Hm'. apply Z.mul_nonneg_nonneg; [lia | apply Z.pow_nonneg; lia]. }
    assert (Hq0 : 0 <= q) by (rewrite Hq; apply Z.div_pos; lia).
    assert (Hqm : q * Zpos mb <= m').
    { rewrite Hq, Z.mul_comm. apply Z.mul_div_le. lia. }
    assert (Hqhi : q < 2 ^ (1 - e')).
    { destruct (Z.lt_ge_cases q (2 ^ (1 - e'))) as [H|H]; [assumption|exfalso].
      assert (2 ^ (1 - e') * Zpos mb * G <= q * Zpos mb * G).
      { apply Z.mul_le_mono_nonneg_r; [lia|]. apply Z.mul_le_mono_nonneg_r; lia. }
      assert (q * Zpos mb * G <= m' * G) by (apply Z.mul_le_mono_nonneg_r; lia).
      assert (E * 2 ^ 149 < 2 * S * 2 ^ 149) by (apply Z.mul_lt_mono_pos_r; lia).
      lia. }
    assert (Hdq : Zdigits2 q <= 1 - e') by (apply Zdigits2_le; lia).
    destruct (binary_round_aux_scaled q e' (new_location (Zpos mb) r) Hq0)
      as (m1 & Hnn & Hsc & Hb & _); [lia|].
    set (e1 := Z.max e' (Z.max (Zdigits2 q + e' - 24) (-149))) in *.
    assert (He1hi : e1 <= -23) by (subst e1; lia).
    assert (He1lo : -149 <= e1) by (subst e1; lia).
    assert (Hk : 0 <= e1 - e') by (subst e1; lia).
    split; [exact Hnn|]. rewrite Hsc, HEU.
    set (K := 2 ^ (e1 - e')) in *.
    assert (HK : 0 < K) by (apply Z.pow_pos_nonneg; lia).
    set (D := Zpos mb * K).
    assert (HD : 0 < D) by (subst D; lia).
    assert (HWS : m1 * 2 ^ (e1 + 149) * S = m1 * D * G).
    { rewrite HS. unfold D, K, G.
      replace (m1 * 2 ^ (e1 + 149) * (Zpos mb * 2 ^ (eb + 149)))
        with (m1 * Zpos mb * (2 ^ (e1 + 149) * 2 ^ (eb + 149))) by ring.
      replace (m1 * (Zpos mb * 2 ^ (e1 - e')) * 2 ^ (e' + eb + 298))
        with (m1 * Zpos mb * (2 ^ (e1 - e') * 2 ^ (e' + eb + 298))) by ring.
      rewrite <- !Z.pow_add_r by lia. do 2 f_equal. lia. }
    assert (HPS : 2 ^ (e1 + 149) * S = D * G).
    { rewrite HS. unfold D, K, G.
      replace (2 ^ (e1 + 149) * (Zpos mb * 2 ^ (eb + 149)))
        with (Zpos mb * (2 ^ (e1 + 149) * 2 ^ (eb + 149))) by ring.
      replace (Zpos mb * 2 ^ (e1 - e') * 2 ^ (e' + eb + 298))
        with (Zpos mb * (2 ^ (e1 - e') * 2 ^ (e' + eb + 298))) by ring.
      rewrite <- !Z.pow_add_r by lia. do 2 f_equal. lia. }
    rewrite HWS.
    assert (Hqd : q / K = m' / D).
    { rewrite Hq. unfold D. apply Z.div_div; lia. }
    rewrite Hqd in Hb.
    pose proof (div_round_abs m' D m1 HD Hb) as Habs.
    replace (m1 * D * G - m' * G) with ((m1 * D - m') * G) by ring.
    rewrite Z.abs_mul, (Z.abs_eq G) by lia.
    transitivity (D * G); [apply Z.mul_le_mono_nonneg_r; lia|].
    rewrite <- HPS. apply Z.mul_le_mono_nonneg_r; [lia|].
    apply Z.pow_le_mono_r; lia.
Qed.

Lemma bounded_spec m e :
  bounded 24 128 m e = true ->
  -149 <= e /\ Zdigits2 (Zpos m) <= 24 /\ (-149 < e -> Zdigits2 (Zpos m) = 24).
Proof.
  unfold bounded, canonical_mantissa. rewrite fexp32. intros H.
  apply andb_prop in H as [H _]. apply Z.eqb_eq in H. simpl Zdigits2. lia.
Qed.

Lemma canonical_lt m1 e1 m2 e2 :
  bounded 24 128 m1 e1 = true -> bounded 24 128 m2 e2 = true -> e1 < e2 ->
  Zpos m1 * 2 ^ (e1 + 149) < Zpos m2 * 2 ^ (e2 + 149).
Proof.
  intros H1 H2 Hlt.
  apply bounded_spec in H1 as (L1 & D1 & _). apply bounded_spec in H2 as (L2 & _ & D2).
  specialize (D2 ltac:(lia)).
  pose proof (Zdigits2_bounds (Zpos m1) ltac:(lia)) as [_ B1].
  pose proof (Zdigits2_bounds (Zpos m2) ltac:(lia)) as [B2 _].
  rewrite D2 in B2. change (2 ^ (24 - 1)) with (2 ^ 23) in B2.
  assert (B1' : Zpos m1 < 2 ^ 24).
  { eapply Z.lt_le_trans; [exact B1|]. apply Z.pow_le_mono_r; lia. }
  assert (HQ1 : 0 < 2 ^ (e1 + 149)) by (apply Z.pow_pos_nonneg; lia).
  assert (HQ2 : 2 * 2 ^ (e1 + 149) <= 2 ^ (e2 + 149)).
  { change 2 with (2 ^ 1) at 1. rewrite <- Z.pow_add_r by lia. apply Z.pow_le_mono_r; lia. }
  change (2 ^ 24) with (2 * 2 ^ 23) in B1'.
  nia.
Qed.

Lemma pos_compare m1 e1 m2 e2 :
  bounded 24 128 m1 e1 = true -> bounded 24 128 m2 e2 = true ->
  (Zpos m1 * 2 ^ (e1 + 149) ?= Zpos m2 * 2 ^ (e2 + 149))
  = match e1 ?= e2 with
    | Lt => Lt
    | Gt => Gt
    | Eq => Pos.compare_cont Eq m1 m2
    end.
Proof.
  intros H1 H2. destruct (Z.compare_spec e1 e2) as [->|Hlt|Hgt].
  - apply bounded_spec in H2 as (L2 & _).
    assert (HQ : 0 < 2 ^ (e2 + 149)) by (apply Z.pow_pos_nonneg; lia).
    change (Pos.compare_cont Eq m1 m2) with (Zpos m1 ?= Zpos m2).
    destruct (Z.compare_spec (Zpos m1) (Zpos m2)) as [E|L|L].
    + rewrite E. apply Z.compare_refl.
    + apply Z.compare_lt_iff. nia.
    + apply Z.compare_gt_iff. nia.
  - apply Z.compare_lt_iff. apply canonical_lt; assumption.
  - apply Z.compare_gt_iff. apply canonical_lt; assumption.
Qed.

Lemma scaled_compare a b :
  finite_logit a -> finite_logit b ->
  SFcompare a b = Some (scaled a ?= scaled b).
Proof.
  intros [Fa Va] [Fb Vb].
  destruct a as [sa|sa| |sa ma ea], b as [sb|sb| |sb mb eb]; try discriminate;
    simpl in Va, Vb.
  - reflexivity.
  - pose proof (bounded_spec _ _ Vb) as (Lb & _).
    assert (0 < Zpos mb * 2 ^ (eb + 149))
      by (apply Z.mul_pos_pos; [lia | apply Z.pow_pos_nonneg; lia]).
    unfold SFcompare, scaled, cond_Zopp. f_equal. destruct sb; symmetry;
      [apply Z.compare_gt_iff | apply Z.compare_lt_iff]; lia.
  - pose proof (bounded_spec _ _ Va) as (La & _).
    assert (0 < Zpos ma * 2 ^ (ea + 149))
      by (apply Z.mul_pos_pos; [lia | apply Z.pow_pos_nonneg; lia]).
    unfold SFcompare, scaled, cond_Zopp. f_equal. destruct sa; symmetry;
      [apply Z.compare_lt_iff | apply Z.compare_gt_iff]; lia.
  - pose proof (bounded_spec _ _ Va) as (La & _).
    pose proof (bounded_spec _ _ Vb) as (Lb & _).
    assert (0 < Zpos ma * 2 ^ (ea + 149))
      by (apply Z.mul_pos_pos; [lia | apply Z.pow_pos_nonneg; lia]).
    assert (0 < Zpos mb * 2 ^ (eb + 149))
      by (apply Z.mul_pos_pos; [lia | apply Z.pow_pos_nonneg; lia]).
    unfold SFcompare, scaled. f_equal.
    destruct sa, sb; unfold cond_Zopp.
    + rewrite Z.compare_opp, (pos_compare mb eb ma ea Vb Va).
      rewrite (Z.compare_antisym ea eb), (Pos.compare_cont_antisym ma mb Eq).
      destruct (ea ?= eb); simpl; reflexivity.
    + symmetry. apply Z.compare_lt_iff. lia.
    + symmetry. apply Z.compare_gt_iff. lia.
    + rewrite (pos_compare ma ea mb eb Va Vb). reflexivity.
Qed.

Lemma flt_spec a b :
  finite_logit a -> finite_logit b ->
  flt a b = true <-> scaled a < scaled b.
Proof.
  intros Ha Hb. unfold flt, SFltb. rewrite (scaled_compare a b Ha Hb).
  destruct (Z.compare_spec (scaled a) (scaled b)); split; intros; try lia; try discriminate;
    reflexivity.
Qed.

Lemma fmax_spec a b :
  finite_logit a -> finite_logit b ->
  (fmax a b = a \/ fmax a b = b)
  /\ scaled a <= scaled (fmax a b) /\ scaled b <= scaled (fmax a b).
Proof.
  intros Ha Hb. unfold fmax. pose proof (flt_spec a b Ha Hb) as H.
  destruct (flt a b).
  - pose proof (proj1 H eq_refl). split; [right; reflexivity | lia].
  - assert (~ scaled a < scaled b) by (intros C; apply H in C; discriminate).
    split; [left; reflexivity | lia].
Qed.

Lemma fmax_finite a b : finite_logit a -> finite_logit b -> finite_logit (fmax a b).
Proof. intros Ha Hb. unfold fmax. destruct (flt a b); assumption. Qed.

Lemma cond_Zopp_mul s x y : cond_Zopp s x * y = cond_Zopp s (x * y).
Proof. destruct s; simpl; lia. Qed.

Lemma fsub_self a : is_finite a = true -> fsub a a = S754_zero false.
Proof.
  destruct a as [[]|sa| |sa ma ea]; try discriminate; try reflexivity.
  intros _. unfold fsub, SFsub. rewrite Z.sub_diag. reflexivity.
Qed.

Lemma fsub_nonpositive a b :
  finite_logit a -> finite_logit b -> scaled a <= scaled b -> nonpositive (fsub a b).
Proof.
  intros [Fa Va] [Fb Vb] Hle.
  destruct a as [sa|sa| |sa ma ea], b as [sb|sb| |sb mb eb]; try discriminate;
    simpl in Va, Vb.
  - destruct sa, sb; exact I.
  - pose proof (bounded_spec _ _ Vb) as (Lb & _).
    assert (0 < Zpos mb * 2 ^ (eb + 149))
      by (apply Z.mul_pos_pos; [lia | apply Z.pow_pos_nonneg; lia]).
    destruct sb; simpl in Hle; [lia | reflexivity].
  - pose proof (bounded_spec _ _ Va) as (La & _).
    assert (0 < Zpos ma * 2 ^ (ea + 149))
      by (apply Z.mul_pos_pos; [lia | apply Z.pow_pos_nonneg; lia]).
    destruct sa; simpl in Hle; [reflexivity | lia].
  - pose proof (bounded_spec _ _ Va) as (La & _).
    pose proof (bounded_spec _ _ Vb) as (Lb & _).
    unfold fsub, SFsub.
    destruct (shl_align_spec ma ea (Z.min ea eb)) as [_ Hma].
    destruct (shl_align_spec mb eb (Z.min ea eb)) as [_ Hmb].
    replace (Z.min ea (Z.min ea eb)) with (Z.min ea eb) in Hma by lia.
    replace (Z.min eb (Z.min ea eb)) with (Z.min ea eb) in Hmb by lia.
    set (ez := Z.min ea eb) in *.
    set (ma' := (shl_align ma ea ez).1) in *. set (mb' := (shl_align mb eb ez).1) in *.
    set (z := cond_Zopp sa (Zpos ma') - cond_Zopp sb (Zpos mb')).
    assert (HQ : 0 < 2 ^ (ez + 149)) by (apply Z.pow_pos_nonneg; lia).
    assert (Hz : z * 2 ^ (ez + 149)
                 = scaled (S754_finite sa ma ea) - scaled (S754_finite sb mb eb)).
    { unfold z, scaled. rewrite Z.mul_sub_distr_r, !cond_Zopp_mul, Hma, Hmb.
      rewrite <- !Z.mul_assoc, <- !Z.pow_add_r by lia.
      replace (ea - ez + (ez + 149)) with (ea + 149) by lia.
      replace (eb - ez + (ez + 149)) with (eb + 149) by lia. reflexivity. }
    assert (Hz0 : z <= 0) by nia.
    unfold binary_normalize. destruct z as [|p|p]; [exact I | lia |].
    unfold binary_round. destruct (shl_align p ez _) as [mz ez'].
    pose proof (binary_round_aux_class true (Zpos mz) ez' loc_Exact ltac:(lia)) as Hc.
    destruct (binary_round_aux 24 128 true (Zpos mz) ez' loc_Exact); simpl; auto.
Qed.

Lemma softmax_sum_arith E0 E1 E2 S01 S P0 P1 P2 :
  0 <= E0 <= 2 ^ 149 -> 0 <= E1 <= 2 ^ 149 -> 0 <= E2 <= 2 ^ 149 ->
  2 ^ 149 <= E0 + E1 + E2 ->
  2 ^ 23 * Z.abs (S01 - (E0 + E1)) <= E0 + E1 ->
  2 ^ 23 * Z.abs (S - (S01 + E2)) <= S01 + E2 ->
  Z.abs (P0 - E0 * 2 ^ 149) <= 2 ^ 126 * S ->
  Z.abs (P1 - E1 * 2 ^ 149) <= 2 ^ 126 * S ->
  Z.abs (P2 - E2 * 2 ^ 149) <= 2 ^ 126 * S ->
  2 ^ 20 * Z.abs (P0 + P1 + P2 - 2 ^ 149 * S) <= 2 ^ 149 * S.
Proof.
  intros H0 H1 H2 HX Ha Hb Hp0 Hp1 Hp2.
  change (2 ^ 149) with 713623846352979940529142984724747568191373312 in *.
  change (2 ^ 126) with 85070591730234615865843651857942052864 in *.
  change (2 ^ 23) with 8388608 in *. change (2 ^ 20) with 1048576 in *.
  lia.
Qed.

Lemma softmax3_sum lm l0 l1 l2 :
  exp_spec lm -> finite_logit l0 -> finite_logit l1 -> finite_logit l2 ->
  let m := fmax l0 (fmax l1 l2) in
  let e0 := std_exp lm (fsub l0 m) in
  let e1 := std_exp lm (fsub l1 m) in
  let e2 := std_exp lm (fsub l2 m) in
  let s := fadd (fadd e0 e1) e2 in
  flt fzero s = true
  /\ nonneg_fin (fdiv e0 s) /\ nonneg_fin (fdiv e1 s) /\ nonneg_fin (fdiv e2 s)
  /\ 2 ^ 20 * Z.abs (scaled (fdiv e0 s) + scaled (fdiv e1 s) + scaled (fdiv e2 s) - 2 ^ 149)
     <= 2 ^ 149.
Proof.
  intros [Hone Hunit] F0 F1 F2 m e0 e1 e2 s.
  pose proof (fmax_finite l1 l2 F1 F2) as F12.
  destruct (fmax_spec l1 l2 F1 F2) as (C12 & G1 & G2).
  destruct (fmax_spec l0 (fmax l1 l2) F0 F12) as (C & G0 & G12).
  fold m in C, G0, G12.
  assert (Fm : finite_logit m) by (apply fmax_finite; assumption).
  assert (U0 : unit_float e0) by (apply Hunit, fsub_nonpositive; auto).
  assert (U1 : unit_float e1) by (apply Hunit, fsub_nonpositive; auto; lia).
  assert (U2 : unit_float e2) by (apply Hunit, fsub_nonpositive; auto; lia).
  assert (Hk : scaled e0 = 2 ^ 149 \/ scaled e1 = 2 ^ 149 \/ scaled e2 = 2 ^ 149).
  { destruct C as [C|C]; [left | destruct C12 as [C12|C12]; [right; left | right; right]].
    - unfold e0. rewrite C, fsub_self, Hone by apply F0. reflexivity.
    - unfold e1. rewrite C, C12, fsub_self, Hone by apply F1. reflexivity.
    - unfold e2. rewrite C, C12, fsub_self, Hone by apply F2. reflexivity. }
  destruct U0 as [N0 B0], U1 as [N1 B1], U2 as [N2 B2].
  pose proof (nonneg_fin_scaled e0 N0) as P0.
  pose proof (nonneg_fin_scaled e1 N1) as P1.
  pose proof (nonneg_fin_scaled e2 N2) as P2.
  clearbody e0 e1 e2.
  assert (H152 : 2 ^ 152 = 8 * 2 ^ 149) by reflexivity.
  assert (HU : 0 < 2 ^ 149) by reflexivity.
  destruct (fadd_value e0 e1 N0 N1 ltac:(lia)) as [N01 A01].
  set (s01 := fadd e0 e1) in *. clearbody s01.
  assert (HS01 : scaled s01 + scaled e2 < 2 ^ 152).
  { change (2 ^ 23) with 8388608 in A01. lia. }
  destruct (fadd_value s01 e2 N01 N2 HS01) as [Ns As].
  fold s in Ns, As. clearbody s.
  assert (HX : 2 ^ 149 <= scaled e0 + scaled e1 + scaled e2) by lia.
  assert (HS : 2 ^ 149 < 2 * scaled s).
  { change (2 ^ 23) with 8388608 in A01, As. lia. }
  destruct s as [ss|ss| |ss ms es]; simpl in Ns; try contradiction.
  { simpl in HS. lia. }
  destruct Ns as [-> Hes].
  split; [reflexivity|].
  destruct (fdiv_value e0 ms es N0 Hes ltac:(lia)) as [Nw Aw].
  destruct (fdiv_value e1 ms es N1 Hes ltac:(lia)) as [Nd Ad].
  destruct (fdiv_value e2 ms es N2 Hes ltac:(lia)) as [Nl Al].
  repeat (split; [assumption|]).
  set (S := scaled (S754_finite false ms es)) in *.
  set (W := scaled (fdiv e0 (S754_finite false ms es))) in *.
  set (D := scaled (fdiv e1 (S754_finite false ms es))) in *.
  set (L := scaled (fdiv e2 (S754_finite false ms es))) in *.
  pose proof (softmax_sum_arith (scaled e0) (scaled e1) (scaled e2) (scaled s01) S
                (W * S) (D * S) (L * S) ltac:(lia) ltac:(lia) ltac:(lia) HX A01 As Aw Ad Al) as Hfin.
  replace (W * S + D * S + L * S - 2 ^ 149 * S) with ((W + D + L - 2 ^ 149) * S) in Hfin by ring.
  rewrite Z.abs_mul, (Z.abs_eq S), Z.mul_assoc in Hfin by lia.
  apply Z.mul_le_mono_pos_r in Hfin; [exact Hfin | lia].
Qed.


(* ================================================================== *)
(** * The host softmax of [eval_one] *)

(** X1.  For finite logits, and an exponential that is 1 at [+0.0] and
    between 0 and 1 on values that are not positive, the sum of exponentials
    is positive, so the three outputs are the quotients [e_i / s]; each is
    finite and not negative, and their exact sum differs from 1 by at most
    [2 ^ -20]. *)
Theorem softmax3_sums_to_one lm logits :
  exp_spec lm ->
  finite_logit (fget logits 0) ->
  finite_logit (fget logits 1) ->
  finite_logit (fget logits 2) ->
  let m := fmax (fget logits 0) (fmax (fget logits 1) (fget logits 2)) in
  let e0 := std_exp lm (fsub (fget logits 0) m) in
  let e1 := std_exp lm (fsub (fget logits 1) m) in
  let e2 := std_exp lm (fsub (fget logits 2) m) in
  let s := fadd (fadd e0 e1) e2 in
  exists w d l,
    softmax3 lm logits = ([w; d; l], fsub w l)
    /\ w = fdiv e0 s /\ d = fdiv e1 s /\ l = fdiv e2 s
    /\ nonneg_fin w /\ nonneg_fin d /\ nonneg_fin l
    /\ 2 ^ 20 * Z.abs (scaled w + scaled d + scaled l - 2 ^ 149) <= 2 ^ 149.
Proof.
  intros Hexp F0 F1 F2 m e0 e1 e2 s.
  destruct (softmax3_sum lm _ _ _ Hexp F0 F1 F2) as (Hs & Nw & Nd & Nl & Hsum).
  fold m e0 e1 e2 s in Hs, Nw, Nd, Nl, Hsum.
  exists (fdiv e0 s), (fdiv e1 s), (fdiv e2 s).
  unfold softmax3. fold m e0 e1 e2 s. rewrite Hs. auto 10.
Qed.

Lemma softmax3_sums_to_one_witness :
  exp_spec sample_libm
  /\ exists w d l,
      softmax3 sample_libm [fone; fzero; fneg fone] = ([w; d; l], fsub w l)
      /\ nonneg_fin w /\ nonneg_fin d /\ nonneg_fin l
      /\ 2 ^ 20 * Z.abs (scaled w + scaled d + scaled l - 2 ^ 149) <= 2 ^ 149.
Proof.
  assert (Hexp : exp_spec sample_libm).
  { split; [reflexivity|]. intros x _. by_compute. }
  split; [exact Hexp|].
  destruct (softmax3_sums_to_one sample_libm [fone; fzero; fneg fone] Hexp
              ltac:(vm_compute; split; reflexivity) ltac:(vm_compute; split; reflexivity)
              ltac:(vm_compute; split; reflexivity))
    as (w & d & l & H & _ & _ & _ & Hrest).
  exists w, d, l. split; [exact H | exact Hrest].
Defined.

(** X2.  A NaN among the logits does not reach the caller: when the
    exponential maps NaN to NaN, the sum of exponentials is NaN, the test
    [s > 0.0f] fails, and the triple and the value are all [+0.0]. *)
Theorem softmax3_nan_logit lm logits :
  std_exp lm S754_nan = S754_nan ->
  fget logits 0 = S754_nan \/ fget logits 1 = S754_nan \/ fget logits 2 = S754_nan ->
  softmax3 lm logits = ([fzero; fzero; fzero], fzero).
Proof.
  intros Hnan Hl. unfold softmax3.
  set (m := fmax _ _).
  assert (Hs : fadd (fadd (std_exp lm (fsub (fget logits 0) m))
                          (std_exp lm (fsub (fget logits 1) m)))
                    (std_exp lm (fsub (fget logits 2) m)) = S754_nan).
  { destruct Hl as [H|[H|H]]; rewrite H;
      change (fsub S754_nan m) with S754_nan; rewrite Hnan.
    - reflexivity.
    - destruct (std_exp lm (fsub (fget logits 0) m)) as [[]|[]| |[]]; reflexivity.
    - match goal with |- fadd ?x S754_nan = _ => destruct x as [[]|[]| |[]] end;
        reflexivity. }
  rewrite Hs. reflexivity.
Qed.

Lemma softmax3_nan_logit_witness :
  softmax3 nan_libm [fone; S754_nan; fzero] = ([fzero; fzero; fzero], fzero).
Proof.
  apply softmax3_nan_logit; [reflexivity | right; left; reflexivity].
Defined.

(* ================================================================== *)
(** * Device discovery and the device memory helpers *)

Lemma head_filter_split {A} (P : A -> bool) (l : list A) x :
  head (List.filter P l) = Some x ->
  exists pre post, l = pre ++ x :: post /\ Forall (fun y => P y = false) pre /\ P x = true.
Proof.
  induction l as [|y l IH]; simpl; [discriminate|].
  destruct (P y) eqn:E; simpl.
  - intros H. inversion H; subst. exists [], l. auto.
  - intros H. destruct (IH H) as (pre & post & -> & Hpre & Hx).
    exists (y :: pre), post. split; [reflexivity|]. split; [constructor|]; assumption.
Qed.

(** X3.  [select_intel_gpu] hands back the first device of the enumeration
    that is a GPU and whose vendor contains "intel" in any letter case; it
    fails exactly when there is none, and then [device_count] is 0. *)
Theorem select_intel_gpu_first pf :
  match select_intel_gpu pf with
  | Some dev =>
      exists pre post,
        gpu_devices pf = Some (pre ++ dev :: post)
        /\ Forall (fun d => is_intel_gpu d = false) pre
        /\ is_gpu dev = true
        /\ exists n, String.index 0 "intel" (to_lower (vendor dev)) = Some n
  | None =>
      device_count pf = 0
      /\ forall devices d, gpu_devices pf = Some devices -> In d devices ->
                           is_intel_gpu d = false
  end.
Proof.
  unfold select_intel_gpu, device_count, intel_gpus.
  destruct (gpu_devices pf) as [devices|]; simpl.
  - destruct (head (List.filter is_intel_gpu devices)) as [dev|] eqn:E.
    + apply head_filter_split in E as (pre & post & -> & Hpre & Hdev).
      exists pre, post. split; [reflexivity|]. split; [assumption|].
      unfold is_intel_gpu in Hdev. destruct (is_gpu dev); simpl in Hdev; [|discriminate].
      split; [reflexivity|].
      destruct (String.index 0 "intel" (to_lower (vendor dev))) as [n|]; [eauto|discriminate].
    + destruct (List.filter is_intel_gpu devices) as [|d0 l0] eqn:F; [|discriminate].
      split; [reflexivity|]. intros devs d Hd Hin. inversion Hd; subst devs.
      destruct (is_intel_gpu d) eqn:Ed; [|reflexivity].
      assert (Hf : In d (List.filter is_intel_gpu devices)) by (apply filter_In; auto).
      rewrite F in Hf. destruct Hf.
  - split; [reflexivity|]. intros devs d Hd. discriminate.
Qed.

(** X4.  [sycl_alloc] followed by [sycl_free] of its result gives the
    allocations back as they were: a successful allocation is a fresh zeroed
    buffer of the size asked for, a failed one yields the null pointer and
    allocates nothing, and freeing either leaves no trace. *)
Theorem alloc_free_roundtrip dev t count h p h' :
  heap_ok h ->
  sycl_alloc dev t count h = (p, h') ->
  (p = nullptr \/ (mem h !! p = None /\ mem h' !! p = Some (fresh_buffer t count)))
  /\ mem (sycl_free p h') = mem h
  /\ bad_frees (sycl_free p h') = bad_frees h
  /\ heap_ok h'.
Proof.
  intros [Hb Hfree] Ha.
  assert (Hu : forall h1, usm_malloc t count h = (p, h1) ->
                          ((p = nullptr /\ mem h1 = mem h /\ brk h1 = brk h)
                           \/ (p = brk h /\ mem h1 = <[brk h := fresh_buffer t count]> (mem h)
                               /\ brk h1 = brk h + 1))
                          /\ bad_frees h1 = bad_frees h).
  { intros h1. unfold usm_malloc. destruct (next_ok h) as [ok h2] eqn:En.
    apply next_ok_spec in En as (_ & Hm & Hbk & Hbf & _).
    destruct ok; intros H; inversion H; subst; simpl; rewrite ?Hm, ?Hbk, ?Hbf; auto. }
  assert (Hcases : ((p = nullptr /\ mem h' = mem h /\ brk h' = brk h)
                    \/ (p = brk h /\ mem h' = <[brk h := fresh_buffer t count]> (mem h)
                        /\ brk h' = brk h + 1))
                   /\ bad_frees h' = bad_frees h).
  { unfold sycl_alloc in Ha.
    destruct (usm_device_allocations dev); [apply Hu, Ha|].
    destruct (usm_shared_allocations dev); [apply Hu, Ha|].
    inversion Ha; subst. auto. }
  destruct Hcases as [[(-> & Hm & Hbk)|(-> & Hm & Hbk)] Hbf].
  - split; [left; reflexivity|]. unfold sycl_free. simpl.
    repeat split; try assumption; rewrite ?Hbk, ?Hm; auto.
  - assert (Hne : (brk h =? nullptr) = false) by (apply Z.eqb_neq; unfold nullptr; lia).
    split; [right; split; [apply Hfree; lia | rewrite Hm; apply lookup_insert_eq]|].
    unfold sycl_free. rewrite Hne, Hm, lookup_insert_eq. simpl.
    split; [|split; [assumption|]].
    + rewrite delete_insert_eq. apply delete_id. apply Hfree. lia.
    + split; [lia|]. intros q Hq. rewrite Hm, lookup_insert_ne by lia. apply Hfree. lia.
Qed.

Lemma alloc_free_roundtrip_witness :
  exists p h',
    sycl_alloc sample_gpu EltFloat 3 empty_mem = (p, h')
    /\ (p = nullptr
        \/ (mem empty_mem !! p = None /\ mem h' !! p = Some (fresh_buffer EltFloat 3)))
    /\ mem (sycl_free p h') = mem empty_mem
    /\ bad_frees (sycl_free p h') = bad_frees empty_mem
    /\ heap_ok h'.
Proof.
  eexists _, _. split; [reflexivity|].
  apply (alloc_free_roundtrip sample_gpu EltFloat 3 empty_mem); [|reflexivity].
  split; [reflexivity | intros q _; apply lookup_empty].
Defined.

(** X5.  What [sycl_copy_to_device] stores is what [sycl_copy_to_host] reads
    back: on a device that does not fail, copying [src] into a float buffer
    that can hold it and reading [length src] floats back yields [src], and
    the floats of the buffer past [length src] stay as they were. *)
Theorem copy_roundtrip dst src h n :
  holds_floats h dst n -> (length src <= n)%nat -> oracle h = [] ->
  exists h1,
    sycl_copy_to_device dst (FloatBuf src) h = (true, h1)
    /\ sycl_copy_to_host dst (len src) h1 = (Some src, h1)
    /\ drop (length src) (fbuf h1 dst) = drop (length src) (fbuf h dst)
    /\ layout h1 = layout h.
Proof.
  intros Hd Hlen Hor.
  rewrite (copy_to_device_reliable dst src h n Hd Hlen Hor).
  set (h1 := mem_store dst (FloatBuf (src ++ drop (length src) (fbuf h dst))) h).
  destruct (holds_floats_mem _ _ _ Hd) as (old & Hold & Hn).
  assert (Hfb : fbuf h dst = old) by (unfold fbuf; rewrite Hold; reflexivity).
  assert (Hfb1 : fbuf h1 dst = src ++ drop (length src) old).
  { unfold fbuf, h1, mem_store. simpl. rewrite lookup_insert_eq, Hfb. reflexivity. }
  assert (Hlay : layout h1 = layout h).
  { unfold layout, h1, mem_store. simpl. rewrite fmap_insert. apply insert_id.
    rewrite lookup_fmap, Hold, Hfb. simpl. rewrite length_app, length_drop.
    do 2 f_equal. lia. }
  exists h1. split; [reflexivity|]. split; [|split; [|exact Hlay]].
  - assert (Hd1 : holds_floats h1 dst n) by (unfold holds_floats; rewrite Hlay; exact Hd).
    rewrite (copy_to_host_reliable dst (len src) h1 n Hd1) by (unfold len; first [lia | exact Hor]).
    rewrite Hfb1. unfold len. rewrite Nat2Z.id, take_app_length. reflexivity.
  - rewrite Hfb1, Hfb, drop_app_length. reflexivity.
Qed.

Lemma copy_roundtrip_witness :
  exists h h1,
    holds_floats h 1 3
    /\ sycl_copy_to_device 1 (FloatBuf [fone; fone]) h = (true, h1)
    /\ sycl_copy_to_host 1 (len [fone; fone]) h1 = (Some [fone; fone], h1)
    /\ drop 2 (fbuf h1 1) = drop 2 (fbuf h 1)
    /\ layout h1 = layout h.
Proof.
  exists (sycl_alloc sample_gpu EltFloat 3 empty_mem).2.
  destruct (copy_roundtrip 1 [fone; fone] (sycl_alloc sample_gpu EltFloat 3 empty_mem).2 3)
    as (h1 & H1 & H2 & H3 & H4); [reflexivity | simpl; lia | reflexivity |].
  exists h1. split; [reflexivity|]. auto.
Defined.

(* ================================================================== *)
(** * The stream readers *)

Lemma byte_val_range b : 0 <= byte_val b < 256.
Proof.
  unfold byte_val. pose proof (Byte.to_N_bounded b) as H.
  apply N2Z.inj_le in H. change (Z.of_N 255) with 255 in H. lia.
Qed.

Lemma byte_val_of_Z z : byte_val (byte_of_Z z) = z mod 256.
Proof.
  unfold byte_of_Z, byte_val.
  pose proof (Z.mod_pos_bound z 256 ltac:(lia)) as Hr.
  destruct (Byte.of_N (Z.to_N (z mod 256))) as [b|] eqn:E.
  - apply Byte.to_of_N in E. simpl. rewrite E. apply Z2N.id. lia.
  - apply Byte.of_N_None_iff in E. lia.
Qed.

Lemma le_u32_bytes_of_i32 z :
  match bytes_of_i32 z with
  | [b0; b1; b2; b3] => le_u32 b0 b1 b2 b3 = z mod 2 ^ 32
  | _ => False
  end.
Proof.
  unfold bytes_of_i32, le_u32. rewrite !byte_val_of_Z.
  replace (z / 65536) with (z / 256 / 256) by (rewrite Z.div_div by lia; reflexivity).
  replace (z / 16777216) with (z / 256 / 256 / 256)
    by (rewrite !Z.div_div by lia; reflexivity).
  pose proof (Z.div_mod z 256 ltac:(lia)) as H0.
  pose proof (Z.div_mod (z / 256) 256 ltac:(lia)) as H1.
  pose proof (Z.div_mod (z / 256 / 256) 256 ltac:(lia)) as H2.
  pose proof (Z.div_mod (z / 256 / 256 / 256) 256 ltac:(lia)) as H3.
  pose proof (Z.mod_pos_bound z 256 ltac:(lia)) as R0.
  pose proof (Z.mod_pos_bound (z / 256) 256 ltac:(lia)) as R1.
  pose proof (Z.mod_pos_bound (z / 256 / 256) 256 ltac:(lia)) as R2.
  pose proof (Z.mod_pos_bound (z / 256 / 256 / 256) 256 ltac:(lia)) as R3.
  set (d := z / 256 / 256 / 256 / 256) in *.
  apply (Z.mod_unique_pos _ _ d); [change (2 ^ 32) with 4294967296; lia|].
  change (2 ^ 32) with 4294967296. lia.
Qed.

Lemma le_i32_bytes_of_i32 z :
  - 2 ^ 31 <= z < 2 ^ 31 ->
  match bytes_of_i32 z with
  | [b0; b1; b2; b3] => le_i32 b0 b1 b2 b3 = z
  | _ => False
  end.
Proof.
  intros Hz. pose proof (le_u32_bytes_of_i32 z) as H.
  destruct (bytes_of_i32 z) as [|b0 [|b1 [|b2 [|b3 [|? ?]]]]]; try contradiction.
  unfold le_i32, wrap32. rewrite H, Zplus_mod_idemp_l.
  rewrite Z.mod_small; lia.
Qed.

(** X6.  [read_i32] decodes four bytes as a little-endian two's complement
    integer: on the encoding of any [int32] it yields that integer and
    leaves the stream just behind it, without touching the device or the
    object; on a proper prefix of the encoding it fails. *)
Theorem read_i32_roundtrip {T} z rest (qm : DeviceMem) (o : T) :
  - 2 ^ 31 <= z < 2 ^ 31 ->
  read_i32 (mkCtx (bytes_of_i32 z ++ rest) qm o) = (Ok z, mkCtx rest qm o)
  /\ forall k, (k < 4)%nat ->
               read_i32 (mkCtx (take k (bytes_of_i32 z)) qm o) = (Fail, mkCtx [] qm o).
Proof.
  intros Hz. pose proof (le_i32_bytes_of_i32 z Hz) as H.
  destruct (bytes_of_i32 z) as [|b0 [|b1 [|b2 [|b3 [|? ?]]]]] eqn:E; try contradiction.
  split.
  - unfold read_i32. simpl. rewrite H. reflexivity.
  - intros k Hk. destruct k as [|[|[|[|k]]]]; try lia; reflexivity.
Qed.

Lemma read_i32_roundtrip_witness :
  read_i32 (mkCtx (bytes_of_i32 (-2) ++ [Byte.x07]) empty_mem tt)
  = (Ok (-2), mkCtx [Byte.x07] empty_mem tt)
  /\ forall k, (k < 4)%nat ->
               read_i32 (mkCtx (take k (bytes_of_i32 (-2))) empty_mem tt)
               = (Fail, mkCtx [] empty_mem tt).
Proof. apply (read_i32_roundtrip (-2) [Byte.x07] empty_mem tt). lia. Defined.

Lemma words_of_bytes_length n :
  forall bs, length bs = (4 * n)%nat -> length (words_of_bytes bs) = n.
Proof.
  induction n as [|n IH]; intros bs Hlen.
  - destruct bs; [reflexivity | discriminate].
  - destruct bs as [|b0 [|b1 [|b2 [|b3 rest]]]]; simpl in Hlen; try lia.
    simpl. f_equal. apply IH. lia.
Qed.

(** X7.  A successful [read_float_array] has read a count that is not
    negative and exactly four bytes for each of that many floats: the stream
    moves on by [4 + 4 * count] bytes, the array has [count] entries, and
    the device and the object are left alone. *)
Theorem read_float_array_consumes {T} (s : Ctx T) fl s' :
  read_float_array s = (Ok fl, s') ->
  exists b0 b1 b2 b3 payload,
    cx_f s = b0 :: b1 :: b2 :: b3 :: payload ++ cx_f s'
    /\ 0 <= le_i32 b0 b1 b2 b3
    /\ len payload = 4 * le_i32 b0 b1 b2 b3
    /\ len fl = le_i32 b0 b1 b2 b3
    /\ fl = floats_of_bytes payload
    /\ cx_q s' = cx_q s /\ cx_out s' = cx_out s.
Proof.
  unfold read_float_array. intros H.
  apply bind_ok in H as (size & s1 & Hr & H).
  apply read_i32_ok in Hr as (b0 & b1 & b2 & b3 & Hf & Hsize & Hq1 & Ho1).
  apply bind_ok in H as (u & t & Hg & H). apply guard_ok in Hg as [Hg ->].
  apply Z.leb_le in Hg.
  apply bind_ok in H as (bs & s2 & Hb & H).
  pose proof Hb as Hb'. unfold read_bytes in Hb'.
  destruct (Z.of_nat (length (cx_f s1)) <? 4 * to_size_t size) eqn:El; [discriminate|].
  apply Z.ltb_ge in El.
  apply read_bytes_ok in Hb as (Hf2 & Hbs & Hq2 & Ho2).
  inversion H; subst fl s'. clear H Hb'.
  pose proof (le_i32_range b0 b1 b2 b3) as Hrange. rewrite <- Hsize in Hrange.
  assert (Hts : to_size_t size = size) by (apply to_size_t_small; lia).
  rewrite Hts in *.
  assert (Hlen : length bs = (4 * Z.to_nat size)%nat).
  { rewrite Hbs, length_take. lia. }
  exists b0, b1, b2, b3, bs. rewrite <- Hsize.
  split; [rewrite Hf, Hf2; reflexivity|].
  split; [assumption|].
  split; [unfold len; lia|].
  split; [|split; [reflexivity | split; congruence]].
  unfold len, floats_of_bytes. rewrite length_fmap, (words_of_bytes_length _ _ Hlen). lia.
Qed.

Lemma read_float_array_consumes_witness :
  exists fl s',
    read_float_array (mkCtx (bytes_of_words (array_words 2 one_bits) ++ [Byte.x07])
                            empty_mem tt) = (Ok fl, s')
    /\ fl = [fone; fone] /\ cx_f s' = [Byte.x07]
    /\ exists b0 b1 b2 b3 payload,
        bytes_of_words (array_words 2 one_bits) ++ [Byte.x07]
        = b0 :: b1 :: b2 :: b3 :: payload ++ cx_f s'
        /\ 0 <= le_i32 b0 b1 b2 b3
        /\ len payload = 4 * le_i32 b0 b1 b2 b3
        /\ len fl = le_i32 b0 b1 b2 b3
        /\ fl = floats_of_bytes payload
        /\ cx_q s' = empty_mem /\ cx_out s' = tt.
Proof.
  eexists _, _. split; [vm_compute; reflexivity|].
  split; [reflexivity|]. split; [reflexivity|].
  apply (read_float_array_consumes
           (mkCtx (bytes_of_words (array_words 2 one_bits) ++ [Byte.x07]) empty_mem tt)).
  vm_compute. reflexivity.
Defined.

(* ================================================================== *)
(** * Layer records on the device *)

Lemma copy_to_device_ok dst src h h' :
  sycl_copy_to_device dst src h = (true, h') ->
  brk h' = brk h /\ bad_frees h' = bad_frees h
  /\ match src with
     | FloatBuf s =>
         exists old, mem h !! dst = Some (FloatBuf old) /\ (length s <= length old)%nat
                     /\ mem h' = <[dst := FloatBuf (s ++ drop (length s) old)]> (mem h)
     | IntBuf s =>
         exists old, mem h !! dst = Some (IntBuf old) /\ (length s <= length old)%nat
                     /\ mem h' = <[dst := IntBuf (s ++ drop (length s) old)]> (mem h)
     end.
Proof.
  unfold sycl_copy_to_device. destruct (next_ok h) as [ok h1] eqn:En.
  apply next_ok_spec in En as (_ & Hm & Hb & Hf & _).
  destruct ok; simpl; [|discriminate]. rewrite Hm.
  destruct (mem h !! dst) as [[old|old]|] eqn:E, src as [s|s]; try discriminate.
  - destruct (length s <=? length old)%nat eqn:El; [|discriminate].
    intros H. inversion H; subst. simpl. rewrite Hm. apply Nat.leb_le in El. eauto 10.
  - destruct (length s <=? length old)%nat eqn:El; [|discriminate].
    intros H. inversion H; subst. simpl. rewrite Hm. apply Nat.leb_le in El. eauto 10.
Qed.

Lemma upload_ok {T} (dst : T -> Z) src (s : Ctx T) u s' :
  upload dst src s = (Ok u, s') ->
  sycl_copy_to_device (dst (cx_out s)) src (cx_q s) = (true, cx_q s')
  /\ cx_f s' = cx_f s /\ cx_out s' = cx_out s.
Proof.
  unfold upload. destruct (sycl_copy_to_device _ _ _) as [[] h]; intros H; inversion H.
  auto.
Qed.

Lemma alloc_ok_full {T} dev t count (store : Z -> T -> T) s u s' :
  alloc dev t count store s = (Ok u, s') ->
  cx_f s' = cx_f s
  /\ cx_out s' = store (brk (cx_q s)) (cx_out s)
  /\ brk (cx_q s) <> nullptr
  /\ mem (cx_q s') = <[brk (cx_q s) := fresh_buffer t count]> (mem (cx_q s))
  /\ brk (cx_q s') = brk (cx_q s) + 1
  /\ bad_frees (cx_q s') = bad_frees (cx_q s).
Proof.
  intros H. pose proof (alloc_ok _ _ _ _ _ _ _ H) as (Ho & Hm & Hb).
  unfold alloc in H. destruct (sycl_alloc dev t count (cx_q s)) as [p h] eqn:E.
  destruct (p =? nullptr) eqn:Ep; [discriminate|]. inversion H; subst s'. simpl in *.
  apply Z.eqb_neq in Ep.
  pose proof (sycl_alloc_ok _ _ _ _ _ _ E Ep) as (-> & _ & _).
  repeat split; try assumption.
  unfold sycl_alloc, usm_malloc in E.
  destruct (next_ok (cx_q s)) as [ok h1] eqn:En.
  apply next_ok_spec in En as (_ & _ & _ & Hf & _).
  destruct (usm_device_allocations dev); [|destruct (usm_shared_allocations dev)];
    try destruct ok; inversion E; subst; simpl; try assumption; congruence.
Qed.

Lemma fresh_float_length count : 0 <= count ->
  fresh_buffer EltFloat count = FloatBuf (replicate (Z.to_nat count) fzero).
Proof. reflexivity. Qed.

(** Two allocations followed by the two uploads, as every layer loader ends. *)
Lemma upload_over_fresh (m : gmap Z buffer) p (w : list float) :
  <[p := FloatBuf (w ++ drop (length w) (replicate (Z.to_nat (len w)) fzero))]> m
  = <[p := FloatBuf w]> m.
Proof.
  unfold len. rewrite Nat2Z.id, drop_ge by (rewrite length_replicate; lia).
  rewrite app_nil_r. reflexivity.
Qed.

Ltac simpl_inserts :=
  repeat first [ rewrite lookup_insert_eq | rewrite lookup_insert_ne by lia ].

Ltac bind_step H :=
  let a := fresh "a" in
  let t := fresh "t" in
  let H1 := fresh "Hs" in
  apply bind_ok in H as (a & t & H1 & H).

Lemma read_float_array_ok {T} (s : Ctx T) fl s' :
  read_float_array s = (Ok fl, s') ->
  cx_q s' = cx_q s /\ cx_out s' = cx_out s /\ 0 <= len fl < 2 ^ 31.
Proof.
  unfold read_float_array. intros H.
  apply bind_ok in H as (size & ? & Hr & H).
  apply read_i32_ok in Hr as (b0 & b1 & b2 & b3 & _ & Hsize & Hqa & Hoa).
  apply bind_ok in H as (? & ? & Hg & H). apply guard_ok in Hg as [Hg ->].
  apply Z.leb_le in Hg.
  apply bind_ok in H as (bs & ? & Hr & H).
  pose proof Hr as Hr'. unfold read_bytes in Hr'.
  destruct (_ <? _) eqn:El; [discriminate|]. apply Z.ltb_ge in El. clear Hr'.
  apply read_bytes_ok in Hr as (_ & Hbs & Hqb & Hob). inversion H; subst fl s'. simpl in *.
  pose proof (le_i32_range b0 b1 b2 b3) as Hrange. rewrite <- Hsize in Hrange.
  rewrite to_size_t_small in * by lia.
  assert (Hlen : length bs = (4 * Z.to_nat size)%nat) by (rewrite Hbs, length_take; lia).
  split; [congruence|]. split; [congruence|].
  unfold len, floats_of_bytes. rewrite length_fmap, (words_of_bytes_length _ _ Hlen). lia.
Qed.

Lemma load_conv_spec dev s u s' :
  load_conv dev s = (Ok u, s') ->
  exists w b,
    let c := cx_out s' in
    let h := cx_q s in
    0 < Conv.inC c /\ 0 < Conv.outC c /\ (Conv.k c = 1 \/ Conv.k c = 3)
    /\ len w = wrap64 (Conv.outC c * Conv.inC c * Conv.k c * Conv.k c)
    /\ len b = Conv.outC c
    /\ Conv.params c = len w + len b
    /\ Conv.d_w c = brk h /\ Conv.d_b c = brk h + 1
    /\ brk h <> nullptr /\ brk h + 1 <> nullptr
    /\ brk (cx_q s') = brk h + 2
    /\ mem (cx_q s') = <[brk h + 1 := FloatBuf b]> (<[brk h := FloatBuf w]> (mem h))
    /\ bad_frees (cx_q s') = bad_frees h.
Proof.
  unfold load_conv. intros H.
  apply bind_ok in H as (inC & s1 & H1 & H).
  apply bind_ok in H as (outC & s2 & H2 & H).
  apply bind_ok in H as (k & s3 & H3 & H).
  apply read_i32_ok in H1 as (? & ? & ? & ? & _ & _ & Hq1 & Ho1).
  apply read_i32_ok in H2 as (? & ? & ? & ? & _ & _ & Hq2 & Ho2).
  apply read_i32_ok in H3 as (? & ? & ? & ? & _ & _ & Hq3 & Ho3).
  apply bind_ok in H as (? & ? & Hg & H). apply guard_ok in Hg as [Hg ->].
  apply bind_ok in H as (? & s4 & Hm & H). apply modify_ok in Hm. subst s4.
  apply bind_ok in H as (w & s5 & Hw & H).
  apply bind_ok in H as (b & s6 & Hb & H).
  apply read_float_array_ok in Hw as (Qw & Kw & Lw).
  apply read_float_array_ok in Hb as (Qb & Kb & Lb).
  simpl in Qw, Kw.
  apply bind_ok in H as (? & ? & Hg1 & H). apply guard_ok in Hg1 as [Hg1 ->].
  apply bind_ok in H as (? & ? & Hg2 & H). apply guard_ok in Hg2 as [Hg2 ->].
  apply bind_ok in H as (? & s7 & Hm & H). apply modify_ok in Hm. subst s7.
  apply bind_ok in H as (? & s8 & Ha1 & H).
  apply bind_ok in H as (? & s9 & Ha2 & H).
  apply bind_ok in H as (? & s10 & Hu1 & H).
  apply alloc_ok_full in Ha1 as (_ & Ho8 & Hnz & Hm8 & Hb8 & Hf8).
  apply alloc_ok_full in Ha2 as (_ & Ho9 & Hnz2 & Hm9 & Hb9 & Hf9).
  apply upload_ok in Hu1 as (Hc10 & _ & Ho10).
  apply upload_ok in H as (Hc11 & _ & Ho11).
  simpl in Ho8, Hm8, Hb8, Hf8.
  apply copy_to_device_ok in Hc10 as (Hb10 & Hf10 & old1 & Hl1 & _ & Hm10).
  apply copy_to_device_ok in Hc11 as (Hb11 & Hf11 & old2 & Hl2 & _ & Hm11).
  assert (Hh : cx_q s6 = cx_q s) by congruence.
  rewrite Hh in *. clear Hh Qb Qw Hq1 Hq2 Hq3.
  set (h0 := cx_q s) in *.
  assert (Dw : Conv.d_w (cx_out s9) = brk h0) by (rewrite Ho9, Ho8; reflexivity).
  assert (Db : Conv.d_b (cx_out s9) = brk h0 + 1) by (rewrite Ho9, Hb8; reflexivity).
  rewrite Ho10 in Hl2, Hm11. rewrite Dw in Hl1, Hm10. rewrite Db in Hl2, Hm11.
  rewrite Hb8 in Hm9, Hb9.
  rewrite Hm9, lookup_insert_ne, Hm8, lookup_insert_eq in Hl1 by lia.
  inversion Hl1; subst old1. clear Hl1.
  rewrite Hm10, lookup_insert_ne, Hm9, lookup_insert_eq in Hl2 by lia.
  inversion Hl2; subst old2. clear Hl2.
  apply negb_true_iff in Hg. apply orb_false_iff in Hg as [Hg Hk].
  apply orb_false_iff in Hg as [Hi Ho]. apply Z.leb_gt in Hi, Ho.
  apply Z.eqb_eq in Hg1, Hg2.
  exists w, b. cbv zeta.
  rewrite Ho11, Ho10, Ho9, Ho8, Kb, Kw. simpl.
  rewrite ?Hb8 in Hnz2.
  rewrite (wrap64_small (len w + len b)) by lia.
  repeat split; try assumption; try lia.
  - rewrite Hm11, Hm10, Hm9, Hm8, !upload_over_fresh.
    apply map_eq. intros p.
    destruct (Z.eq_dec p (brk h0 + 1)) as [->|N1]; [simpl_inserts; reflexivity|].
    destruct (Z.eq_dec p (brk h0)) as [->|N0]; simpl_inserts; reflexivity.
  - congruence.
Qed.

Lemma upload_fresh {T} (dst : T -> Z) (w : list float) (s : Ctx T) u s' :
  upload dst (FloatBuf w) s = (Ok u, s') ->
  mem (cx_q s) !! dst (cx_out s) = Some (fresh_buffer EltFloat (len w)) ->
  cx_out s' = cx_out s
  /\ mem (cx_q s') = <[dst (cx_out s) := FloatBuf w]> (mem (cx_q s))
  /\ brk (cx_q s') = brk (cx_q s)
  /\ bad_frees (cx_q s') = bad_frees (cx_q s).
Proof.
  intros H Hl. apply upload_ok in H as (Hc & _ & Ho).
  apply copy_to_device_ok in Hc as (Hb & Hf & old & Hold & _ & Hm).
  rewrite Hl in Hold. inversion Hold; subst old.
  rewrite upload_over_fresh in Hm. auto.
Qed.

Lemma load_dense_spec dev expectedOut s u s' :
  load_dense dev expectedOut s = (Ok u, s') ->
  exists w b,
    let d := cx_out s' in
    let h := cx_q s in
    0 < Dense.inD d /\ 0 < Dense.outD d /\ Dense.outD d = expectedOut
    /\ len w = wrap64 (Dense.outD d * Dense.inD d)
    /\ len b = Dense.outD d
    /\ Dense.params d = len w + len b
    /\ Dense.d_w d = brk h /\ Dense.d_b d = brk h + 1
    /\ brk h <> nullptr /\ brk h + 1 <> nullptr
    /\ brk (cx_q s') = brk h + 2
    /\ mem (cx_q s') = <[brk h + 1 := FloatBuf b]> (<[brk h := FloatBuf w]> (mem h))
    /\ bad_frees (cx_q s') = bad_frees h.
Proof.
  unfold load_dense. intros H.
  apply bind_ok in H as (inD & s1 & H1 & H).
  apply bind_ok in H as (outD & s2 & H2 & H).
  apply read_i32_ok in H1 as (? & ? & ? & ? & _ & _ & Hq1 & Ho1).
  apply read_i32_ok in H2 as (? & ? & ? & ? & _ & _ & Hq2 & Ho2).
  apply bind_ok in H as (? & ? & Hg & H). apply guard_ok in Hg as [Hg ->].
  apply bind_ok in H as (? & s4 & Hm & H). apply modify_ok in Hm. subst s4.
  apply bind_ok in H as (w & s5 & Hw & H).
  apply bind_ok in H as (b & s6 & Hb & H).
  apply read_float_array_ok in Hw as (Qw & Kw & Lw).
  apply read_float_array_ok in Hb as (Qb & Kb & Lb).
  simpl in Qw, Kw.
  apply bind_ok in H as (? & ? & Hg1 & H). apply guard_ok in Hg1 as [Hg1 ->].
  apply bind_ok in H as (? & ? & Hg2 & H). apply guard_ok in Hg2 as [Hg2 ->].
  apply bind_ok in H as (? & s7 & Hm & H). apply modify_ok in Hm. subst s7.
  apply bind_ok in H as (? & s8 & Ha1 & H).
  apply bind_ok in H as (? & s9 & Ha2 & H).
  apply bind_ok in H as (? & s10 & Hu1 & H).
  apply alloc_ok_full in Ha1 as (_ & Ho8 & Hnz & Hm8 & Hb8 & Hf8).
  apply alloc_ok_full in Ha2 as (_ & Ho9 & Hnz2 & Hm9 & Hb9 & Hf9).
  simpl in Ho8, Hnz, Hm8, Hb8, Hf8.
  assert (Hh : cx_q s6 = cx_q s) by congruence.
  rewrite Hh in *. clear Hh Qb Qw Hq1 Hq2.
  set (h0 := cx_q s) in *.
  rewrite Hb8 in Hm9, Hb9, Ho9.
  assert (Dw : Dense.d_w (cx_out s9) = brk h0) by (rewrite Ho9, Ho8; reflexivity).
  assert (Db : Dense.d_b (cx_out s9) = brk h0 + 1) by (rewrite Ho9; reflexivity).
  apply upload_fresh in Hu1 as (Ho10 & Hm10 & Hb10 & Hf10);
    [|rewrite Dw, Hm9, Hm8; simpl_inserts; reflexivity].
  apply upload_fresh in H as (Ho11 & Hm11 & Hb11 & Hf11);
    [|rewrite Ho10, Db, Hm10, Dw, Hm9; simpl_inserts; reflexivity].
  rewrite Ho10, Db in Hm11. rewrite Dw in Hm10.
  apply negb_true_iff in Hg. apply orb_false_iff in Hg as [Hg Hk].
  apply orb_false_iff in Hg as [Hi Ho]. apply Z.leb_gt in Hi, Ho.
  apply negb_false_iff, Z.eqb_eq in Hk.
  apply Z.eqb_eq in Hg1, Hg2.
  exists w, b. cbv zeta.
  rewrite Ho11, Ho10, Ho9, Ho8, Kb, Kw. simpl.
  rewrite ?Hb8 in Hnz2.
  rewrite (wrap64_small (len w + len b)) by lia.
  repeat split; try assumption; try lia.
  - rewrite Hm11, Hm10, Hm9, Hm8.
    apply map_eq. intros p.
    destruct (Z.eq_dec p (brk h0 + 1)) as [->|N1]; [simpl_inserts; reflexivity|].
    destruct (Z.eq_dec p (brk h0)) as [->|N0]; simpl_inserts; reflexivity.
  - congruence.
Qed.

Lemma load_se_spec dev channels mh s r s' :
  load_se dev channels mh s = (Ok r, s') ->
  let h := cx_q s in
  (r = (false, mh) /\ cx_q s' = h /\ cx_out s' = cx_out s)
  \/ (exists w1 b1 w2 b2,
        let se := cx_out s' in
        r = (true, Z.max mh (Se.hidden se))
        /\ Se.channels se = channels
        /\ Se.params se = len w1 + len b1 + len w2 + len b2
        /\ Se.d_w1 se = brk h /\ Se.d_b1 se = brk h + 1
        /\ Se.d_w2 se = brk h + 2 /\ Se.d_b2 se = brk h + 3
        /\ brk h <> nullptr
        /\ brk (cx_q s') = brk h + 4
        /\ mem (cx_q s')
           = <[brk h + 3 := FloatBuf b2]>
               (<[brk h + 2 := FloatBuf w2]>
                  (<[brk h + 1 := FloatBuf b1]> (<[brk h := FloatBuf w1]> (mem h))))
        /\ bad_frees (cx_q s') = bad_frees h).
Proof.
  unfold load_se. intros H.
  apply bind_ok in H as (p & s0 & Hp & H).
  assert (Hp' : cx_q s0 = cx_q s /\ cx_out s0 = cx_out s).
  { unfold read_u8 in Hp. destruct (cx_f s); inversion Hp; subst; auto. }
  destruct Hp' as [Hq0 Ho0].
  destruct (p =? 0).
  { left. inversion H; subst. auto. }
  right.
  apply bind_ok in H as (hidden & s1 & H1 & H).
  apply bind_ok in H as (ec & s2 & H2 & H).
  apply read_i32_ok in H1 as (? & ? & ? & ? & _ & _ & Hq1 & Ho1).
  apply read_i32_ok in H2 as (? & ? & ? & ? & _ & _ & Hq2 & Ho2).
  apply bind_ok in H as (? & ? & Hg & H). apply guard_ok in Hg as [Hg ->].
  apply bind_ok in H as (w1 & t1 & Hw1 & H). apply read_float_array_ok in Hw1 as (Q1 & K1 & L1).
  apply bind_ok in H as (b1 & t2 & Hb1 & H). apply read_float_array_ok in Hb1 as (Q2 & K2 & L2).
  apply bind_ok in H as (w2 & t3 & Hw2 & H). apply read_float_array_ok in Hw2 as (Q3 & K3 & L3).
  apply bind_ok in H as (b2 & t4 & Hb2 & H). apply read_float_array_ok in Hb2 as (Q4 & K4 & L4).
  apply bind_ok in H as (? & t5 & Hm & H). apply modify_ok in Hm. subst t5.
  apply bind_ok in H as (? & a1 & Ha1 & H).
  apply bind_ok in H as (? & a2 & Ha2 & H).
  apply bind_ok in H as (? & a3 & Ha3 & H).
  apply bind_ok in H as (? & a4 & Ha4 & H).
  apply bind_ok in H as (? & u1 & Hu1 & H).
  apply bind_ok in H as (? & u2 & Hu2 & H).
  apply bind_ok in H as (? & u3 & Hu3 & H).
  apply bind_ok in H as (? & u4 & Hu4 & H).
  inversion H; subst r s'. clear H.
  apply alloc_ok_full in Ha1 as (_ & Oa1 & Hnz & Ma1 & Ba1 & Fa1).
  apply alloc_ok_full in Ha2 as (_ & Oa2 & _ & Ma2 & Ba2 & Fa2).
  apply alloc_ok_full in Ha3 as (_ & Oa3 & _ & Ma3 & Ba3 & Fa3).
  apply alloc_ok_full in Ha4 as (_ & Oa4 & _ & Ma4 & Ba4 & Fa4).
  simpl in Oa1, Hnz, Ma1, Ba1, Fa1.
  assert (Hh : cx_q t4 = cx_q s) by congruence.
  rewrite Hh in *. clear Hh Q1 Q2 Q3 Q4 Hq0 Hq1 Hq2.
  set (h0 := cx_q s) in *.
  rewrite Ba1 in Ma2, Ba2, Oa2. rewrite Ba2 in Ma3, Ba3, Oa3. rewrite Ba3 in Ma4, Ba4, Oa4.
  replace (brk h0 + 1 + 1) with (brk h0 + 2) in * by lia.
  replace (brk h0 + 2 + 1) with (brk h0 + 3) in * by lia.
  replace (brk h0 + 3 + 1) with (brk h0 + 4) in * by lia.
  assert (D1 : Se.d_w1 (cx_out a4) = brk h0) by (rewrite Oa4, Oa3, Oa2, Oa1; reflexivity).
  assert (D2 : Se.d_b1 (cx_out a4) = brk h0 + 1) by (rewrite Oa4, Oa3, Oa2; reflexivity).
  assert (D3 : Se.d_w2 (cx_out a4) = brk h0 + 2) by (rewrite Oa4, Oa3; reflexivity).
  assert (D4 : Se.d_b2 (cx_out a4) = brk h0 + 3) by (rewrite Oa4; reflexivity).
  apply upload_fresh in Hu1 as (Ou1 & Mu1 & Bu1 & Fu1);
    [|rewrite D1, Ma4, Ma3, Ma2, Ma1; simpl_inserts; reflexivity].
  apply upload_fresh in Hu2 as (Ou2 & Mu2 & Bu2 & Fu2);
    [|rewrite Ou1, D2, Mu1, D1, Ma4, Ma3, Ma2; simpl_inserts; reflexivity].
  apply upload_fresh in Hu3 as (Ou3 & Mu3 & Bu3 & Fu3);
    [|rewrite Ou2, Ou1, D3, Mu2, Ou1, D2, Mu1, D1, Ma4, Ma3; simpl_inserts; reflexivity].
  apply upload_fresh in Hu4 as (Ou4 & Mu4 & Bu4 & Fu4);
    [|rewrite Ou3, Ou2, Ou1, D4, Mu3, Ou2, Ou1, D3, Mu2, Ou1, D2, Mu1, D1, Ma4;
      simpl_inserts; reflexivity].
  rewrite Ou3, Ou2, Ou1, D4 in Mu4. rewrite Ou2, Ou1, D3 in Mu3.
  rewrite Ou1, D2 in Mu2. rewrite D1 in Mu1.
  apply Z.eqb_eq in Hg.
  exists w1, b1, w2, b2. cbv zeta.
  rewrite Ou4, Ou3, Ou2, Ou1, Oa4, Oa3, Oa2, Oa1, K4, K3, K2, K1. simpl.
  rewrite (wrap64_small (len w1 + len b1 + len w2 + len b2)) by lia.
  repeat split; try assumption; try lia.
  - rewrite Mu4, Mu3, Mu2, Mu1, Ma4, Ma3, Ma2, Ma1.
    apply map_eq. intros q.
    destruct (Z.eq_dec q (brk h0 + 3)) as [->|N3]; [simpl_inserts; reflexivity|].
    destruct (Z.eq_dec q (brk h0 + 2)) as [->|N2]; [simpl_inserts; reflexivity|].
    destruct (Z.eq_dec q (brk h0 + 1)) as [->|N1]; [simpl_inserts; reflexivity|].
    destruct (Z.eq_dec q (brk h0)) as [->|N0]; simpl_inserts; reflexivity.
  - congruence.
Qed.

(** X8.  After a successful [load_conv] the layer is well shaped: its
    dimensions are positive, its kernel is 1x1 or 3x3, the device holds
    exactly [outC * inC * k * k] weights (in [int64_t] arithmetic, as the
    source computes the product) and [outC] biases in two distinct live
    buffers, [params] counts both, and no other device buffer has
    changed. *)
Theorem load_conv_loaded dev s u s' :
  load_conv dev s = (Ok u, s') ->
  let c := cx_out s' in
  let h' := cx_q s' in
  0 < Conv.inC c /\ 0 < Conv.outC c /\ (Conv.k c = 1 \/ Conv.k c = 3)
  /\ Conv.d_w c <> nullptr /\ Conv.d_b c <> nullptr /\ Conv.d_w c <> Conv.d_b c
  /\ holds_floats h' (Conv.d_w c)
       (Z.to_nat (wrap64 (Conv.outC c * Conv.inC c * Conv.k c * Conv.k c)))
  /\ holds_floats h' (Conv.d_b c) (Z.to_nat (Conv.outC c))
  /\ Conv.params c = len (fbuf h' (Conv.d_w c)) + len (fbuf h' (Conv.d_b c))
  /\ forall p, p <> Conv.d_w c -> p <> Conv.d_b c -> mem h' !! p = mem (cx_q s) !! p.
Proof.
  intros H. apply load_conv_spec in H as (w & b & H). cbv zeta in H |- *.
  destruct H as (Hi & Ho & Hk & Hw & Hb & Hp & Dw & Db & N0 & N1 & Hbrk & Hm & Hf).
  rewrite Dw, Db.
  assert (Lw : mem (cx_q s') !! brk (cx_q s) = Some (FloatBuf w))
    by (rewrite Hm; simpl_inserts; reflexivity).
  assert (Lb : mem (cx_q s') !! (brk (cx_q s) + 1) = Some (FloatBuf b))
    by (rewrite Hm; simpl_inserts; reflexivity).
  repeat split; try assumption; try lia.
  - unfold holds_floats, layout. rewrite lookup_fmap, Lw. simpl.
    rewrite <- Hw. unfold len. rewrite Nat2Z.id. reflexivity.
  - unfold holds_floats, layout. rewrite lookup_fmap, Lb. simpl.
    rewrite <- Hb. unfold len. rewrite Nat2Z.id. reflexivity.
  - unfold fbuf. rewrite Lw, Lb. exact Hp.
  - intros p P0 P1. rewrite Hm. rewrite !lookup_insert_ne by congruence. reflexivity.
Qed.

Lemma load_conv_loaded_witness :
  exists s',
    let s := mkCtx (bytes_of_words (conv_record 2 1 3)) empty_mem Conv.init in
    load_conv sample_gpu s = (Ok tt, s')
    /\ let c := cx_out s' in
       let h' := cx_q s' in
       0 < Conv.inC c /\ 0 < Conv.outC c /\ (Conv.k c = 1 \/ Conv.k c = 3)
       /\ Conv.d_w c <> nullptr /\ Conv.d_b c <> nullptr /\ Conv.d_w c <> Conv.d_b c
       /\ holds_floats h' (Conv.d_w c)
            (Z.to_nat (wrap64 (Conv.outC c * Conv.inC c * Conv.k c * Conv.k c)))
       /\ holds_floats h' (Conv.d_b c) (Z.to_nat (Conv.outC c))
       /\ Conv.params c = len (fbuf h' (Conv.d_w c)) + len (fbuf h' (Conv.d_b c))
       /\ forall p, p <> Conv.d_w c -> p <> Conv.d_b c ->
                    mem h' !! p = mem (cx_q s) !! p.
Proof.
  eexists. cbv zeta. split; [vm_compute; reflexivity|].
  apply (load_conv_loaded sample_gpu
           (mkCtx (bytes_of_words (conv_record 2 1 3)) empty_mem Conv.init) tt).
  vm_compute. reflexivity.
Defined.

(** X9.  After a successful [load_dense] the layer has the output width the
    caller asked for and a positive input width, the device holds exactly
    [outD * inD] weights and [outD] biases in two distinct live buffers,
    [params] counts both, and no other device buffer has changed. *)
Theorem load_dense_loaded dev expectedOut s u s' :
  load_dense dev expectedOut s = (Ok u, s') ->
  let d := cx_out s' in
  let h' := cx_q s' in
  0 < Dense.inD d /\ Dense.outD d = expectedOut /\ 0 < expectedOut
  /\ Dense.d_w d <> nullptr /\ Dense.d_b d <> nullptr /\ Dense.d_w d <> Dense.d_b d
  /\ holds_floats h' (Dense.d_w d) (Z.to_nat (wrap64 (Dense.outD d * Dense.inD d)))
  /\ holds_floats h' (Dense.d_b d) (Z.to_nat (Dense.outD d))
  /\ Dense.params d = len (fbuf h' (Dense.d_w d)) + len (fbuf h' (Dense.d_b d))
  /\ forall p, p <> Dense.d_w d -> p <> Dense.d_b d -> mem h' !! p = mem (cx_q s) !! p.
Proof.
  intros H. apply load_dense_spec in H as (w & b & H). cbv zeta in H |- *.
  destruct H as (Hi & Ho & He & Hw & Hb & Hp & Dw & Db & N0 & N1 & Hbrk & Hm & Hf).
  rewrite Dw, Db.
  assert (Lw : mem (cx_q s') !! brk (cx_q s) = Some (FloatBuf w))
    by (rewrite Hm; simpl_inserts; reflexivity).
  assert (Lb : mem (cx_q s') !! (brk (cx_q s) + 1) = Some (FloatBuf b))
    by (rewrite Hm; simpl_inserts; reflexivity).
  repeat split; try assumption; try lia.
  - unfold holds_floats, layout. rewrite lookup_fmap, Lw. simpl.
    rewrite <- Hw. unfold len. rewrite Nat2Z.id. reflexivity.
  - unfold holds_floats, layout. rewrite lookup_fmap, Lb. simpl.
    rewrite <- Hb. unfold len. rewrite Nat2Z.id. reflexivity.
  - unfold fbuf. rewrite Lw, Lb. exact Hp.
  - intros p P0 P1. rewrite Hm. rewrite !lookup_insert_ne by congruence. reflexivity.
Qed.

Lemma load_dense_loaded_witness :
  exists s',
    let s := mkCtx (bytes_of_words (dense_record 2 3)) empty_mem Dense.init in
    load_dense sample_gpu 3 s = (Ok tt, s')
    /\ let d := cx_out s' in
       let h' := cx_q s' in
       0 < Dense.inD d /\ Dense.outD d = 3 /\ 0 < 3
       /\ Dense.d_w d <> nullptr /\ Dense.d_b d <> nullptr /\ Dense.d_w d <> Dense.d_b d
       /\ holds_floats h' (Dense.d_w d) (Z.to_nat (wrap64 (Dense.outD d * Dense.inD d)))
       /\ holds_floats h' (Dense.d_b d) (Z.to_nat (Dense.outD d))
       /\ Dense.params d = len (fbuf h' (Dense.d_w d)) + len (fbuf h' (Dense.d_b d))
       /\ forall p, p <> Dense.d_w d -> p <> Dense.d_b d ->
                    mem h' !! p = mem (cx_q s) !! p.
Proof.
  eexists. cbv zeta. split; [vm_compute; reflexivity|].
  apply (load_dense_loaded sample_gpu 3
           (mkCtx (bytes_of_words (dense_record 2 3)) empty_mem Dense.init) tt).
  vm_compute. reflexivity.
Defined.

(* ================================================================== *)
(** * Life cycle: what [create_net] allocates, [destroy_net] frees *)

Lemma freeBlock_fold b h :
  freeBlock b h = foldl (fun h p => sycl_free p h) h (block_ptrs b).
Proof.
  unfold freeBlock, block_ptrs, freeConv, freeSe, conv_ptrs, se_ptrs.
  destruct (hasSe b); rewrite !foldl_app; cbn [foldl]; reflexivity.
Qed.

Lemma free_tower_fold (t : list ResidualBlock) :
  forall h, foldl (fun h b => freeBlock b h) h t
            = foldl (fun h p => sycl_free p h) h (t ≫= block_ptrs).
Proof.
  induction t as [|b t IH]; intros h; [reflexivity|].
  rewrite bind_cons, foldl_app. simpl. rewrite IH, freeBlock_fold. reflexivity.
Qed.

Lemma destroy_net_fold net h :
  destroy_net net h = foldl (fun h p => sycl_free p h) h (freed_ptrs net).
Proof.
  unfold destroy_net, freed_ptrs, layer_ptrs, ws_ptrs.
  rewrite free_tower_fold. rewrite !foldl_app.
  unfold freeConv, freeDense, conv_ptrs, dense_ptrs. cbn [foldl]. reflexivity.
Qed.

(** Freeing distinct live buffers removes exactly them. *)
Lemma free_list (ps : list Z) :
  forall h,
    NoDup ps ->
    (forall p, p ∈ ps -> p <> nullptr /\ is_Some (mem h !! p)) ->
    let h' := foldl (fun h p => sycl_free p h) h ps in
    bad_frees h' = bad_frees h /\ brk h' = brk h /\ oracle h' = oracle h
    /\ forall q, mem h' !! q = if decide (q ∈ ps) then None else mem h !! q.
Proof.
  induction ps as [|p ps IH]; intros h Hnd Hlive; simpl.
  - repeat split.
  - apply NoDup_cons in Hnd as [Hnotin Hnd].
    destruct (Hlive p ltac:(left)) as [Hnz [buf Hbuf]].
    assert (Hfree : sycl_free p h = mkMem (delete p (mem h)) (brk h) (oracle h) (bad_frees h)).
    { unfold sycl_free. rewrite (proj2 (Z.eqb_neq _ _) Hnz), Hbuf. reflexivity. }
    rewrite Hfree.
    destruct (IH (mkMem (delete p (mem h)) (brk h) (oracle h) (bad_frees h)) Hnd)
      as (Hbf & Hbrk & Hor & Hmem).
    { intros q Hq. destruct (Hlive q ltac:(right; exact Hq)) as [Hqz Hql].
      split; [assumption|]. simpl. rewrite lookup_delete_ne; [assumption|].
      intros ->. contradiction. }
    simpl in *. repeat split; try assumption.
    intros q. rewrite Hmem.
    destruct (decide (q ∈ ps)) as [Hin|Hnin].
    + rewrite decide_True by (right; exact Hin). reflexivity.
    + destruct (decide (q = p)) as [->|Hne].
      * rewrite decide_True by left. apply lookup_delete_eq.
      * rewrite decide_False by (intros Hc; apply elem_of_cons in Hc as [?|?]; contradiction).
        apply lookup_delete_ne. congruence.
Qed.

Lemma extends_by_nil h : extends_by h h [].
Proof.
  unfold extends_by, len. simpl. rewrite Z.add_0_r.
  repeat split; try reflexivity. intros p Hp. lia.
Qed.

Lemma extends_by_app h h1 h2 ps1 ps2 :
  extends_by h h1 ps1 -> extends_by h1 h2 ps2 -> extends_by h h2 (ps1 ++ ps2).
Proof.
  intros (E1 & B1 & F1 & M1 & L1) (E2 & B2 & F2 & M2 & L2).
  assert (Hlen : len (ps1 ++ ps2) = len ps1 + len ps2)
    by (unfold len; rewrite length_app; lia).
  unfold extends_by. rewrite Hlen.
  split; [|split; [lia|split; [congruence|split]]].
  - rewrite seqZ_app by (unfold len; lia). rewrite <- E1, <- B1, <- E2. reflexivity.
  - intros p Hp. rewrite M2 by (unfold len in *; lia). apply M1. unfold len in *; lia.
  - intros p Hp. destruct (Z.lt_ge_cases p (brk h1)) as [Hlt|Hge].
    + rewrite M2 by lia. apply L1. lia.
    + apply L2. lia.
Qed.

Lemma extends_by_same_mem h h' h'' ps :
  extends_by h h' ps ->
  brk h'' = brk h' -> bad_frees h'' = bad_frees h' -> mem h'' = mem h' ->
  extends_by h h'' ps.
Proof.
  intros (E1 & B1 & F1 & M1 & L1) Hb Hf Hm. unfold extends_by.
  rewrite Hb, Hf, Hm. auto.
Qed.

(** An upload into one of the new buffers keeps the extension. *)
Lemma extends_by_upload h h' h'' ps dst src :
  extends_by h h' ps -> dst ∈ ps ->
  sycl_copy_to_device dst src h' = (true, h'') ->
  extends_by h h'' ps.
Proof.
  intros (E1 & B1 & F1 & M1 & L1) Hin Hc.
  apply copy_to_device_ok in Hc as (Hb & Hf & Hsrc).
  assert (Hd : brk h <= dst < brk h').
  { rewrite E1 in Hin. apply elem_of_seqZ in Hin. lia. }
  assert (Hm : exists buf, mem h'' = <[dst := buf]> (mem h')).
  { destruct src; destruct Hsrc as (old & _ & _ & ->); eauto. }
  destruct Hm as [buf Hm].
  unfold extends_by. rewrite Hb, Hf, Hm.
  repeat split; try assumption.
  - intros p Hp. rewrite lookup_insert_ne by lia. apply M1, Hp.
  - intros p Hp. destruct (Z.eq_dec p dst) as [->|Hne].
    + rewrite lookup_insert_eq. eauto.
    + rewrite lookup_insert_ne by congruence. apply L1, Hp.
Qed.

Lemma seqZ_1 m : seqZ m 1 = [m].
Proof. rewrite seqZ_cons, seqZ_nil by lia. reflexivity. Qed.

Lemma seqZ_2 m : seqZ m 2 = [m; m + 1].
Proof.
  rewrite seqZ_cons by lia. change (Z.pred 2) with 1. rewrite seqZ_1.
  replace (Z.succ m) with (m + 1) by lia. reflexivity.
Qed.

Lemma seqZ_4 m : seqZ m 4 = [m; m + 1; m + 2; m + 3].
Proof.
  change 4 with (2 + 2). rewrite seqZ_app, !seqZ_2 by lia. simpl.
  replace (m + 2 + 1) with (m + 3) by lia. reflexivity.
Qed.

Lemma extends_by_inserts2 h h' a b (x y : buffer) :
  brk h' = brk h + 2 -> bad_frees h' = bad_frees h ->
  a = brk h -> b = brk h + 1 ->
  mem h' = <[b := y]> (<[a := x]> (mem h)) ->
  extends_by h h' [a; b].
Proof.
  intros Hb Hf -> -> Hm. unfold extends_by, len. simpl length.
  change (Z.of_nat 2) with 2. rewrite Hb, Hf, Hm.
  split; [rewrite seqZ_2; reflexivity|]. repeat split.
  - intros p Hp. rewrite !lookup_insert_ne by lia. reflexivity.
  - intros p Hp. destruct (Z.eq_dec p (brk h + 1)) as [->|N1]; [simpl_inserts; eauto|].
    assert (p = brk h) as -> by lia. simpl_inserts. eauto.
Qed.

(** ** What each loading step allocates *)

Lemma conv_extends dev s u s' :
  load_conv dev s = (Ok u, s') ->
  extends_by (cx_q s) (cx_q s') (conv_ptrs (cx_out s')).
Proof.
  intros H. apply load_conv_spec in H as (w & b & H). cbv zeta in H.
  destruct H as (_ & _ & _ & _ & _ & _ & Dw & Db & _ & _ & Hbrk & Hm & Hf).
  unfold conv_ptrs. rewrite Dw, Db.
  apply (extends_by_inserts2 _ _ _ _ (FloatBuf w) (FloatBuf b));
    first [assumption | reflexivity].
Qed.

Lemma dense_extends dev e s u s' :
  load_dense dev e s = (Ok u, s') ->
  extends_by (cx_q s) (cx_q s') (dense_ptrs (cx_out s')).
Proof.
  intros H. apply load_dense_spec in H as (w & b & H). cbv zeta in H.
  destruct H as (_ & _ & _ & _ & _ & _ & Dw & Db & _ & _ & Hbrk & Hm & Hf).
  unfold dense_ptrs. rewrite Dw, Db.
  apply (extends_by_inserts2 _ _ _ _ (FloatBuf w) (FloatBuf b));
    first [assumption | reflexivity].
Qed.

Lemma se_extends dev ch mh s r s' :
  load_se dev ch mh s = (Ok r, s') ->
  extends_by (cx_q s) (cx_q s') (if r.1 then se_ptrs (cx_out s') else []).
Proof.
  intros H. apply load_se_spec in H. cbv zeta in H.
  destruct H as [(-> & Hq & _)|(w1 & b1 & w2 & b2 & -> & _ & _ & D1 & D2 & D3 & D4 & _ & Hb & Hm & Hf)].
  - simpl. rewrite Hq. apply extends_by_nil.
  - simpl. unfold se_ptrs, extends_by, len. simpl length. change (Z.of_nat 4) with 4.
    rewrite D1, D2, D3, D4, Hb, Hf, Hm, seqZ_4.
    split; [reflexivity|]. repeat split.
    + intros p Hp. rewrite !lookup_insert_ne by lia. reflexivity.
    + intros p Hp.
      destruct (Z.eq_dec p (brk (cx_q s) + 3)) as [->|N3]; [simpl_inserts; eauto|].
      destruct (Z.eq_dec p (brk (cx_q s) + 2)) as [->|N2]; [simpl_inserts; eauto|].
      destruct (Z.eq_dec p (brk (cx_q s) + 1)) as [->|N1]; [simpl_inserts; eauto|].
      assert (p = brk (cx_q s)) as -> by lia. simpl_inserts. eauto.
Qed.

Lemma alloc_extends {T} dev t count (store : Z -> T -> T) s u s' :
  alloc dev t count store s = (Ok u, s') ->
  extends_by (cx_q s) (cx_q s') [brk (cx_q s)]
  /\ cx_out s' = store (brk (cx_q s)) (cx_out s) /\ cx_f s' = cx_f s.
Proof.
  intros H. apply alloc_ok_full in H as (Hf & Ho & _ & Hm & Hb & Hbf).
  split; [|auto]. unfold extends_by, len. simpl length. change (Z.of_nat 1) with 1.
  rewrite Hb, Hbf, Hm, seqZ_1. split; [reflexivity|]. repeat split.
  - intros p Hp. rewrite lookup_insert_ne by lia. reflexivity.
  - intros p Hp. assert (p = brk (cx_q s)) as -> by lia. simpl_inserts. eauto.
Qed.

(** One iteration of the tower loop. *)
Lemma load_block_extends dev i mh s r s' :
  (Z.to_nat i < length (tower (cx_out s)))%nat ->
  load_block dev i mh s = (Ok r, s') ->
  extends_by (cx_q s) (cx_q s') (block_ptrs (tower_at (cx_out s') i)).
Proof.
  intros Hi H. unfold load_block in H.
  apply bind_ok in H as (? & s1 & Hz1 & H).
  apply zoom_ok in Hz1 as (u1 & Hc1 & ->).
  apply bind_ok in H as (? & s2 & Hz2 & H).
  apply zoom_ok in Hz2 as (u2 & Hc2 & ->).
  apply bind_ok in H as (n & s3 & Hg & H). apply get_out_ok in Hg as [-> ->].
  apply bind_ok in H as (? & s4 & Hm & H). apply modify_ok in Hm. subst s4.
  apply bind_ok in H as (rs & s5 & Hz3 & H).
  apply zoom_ok in Hz3 as (u3 & Hc3 & ->).
  apply bind_ok in H as (? & s6 & Hm & H). apply modify_ok in Hm. subst s6.
  apply bind_ok in H as (n' & s7 & Hg & H). apply get_out_ok in Hg as [-> ->].
  apply bind_ok in H as (? & s8 & Hp & H).
  inversion H; subst r s'. clear H.
  apply conv_extends in Hc1. apply conv_extends in Hc2. apply se_extends in Hc3.
  destruct rs as [present mh']. simpl in Hc1, Hc2, Hc3, Hp.
  match type of Hp with
  | _ ?S = _ =>
      assert (Hq8 : cx_q s8 = cx_q S /\ tower (cx_out s8) = tower (cx_out S))
        by (destruct present; [apply modify_ok in Hp | inversion Hp]; subst s8; simpl; auto)
  end.
  simpl in Hq8. destruct Hq8 as [Hq8 Ht8].
  unfold tower_at at 1. rewrite Ht8, Hq8.
  destruct (lookup_lt_is_Some_2 (tower (cx_out s)) (Z.to_nat i) Hi) as [b0 Hb0].
  unfold update_block, add_params. simpl.
  rewrite !list_lookup_alter_eq, Hb0.
  change (extends_by (cx_q s) (cx_q u3)
            (conv_ptrs (cx_out u1) ++ conv_ptrs (cx_out u2)
             ++ (if present then se_ptrs (cx_out u3) else []))).
  eapply extends_by_app; [exact Hc1|]. eapply extends_by_app; [exact Hc2|exact Hc3].
Qed.

Lemma take_tower_other dev i mh s r s' (j : nat) :
  (j <= Z.to_nat i)%nat ->
  load_block dev i mh s = (Ok r, s') ->
  take j (tower (cx_out s')) = take j (tower (cx_out s)).
Proof.
  intros Hj H.
  pose proof (load_block_keeps_length dev i mh _ _ _ H) as Hlen. simpl in Hlen.
  apply list_eq. intros k.
  destruct (decide (k < j)%nat) as [Hk|Hk].
  - rewrite !lookup_take_lt by assumption.
    pose proof (load_block_keeps_other dev i (Z.of_nat k) mh ltac:(lia) _ _ _ H) as Hk'.
    simpl in Hk'. unfold tower_at in Hk'. rewrite Nat2Z.id in Hk'.
    destruct (tower (cx_out s') !! k) as [b'|] eqn:E';
      destruct (tower (cx_out s) !! k) as [b|] eqn:E; simpl in Hk'.
    + congruence.
    + apply lookup_lt_Some in E'. apply lookup_ge_None in E. lia.
    + apply lookup_lt_Some in E. apply lookup_ge_None in E'. lia.
    + reflexivity.
  - rewrite !lookup_take_ge by lia. reflexivity.
Qed.

Lemma load_tower_extends dev hd s u s' :
  0 <= h_blocks hd ->
  length (tower (cx_out s)) = Z.to_nat (h_blocks hd) ->
  load_tower dev hd s = (Ok u, s') ->
  extends_by (cx_q s) (cx_q s') (tower (cx_out s') ≫= block_ptrs).
Proof.
  intros Hb Hlen H. unfold load_tower in H.
  apply bind_ok in H as (mh & s1 & Hloop & H). apply modify_ok in H. subst s'. simpl.
  pose proof (for_each_ok_inv (load_block dev)
                (fun k t => length (tower (cx_out t)) = Z.to_nat (h_blocks hd)
                            /\ extends_by (cx_q s) (cx_q t)
                                          (take k (tower (cx_out t)) ≫= block_ptrs))
                (seqZ 0 (h_blocks hd)) 0%nat 0 s mh s1 Hloop) as Hinv.
  simpl in Hinv. rewrite length_seqZ in Hinv.
  destruct Hinv as [Hlen1 Hext].
  - split; [exact Hlen | apply extends_by_nil].
  - intros j x b t1 r1 t2 Hj [Hl1 He1] Hbody.
    apply lookup_seqZ in Hj as [-> Hjlt]. simpl in *.
    pose proof (load_block_keeps_length dev (Z.of_nat j) b _ _ _ Hbody) as Hl2.
    simpl in Hl2.
    assert (Hin : (Z.to_nat (Z.of_nat j) < length (tower (cx_out t1)))%nat) by lia.
    pose proof (load_block_extends dev _ b _ _ _ Hin Hbody) as He2.
    destruct (lookup_lt_is_Some_2 (tower (cx_out t2)) j ltac:(lia)) as [b2 Hb2].
    split; [lia|].
    rewrite (take_S_r _ _ _ Hb2), bind_app.
    rewrite (take_tower_other dev (Z.of_nat j) b t1 r1 t2 j ltac:(lia) Hbody).
    eapply extends_by_app; [exact He1|].
    unfold tower_at in He2. rewrite Nat2Z.id, Hb2 in He2. simpl in He2.
    simpl. rewrite app_nil_r. exact He2.
  - rewrite take_ge in Hext by lia. exact Hext.
Qed.

Lemma extends_by_cons h h1 h2 p ps :
  extends_by h h1 [p] -> extends_by h1 h2 ps -> extends_by h h2 (p :: ps).
Proof. intros H1 H2. exact (extends_by_app _ _ _ [p] ps H1 H2). Qed.

Lemma load_input_extends dev s u s' :
  load_input dev s = (Ok u, s') ->
  extends_by (cx_q s) (cx_q s') (conv_ptrs (inputLayer (cx_out s'))).
Proof.
  unfold load_input. intros H.
  apply bind_ok in H as (? & s1 & Hz & H). apply zoom_ok in Hz as (u1 & Hc & ->).
  apply bind_ok in H as (n & s2 & Hg & H). apply get_out_ok in Hg as [-> ->].
  apply modify_ok in H. subst s'. simpl. apply conv_extends in Hc. exact Hc.
Qed.

Lemma load_heads_extends dev hd s u s' :
  load_heads dev hd s = (Ok u, s') ->
  let n := cx_out s' in
  extends_by (cx_q s) (cx_q s')
    (conv_ptrs (policyStem n) ++ conv_ptrs (policyOut n) ++ conv_ptrs (valueConv n)
     ++ dense_ptrs (valueFc1 n) ++ dense_ptrs (valueFc2 n)).
Proof.
  unfold load_heads. intros H.
  apply bind_ok in H as (? & s1 & Hz1 & H). apply zoom_ok in Hz1 as (u1 & Hc1 & ->).
  apply bind_ok in H as (? & s2 & Hz2 & H). apply zoom_ok in Hz2 as (u2 & Hc2 & ->).
  apply bind_ok in H as (? & s3 & Hz3 & H). apply zoom_ok in Hz3 as (u3 & Hc3 & ->).
  apply bind_ok in H as (n & s4 & Hg & H). apply get_out_ok in Hg as [-> ->].
  apply bind_ok in H as (? & ? & Hg1 & H). apply guard_ok in Hg1 as [_ ->].
  apply bind_ok in H as (? & ? & Hg2 & H). apply guard_ok in Hg2 as [_ ->].
  apply bind_ok in H as (? & s5 & Hm & H). apply modify_ok in Hm. subst s5.
  apply bind_ok in H as (? & s6 & Hz4 & H). apply zoom_ok in Hz4 as (u4 & Hc4 & ->).
  apply bind_ok in H as (? & s7 & Hz5 & H). apply zoom_ok in Hz5 as (u5 & Hc5 & ->).
  apply bind_ok in H as (n' & s8 & Hg & H). apply get_out_ok in Hg as [-> ->].
  apply modify_ok in H. subst s'.
  apply conv_extends in Hc1, Hc2, Hc3. apply dense_extends in Hc4, Hc5.
  simpl in Hc1, Hc2, Hc3, Hc4, Hc5. cbv zeta.
  change (extends_by (cx_q s) (cx_q u5)
            (conv_ptrs (cx_out u1) ++ conv_ptrs (cx_out u2) ++ conv_ptrs (cx_out u3)
             ++ dense_ptrs (cx_out u4) ++ dense_ptrs (cx_out u5))).
  eapply extends_by_app; [exact Hc1|]. eapply extends_by_app; [exact Hc2|].
  eapply extends_by_app; [exact Hc3|]. eapply extends_by_app; [exact Hc4|exact Hc5].
Qed.

Lemma load_policy_map_extends dev hd s u s' :
  load_policy_map dev hd s = (Ok u, s') ->
  extends_by (cx_q s) (cx_q s') [d_policyMap (cx_out s')] /\ cx_f s' = [].
Proof.
  unfold load_policy_map. intros H.
  apply bind_ok in H as (me & s1 & Hr & H).
  apply read_i32_ok in Hr as (? & ? & ? & ? & _ & _ & Hq1 & Ho1).
  apply bind_ok in H as (? & ? & Hg & H). apply guard_ok in Hg as [_ ->].
  apply bind_ok in H as (? & ? & Hg & H). apply raise_if_ok in Hg as [_ ->].
  apply bind_ok in H as (bs & s2 & Hb & H).
  apply read_bytes_ok in Hb as (_ & _ & Hq2 & Ho2).
  apply bind_ok in H as (? & s3 & Ha & H).
  apply alloc_extends in Ha as (He & Ho3 & _).
  apply bind_ok in H as (? & s4 & Hu & H).
  apply upload_ok in Hu as (Hc & Hf4 & Ho4).
  apply bind_ok in H as (eof & s5 & He5 & H).
  assert (s5 = s4 /\ eof = match cx_f s4 with [] => true | _ => false end)
    as [-> Heof] by (unfold at_eof in He5; inversion He5; auto).
  apply guard_ok in H as [Hg ->].
  rewrite Ho4, Ho3. simpl.
  rewrite Ho3 in Hc. simpl in Hc.
  rewrite Hq2, Hq1 in *.
  split.
  - eapply extends_by_upload; [exact He | left | exact Hc].
  - rewrite Heof in Hg. destruct (cx_f s4); [reflexivity | discriminate].
Qed.

Lemma alloc_workspace_extends dev hd s u s' :
  alloc_workspace dev hd s = (Ok u, s') ->
  let n := cx_out s' in
  extends_by (cx_q s) (cx_q s') (ws_ptrs n ++ [d_policyMapped n]).
Proof.
  unfold alloc_workspace. intros H.
  repeat match type of H with
         | bind (alloc _ _ _ _) _ _ = _ =>
             let t := fresh "t" in let Ha := fresh "Ha" in
             let He := fresh "He" in let Ho := fresh "Ho" in
             apply bind_ok in H as (? & t & Ha & H);
             apply alloc_extends in Ha as (He & Ho & _)
         | bind get_out _ _ = _ =>
             let Hg := fresh "Hg" in
             apply bind_ok in H as (? & ? & Hg & H);
             apply get_out_ok in Hg as [-> ->]
         | bind (if ?b then _ else _) _ _ = _ => destruct b
         end.
  all: apply alloc_extends in H as (Helast & Holast & _).
  all: cbv zeta; unfold ws_ptrs.
  all: repeat match goal with
              | Hx : cx_out ?a = _ |- context [cx_out ?a] => rewrite Hx
              end.
  all: cbn [app d_in d_cur d_next d_tmp d_scratch d_policyHidden d_policyPlanes
              d_valueInput d_fc1 d_logits d_sePooled d_seHidden d_seGates d_policyMapped
              ws set_d_policyMapped set_d_seGates set_d_seHidden
              set_d_sePooled set_d_logits set_d_fc1 set_d_valueInput set_d_policyPlanes
              set_d_policyHidden set_d_scratch set_d_tmp set_d_next set_d_cur set_d_in
              set_ws w_in w_cur w_next w_tmp w_scratch w_policyHidden w_policyPlanes
              w_valueInput w_fc1 w_logits w_sePooled w_seHidden w_seGates
              set_w_in set_w_cur set_w_next set_w_tmp set_w_scratch
              set_w_policyHidden set_w_policyPlanes set_w_valueInput set_w_fc1 set_w_logits
              set_w_sePooled set_w_seHidden set_w_seGates].
  all: repeat (eapply extends_by_cons; [eassumption|]); apply extends_by_nil.
Qed.

Ltac keeps_all :=
  repeat first [ keeps_step | apply keeps_for_each; intros ].

Lemma alloc_workspace_keeps_layers dev hd : keeps layer_ptrs (alloc_workspace dev hd).
Proof. unfold alloc_workspace. keeps_all. Qed.

Lemma load_layers_extends dev hd s u s' :
  - 2 ^ 31 <= h_blocks hd < 2 ^ 31 ->
  load_layers dev hd s = (Ok u, s') ->
  extends_by (cx_q s) (cx_q s') (layer_ptrs (cx_out s')) /\ cx_f s' = [].
Proof.
  intros Hrange H. unfold load_layers in H.
  apply bind_ok in H as (? & s1 & H1 & H).
  assert (KK1 : keeps inputLayer (resize_tower hd ;; load_tower dev hd ;;
                                  load_heads dev hd ;; load_policy_map dev hd)).
  { unfold resize_tower, load_tower, load_block, load_heads, load_policy_map. keeps_all. }
  pose proof (KK1 _ _ _ H) as K1. clear KK1.
  apply load_input_extends in H1.
  apply bind_ok in H as (? & s2 & H2 & H).
  unfold resize_tower in H2.
  apply bind_ok in H2 as (? & ? & Hr & H2). apply raise_if_ok in Hr as [Hr ->].
  apply modify_ok in H2. subst s2.
  assert (Hb : 0 <= h_blocks hd).
  { apply (max_size_below_negative_cast sizeof_ResidualBlock); [reflexivity | lia | exact Hr]. }
  rewrite to_size_t_small in H by lia.
  apply bind_ok in H as (? & s3 & H3 & H).
  apply load_tower_extends in H3; [|exact Hb | simpl; apply length_replicate].
  simpl in H3.
  assert (KK3 : keeps tower (load_heads dev hd ;; load_policy_map dev hd)).
  { unfold load_heads, load_policy_map. keeps_all. }
  pose proof (KK3 _ _ _ H) as K3. clear KK3.
  apply bind_ok in H as (? & s4 & H4 & H5).
  assert (KK4 : keeps (fun n => (policyStem n, policyOut n, valueConv n, valueFc1 n,
                                 valueFc2 n)) (load_policy_map dev hd)).
  { unfold load_policy_map. keeps_all. }
  pose proof (KK4 _ _ _ H5) as K4. clear KK4.
  simpl in K4. inversion K4 as [[Ka Kb Kc Kd Ke]]. clear K4.
  apply load_heads_extends in H4. cbv zeta in H4.
  apply load_policy_map_extends in H5 as [H5 Hf].
  split; [|exact Hf].
  unfold layer_ptrs. rewrite K1, K3, Ka, Kb, Kc, Kd, Ke.
  eapply extends_by_app; [exact H1|]. eapply extends_by_app; [exact H3|].
  replace (conv_ptrs (policyStem (cx_out s4)) ++ conv_ptrs (policyOut (cx_out s4))
           ++ conv_ptrs (valueConv (cx_out s4)) ++ dense_ptrs (valueFc1 (cx_out s4))
           ++ dense_ptrs (valueFc2 (cx_out s4)) ++ [d_policyMap (cx_out s')])
    with ((conv_ptrs (policyStem (cx_out s4)) ++ conv_ptrs (policyOut (cx_out s4))
           ++ conv_ptrs (valueConv (cx_out s4)) ++ dense_ptrs (valueFc1 (cx_out s4))
           ++ dense_ptrs (valueFc2 (cx_out s4))) ++ [d_policyMap (cx_out s')])
    by (rewrite <- !app_assoc; reflexivity).
  eapply extends_by_app; [exact H4 | exact H5].
Qed.

Lemma create_net_extends pf bytes h0 net h :
  create_net pf (Some bytes) h0 = (Returned (Some net), h) ->
  extends_by h0 h (alloc_ptrs net).
Proof.
  intros Hc. apply create_net_ok in Hc as (dev & hd & s & s' & _ & Hp & Hl & -> & ->).
  apply read_prelude_ok in Hp as (_ & Hq & Hrange & _).
  unfold load_net in Hl. apply bind_ok in Hl as (? & s1 & Hlay & Hws).
  apply load_layers_extends in Hlay as [Hlay _]; [|exact Hrange]. simpl in Hlay.
  pose proof (alloc_workspace_keeps_layers dev hd _ _ _ Hws) as K.
  apply alloc_workspace_extends in Hws. cbv zeta in Hws.
  unfold alloc_ptrs. rewrite K, <- Hq.
  eapply extends_by_app; [exact Hlay | exact Hws].
Qed.

Lemma freed_alloc_perm net : freed_ptrs net ≡ₚ alloc_ptrs net.
Proof.
  unfold freed_ptrs, alloc_ptrs. apply Permutation_app_head, Permutation_app_comm.
Qed.

(** X10.  [create] followed by [destroy] gives the device back as it was:
    the pointers that [destroy_net] frees are pairwise distinct, none is
    null, each is a live buffer that [create_net] allocated, and after the
    call the live allocations are exactly those from before [create], with
    no [sycl::free] of an address that was not live. *)
Theorem create_destroy_releases pf bytes h0 net h :
  heap_ok h0 ->
  create_net pf (Some bytes) h0 = (Returned (Some net), h) ->
  let h' := nativeDestroy (Some net) h in
  mem h' = mem h0
  /\ bad_frees h' = bad_frees h0
  /\ NoDup (freed_ptrs net)
  /\ forall p, p ∈ freed_ptrs net ->
               p <> nullptr /\ is_Some (mem h !! p) /\ mem h0 !! p = None.
Proof.
  intros [Hpos Hfree] Hc. apply create_net_extends in Hc.
  destruct Hc as (Eq & Hbrk & Hbf & Hold & Hnew).
  assert (Hin : forall p, p ∈ freed_ptrs net <-> brk h0 <= p < brk h).
  { intros p. rewrite (freed_alloc_perm net), Eq, elem_of_seqZ, Hbrk. reflexivity. }
  assert (Hnd : NoDup (freed_ptrs net)).
  { rewrite (freed_alloc_perm net), Eq. apply NoDup_seqZ. }
  assert (Hlive : forall p, p ∈ freed_ptrs net -> p <> nullptr /\ is_Some (mem h !! p)).
  { intros p Hp. apply Hin in Hp. split; [unfold nullptr; lia | apply Hnew, Hp]. }
  cbv zeta. unfold nativeDestroy. rewrite destroy_net_fold.
  destruct (free_list (freed_ptrs net) h Hnd Hlive) as (Fb & _ & _ & Fm).
  split; [|split; [congruence | split; [exact Hnd|]]].
  - apply map_eq. intros q. rewrite Fm.
    destruct (decide (q ∈ freed_ptrs net)) as [Hq|Hq].
    + apply Hin in Hq. symmetry. apply Hfree. lia.
    + apply Hold. intros Hr. apply Hq, Hin, Hr.
  - intros p Hp. destruct (Hlive p Hp) as [Hn Hl]. repeat split; try assumption.
    apply Hin in Hp. apply Hfree. lia.
Qed.

Lemma create_destroy_releases_witness :
  exists net h,
    create_net sample_platform (Some se_file) empty_mem = (Returned (Some net), h)
    /\ length (freed_ptrs net) = 35%nat
    /\ let h' := nativeDestroy (Some net) h in
       mem h' = mem empty_mem
       /\ bad_frees h' = bad_frees empty_mem
       /\ NoDup (freed_ptrs net)
       /\ forall p, p ∈ freed_ptrs net ->
                    p <> nullptr /\ is_Some (mem h !! p) /\ mem empty_mem !! p = None.
Proof.
  eexists _, _. split; [vm_compute; reflexivity|]. split; [vm_compute; reflexivity|].
  apply (create_destroy_releases sample_platform se_file empty_mem).
  - split; [reflexivity | intros q _; apply lookup_empty].
  - vm_compute. reflexivity.
Defined.

(* ================================================================== *)
(** * The other kernels *)

Lemma foldl_ext_in {A B} (f g : A -> B -> A) (l : list B) (a : A) :
  (forall a x, x ∈ l -> f a x = g a x) -> foldl f a l = foldl g a l.
Proof.
  revert a. induction l as [|x l IH]; intros a H; simpl; [reflexivity|].
  rewrite H by apply list_elem_of_here. apply IH.
  intros a' y Hy. apply H. apply list_elem_of_further, Hy.
Qed.

(** A work item that stores at its own index leaves the slots from [total]
    on as they were. *)
Lemma foldl_items_beyond (item : Z -> option (Z * float)) (n : nat) :
  forall l,
    (forall tid, 0 <= tid < Z.of_nat n ->
                 exists v, item tid = Some (tid, v)) ->
    let r := foldl (fun acc tid => match item tid with
                                   | Some (i, v) => fset acc i v
                                   | None => acc
                                   end) l (seqZ 0 (Z.of_nat n)) in
    forall i, (n <= i)%nat -> r !! i = l !! i.
Proof.
  induction n as [|n IH]; intros l Hitem r i Hi; [reflexivity|].
  subst r. rewrite seqZ_S, foldl_app. simpl. rewrite Z.add_0_l.
  destruct (Hitem (Z.of_nat n) ltac:(lia)) as [v ->]. rewrite fset_nat.
  rewrite list_lookup_insert_ne by lia.
  apply IH; [intros; apply Hitem; lia | lia].
Qed.

Lemma parallel_for_beyond total out item h i :
  0 <= total ->
  (forall tid, 0 <= tid < total -> exists v, item tid = Some (tid, v)) ->
  total <= i ->
  fget (fbuf (parallel_for total out item h) out) i = fget (fbuf h out) i.
Proof.
  intros Htot Hitem Hi. unfold parallel_for, fbuf.
  destruct (mem h !! out) as [[l|l]|] eqn:E; rewrite ?E; try reflexivity.
  unfold mem_store. simpl. rewrite lookup_insert_eq.
  unfold fget. destruct (Z.ltb_spec i 0); [lia|].
  replace total with (Z.of_nat (Z.to_nat total)) by lia.
  rewrite (foldl_items_beyond item (Z.to_nat total)); try lia; [reflexivity|].
  intros tid Ht. apply Hitem. lia.
Qed.

(** ** 1x1 convolution *)

Lemma conv1x1_item_spec input w inC outC tid :
  0 < inC -> 0 < outC -> outC * inC < 2 ^ 31 -> inC * 64 < 2 ^ 31 ->
  outC * 64 < 2 ^ 31 ->
  0 <= tid < outC * 64 ->
  conv1x1_item input w inC outC tid
  = Some (tid, conv1x1_sum input w inC (tid / 64) (tid mod 64)).
Proof.
  intros HinC HoutC Hw Hi Ho Ht. unfold conv1x1_item, conv1x1_sum.
  rewrite wrap32_small by lia.
  destruct (shr_land_64 tid ltac:(lia)) as [-> ->].
  pose proof (Z.mod_pos_bound tid 64 ltac:(lia)) as Hs.
  assert (Hoc : 0 <= tid / 64 < outC).
  { split; [apply Z.div_pos; lia | apply Z.div_lt_upper_bound; lia]. }
  destruct (Z.leb_spec outC (tid / 64)); [lia|].
  f_equal. f_equal.
  - unfold int_add, int_mul. rewrite !wrap32_small; try lia.
    + pose proof (Z.div_mod tid 64 ltac:(lia)). lia.
    + rewrite wrap32_small by lia. pose proof (Z.div_mod tid 64 ltac:(lia)). lia.
  - apply foldl_ext_in. intros a ic Hic. apply elem_of_seqZ in Hic.
    unfold int_add, int_mul.
    rewrite (wrap32_small (ic * 64)) by lia.
    rewrite (wrap32_small (tid / 64 * inC)) by nia.
    rewrite !wrap32_small by nia. reflexivity.
Qed.

(** X11.  The 1x1 convolution is the channel mix of one square: the output at
    channel [oc] and square [sq] is the sum over the input channels [ic], in
    binary32 and in channel order from [0.0], of
    [input[ic][sq] * w[oc][ic]]; no neighbouring square takes part, and the
    floats of the output buffer from index [outC*64] on stay as they were.
    The hypotheses say that the output buffer is live and that the index
    arithmetic fits an [int]. *)
Theorem conv1x1_channel_mix h input w inC outC out n :
  holds_floats h out n ->
  outC * 64 <= Z.of_nat n ->
  0 < inC -> 0 < outC ->
  outC * inC < 2 ^ 31 -> inC * 64 < 2 ^ 31 -> outC * 64 < 2 ^ 31 ->
  let h' := k_conv1x1_no_bias input w inC outC out h in
  (forall oc sq, 0 <= oc < outC -> 0 <= sq < 64 ->
     fget (fbuf h' out) (oc * 64 + sq)
     = conv1x1_sum (fbuf h input) (fbuf h w) inC oc sq)
  /\ (forall i, outC * 64 <= i -> fget (fbuf h' out) i = fget (fbuf h out) i)
  /\ (forall p, p <> out -> fbuf h' p = fbuf h p).
Proof.
  intros Hout Hn HinC HoutC Hw Hi Ho h'. subst h'. unfold k_conv1x1_no_bias.
  rewrite (to_size_t_small outC), to_size_t_small by lia.
  split; [|split].
  - intros oc sq Hoc Hsq.
    rewrite (parallel_for_stores _ _ _ _ n
               (fun tid => conv1x1_sum (fbuf h input) (fbuf h w) inC
                             (tid / 64) (tid mod 64)));
      try assumption; try lia.
    + rewrite div_mod_square by lia.
      replace ((oc * 64 + sq) mod 64) with sq; [reflexivity|].
      apply (Z.mod_unique _ 64 oc sq); lia.
    + intros tid Ht. apply conv1x1_item_spec; lia.
  - intros i Hi'. apply parallel_for_beyond; try lia.
    intros tid Ht. eexists. apply conv1x1_item_spec; lia.
  - intros p Hp. apply parallel_for_other, Hp.
Qed.

Lemma conv1x1_channel_mix_witness :
  let h := mkMem (<[3 := FloatBuf (zeros 128)]>
                  (<[2 := FloatBuf [fone; fone]]>
                   (<[1 := FloatBuf (replicate 128 fone)]> ∅))) 4 [] [] in
  fget (fbuf (k_conv1x1_no_bias 1 2 2 1 3 h) 3) (0 * 64 + 5)
  = conv1x1_sum (fbuf h 1) (fbuf h 2) 2 0 5.
Proof.
  intros h.
  apply (proj1 (conv1x1_channel_mix h 1 2 2 1 3 128%nat
                  ltac:(reflexivity) ltac:(vm_compute; discriminate)
                  ltac:(lia) ltac:(lia) ltac:(lia) ltac:(lia) ltac:(lia)) 0 5);
    lia.
Defined.

(** ** Bias and ReLU *)

Lemma relu_rectified v : rectified (relu v).
Proof.
  unfold rectified, relu. destruct (flt fzero v) eqn:E; [right; exact E | left; reflexivity].
Qed.

Lemma rectified_spec v :
  rectified v ->
  v <> S754_nan /\ v <> S754_zero true /\ flt v fzero = false.
Proof.
  intros [->|H]; [repeat split; discriminate|].
  destruct v as [[|]| [|] | |[|] m e]; try discriminate H;
    repeat split; try discriminate; reflexivity.
Qed.

Lemma add_bias_relu_item h x b channels tid :
  channels * 64 < 2 ^ 31 -> 0 <= tid < channels * 64 ->
  (let idx := wrap32 tid in
   Some (idx, relu (fadd (fget (fbuf h x) idx) (fget (fbuf h b) (int_shr idx 6)))))
  = Some (tid, relu (fadd (fget (fbuf h x) tid) (fget (fbuf h b) (tid / 64)))).
Proof.
  intros Hb Ht. cbv zeta. rewrite wrap32_small by lia.
  destruct (shr_land_64 tid ltac:(lia)) as [-> _]. reflexivity.
Qed.

Lemma k_add_bias_relu_stores h x b channels n idx :
  holds_floats h x n ->
  channels * 64 <= Z.of_nat n ->
  0 <= channels -> channels * 64 < 2 ^ 31 ->
  0 <= idx < channels * 64 ->
  fget (fbuf (k_add_bias_relu x b channels h) x) idx
  = relu (fadd (fget (fbuf h x) idx) (fget (fbuf h b) (idx / 64))).
Proof.
  intros Hx Hn Hc Hb Hidx. unfold k_add_bias_relu.
  rewrite (to_size_t_small channels), to_size_t_small by lia.
  apply (parallel_for_stores _ _ _ _ n
           (fun tid => relu (fadd (fget (fbuf h x) tid) (fget (fbuf h b) (tid / 64)))));
    try assumption; try lia.
  intros tid Ht. apply (add_bias_relu_item _ _ _ channels); lia.
Qed.

Lemma k_add_bias_relu_beyond h x b channels idx :
  0 <= channels -> channels * 64 < 2 ^ 31 ->
  channels * 64 <= idx ->
  fget (fbuf (k_add_bias_relu x b channels h) x) idx = fget (fbuf h x) idx.
Proof.
  intros Hc Hb Hidx. unfold k_add_bias_relu.
  rewrite (to_size_t_small channels), to_size_t_small by lia.
  apply parallel_for_beyond; try lia.
  intros tid Ht. eexists. apply (add_bias_relu_item _ _ _ channels); lia.
Qed.

Lemma k_add_bias_relu_other h x b channels p :
  p <> x -> fbuf (k_add_bias_relu x b channels h) p = fbuf h p.
Proof. intros Hp. unfold k_add_bias_relu. apply parallel_for_other, Hp. Qed.

(** X12.  [k_add_bias_relu] rewrites the first [channels*64] floats of [x] in
    place: the float at index [idx] becomes [relu(x[idx] + b[idx / 64])], so
    every one of them is [+0.0] or above zero, never NaN (a NaN sum becomes
    [+0.0]), never negative and never [-0.0]; the rest of [x] and every
    other buffer stay as they were. *)
Theorem add_bias_relu_rectifies h x b channels n :
  holds_floats h x n ->
  channels * 64 <= Z.of_nat n ->
  0 <= channels -> channels * 64 < 2 ^ 31 ->
  let h' := k_add_bias_relu x b channels h in
  (forall idx, 0 <= idx < channels * 64 ->
     let v := fget (fbuf h' x) idx in
     v = relu (fadd (fget (fbuf h x) idx) (fget (fbuf h b) (idx / 64)))
     /\ rectified v
     /\ v <> S754_nan /\ v <> S754_zero true /\ flt v fzero = false)
  /\ (forall idx, channels * 64 <= idx -> fget (fbuf h' x) idx = fget (fbuf h x) idx)
  /\ (forall p, p <> x -> fbuf h' p = fbuf h p).
Proof.
  intros Hx Hn Hc Hb h'. split; [|split].
  - intros idx Hidx v.
    assert (Hv : v = relu (fadd (fget (fbuf h x) idx) (fget (fbuf h b) (idx / 64)))).
    { subst v h'. apply (k_add_bias_relu_stores _ _ _ _ n); assumption. }
    split; [exact Hv|].
    assert (Hr : rectified v) by (rewrite Hv; apply relu_rectified).
    split; [exact Hr | apply rectified_spec, Hr].
  - intros idx Hidx. apply k_add_bias_relu_beyond; assumption.
  - intros p Hp. apply k_add_bias_relu_other, Hp.
Qed.

Lemma add_bias_relu_rectifies_witness :
  let h := mkMem (<[2 := FloatBuf [fneg fone]]>
                  (<[1 := FloatBuf (replicate 64 fone)]> ∅)) 3 [] [] in
  fget (fbuf (k_add_bias_relu 1 2 1 h) 1) 7 = fzero.
Proof.
  intros h.
  destruct (proj1 (add_bias_relu_rectifies h 1 2 1 64%nat
                     ltac:(reflexivity) ltac:(vm_compute; discriminate)
                     ltac:(lia) ltac:(lia)) 7 ltac:(lia)) as [Hv _].
  rewrite Hv. vm_compute. reflexivity.
Defined.

(** ** The residual block without squeeze-excite *)

Lemma add_residual_relu_item cs bs rs channels tid :
  channels * 64 < 2 ^ 31 -> 0 <= tid < channels * 64 ->
  (let idx := wrap32 tid in
   let ch := int_shr idx 6 in
   let v := fadd (fadd (fget cs idx) (fget bs ch)) (fget rs idx) in
   Some (idx, relu v))
  = Some (tid, relu (fadd (fadd (fget cs tid) (fget bs (tid / 64))) (fget rs tid))).
Proof.
  intros Hb Ht. cbv zeta. rewrite wrap32_small by lia.
  destruct (shr_land_64 tid ltac:(lia)) as [-> _]. reflexivity.
Qed.

Lemma k_add_residual_relu_stores h convOut bias residual channels dest n idx :
  holds_floats h dest n ->
  channels * 64 <= Z.of_nat n ->
  0 <= channels -> channels * 64 < 2 ^ 31 ->
  0 <= idx < channels * 64 ->
  fget (fbuf (k_add_residual_relu convOut bias residual channels dest h) dest) idx
  = relu (fadd (fadd (fget (fbuf h convOut) idx) (fget (fbuf h bias) (idx / 64)))
               (fget (fbuf h residual) idx)).
Proof.
  intros Hx Hn Hc Hb Hidx. unfold k_add_residual_relu.
  rewrite (to_size_t_small channels), to_size_t_small by lia.
  apply (parallel_for_stores _ _ _ _ n
           (fun tid => relu (fadd (fadd (fget (fbuf h convOut) tid)
                                        (fget (fbuf h bias) (tid / 64)))
                                  (fget (fbuf h residual) tid))));
    try assumption; try lia.
  intros tid Ht. apply (add_residual_relu_item _ _ _ channels); lia.
Qed.

Lemma k_add_residual_relu_other h convOut bias residual channels dest p :
  p <> dest ->
  fbuf (k_add_residual_relu convOut bias residual channels dest h) p = fbuf h p.
Proof. intros Hp. unfold k_add_residual_relu. apply parallel_for_other, Hp. Qed.

(** X13.  For a residual block without a squeeze-excite unit, every channel
    [ch] below [channels = conv2.outC] and every square [sq], the activation
    the block leaves in the running trunk buffer is
    [ReLU(convOut[sq] + bias[ch] + residual[sq])], where [convOut] is the
    output of [conv2], [bias] the bias of [conv2] and [residual] the
    activation the block started from; it is [+0.0] or above zero.  The
    block swaps the two trunk buffers, and writes to no buffer other than
    [tmp], [scratch] and the old [next].  The hypotheses say that the output
    buffer has room, that the sizes fit an [int], and that the workspace
    buffers involved are distinct allocations. *)
Theorem plain_block_residual lm b net h n ch sq :
  hasSe b = false ->
  let C := Conv.outC (conv2 b) in
  0 < C -> C * 64 < 2 ^ 31 ->
  holds_floats h (d_next net) n -> C * 64 <= Z.of_nat n ->
  apart (d_cur net) [d_tmp net; d_scratch net] ->
  apart (Conv.d_b (conv2 b)) [d_tmp net; d_scratch net] ->
  0 <= ch < C -> 0 <= sq < 64 ->
  let convOut := fbuf (block_convs b net h) (d_scratch net) in
  let bias := fbuf h (Conv.d_b (conv2 b)) in
  let residual := fbuf h (d_cur net) in
  let out := run_block lm b (net, h) in
  let v := fget (fbuf out.2 (d_cur out.1)) (ch * 64 + sq) in
  v = relu (fadd (fadd (fget convOut (ch * 64 + sq)) (fget bias ch))
                 (fget residual (ch * 64 + sq)))
  /\ rectified v
  /\ d_cur out.1 = d_next net /\ d_next out.1 = d_cur net
  /\ (forall p, apart p [d_tmp net; d_scratch net; d_next net] ->
                fbuf out.2 p = fbuf h p).
Proof.
  intros Hse C HC Hb Hnext Hn Hcur Hbias Hch Hsq convOut bias residual out v.
  assert (Ihc : inert h (block_convs b net h)) by apply block_convs_inert.
  assert (Hout : out = (set_d_next (d_cur net) (set_d_cur (d_next net) net),
                        k_add_residual_relu (d_scratch net) (Conv.d_b (conv2 b)) (d_cur net)
                          C (d_next net) (block_convs b net h))).
  { subst out. unfold run_block. rewrite Hse. reflexivity. }
  assert (Hv : v = relu (fadd (fadd (fget convOut (ch * 64 + sq)) (fget bias ch))
                              (fget residual (ch * 64 + sq)))).
  { subst v. rewrite Hout. cbn [fst snd].
    change (d_cur (set_d_next (d_cur net) (set_d_cur (d_next net) net))) with (d_next net).
    rewrite (k_add_residual_relu_stores _ _ _ _ _ _ n); try lia.
    - rewrite div_mod_square by lia.
      subst convOut bias residual.
      rewrite (block_convs_other b net h (Conv.d_b (conv2 b))),
        (block_convs_other b net h (d_cur net)) by assumption.
      reflexivity.
    - eapply holds_floats_inert; [exact Ihc | exact Hnext]. }
  split; [exact Hv|].
  split; [rewrite Hv; apply relu_rectified|].
  rewrite Hout. cbn [fst snd].
  split; [reflexivity|]. split; [reflexivity|].
  intros p Hp.
  apply Forall_cons in Hp as [H1 Hp]. apply Forall_cons in Hp as [H2 Hp].
  apply Forall_cons in Hp as [H3 _].
  rewrite k_add_residual_relu_other by assumption.
  apply block_convs_other. repeat constructor; assumption.
Qed.

Lemma plain_block_residual_witness :
  exists net h b,
    create_net sample_platform (Some plain_block_file) empty_mem = (Returned (Some net), h)
    /\ tower net = [b]
    /\ fget (fbuf (run_block sample_libm b (net, h)).2
                  (d_cur (run_block sample_libm b (net, h)).1)) (0 * 64 + 9)
       = relu (fadd (fadd (fget (fbuf (block_convs b net h) (d_scratch net)) (0 * 64 + 9))
                          (fget (fbuf h (Conv.d_b (conv2 b))) 0))
                    (fget (fbuf h (d_cur net)) (0 * 64 + 9))).
Proof.
  eexists _, _, _. split; [vm_compute; reflexivity|]. split; [reflexivity|].
  refine (proj1 (plain_block_residual sample_libm _ _ _ 64%nat 0 9 _ _ _ _ _ _ _ _ _));
    try by_compute;
    vm_compute; repeat constructor; let H := fresh in intros H; discriminate H.
Defined.

(** ** Squeeze: the mean of a channel *)

Lemma tree_sum_ext x x' strides :
  forall t,
    (forall u, t <= u <= t + foldr Z.add 0 strides -> x u = x' u) ->
    Forall (fun s => 0 <= s) strides ->
    tree_sum x strides t = tree_sum x' strides t.
Proof.
  induction strides as [|s rest IH]; intros t H Hs; simpl in *.
  - apply H. lia.
  - apply Forall_cons in Hs as [Hs0 Hs].
    assert (0 <= foldr Z.add 0 rest).
    { clear -Hs. induction Hs; simpl; lia. }
    rewrite (IH t), (IH (t + s)); try assumption; try reflexivity.
    + intros u Hu. apply H. lia.
    + intros u Hu. apply H. lia.
Qed.

(** The six rounds over 64 slots, worked out for symbolic slot values. *)
Lemma tree_reduce_sum (x : Z -> float) :
  fget (tree_reduce (x <$> seqZ 0 64)) 0 = tree_sum x pool_strides 0.
Proof. cbv -[fadd]. reflexivity. Qed.

Lemma se_pool_group_spec convOut bias g :
  0 <= g -> g * 64 + 64 <= 2 ^ 31 ->
  se_pool_group convOut bias g
  = Some (g, fadd (fmul (tree_sum (fun t => fget convOut (g * 64 + t)) pool_strides 0)
                        f64th)
                  (fget bias g)).
Proof.
  intros Hg Hb. unfold se_pool_group. rewrite wrap32_small by lia.
  rewrite tree_reduce_sum.
  rewrite (tree_sum_ext _ (fun t => fget convOut (g * 64 + t))); [reflexivity| |].
  - intros u Hu. simpl in Hu. unfold int_add, int_mul.
    rewrite (wrap32_small (g * 64)) by lia. rewrite wrap32_small by lia. reflexivity.
  - unfold pool_strides. repeat constructor; lia.
Qed.

(** X14.  [k_se_pool] stores for every channel [ch] the mean of its 64
    squares plus the bias: [pooled[ch] = sum * (1/64) + bias[ch]], where
    [sum] adds the 64 floats [convOut[ch*64 + t]] pairwise in a tree of six
    rounds (slot [t] takes slot [t + 32], then [t + 16], ..., then
    [t + 1]), not from left to right.  With no channel, the kernel does
    nothing. *)
Theorem se_pool_tree_mean h convOut bias channels pooled n :
  holds_floats h pooled n ->
  channels <= Z.of_nat n -> channels * 64 < 2 ^ 31 ->
  let h' := k_se_pool convOut bias channels pooled h in
  (forall ch, 0 <= ch < channels ->
     fget (fbuf h' pooled) ch
     = fadd (fmul (tree_sum (fun t => fget (fbuf h convOut) (ch * 64 + t)) pool_strides 0)
                  f64th)
            (fget (fbuf h bias) ch))
  /\ (channels <= 0 -> h' = h)
  /\ (forall p, p <> pooled -> fbuf h' p = fbuf h p).
Proof.
  intros Hp Hn Hb h'. split; [|split].
  - intros ch Hch. subst h'. unfold k_se_pool.
    destruct (Z.leb_spec channels 0); [lia|].
    rewrite (to_size_t_small channels), to_size_t_small by lia.
    rewrite Z.div_mul by lia.
    apply (parallel_for_stores _ _ _ _ n
             (fun g => fadd (fmul (tree_sum (fun t => fget (fbuf h convOut) (g * 64 + t))
                                            pool_strides 0) f64th)
                            (fget (fbuf h bias) g)));
      try assumption; try lia.
    intros g Hg. apply se_pool_group_spec; lia.
  - intros Hc. subst h'. unfold k_se_pool.
    destruct (Z.leb_spec channels 0); [reflexivity | lia].
  - intros p Hne. apply k_se_pool_other, Hne.
Qed.

Lemma se_pool_tree_mean_witness :
  let h := mkMem (<[3 := FloatBuf (zeros 1)]>
                  (<[2 := FloatBuf [fone]]>
                   (<[1 := FloatBuf (replicate 64 fone)]> ∅))) 4 [] [] in
  fget (fbuf (k_se_pool 1 2 1 3 h) 3) 0 = fadd fone fone.
Proof.
  intros h.
  rewrite (proj1 (se_pool_tree_mean h 1 2 1 3 1%nat
                    ltac:(reflexivity) ltac:(lia) ltac:(lia)) 0 ltac:(lia)).
  vm_compute. reflexivity.
Defined.

(** ** Dense layers *)

Lemma dot_row_dense_sum w x b0 o n :
  0 <= o -> 0 <= n -> o * n < 2 ^ 64 ->
  dot_row w x b0 o n = dense_sum w x b0 o n.
Proof.
  intros Ho Hn Hb. unfold dot_row, dense_sum.
  assert (o < 2 ^ 64 \/ n = 0) as [Ho' | ->] by nia.
  - assert (n < 2 ^ 64 \/ o = 0) as [Hn' | ->] by nia.
    + rewrite (to_size_t_small o), (to_size_t_small n), to_size_t_small by lia.
      reflexivity.
    + rewrite (to_size_t_small 0) by lia. rewrite Z.mul_0_l.
      rewrite (to_size_t_small 0) by lia. reflexivity.
  - reflexivity.
Qed.

(** X15.  [k_dense] stores for every row [o] below [outD] the float
    [act(b[o] + sum_i w[o*inD + i] * x[i])], the sum taken in binary32 from
    the bias on, in input order; [act] is ReLU when [reluAct] is set (the
    result is then [+0.0] or above zero) and the identity otherwise.  The
    floats of [y] from [outD] on and every other buffer stay as they were.
    The hypotheses say that [y] has room and that the sizes fit. *)
Theorem dense_rows h x w b inD outD act y n :
  holds_floats h y n ->
  0 <= outD <= Z.of_nat n -> outD < 2 ^ 31 ->
  0 <= inD -> outD * inD < 2 ^ 64 ->
  let h' := k_dense x w b inD outD act y h in
  (forall o, 0 <= o < outD ->
     fget (fbuf h' y) o = dense_out act (fbuf h w) (fbuf h x) (fbuf h b) o inD
     /\ (act = true -> rectified (fget (fbuf h' y) o)))
  /\ (forall o, outD <= o -> fget (fbuf h' y) o = fget (fbuf h y) o)
  /\ (forall p, p <> y -> fbuf h' p = fbuf h p).
Proof.
  intros Hy Hn Hb HinD Hsz h'.
  assert (Hitem : forall tid, 0 <= tid < outD ->
            (let o := wrap32 tid in
             let acc := dot_row (fbuf h w) (fbuf h x) (fget (fbuf h b) o) o inD in
             Some (o, if act then relu acc else acc))
            = Some (tid, dense_out act (fbuf h w) (fbuf h x) (fbuf h b) tid inD)).
  { intros tid Ht. cbv zeta. rewrite wrap32_small by lia.
    rewrite dot_row_dense_sum by nia. reflexivity. }
  assert (Hst : forall o, 0 <= o < outD ->
            fget (fbuf h' y) o = dense_out act (fbuf h w) (fbuf h x) (fbuf h b) o inD).
  { intros o Ho. subst h'. unfold k_dense. rewrite to_size_t_small by lia.
    apply (parallel_for_stores _ _ _ _ n
             (fun tid => dense_out act (fbuf h w) (fbuf h x) (fbuf h b) tid inD));
      try assumption; try lia. }
  split; [|split].
  - intros o Ho. split; [apply Hst, Ho|].
    intros ->. rewrite Hst by exact Ho. apply relu_rectified.
  - intros o Ho. subst h'. unfold k_dense. rewrite to_size_t_small by lia.
    apply parallel_for_beyond; try lia.
    intros tid Ht. eexists. apply Hitem, Ht.
  - intros p Hp. subst h'. unfold k_dense. apply parallel_for_other, Hp.
Qed.

Lemma dense_rows_witness :
  let h := mkMem (<[4 := FloatBuf (zeros 2)]>
                  (<[3 := FloatBuf [fone; fneg fone]]>
                   (<[2 := FloatBuf [fone; fone; fone; fone]]>
                    (<[1 := FloatBuf [fone; fneg fone]]> ∅)))) 5 [] [] in
  fget (fbuf (k_dense 1 2 3 2 2 true 4 h) 4) 1 = fzero.
Proof.
  intros h.
  rewrite (proj1 (proj1 (dense_rows h 1 2 3 2 2 true 4 2%nat
                    ltac:(reflexivity) ltac:(lia) ltac:(lia) ltac:(lia) ltac:(lia))
                    1 ltac:(lia))).
  vm_compute. reflexivity.
Defined.

(* ================================================================== *)
(** * The forward pass and the model *)

Lemma writes_refl W h : writes_only W h h.
Proof. repeat split. Qed.

Lemma writes_app W1 W h1 h2 h3 :
  writes_only W h1 h2 -> W1 ⊆ W -> writes_only W1 h2 h3 -> writes_only W h1 h3.
Proof.
  intros (B1 & F1 & L1 & M1) Hsub (B2 & F2 & L2 & M2).
  repeat split; try congruence.
  intros p Hp. rewrite M2, M1; [reflexivity | exact Hp |].
  intros Hin. apply Hp, Hsub, Hin.
Qed.

Lemma parallel_for_writes total out item h :
  writes_only [out] h (parallel_for total out item h).
Proof.
  pose proof (parallel_for_inert total out item h) as [_ HL].
  split; [|split; [|split; [exact HL|]]].
  - unfold parallel_for. destruct (mem h !! out) as [[l|l]|]; reflexivity.
  - unfold parallel_for. destruct (mem h !! out) as [[l|l]|]; reflexivity.
  - intros p Hp. unfold parallel_for.
    destruct (mem h !! out) as [[l|l]|]; try reflexivity.
    unfold mem_store. simpl. apply lookup_insert_ne.
    intros ->. apply Hp. apply list_elem_of_here.
Qed.

Lemma launch_conv_writes layer input out h :
  writes_only [out] h (launch_conv_no_bias layer input out h).
Proof.
  unfold launch_conv_no_bias, k_conv3x3_no_bias, k_conv1x1_no_bias.
  repeat case_match; first [apply writes_refl | apply parallel_for_writes].
Qed.

Lemma next_ok_writes h : writes_only [] h (next_ok h).2.
Proof. unfold next_ok. destruct (oracle h); repeat split. Qed.

Lemma copy_to_device_writes dst src h :
  writes_only [dst] h (sycl_copy_to_device dst src h).2.
Proof.
  unfold sycl_copy_to_device.
  pose proof (next_ok_writes h) as Hn. destruct (next_ok h) as [ok h1]. simpl in Hn.
  assert (Hn1 : writes_only [dst] h h1).
  { eapply writes_app; [apply writes_refl | | exact Hn]. intros ? H. inversion H. }
  destruct ok; simpl; [|exact Hn1].
  assert (Hst : forall b b', mem h1 !! dst = Some b -> shape_of b' = shape_of b ->
                             writes_only [dst] h (mem_store dst b' h1)).
  { intros b b' Hb Hs. eapply writes_app; [exact Hn1 | reflexivity |].
    repeat split.
    - unfold layout, mem_store. simpl. rewrite fmap_insert. apply insert_id.
      rewrite lookup_fmap, Hb, Hs. reflexivity.
    - intros p Hp. unfold mem_store. simpl. apply lookup_insert_ne.
      intros ->. apply Hp, list_elem_of_here. }
  destruct (mem h1 !! dst) as [[old|old]|] eqn:E; destruct src as [s|s]; simpl;
    try exact Hn1.
  - destruct (Nat.leb_spec (length s) (length old)); simpl; [|exact Hn1].
    apply (Hst (FloatBuf old)); [reflexivity|]. simpl.
    rewrite length_app, length_drop. f_equal. lia.
  - destruct (Nat.leb_spec (length s) (length old)); simpl; [|exact Hn1].
    apply (Hst (IntBuf old)); [reflexivity|]. simpl.
    rewrite length_app, length_drop. f_equal. lia.
Qed.

Lemma copy_to_host_writes src count h :
  writes_only [] h (sycl_copy_to_host src count h).2.
Proof.
  unfold sycl_copy_to_host.
  pose proof (next_ok_writes h) as Hn. destruct (next_ok h) as [ok h1]. simpl in Hn.
  destruct ok; simpl; [|exact Hn].
  destruct (mem h1 !! src) as [[l|l]|]; try exact Hn.
  destruct ((0 <=? count) && (count <=? Z.of_nat (length l))); exact Hn.
Qed.

Ltac solve_elem := repeat first [apply list_elem_of_here | apply list_elem_of_further].

Ltac solve_sub :=
  let p := fresh "p" in
  let Hp := fresh "Hp" in
  intros p Hp;
  repeat (apply elem_of_cons in Hp as [->|Hp]; [solve_elem|]);
  inversion Hp.

(** Peels the kernels off a composition of launches. *)
Ltac writes_step :=
  match goal with
  | |- writes_only _ ?h ?h => apply writes_refl
  | |- writes_only _ _ (parallel_for _ _ _ _) =>
      eapply writes_app; [ | | apply parallel_for_writes]
  | |- writes_only _ _ (launch_conv_no_bias _ _ _ _) =>
      eapply writes_app; [ | | apply launch_conv_writes]
  | |- writes_only _ _ (if ?b then _ else _) => destruct b
  | |- _ ⊆ _ => solve_sub
  end.

Ltac solve_writes := repeat writes_step.

Lemma run_block_writes lm b net h :
  writes_only [d_tmp net; d_scratch net; d_sePooled net; d_seHidden net;
               d_seGates net; d_next net] h (run_block lm b (net, h)).2.
Proof.
  unfold run_block. cbn [fst snd].
  unfold block_se_gates, block_se_hidden, block_convs,
    k_add_residual_relu, k_se_apply, k_se_fc2, k_se_fc1, k_se_pool, k_add_bias_relu.
  solve_writes.
Qed.

Lemma static_field (f : SyclNet -> Z) n n' :
  (forall m, f (static_view m) = f m) ->
  static_view n' = static_view n -> f n' = f n.
Proof. intros Hf H. rewrite <- (Hf n'), <- (Hf n), H. reflexivity. Qed.

Lemma swap_refl n : same_up_to_swap n n.
Proof. split; [reflexivity | left; split; reflexivity]. Qed.

Lemma swap_ws n n' p : same_up_to_swap n n' -> p ∈ ws_ptrs n' -> p ∈ ws_ptrs n.
Proof.
  intros [S Hsw] Hp. unfold ws_ptrs in *.
  rewrite (static_field d_in n n'), (static_field d_tmp n n'),
    (static_field d_scratch n n'), (static_field d_policyHidden n n'),
    (static_field d_policyPlanes n n'), (static_field d_valueInput n n'),
    (static_field d_fc1 n n'), (static_field d_logits n n'),
    (static_field d_sePooled n n'), (static_field d_seHidden n n'),
    (static_field d_seGates n n') in Hp by (first [reflexivity | exact S]).
  destruct Hsw as [[E1 E2]|[E1 E2]]; rewrite E1, E2 in Hp; revert p Hp; solve_sub.
Qed.

Lemma run_block_swap lm b n net h :
  same_up_to_swap n net -> same_up_to_swap n (run_block lm b (net, h)).1.
Proof.
  intros [S Hsw]. split.
  - rewrite <- S. apply (run_block_static lm b (net, h)).
  - unfold run_block. cbn [fst].
    change (d_cur (set_d_next (d_cur net) (set_d_cur (d_next net) net))) with (d_next net).
    change (d_next (set_d_next (d_cur net) (set_d_cur (d_next net) net))) with (d_cur net).
    destruct Hsw as [[-> ->]|[-> ->]]; [right | left]; split; reflexivity.
Qed.

Lemma run_tower_fold_writes lm n h0 (l : list Z) :
  forall st,
    same_up_to_swap n st.1 -> writes_only (ws_ptrs n) h0 st.2 ->
    let st' := foldl (fun st bi => run_block lm (tower_at (fst st) bi) st) st l in
    same_up_to_swap n st'.1 /\ writes_only (ws_ptrs n) h0 st'.2.
Proof.
  induction l as [|bi l IH]; intros [net h] Hs Hw; simpl; [split; assumption|].
  apply IH.
  - apply run_block_swap, Hs.
  - eapply writes_app; [exact Hw | | apply run_block_writes].
    intros p Hp. apply (swap_ws n net p Hs). unfold ws_ptrs. revert p Hp. solve_sub.
Qed.

Lemma run_trunk_writes lm net h :
  same_up_to_swap net (run_trunk lm net h).1
  /\ writes_only (ws_ptrs net) h (run_trunk lm net h).2.
Proof.
  unfold run_trunk, run_tower.
  apply run_tower_fold_writes; cbn [fst snd]; [apply swap_refl|].
  unfold k_add_bias_relu, ws_ptrs. solve_writes.
Qed.

Lemma run_policy_head_writes net h :
  writes_only (scratch_ptrs net) h (run_policy_head net h).
Proof.
  unfold run_policy_head, run_policy_planes, k_policy_map, k_add_bias, k_add_bias_relu,
    scratch_ptrs, ws_ptrs.
  solve_writes.
Qed.

Lemma run_value_head_writes net h :
  writes_only (scratch_ptrs net) h (run_value_head net h).
Proof.
  unfold run_value_head, k_dense, k_add_bias_relu, scratch_ptrs, ws_ptrs.
  solve_writes.
Qed.

Lemma swap_scratch n n' p :
  same_up_to_swap n n' -> p ∈ scratch_ptrs n' -> p ∈ scratch_ptrs n.
Proof.
  intros Hs Hp. unfold scratch_ptrs in *.
  apply elem_of_cons in Hp as [->|Hp].
  - rewrite (static_d_policyMapped _ _ (proj1 Hs)). apply list_elem_of_here.
  - apply list_elem_of_further, (swap_ws n n' p Hs Hp).
Qed.

Lemma eval_one_writes lm net encoded h :
  same_up_to_swap net (eval_one lm net encoded h).1.2
  /\ writes_only (scratch_ptrs net) h (eval_one lm net encoded h).2.
Proof.
  unfold eval_one.
  destruct (negb (inputC net =? 112)); [split; [apply swap_refl | apply writes_refl]|].
  pose proof (copy_to_device_writes (d_in net)
                (FloatBuf (take (Z.to_nat (to_size_t (to_size_t (inputC net) * 64)))
                                encoded)) h) as W1.
  destruct (sycl_copy_to_device _ _ h) as [ok h1]. cbn [snd] in W1.
  assert (W1' : writes_only (scratch_ptrs net) h h1).
  { eapply writes_app; [apply writes_refl | | exact W1].
    unfold scratch_ptrs, ws_ptrs. solve_sub. }
  destruct ok; simpl negb; cbv iota; [|split; [apply swap_refl | exact W1']].
  destruct (run_trunk_writes lm net h1) as [S2 W2].
  destruct (run_trunk lm net h1) as [net1 h2]. cbn [fst snd] in S2, W2.
  assert (W2' : writes_only (scratch_ptrs net) h h2).
  { eapply writes_app; [exact W1' | | exact W2].
    intros p Hp. apply list_elem_of_further, Hp. }
  assert (W3 : writes_only (scratch_ptrs net) h (run_policy_head net1 h2)).
  { eapply writes_app; [exact W2' | | apply run_policy_head_writes].
    intros p Hp. apply (swap_scratch net net1 p S2 Hp). }
  pose proof (copy_to_host_writes (d_policyMapped net1) (to_size_t (policySize net1))
                (run_policy_head net1 h2)) as W4.
  destruct (sycl_copy_to_host _ _ (run_policy_head net1 h2)) as [pol h3]. cbn [snd] in W4.
  assert (W4' : writes_only (scratch_ptrs net) h h3).
  { eapply writes_app; [exact W3 | | exact W4]. intros ? H. inversion H. }
  destruct pol as [pol|]; [|split; [exact S2 | exact W4']].
  assert (W5 : writes_only (scratch_ptrs net) h (run_value_head net1 h3)).
  { eapply writes_app; [exact W4' | | apply run_value_head_writes].
    intros p Hp. apply (swap_scratch net net1 p S2 Hp). }
  pose proof (copy_to_host_writes (d_logits net1) 3 (run_value_head net1 h3)) as W6.
  destruct (sycl_copy_to_host _ _ (run_value_head net1 h3)) as [lg h4]. cbn [snd] in W6.
  assert (W6' : writes_only (scratch_ptrs net) h h4).
  { eapply writes_app; [exact W5 | | exact W6]. intros ? H. inversion H. }
  destruct lg as [lg|]; [|split; [exact S2 | exact W6']].
  destruct (softmax3 lm lg) as [wdl v]. split; [exact S2 | exact W6'].
Qed.

Lemma predict_writes lm net jenc jpol jwdl h :
  let r := nativePredict lm (Some net) jenc jpol jwdl h in
  exists net',
    p_net r = Some net'
    /\ same_up_to_swap net net'
    /\ writes_only (scratch_ptrs net) h (p_mem r).
Proof.
  cbv zeta. unfold nativePredict.
  assert (Same : same_up_to_swap net net /\ writes_only (scratch_ptrs net) h h).
  { split; [apply swap_refl | apply writes_refl]. }
  destruct jenc as [enc|], jpol as [pol|], jwdl as [wdl|];
    try (exists net; split; [reflexivity | exact Same]).
  repeat (match goal with
          | |- context [if negb ?b then _ else _] => destruct b; simpl negb; cbv iota
          end; try (exists net; split; [reflexivity | exact Same])).
  pose proof (eval_one_writes lm net enc h) as [S W].
  destruct (eval_one lm net enc h) as [[[ev|] net'] h']; cbn [fst snd] in S, W;
    exists net'; (split; [reflexivity | split; assumption]).
Qed.

(** ** A handle across calls *)

Lemma static_view_field {X} (f : SyclNet -> X) n n' :
  (forall m, f (static_view m) = f m) ->
  static_view n' = static_view n -> f n' = f n.
Proof. intros Hf H. rewrite <- (Hf n'), <- (Hf n), H. reflexivity. Qed.

Lemma swap_trans n1 n2 n3 :
  same_up_to_swap n1 n2 -> same_up_to_swap n2 n3 -> same_up_to_swap n1 n3.
Proof.
  intros [S1 H1] [S2 H2]. split; [congruence|].
  destruct H1 as [[A1 B1]|[A1 B1]], H2 as [[A2 B2]|[A2 B2]];
    rewrite A2, B2, ?A1, ?B1; auto.
Qed.

Lemma swap_layer_ptrs n n' : same_up_to_swap n n' -> layer_ptrs n' = layer_ptrs n.
Proof. intros [S _]. apply (static_view_field layer_ptrs); [reflexivity | exact S]. Qed.

Lemma swap_freed_perm n n' : same_up_to_swap n n' -> freed_ptrs n' ≡ₚ freed_ptrs n.
Proof.
  intros Hs. unfold freed_ptrs. rewrite (swap_layer_ptrs n n' Hs).
  rewrite (static_d_policyMapped _ _ (proj1 Hs)).
  apply Permutation_app_head, Permutation_app_head.
  destruct Hs as [S Hsw]. unfold ws_ptrs.
  rewrite (static_field d_in n n'), (static_field d_tmp n n'),
    (static_field d_scratch n n'), (static_field d_policyHidden n n'),
    (static_field d_policyPlanes n n'), (static_field d_valueInput n n'),
    (static_field d_fc1 n n'), (static_field d_logits n n'),
    (static_field d_sePooled n n'), (static_field d_seHidden n n'),
    (static_field d_seGates n n') by (first [reflexivity | exact S]).
  destruct Hsw as [[-> ->]|[-> ->]]; [reflexivity|].
  apply Permutation_skip, Permutation_swap.
Qed.

Lemma writes_weaken W W' h h' : W ⊆ W' -> writes_only W h h' -> writes_only W' h h'.
Proof. intros Hs Hw. eapply writes_app; [apply writes_refl | exact Hs | exact Hw]. Qed.

(** Any number of [predict] calls keeps the handle and writes to workspace
    buffers only. *)
Lemma predict_seq_writes lm calls :
  forall net h,
    exists net',
      (predict_seq lm (Some net) h calls).2.1 = Some net'
      /\ same_up_to_swap net net'
      /\ writes_only (scratch_ptrs net) h (predict_seq lm (Some net) h calls).2.2.
Proof.
  induction calls as [|[[enc pol] wdl] calls IH]; intros net h; cbn [predict_seq fst snd].
  - exists net. split; [reflexivity|]. split; [apply swap_refl | apply writes_refl].
  - destruct (predict_writes lm net (Some enc) (Some pol) (Some wdl) h)
      as (net1 & E1 & S1 & W1).
    rewrite E1. destruct (IH net1 (p_mem (nativePredict lm (Some net) (Some enc) (Some pol)
                                            (Some wdl) h))) as (net2 & E2 & S2 & W2).
    exists net2. split; [exact E2|]. split; [eapply swap_trans; eassumption|].
    eapply writes_app; [exact W1 | | exact W2].
    intros p Hp. apply (swap_scratch net net1 p S1 Hp).
Qed.

Lemma create_net_owned pf bytes h0 net h :
  create_net pf (Some bytes) h0 = (Returned (Some net), h) ->
  NoDup (alloc_ptrs net)
  /\ (forall p, p ∈ alloc_ptrs net <-> brk h0 <= p < brk h)
  /\ forall p, p ∈ layer_ptrs net -> p ∉ scratch_ptrs net.
Proof.
  intros Hc. apply create_net_extends in Hc.
  destruct Hc as (Eq & Hbrk & _).
  assert (Hnd : NoDup (alloc_ptrs net)) by (rewrite Eq; apply NoDup_seqZ).
  split; [exact Hnd|]. split.
  - intros p. rewrite Eq, elem_of_seqZ, Hbrk. reflexivity.
  - intros p Hp Hs. unfold alloc_ptrs in Hnd.
    apply NoDup_app in Hnd as (_ & Hdis & _).
    apply (Hdis p Hp). unfold scratch_ptrs in Hs.
    apply elem_of_cons in Hs as [->|Hs].
    + apply elem_of_app. right. apply list_elem_of_here.
    + apply elem_of_app. left. exact Hs.
Qed.

(** X16.  [predict] is read-only on a loaded model.  On a network that
    [create] returned and whose layers fit the workspace ([well_shaped]: then
    every kernel of [eval_one] stays inside its buffers), after any number
    of [predict] calls, whatever their arguments and whatever the device
    does, the handle still holds the same network up to a swap of the two
    trunk pointers, every weight buffer (and the policy map) holds what
    [create] uploaded, no buffer has been allocated, freed or resized, and
    the only buffers whose contents may differ are the workspace buffers and
    the mapped policy. *)
Theorem predict_leaves_weights lm pf bytes h0 net h calls :
  create_net pf (Some bytes) h0 = (Returned (Some net), h) ->
  well_shaped net h = true ->
  let out := predict_seq lm (Some net) h calls in
  exists net',
    out.2.1 = Some net'
    /\ same_up_to_swap net net'
    /\ layer_ptrs net' = layer_ptrs net
    /\ (forall p, p ∈ layer_ptrs net -> mem out.2.2 !! p = mem h !! p)
    /\ (forall p, p ∉ scratch_ptrs net -> mem out.2.2 !! p = mem h !! p)
    /\ layout out.2.2 = layout h
    /\ brk out.2.2 = brk h /\ bad_frees out.2.2 = bad_frees h.
Proof.
  intros Hc _ out.
  destruct (create_net_owned _ _ _ _ _ Hc) as (_ & _ & Hdis).
  destruct (predict_seq_writes lm calls net h) as (net' & E & S & (B & F & L & M)).
  exists net'. fold out in E, B, F, L, M.
  split; [exact E|]. split; [exact S|]. split; [apply swap_layer_ptrs, S|].
  split; [|auto].
  intros p Hp. apply M, Hdis, Hp.
Qed.

Lemma predict_leaves_weights_witness :
  exists net h,
    create_net sample_platform (Some (plain_file 112)) empty_mem = (Returned (Some net), h)
    /\ well_shaped net h = true
    /\ let out := predict_seq sample_libm (Some net) h
                    [(zeros 7168, zeros 2, zeros 3); ([], [], [])] in
       exists net',
         out.2.1 = Some net'
         /\ same_up_to_swap net net'
         /\ layer_ptrs net' = layer_ptrs net
         /\ (forall p, p ∈ layer_ptrs net -> mem out.2.2 !! p = mem h !! p)
         /\ (forall p, p ∉ scratch_ptrs net -> mem out.2.2 !! p = mem h !! p)
         /\ layout out.2.2 = layout h
         /\ brk out.2.2 = brk h /\ bad_frees out.2.2 = bad_frees h.
Proof.
  eexists _, _. split; [vm_compute; reflexivity|]. split; [vm_compute; reflexivity|].
  apply (predict_leaves_weights sample_libm sample_platform (plain_file 112) empty_mem);
    vm_compute; reflexivity.
Defined.

(** What [destroy] does to a network whose buffers are the ones allocated
    since [h0]. *)
Lemma destroy_owned h0 h net :
  heap_ok h0 ->
  NoDup (freed_ptrs net) ->
  (forall p, p ∈ freed_ptrs net <-> brk h0 <= p < brk h) ->
  (forall p, ~ (brk h0 <= p < brk h) -> mem h !! p = mem h0 !! p) ->
  (forall p, brk h0 <= p < brk h -> is_Some (mem h !! p)) ->
  mem (destroy_net net h) = mem h0 /\ bad_frees (destroy_net net h) = bad_frees h.
Proof.
  intros [Hpos Hfree] Hnd Hin Hold Hnew.
  assert (Hlive : forall p, p ∈ freed_ptrs net -> p <> nullptr /\ is_Some (mem h !! p)).
  { intros p Hp. apply Hin in Hp. split; [unfold nullptr; lia | apply Hnew, Hp]. }
  rewrite destroy_net_fold.
  destruct (free_list (freed_ptrs net) h Hnd Hlive) as (Fb & _ & _ & Fm).
  split; [|exact Fb].
  apply map_eq. intros q. rewrite Fm.
  destruct (decide (q ∈ freed_ptrs net)) as [Hq|Hq].
  - apply Hin in Hq. symmetry. apply Hfree. lia.
  - apply Hold. intros Hr. apply Hq, Hin, Hr.
Qed.

Lemma layout_live h h' p :
  layout h' = layout h -> is_Some (mem h !! p) -> is_Some (mem h' !! p).
Proof.
  intros HL [b Hb].
  assert (H : layout h' !! p = Some (shape_of b)).
  { rewrite HL. unfold layout. rewrite lookup_fmap, Hb. reflexivity. }
  unfold layout in H. rewrite lookup_fmap in H.
  destruct (mem h' !! p) as [b'|]; [eauto | discriminate H].
Qed.

(** X17.  The life cycle leaks nothing: on a network whose layers fit the
    workspace ([well_shaped]), [create], then any number of [predict] calls
    (whatever their arguments and outcomes), then [destroy] on the same
    handle leave the live device allocations exactly as they were before
    [create], with no [sycl::free] of an address that is not live, although
    [predict] may have swapped the two trunk pointers. *)
Theorem create_predict_destroy_releases lm pf bytes h0 net h calls :
  heap_ok h0 ->
  create_net pf (Some bytes) h0 = (Returned (Some net), h) ->
  well_shaped net h = true ->
  let out := predict_seq lm (Some net) h calls in
  let h' := nativeDestroy out.2.1 out.2.2 in
  mem h' = mem h0 /\ bad_frees h' = bad_frees h0.
Proof.
  intros Hok Hc _ out h'.
  destruct (create_net_owned _ _ _ _ _ Hc) as (Hnd & Hin & _).
  pose proof (create_net_extends _ _ _ _ _ Hc) as (_ & Hbrk & Hbf & Hold & Hnew).
  destruct (predict_seq_writes lm calls net h) as (net' & E & S & (B & F & L & M)).
  fold out in E, B, F, L, M. subst h'. rewrite E. unfold nativeDestroy.
  assert (Hperm : freed_ptrs net' ≡ₚ alloc_ptrs net).
  { rewrite (swap_freed_perm net net' S). apply freed_alloc_perm. }
  assert (Hscr : forall p, p ∈ scratch_ptrs net -> p ∈ alloc_ptrs net).
  { intros p Hp. unfold scratch_ptrs in Hp. unfold alloc_ptrs.
    apply elem_of_cons in Hp as [->|Hp]; rewrite !elem_of_app.
    - right. right. apply list_elem_of_here.
    - right. left. exact Hp. }
  destruct (destroy_owned h0 out.2.2 net') as [Hm Hb]; try assumption.
  - rewrite Hperm. exact Hnd.
  - intros p. rewrite Hperm, B. apply Hin.
  - intros p Hp. rewrite B in Hp. rewrite M; [apply Hold, Hp|].
    intros Hs. apply Hp, Hin, Hscr, Hs.
  - intros p Hp. rewrite B in Hp. apply (layout_live h); [exact L | apply Hnew, Hp].
  - split; [exact Hm | congruence].
Qed.

Lemma create_predict_destroy_releases_witness :
  exists net h,
    create_net sample_platform (Some se_file) empty_mem = (Returned (Some net), h)
    /\ well_shaped net h = true
    /\ let out := predict_seq sample_libm (Some net) h
                    [(zeros 7168, zeros 2, zeros 3)] in
       let h' := nativeDestroy out.2.1 out.2.2 in
       mem h' = mem empty_mem /\ bad_frees h' = bad_frees empty_mem.
Proof.
  eexists _, _. split; [vm_compute; reflexivity|]. split; [vm_compute; reflexivity|].
  apply (create_predict_destroy_releases sample_libm sample_platform se_file empty_mem).
  - split; [reflexivity | intros q _; apply lookup_empty].
  - vm_compute. reflexivity.
  - vm_compute. reflexivity.
Defined.

Lemma forward_pass_oracle lm net encoded h :
  oracle (forward_pass lm net encoded h).2 = oracle h.
Proof.
  unfold forward_pass.
  pose proof (run_trunk_inert lm net (upload_input net encoded h)) as I1.
  destruct (run_trunk lm net (upload_input net encoded h)) as [net1 h1].
  cbn [fst snd] in *.
  rewrite (proj1 (run_value_head_inert net1 _)), (proj1 (run_policy_head_inert net1 _)),
    (proj1 I1).
  reflexivity.
Qed.

Lemma create_net_usable pf bytes h0 net h :
  create_net pf (Some bytes) h0 = (Returned (Some net), h) ->
  inputC net = 112 -> oracle h = [] -> 0 <= policySize net ->
  usable net h.
Proof.
  intros Hc HC Hor Hps.
  split; [exact (create_net_ready _ _ _ _ _ Hc)|]. split; [exact HC|]. split; [exact Hor|].
  apply create_net_ok in Hc as (dev & hd & s & s' & _ & Hp & Hl & -> & _).
  apply read_prelude_ok in Hp as (_ & _ & _ & Hr).
  pose proof (load_net_keeps_info dev hd _ _ _ Hl) as Hinfo.
  unfold info_view in Hinfo. simpl in Hinfo.
  inversion Hinfo as [[H1 H2 H3 H4 H5 H6]].
  rewrite H6 in *. lia.
Qed.

(** A [predict] call on a usable network runs to its end and leaves the
    network usable. *)
Lemma predict_usable lm net h enc pol wdl :
  usable net h -> valid_call net (enc, pol, wdl) ->
  let r := nativePredict lm (Some net) (Some enc) (Some pol) (Some wdl) h in
  p_done r = true /\ p_calls r = predict_calls
  /\ exists net', p_net r = Some net' /\ usable net' (p_mem r)
                  /\ policySize net' = policySize net.
Proof.
  intros (Hready & HC & Hor & Hps) (Henc & Hpol & Hwdl) r. cbn [fst snd] in *.
  destruct (predict_writes lm net (Some enc) (Some pol) (Some wdl) h)
    as (net' & E & S & (B & F & L & M)).
  fold r in E, B, F, L, M.
  assert (Hr : p_done r = true /\ p_calls r = predict_calls
               /\ oracle (p_mem r) = []).
  { subst r. unfold nativePredict.
    rewrite (proj2 (Z.eqb_eq _ _) Henc), (proj2 (Z.eqb_eq _ _) Hpol),
      (proj2 (Z.eqb_eq _ _) Hwdl). simpl negb. cbv iota.
    rewrite HC in Henc. change (int_mul 112 64) with 7168 in Henc.
    rewrite (eval_one_reliable lm net enc h Hready HC Henc Hps Hor).
    cbn [p_done p_calls p_mem].
    split; [reflexivity|]. split; [reflexivity|].
    rewrite forward_pass_oracle. exact Hor. }
  destruct Hr as (Hd & Hcalls & Hor').
  split; [exact Hd|]. split; [exact Hcalls|].
  exists net'. split; [exact E|].
  assert (HP : policySize net' = policySize net) by apply (static_policySize _ _ (proj1 S)).
  assert (HI : inputC net' = inputC net).
  { apply (static_view_field inputC); [reflexivity | exact (proj1 S)]. }
  split; [|exact HP].
  split; [|split; [congruence | split; [exact Hor' | rewrite HP; exact Hps]]].
  destruct Hready as (R1 & R2 & R3). unfold net_ready, holds_floats.
  rewrite L, HP, HI, (static_d_policyMapped _ _ (proj1 S)), (static_d_logits _ _ (proj1 S)),
    (static_field d_in net net') by (first [reflexivity | exact (proj1 S)]).
  repeat split; assumption.
Qed.

Lemma predict_seq_done lm calls :
  forall net h,
    usable net h -> Forall (valid_call net) calls ->
    Forall (fun r => p_done r = true /\ p_calls r = predict_calls)
           (predict_seq lm (Some net) h calls).1
    /\ oracle (predict_seq lm (Some net) h calls).2.2 = [].
Proof.
  induction calls as [|[[enc pol] wdl] calls IH]; intros net h Hu Hv;
    cbn [predict_seq fst snd].
  - split; [constructor | apply Hu].
  - apply Forall_cons in Hv as [Hv1 Hv].
    destruct (predict_usable lm net h enc pol wdl Hu Hv1)
      as (Hd & Hc & net' & E & Hu' & HP).
    pose proof (predict_writes lm net (Some enc) (Some pol) (Some wdl) h)
      as (net2 & E2 & S & _).
    rewrite E in E2. inversion E2; subst net2. rewrite E.
    destruct (IH net' (p_mem (nativePredict lm (Some net) (Some enc) (Some pol)
                                (Some wdl) h)) Hu') as [IH1 IH2].
    { eapply Forall_impl; [exact Hv|]. intros [[e p] w] (V1 & V2 & V3).
      cbn [fst snd] in *. unfold valid_call. cbn [fst snd].
      rewrite HP, (static_view_field inputC net net') by (first [reflexivity | exact (proj1 S)]).
      auto. }
    split; [|exact IH2].
    constructor; [split; assumption | exact IH1].
Qed.

(** X18.  A loaded network can be evaluated again and again.  On a network
    that [create] returned with 112 input planes and layers that fit the
    workspace ([well_shaped]), and a device on which no operation fails,
    every call of a sequence of [predict] calls whose arrays have the
    lengths [predict] asks for runs to its end: each one makes its six JNI
    calls and leaves through the final [return], although the calls before
    it have overwritten the workspace and may have swapped the two trunk
    pointers. *)
Theorem predict_repeatable lm pf bytes h0 net h calls :
  create_net pf (Some bytes) h0 = (Returned (Some net), h) ->
  well_shaped net h = true ->
  inputC net = 112 -> oracle h = [] ->
  Forall (valid_call net) calls ->
  let out := predict_seq lm (Some net) h calls in
  length out.1 = length calls
  /\ Forall (fun r => p_done r = true /\ p_calls r = predict_calls) out.1
  /\ oracle out.2.2 = [].
Proof.
  intros Hc _ HC Hor Hv out.
  assert (Hlen : forall hd hh, length (predict_seq lm hd hh calls).1 = length calls).
  { clear. induction calls as [|[[e p] w] calls IH]; intros hd hh;
      cbn [predict_seq fst snd length]; [reflexivity | rewrite IH; reflexivity]. }
  split; [apply Hlen|].
  destruct calls as [|c calls]; [split; [constructor | exact Hor]|].
  apply predict_seq_done; [|exact Hv].
  apply (create_net_usable _ _ _ _ _ Hc HC Hor).
  apply Forall_cons in Hv as [(_ & Hp & _) _]. rewrite <- Hp. unfold len. lia.
Qed.

Lemma predict_repeatable_witness :
  exists net h,
    create_net sample_platform (Some (plain_file 112)) empty_mem = (Returned (Some net), h)
    /\ well_shaped net h = true
    /\ let out := predict_seq sample_libm (Some net) h
                    [(zeros 7168, zeros 2, zeros 3); (zeros 7168, zeros 2, zeros 3)] in
       length out.1 = 2%nat
       /\ Forall (fun r => p_done r = true /\ p_calls r = predict_calls) out.1
       /\ oracle out.2.2 = [].
Proof.
  eexists _, _. split; [vm_compute; reflexivity|]. split; [vm_compute; reflexivity|].
  apply (predict_repeatable sample_libm sample_platform (plain_file 112) empty_mem).
  - vm_compute. reflexivity.
  - vm_compute. reflexivity.
  - reflexivity.
  - reflexivity.
  - repeat constructor.
Defined.

(* ================================================================== *)
(** * Rolling back a failed [create] *)

(** ** Steps that do not touch the device *)

Section HostOnly.
Context {T : Type}.

Lemma host_only_ret {A} (a : A) : host_only (@ret T A a).
Proof. intros s r s' H. inversion H. reflexivity. Qed.

Lemma host_only_bind {A B} (m : M T A) (k : A -> M T B) :
  host_only m -> (forall a, host_only (k a)) -> host_only (bind m k).
Proof.
  intros Hm Hk s r s'. unfold bind.
  destruct (m s) as [[a| |] s1] eqn:E; intros H.
  - rewrite (Hk a _ _ _ H). eapply Hm, E.
  - inversion H; subst. eapply Hm, E.
  - inversion H; subst. eapply Hm, E.
Qed.

Lemma host_only_guard b : host_only (@guard T b).
Proof. intros s r s' H. inversion H. reflexivity. Qed.

Lemma host_only_raise_if b : host_only (@raise_if T b).
Proof. intros s r s' H. inversion H. reflexivity. Qed.

Lemma host_only_get_out : host_only (@get_out T).
Proof. intros s r s' H. inversion H. reflexivity. Qed.

Lemma host_only_at_eof : host_only (@at_eof T).
Proof. intros s r s' H. inversion H. reflexivity. Qed.

Lemma host_only_modify g : host_only (@modify T g).
Proof. intros s r s' H. inversion H. reflexivity. Qed.

Lemma host_only_read_u8 : host_only (@read_u8 T).
Proof.
  intros s r s'. unfold read_u8. destruct (cx_f s); intros H; inversion H; reflexivity.
Qed.

Lemma host_only_read_i32 : host_only (@read_i32 T).
Proof.
  intros s r s'. unfold read_i32.
  destruct (cx_f s) as [|b0 [|b1 [|b2 [|b3 rest]]]]; intros H; inversion H; reflexivity.
Qed.

Lemma host_only_read_bytes n : host_only (@read_bytes T n).
Proof.
  intros s r s'. unfold read_bytes. destruct (_ <? _); intros H; inversion H; reflexivity.
Qed.

Lemma host_only_read_float_array : host_only (@read_float_array T).
Proof.
  unfold read_float_array.
  repeat first [ apply host_only_bind; [|intros] | apply host_only_read_i32
               | apply host_only_guard | apply host_only_read_bytes | apply host_only_ret ].
Qed.
End HostOnly.

Ltac host_step :=
  first
    [ apply host_only_bind; [|intros]
    | apply host_only_ret | apply host_only_guard | apply host_only_raise_if
    | apply host_only_get_out | apply host_only_at_eof | apply host_only_modify
    | apply host_only_read_u8 | apply host_only_read_i32 | apply host_only_read_bytes
    | apply host_only_read_float_array
    | match goal with
      | |- host_only (if ?b then _ else _) => destruct b
      end ].

Ltac solve_host := repeat host_step.

Lemma read_prelude_host_only : host_only read_prelude.
Proof. unfold read_prelude. solve_host. Qed.

(** ** Steps that schedule no failure *)

Section Quiet.
Context {T : Type}.

Lemma host_only_quiet {A} (m : M T A) : host_only m -> quiet m.
Proof. intros Hm s r s' Ho H. rewrite (Hm _ _ _ H). exact Ho. Qed.

Lemma quiet_bind {A B} (m : M T A) (k : A -> M T B) :
  quiet m -> (forall a, quiet (k a)) -> quiet (bind m k).
Proof.
  intros Hm Hk s r s' Ho. unfold bind.
  destruct (m s) as [[a| |] s1] eqn:E; intros H.
  - eapply Hk; [|exact H]. eapply Hm; eassumption.
  - inversion H; subst. eapply Hm; eassumption.
  - inversion H; subst. eapply Hm; eassumption.
Qed.

Lemma quiet_alloc dev t count (store : Z -> T -> T) : quiet (alloc dev t count store).
Proof.
  intros s r s' Ho. unfold alloc, sycl_alloc, usm_malloc.
  rewrite (next_ok_reliable _ Ho).
  destruct (usm_device_allocations dev), (usm_shared_allocations dev);
    intros H; inversion H; simpl; exact Ho.
Qed.

Lemma quiet_upload (dst : T -> Z) src : quiet (upload dst src).
Proof.
  intros s r s' Ho. unfold upload, sycl_copy_to_device.
  rewrite (next_ok_reliable _ Ho). simpl.
  destruct (mem (cx_q s) !! dst (cx_out s)) as [[old|old]|]; destruct src as [l|l];
    try (intros H; inversion H; simpl; exact Ho).
  - destruct (_ <=? _)%nat; intros H; inversion H; simpl; exact Ho.
  - destruct (_ <=? _)%nat; intros H; inversion H; simpl; exact Ho.
Qed.

Lemma quiet_zoom {U A} (get : T -> U) (set : U -> T -> T) (m : M U A) :
  quiet m -> quiet (zoom get set m).
Proof.
  intros Hm s r s' Ho. unfold zoom.
  destruct (m _) as [r1 s1] eqn:E. intros H. inversion H; subst. simpl.
  apply (Hm (mkCtx (cx_f s) (cx_q s) (get (cx_out s))) _ _ Ho E).
Qed.

Lemma quiet_for_each {A B} (body : A -> B -> M T B) l acc :
  (forall x b, quiet (body x b)) -> quiet (for_each body l acc).
Proof.
  intros Hb. revert acc. induction l as [|x l IH]; intros acc; simpl.
  - apply host_only_quiet, host_only_ret.
  - apply quiet_bind; [apply Hb | intros; apply IH].
Qed.
End Quiet.

Ltac quiet_step :=
  first
    [ apply quiet_bind; [|intros]
    | apply quiet_alloc | apply quiet_upload
    | apply quiet_zoom
    | apply quiet_for_each; intros
    | apply host_only_quiet; solve [solve_host]
    | match goal with
      | |- quiet (if ?b then _ else _) => destruct b
      end ].

Ltac solve_quiet := repeat quiet_step.

Lemma load_conv_quiet dev : quiet (load_conv dev).
Proof. unfold load_conv. solve_quiet. Qed.

Lemma load_dense_quiet dev e : quiet (load_dense dev e).
Proof. unfold load_dense. solve_quiet. Qed.

Lemma load_se_quiet dev c mh : quiet (load_se dev c mh).
Proof. unfold load_se. solve_quiet. Qed.

Lemma load_block_quiet dev i mh : quiet (load_block dev i mh).
Proof.
  unfold load_block.
  repeat first [ apply load_conv_quiet | apply load_se_quiet | quiet_step ].
Qed.

(** ** Partly loaded objects *)

Lemma all_null_app l1 l2 : all_null (l1 ++ l2) <-> all_null l1 /\ all_null l2.
Proof. apply Forall_app. Qed.

Lemma extends_by_brk h h' ps : extends_by h h' ps -> brk h <= brk h'.
Proof. intros (_ & B & _). rewrite B. unfold len. lia. Qed.

Lemma tidy_of_extends h h' ps : extends_by h h' ps -> tidy h h' ps.
Proof.
  intros H. exists ps, []. rewrite app_nil_r.
  split; [reflexivity | split; [exact H | constructor]].
Qed.

Lemma tidy_nulls h l : all_null l -> tidy h h l.
Proof.
  intros H. exists [], l. split; [reflexivity | split; [apply extends_by_nil | exact H]].
Qed.

Lemma tidy_prepend h h1 h2 ps l :
  extends_by h h1 ps -> tidy h1 h2 l -> tidy h h2 (ps ++ l).
Proof.
  intros H1 (ps2 & nulls & -> & H2 & Hn).
  exists (ps ++ ps2), nulls. rewrite app_assoc.
  split; [reflexivity | split; [eapply extends_by_app; eassumption | exact Hn]].
Qed.

Lemma tidy_append h h' l l2 : tidy h h' l -> all_null l2 -> tidy h h' (l ++ l2).
Proof.
  intros (ps & nulls & -> & H & Hn) H2.
  exists ps, (nulls ++ l2). rewrite app_assoc.
  split; [reflexivity | split; [exact H | apply all_null_app; split; assumption]].
Qed.

Lemma tidy_brk h h' l : tidy h h' l -> brk h <= brk h'.
Proof. intros (ps & nulls & _ & H & _). eapply extends_by_brk, H. Qed.

(** [sycl_free] passes over null pointers. *)
Lemma free_skips_nulls (ps : list Z) :
  forall h,
    foldl (fun h p => sycl_free p h) h ps
    = foldl (fun h p => sycl_free p h) h (filter (fun p => p <> nullptr) ps).
Proof.
  induction ps as [|p ps IH]; intros h; [reflexivity|].
  rewrite filter_cons. destruct (decide (p <> nullptr)) as [Hp|Hp]; simpl.
  - apply IH.
  - assert (p = nullptr) as -> by (destruct (decide (p = nullptr)); [assumption|contradiction]).
    unfold sycl_free at 2. simpl. apply IH.
Qed.

Lemma filter_nulls (l : list Z) :
  all_null l -> filter (fun p => p <> nullptr) l = [].
Proof.
  induction 1 as [|p l Hp _ IH]; [reflexivity|].
  rewrite filter_cons. destruct (decide (p <> nullptr)); [contradiction | exact IH].
Qed.

Lemma filter_fresh h (ps : list Z) n :
  0 < brk h -> ps = seqZ (brk h) n -> filter (fun p => p <> nullptr) ps = ps.
Proof.
  intros Hpos ->. 
  assert (H : Forall (fun p => p <> nullptr) (seqZ (brk h) n)).
  { apply Forall_forall. intros p Hp. apply elem_of_seqZ in Hp. unfold nullptr. lia. }
  induction H as [|p l Hp _ IH]; [reflexivity|].
  rewrite filter_cons. destruct (decide (p <> nullptr)); [|contradiction].
  f_equal. exact IH.
Qed.

(** [destroy] gives back everything a tidy network owns. *)
Lemma tidy_destroy h0 h net :
  heap_ok h0 -> tidy h0 h (alloc_ptrs net) ->
  mem (destroy_net net h) = mem h0 /\ bad_frees (destroy_net net h) = bad_frees h0.
Proof.
  intros [Hpos Hfree] (ps & nulls & Eq & (Es & Hbrk & Hbf & Hold & Hnew) & Hn).
  rewrite destroy_net_fold, free_skips_nulls.
  assert (Hperm : filter (fun p => p <> nullptr) (freed_ptrs net) ≡ₚ ps).
  { rewrite (freed_alloc_perm net), Eq, filter_app, (filter_nulls nulls Hn), app_nil_r.
    rewrite (filter_fresh h0 ps (len ps) Hpos Es). reflexivity. }
  assert (Hin : forall p, p ∈ filter (fun p => p <> nullptr) (freed_ptrs net)
                          <-> brk h0 <= p < brk h).
  { intros p. rewrite Hperm, Es, elem_of_seqZ, Hbrk. reflexivity. }
  assert (Hnd : NoDup (filter (fun p => p <> nullptr) (freed_ptrs net))).
  { rewrite Hperm, Es. apply NoDup_seqZ. }
  destruct (free_list _ h Hnd) as (Fb & _ & _ & Fm).
  { intros p Hp. apply Hin in Hp. split; [unfold nullptr; lia | apply Hnew, Hp]. }
  split; [|congruence].
  apply map_eq. intros q. rewrite Fm.
  destruct (decide (q ∈ filter (fun p => p <> nullptr) (freed_ptrs net))) as [Hq|Hq].
  - apply Hin in Hq. symmetry. apply Hfree. lia.
  - apply Hold. intros Hr. apply Hq, Hin, Hr.
Qed.

(** ** Device steps without scheduled failures *)

Lemma alloc_cases {T} dev t c (store : Z -> T -> T) s :
  oracle (cx_q s) = [] -> 0 < brk (cx_q s) ->
  alloc dev t c store s
  = if capable dev
    then (Ok tt, mkCtx (cx_f s)
                   (mkMem (<[brk (cx_q s) := fresh_buffer t c]> (mem (cx_q s)))
                          (brk (cx_q s) + 1) [] (bad_frees (cx_q s)))
                   (store (brk (cx_q s)) (cx_out s)))
    else (Fail, mkCtx (cx_f s) (cx_q s) (store nullptr (cx_out s))).
Proof.
  intros Ho Hb. unfold alloc, sycl_alloc, usm_malloc, capable.
  rewrite (next_ok_reliable _ Ho). rewrite Ho.
  assert (Hnz : (brk (cx_q s) =? nullptr) = false) by (apply Z.eqb_neq; unfold nullptr; lia).
  destruct (usm_device_allocations dev), (usm_shared_allocations dev); simpl;
    rewrite ?Hnz; reflexivity.
Qed.

Lemma upload_run {T} (dst : T -> Z) w (s : Ctx T) old :
  oracle (cx_q s) = [] ->
  mem (cx_q s) !! dst (cx_out s) = Some (FloatBuf old) ->
  (length w <= length old)%nat ->
  upload dst (FloatBuf w) s
  = (Ok tt, mkCtx (cx_f s)
              (mem_store (dst (cx_out s)) (FloatBuf (w ++ drop (length w) old)) (cx_q s))
              (cx_out s)).
Proof.
  intros Ho Hm Hl. unfold upload, sycl_copy_to_device.
  rewrite (next_ok_reliable _ Ho). simpl. rewrite Hm.
  destruct (Nat.leb_spec (length w) (length old)); [reflexivity | lia].
Qed.

Lemma upload_run_int {T} (dst : T -> Z) w (s : Ctx T) old :
  oracle (cx_q s) = [] ->
  mem (cx_q s) !! dst (cx_out s) = Some (IntBuf old) ->
  (length w <= length old)%nat ->
  upload dst (IntBuf w) s
  = (Ok tt, mkCtx (cx_f s)
              (mem_store (dst (cx_out s)) (IntBuf (w ++ drop (length w) old)) (cx_q s))
              (cx_out s)).
Proof.
  intros Ho Hm Hl. unfold upload, sycl_copy_to_device.
  rewrite (next_ok_reliable _ Ho). simpl. rewrite Hm.
  destruct (Nat.leb_spec (length w) (length old)); [reflexivity | lia].
Qed.

Lemma fresh_fits (w : list float) :
  exists old, fresh_buffer EltFloat (len w) = FloatBuf old /\ (length w <= length old)%nat.
Proof.
  eexists. split; [reflexivity|]. rewrite length_replicate. unfold len. lia.
Qed.

(** ** Failures that allocate nothing *)

Section FailsClean.
Context {T : Type} (G : T -> list Z).

Lemma fc_ret {A} (a : A) : fails_clean G (ret a).
Proof. intros s s' _ _ _ H. inversion H. Qed.

Lemma fc_bind_host {A B} (p : M T A) (k : A -> M T B) :
  host_only p -> keeps G p -> (forall a, fails_clean G (k a)) ->
  fails_clean G (bind p k).
Proof.
  intros Hp Hk Hc s s' Ho Hb Hn. unfold bind.
  destruct (p s) as [[a| |] s1] eqn:E; intros H.
  - pose proof (Hp _ _ _ E) as Hq. pose proof (Hk _ _ _ E) as Hg.
    destruct (Hc a s1 s') as [H1 H2]; try assumption; try congruence.
    split; [congruence | exact H2].
  - inversion H; subst. split; [eapply Hp, E|]. rewrite (Hk _ _ _ E). exact Hn.
  - inversion H.
Qed.

Lemma fc_host {A} (p : M T A) : host_only p -> keeps G p -> fails_clean G p.
Proof.
  intros Hp Hk s s' Ho Hb Hn H.
  split; [eapply Hp, H|]. rewrite (Hk _ _ _ H). exact Hn.
Qed.
End FailsClean.

Ltac fc_step :=
  first
    [ apply fc_bind_host; [solve [solve_host] | solve [solve_keeps] | intros; cbv zeta]
    | apply fc_ret
    | match goal with
      | |- fails_clean _ (if ?b then _ else _) => destruct b
      end ].

(** Two allocations and two uploads, as at the end of [load_conv] and
    [load_dense]: when the first allocation succeeds, so does the rest. *)
Lemma pair_tail_fail {T} dev (get_w get_b : T -> Z) (set_w set_b : Z -> T -> T) w b s s' :
  (forall p x, get_w (set_w p x) = p) -> (forall p x, get_b (set_b p x) = p) ->
  (forall p x, get_w (set_b p x) = get_w x) ->
  oracle (cx_q s) = [] -> 0 < brk (cx_q s) ->
  (alloc dev EltFloat (len w) set_w ;;
   alloc dev EltFloat (len b) set_b ;;
   upload get_w (FloatBuf w) ;;
   upload get_b (FloatBuf b)) s = (Fail, s') ->
  cx_q s' = cx_q s /\ cx_out s' = set_w nullptr (cx_out s).
Proof.
  intros Lw Lb Lwb Ho Hb H. unfold bind in H.
  rewrite (alloc_cases dev _ _ _ s Ho Hb) in H.
  destruct (capable dev) eqn:C; [|inversion H; subst; split; reflexivity].
  rewrite alloc_cases in H by (simpl; first [reflexivity | lia]).
  rewrite C in H. cbn [cx_f cx_q cx_out mem brk oracle bad_frees] in H.
  destruct (fresh_fits w) as (ow & Ew & Lw').
  destruct (fresh_fits b) as (ob & Eb & Lb').
  rewrite (upload_run get_w w _ ow) in H;
    [ | reflexivity
      | cbn [cx_q cx_out mem]; rewrite Lwb, Lw, lookup_insert_ne by lia;
        rewrite lookup_insert_eq; f_equal; exact Ew
      | exact Lw' ].
  cbn [cx_f cx_q cx_out] in H.
  rewrite (upload_run get_b b _ ob) in H;
    [ discriminate H
    | reflexivity
    | cbn [cx_q cx_out mem mem_store]; rewrite Lb, Lwb, Lw, lookup_insert_ne by lia;
      rewrite lookup_insert_eq; f_equal; exact Eb
    | exact Lb' ].
Qed.

Lemma load_conv_fails_clean dev : fails_clean conv_ptrs (load_conv dev).
Proof.
  unfold load_conv. repeat fc_step.
  intros s s' Ho Hb Hn H.
  apply (pair_tail_fail dev Conv.d_w Conv.d_b) in H as [Hq Hout];
    try assumption; try (intros; reflexivity).
  split; [exact Hq|]. rewrite Hout.
  apply Forall_cons in Hn as [_ Hn].
  constructor; [reflexivity | exact Hn].
Qed.

Lemma load_dense_fails_clean dev e : fails_clean dense_ptrs (load_dense dev e).
Proof.
  unfold load_dense. repeat fc_step.
  intros s s' Ho Hb Hn H.
  apply (pair_tail_fail dev Dense.d_w Dense.d_b) in H as [Hq Hout];
    try assumption; try (intros; reflexivity).
  split; [exact Hq|]. rewrite Hout.
  apply Forall_cons in Hn as [_ Hn].
  constructor; [reflexivity | exact Hn].
Qed.

Lemma se_tail_fail dev w1 b1 w2 b2 (r : bool * Z) s s' :
  oracle (cx_q s) = [] -> 0 < brk (cx_q s) ->
  (alloc dev EltFloat (len w1) Se.set_d_w1 ;;
   alloc dev EltFloat (len b1) Se.set_d_b1 ;;
   alloc dev EltFloat (len w2) Se.set_d_w2 ;;
   alloc dev EltFloat (len b2) Se.set_d_b2 ;;
   upload Se.d_w1 (FloatBuf w1) ;;
   upload Se.d_b1 (FloatBuf b1) ;;
   upload Se.d_w2 (FloatBuf w2) ;;
   upload Se.d_b2 (FloatBuf b2) ;;
   ret r) s = (Fail, s') ->
  cx_q s' = cx_q s /\ cx_out s' = Se.set_d_w1 nullptr (cx_out s).
Proof.
  intros Ho Hb H. unfold bind in H.
  rewrite (alloc_cases dev _ _ _ s Ho Hb) in H.
  destruct (capable dev) eqn:C; [|inversion H; subst; split; reflexivity].
  do 3 (rewrite alloc_cases in H by (simpl; first [reflexivity | lia]);
        rewrite C in H; cbn [cx_f cx_q cx_out mem brk oracle bad_frees] in H).
  destruct (fresh_fits w1) as (ow1 & Ew1 & Lw1).
  destruct (fresh_fits b1) as (ob1 & Eb1 & Lb1).
  destruct (fresh_fits w2) as (ow2 & Ew2 & Lw2).
  destruct (fresh_fits b2) as (ob2 & Eb2 & Lb2).
  rewrite (upload_run Se.d_w1 w1 _ ow1) in H;
    [ | reflexivity
      | cbn [cx_q cx_out mem Se.d_w1 Se.set_d_w1 Se.set_d_b1 Se.set_d_w2 Se.set_d_b2];
        simpl_inserts; f_equal; exact Ew1
      | exact Lw1 ].
  cbn [cx_f cx_q cx_out] in H.
  rewrite (upload_run Se.d_b1 b1 _ ob1) in H;
    [ | reflexivity
      | cbn [cx_q cx_out mem mem_store Se.d_b1 Se.d_w1 Se.set_d_w1 Se.set_d_b1 Se.set_d_w2
               Se.set_d_b2];
        simpl_inserts; f_equal; exact Eb1
      | exact Lb1 ].
  cbn [cx_f cx_q cx_out] in H.
  rewrite (upload_run Se.d_w2 w2 _ ow2) in H;
    [ | reflexivity
      | cbn [cx_q cx_out mem mem_store Se.d_b1 Se.d_w1 Se.d_w2 Se.set_d_w1 Se.set_d_b1
               Se.set_d_w2 Se.set_d_b2];
        simpl_inserts; f_equal; exact Ew2
      | exact Lw2 ].
  cbn [cx_f cx_q cx_out] in H.
  rewrite (upload_run Se.d_b2 b2 _ ob2) in H;
    [ discriminate H
    | reflexivity
    | cbn [cx_q cx_out mem mem_store Se.d_b1 Se.d_w1 Se.d_w2 Se.d_b2 Se.set_d_w1
             Se.set_d_b1 Se.set_d_w2 Se.set_d_b2];
      simpl_inserts; f_equal; exact Eb2
    | exact Lb2 ].
Qed.

Lemma load_se_fails_clean dev c mh : fails_clean se_ptrs (load_se dev c mh).
Proof.
  unfold load_se. repeat fc_step.
  intros s s' Ho Hb Hn H.
  apply se_tail_fail in H as [Hq Hout]; try assumption.
  split; [exact Hq|]. rewrite Hout.
  apply Forall_cons in Hn as [_ Hn].
  constructor; [reflexivity | exact Hn].
Qed.

(** ** Composing loading steps *)

Section Local.
Context {T : Type}.

Lemma keeps_keeps_null {A} (G : T -> list Z) (m : M T A) : keeps G m -> keeps_null G m.
Proof. intros Hk s r s' Hn H. rewrite (Hk _ _ _ H). exact Hn. Qed.

Lemma local_ext {A} (G G' : T -> list Z) (m : M T A) :
  (forall x, G x = G' x) -> local G m -> local G' m.
Proof.
  intros E Hl s r s' Ho Hb Hn H. rewrite <- E in Hn.
  specialize (Hl s r s' Ho Hb Hn H). rewrite <- E. exact Hl.
Qed.

Lemma local_eqv {A} (G : T -> list Z) (m m' : M T A) :
  (forall s, m s = m' s) -> local G m -> local G m'.
Proof. intros E Hl s r s' Ho Hb Hn H. rewrite <- E in H. eapply Hl; eassumption. Qed.

(** A record loader: what it allocates when it returns, that it schedules
    no failure, and that it fails clean. *)
Lemma local_of {A} (G : T -> list Z) (m : M T A) :
  (forall s u s', m s = (Ok u, s') -> extends_by (cx_q s) (cx_q s') (G (cx_out s'))) ->
  quiet m -> fails_clean G m -> local G m.
Proof.
  intros Hok Hq Hf s r s' Ho Hb Hn H. destruct r as [u| |]; [| |exact I].
  - split; [eapply Hok, H | eapply Hq; eassumption].
  - destruct (Hf s s' Ho Hb Hn H) as [E Hn']. rewrite E. apply tidy_nulls, Hn'.
Qed.

(** Host-only steps in front. *)
Lemma local_bind_host {A B} (G : T -> list Z) (p : M T A) (k : A -> M T B) :
  host_only p -> keeps_null G p -> (forall a, local G (k a)) -> local G (bind p k).
Proof.
  intros Hp Hk Hl s r s' Ho Hb Hn. unfold bind.
  destruct (p s) as [[a| |] s1] eqn:E; intros H.
  - pose proof (Hp _ _ _ E) as Hq. pose proof (Hk _ _ _ Hn E) as Hg.
    rewrite <- Hq in Ho, Hb. specialize (Hl a s1 r s' Ho Hb Hg H).
    rewrite Hq in Hl. exact Hl.
  - inversion H; subst. rewrite (Hp _ _ _ E). apply tidy_nulls. eapply Hk; eassumption.
  - inversion H; subst. exact I.
Qed.

(** Host-only steps behind. *)
Lemma local_then_host {A B} (G : T -> list Z) (m : M T A) (k : A -> M T B) :
  local G m -> (forall a, host_only (k a)) -> (forall a, keeps G (k a)) ->
  local G (bind m k).
Proof.
  intros Hl Hh Hk s r s' Ho Hb Hn. unfold bind.
  destruct (m s) as [[a| |] s1] eqn:E; intros H.
  - destruct (Hl _ _ _ Ho Hb Hn E) as [He Ho1].
    pose proof (Hh a _ _ _ H) as Hq. pose proof (Hk a _ _ _ H) as Hg.
    rewrite Hq, Hg. destruct r; [split; assumption | apply tidy_of_extends, He | exact I].
  - inversion H; subst. apply (Hl _ _ _ Ho Hb Hn E).
  - inversion H; subst. exact I.
Qed.

(** Two steps that allocate one after the other. *)
Lemma local_seq {A B} (G1 G2 : T -> list Z) (m : M T A) (k : A -> M T B) :
  (forall a, local G2 (k a)) -> local G1 m ->
  keeps_null G2 m -> (forall a, keeps G1 (k a)) ->
  local (fun x => G1 x ++ G2 x) (bind m k).
Proof.
  intros Hl2 Hl1 Hk2 Hk1 s r s' Ho Hb Hn. unfold bind.
  apply all_null_app in Hn as [Hn1 Hn2].
  destruct (m s) as [[a| |] s1] eqn:E; intros H.
  - destruct (Hl1 _ _ _ Ho Hb Hn1 E) as [He Ho1].
    pose proof (Hk2 _ _ _ Hn2 E) as Hn2'.
    pose proof (extends_by_brk _ _ _ He) as Hb1.
    specialize (Hl2 a s1 r s' Ho1 ltac:(lia) Hn2' H).
    rewrite (Hk1 a _ _ _ H).
    destruct r as [b| |]; [|exact (tidy_prepend _ _ _ _ _ He Hl2) | exact I].
    destruct Hl2 as [He2 Ho2]. split; [|exact Ho2].
    eapply extends_by_app; eassumption.
  - inversion H; subst. apply tidy_append; [apply (Hl1 _ _ _ Ho Hb Hn1 E)|].
    eapply Hk2; eassumption.
  - inversion H; subst. exact I.
Qed.

Lemma local_zoom {U A} (G : U -> list Z) (get : T -> U) (set : U -> T -> T) (m : M U A) :
  (forall u x, get (set u x) = u) -> local G m ->
  local (fun x => G (get x)) (zoom get set m).
Proof.
  intros Law Hl s r s' Ho Hb Hn. unfold zoom.
  destruct (m _) as [r1 s1] eqn:E. intros H. inversion H; subst. simpl.
  rewrite Law.
  apply (Hl (mkCtx (cx_f s) (cx_q s) (get (cx_out s))) _ _ Ho Hb Hn E).
Qed.

Lemma local_alloc (field : T -> Z) dev t c (store : Z -> T -> T) :
  (forall p x, field (store p x) = p) ->
  local (fun x => [field x]) (alloc dev t c store).
Proof.
  intros Law s r s' Ho Hb Hn H.
  pose proof (quiet_alloc dev t c store s r s' Ho H) as Ho'.
  pose proof H as H'. rewrite alloc_cases in H' by assumption.
  destruct (capable dev).
  - destruct r as [u| |]; try discriminate H'.
    apply alloc_extends in H as (He & Hout & _). rewrite Hout, Law.
    split; [exact He | exact Ho'].
  - inversion H'; subst. simpl. rewrite Law. apply tidy_nulls. repeat constructor.
Qed.
End Local.

Lemma upload_fail_same {T} (dst : T -> Z) src (s s' : Ctx T) :
  oracle (cx_q s) = [] -> upload dst src s = (Fail, s') ->
  cx_q s' = cx_q s /\ cx_out s' = cx_out s.
Proof.
  intros Ho. unfold upload, sycl_copy_to_device.
  rewrite (next_ok_reliable _ Ho). simpl.
  destruct (mem (cx_q s) !! dst (cx_out s)) as [[old|old]|]; destruct src as [l|l];
    try (intros H; inversion H; split; reflexivity).
  - destruct (_ <=? _)%nat; intros H; inversion H; split; reflexivity.
  - destruct (_ <=? _)%nat; intros H; inversion H; split; reflexivity.
Qed.

(** ** The stages of [create_net] *)

Lemma load_conv_local dev : local conv_ptrs (load_conv dev).
Proof.
  apply local_of; [apply conv_extends | apply load_conv_quiet | apply load_conv_fails_clean].
Qed.

Lemma load_dense_local dev e : local dense_ptrs (load_dense dev e).
Proof.
  apply local_of;
    [apply dense_extends | apply load_dense_quiet | apply load_dense_fails_clean].
Qed.

Ltac null_keeps := apply keeps_keeps_null; solve [solve_keeps].

Lemma load_input_local dev : local (fun n => conv_ptrs (inputLayer n)) (load_input dev).
Proof.
  unfold load_input. apply local_then_host.
  - apply (local_zoom conv_ptrs); [reflexivity | apply load_conv_local].
  - intros; solve_host.
  - intros; solve_keeps.
Qed.

Lemma load_heads_local dev hd :
  local (fun n => conv_ptrs (policyStem n) ++ conv_ptrs (policyOut n)
                  ++ conv_ptrs (valueConv n) ++ dense_ptrs (valueFc1 n)
                  ++ dense_ptrs (valueFc2 n))
        (load_heads dev hd).
Proof.
  unfold load_heads.
  apply (local_seq (fun n => conv_ptrs (policyStem n)));
    [intros _ | apply (local_zoom conv_ptrs); [reflexivity | apply load_conv_local]
     | null_keeps | intros; solve_keeps].
  apply (local_seq (fun n => conv_ptrs (policyOut n)));
    [intros _ | apply (local_zoom conv_ptrs); [reflexivity | apply load_conv_local]
     | null_keeps | intros; solve_keeps].
  apply (local_seq (fun n => conv_ptrs (valueConv n)));
    [intros _ | apply (local_zoom conv_ptrs); [reflexivity | apply load_conv_local]
     | null_keeps | intros; solve_keeps].
  do 4 (apply local_bind_host; [solve_host | null_keeps | intros]).
  apply (local_seq (fun n => dense_ptrs (valueFc1 n)));
    [intros _ | apply (local_zoom dense_ptrs); [reflexivity | apply load_dense_local]
     | null_keeps | intros; solve_keeps].
  apply local_then_host.
  - apply (local_zoom dense_ptrs); [reflexivity | apply load_dense_local].
  - intros; solve_host.
  - intros; solve_keeps.
Qed.

Lemma policy_tail_local dev c src :
  local (fun n => [d_policyMap n])
        (alloc dev EltInt c set_d_policyMap ;;
         upload d_policyMap src ;;
         eof <- at_eof ;;
         guard eof).
Proof.
  intros s r s' Ho Hb Hn H. unfold bind in H.
  destruct (alloc dev EltInt c set_d_policyMap s) as [[u| |] s1] eqn:E1.
  - pose proof (quiet_alloc _ _ _ _ _ _ _ Ho E1) as Ho1.
    apply alloc_extends in E1 as (He & Hout & _).
    assert (Hp : d_policyMap (cx_out s1) = brk (cx_q s)) by (rewrite Hout; reflexivity).
    destruct (upload d_policyMap src s1) as [[u2| |] s2] eqn:E2.
    + pose proof (quiet_upload _ _ _ _ _ Ho1 E2) as Ho2.
      apply upload_ok in E2 as (Hc & _ & Hout2).
      assert (He2 : extends_by (cx_q s) (cx_q s2) [d_policyMap (cx_out s2)]).
      { rewrite Hout2, Hp. eapply extends_by_upload; [exact He | | exact Hc].
        rewrite Hp. apply list_elem_of_here. }
      unfold at_eof, guard in H. destruct (cx_f s2); inversion H; subst.
      * split; assumption.
      * apply tidy_of_extends, He2.
    + inversion H; subst. apply upload_fail_same in E2 as [Hq Ho2]; [|exact Ho1].
      rewrite Hq, Ho2, Hp. apply tidy_of_extends, He.
    + inversion H; subst. exact I.
  - inversion H; subst.
    rewrite alloc_cases in E1 by assumption.
    destruct (capable dev); inversion E1; subst. simpl.
    apply tidy_nulls. repeat constructor.
  - inversion H; subst. exact I.
Qed.

Lemma load_policy_map_local dev hd :
  local (fun n => [d_policyMap n]) (load_policy_map dev hd).
Proof.
  unfold load_policy_map.
  do 4 (apply local_bind_host; [solve_host | null_keeps | intros]).
  apply policy_tail_local.
Qed.

(** One allocation of the workspace. *)
Ltac ws_atom :=
  first
    [ apply (local_alloc d_in); intros; reflexivity
    | apply (local_alloc d_cur); intros; reflexivity
    | apply (local_alloc d_next); intros; reflexivity
    | apply (local_alloc d_tmp); intros; reflexivity
    | apply (local_alloc d_scratch); intros; reflexivity
    | apply (local_alloc d_policyHidden); intros; reflexivity
    | apply (local_alloc d_policyPlanes); intros; reflexivity
    | apply (local_alloc d_valueInput); intros; reflexivity
    | apply (local_alloc d_fc1); intros; reflexivity
    | apply (local_alloc d_logits); intros; reflexivity
    | apply (local_alloc d_sePooled); intros; reflexivity
    | apply (local_alloc d_seHidden); intros; reflexivity
    | apply (local_alloc d_seGates); intros; reflexivity
    | apply (local_alloc d_policyMapped); intros; reflexivity ].

Ltac ws_chain :=
  first
    [ eapply local_seq; [intros; ws_chain | ws_atom | null_keeps | intros; solve [solve_keeps]]
    | apply local_bind_host; [solve [solve_host] | null_keeps | intros; ws_chain]
    | ws_atom
    | match goal with
      | |- local _ (bind (if ?b then _ else _) _) => destruct b; ws_chain
      end ].

Lemma alloc_workspace_local dev hd :
  local (fun n => ws_ptrs n ++ [d_policyMapped n]) (alloc_workspace dev hd).
Proof.
  unfold alloc_workspace. cbv zeta.
  eapply local_ext; cycle 1; [ws_chain | intros x; reflexivity].
Qed.

(** ** The tower *)

Lemma zoom_inv {T U A} (get : T -> U) (set : U -> T -> T) (m : M U A) s r s' :
  zoom get set m s = (r, s') ->
  exists u, m (mkCtx (cx_f s) (cx_q s) (get (cx_out s))) = (r, u)
            /\ s' = mkCtx (cx_f u) (cx_q u) (set (cx_out u) (cx_out s)).
Proof.
  unfold zoom. destruct (m _) as [r1 u] eqn:E. intros H. inversion H; subst. eauto.
Qed.

Lemma tower_at_update_valid i g n :
  (Z.to_nat i < length (tower n))%nat ->
  tower_at (update_block i g n) i = g (tower_at n i).
Proof.
  intros Hi. rewrite tower_at_update_same. unfold tower_at.
  destruct (lookup_lt_is_Some_2 (tower n) (Z.to_nat i) Hi) as [b ->]. reflexivity.
Qed.

Lemma for_each_inv {T A B} (body : A -> B -> M T B) (I : nat -> Ctx T -> Prop)
    (F : Ctx T -> Prop) l :
  forall k acc s r s',
    for_each body l acc s = (r, s') ->
    I k s ->
    (forall j x b s1 r1 s2,
        l !! j = Some x -> I (k + j)%nat s1 -> body x b s1 = (r1, s2) ->
        match r1 with
        | Ok _ => I (S (k + j)) s2
        | Fail => F s2
        | Throw => True
        end) ->
    match r with
    | Ok _ => I (k + length l)%nat s'
    | Fail => F s'
    | Throw => True
    end.
Proof.
  induction l as [|x l IH]; intros k acc s r s' Hrun Hk Hstep; simpl in *.
  - inversion Hrun; subst. rewrite Nat.add_0_r. exact Hk.
  - unfold bind in Hrun. destruct (body x acc s) as [[acc'| |] s1] eqn:E.
    + replace (k + S (length l))%nat with (S k + length l)%nat by lia.
      eapply IH; [exact Hrun | |].
      * specialize (Hstep 0%nat x acc s (Ok acc') s1 eq_refl).
        rewrite Nat.add_0_r in Hstep. auto.
      * intros j y b t1 r1 t2 Hj Hi Hb.
        replace (S k + j)%nat with (k + S j)%nat in * by lia.
        eapply Hstep; eauto.
    + specialize (Hstep 0%nat x acc s Fail s1 eq_refl).
      rewrite Nat.add_0_r in Hstep. inversion Hrun; subst. auto.
    + inversion Hrun; subst. constructor.
Qed.

(** [load_block i] leaves the other entries of the tower alone, whatever its
    outcome. *)
Lemma tower_other_any dev i mh s r s' (j : nat) :
  j <> Z.to_nat i ->
  load_block dev i mh s = (r, s') ->
  tower (cx_out s') !! j = tower (cx_out s) !! j.
Proof.
  intros Hj H.
  pose proof (load_block_keeps_length dev i mh _ _ _ H) as Hlen. simpl in Hlen.
  pose proof (load_block_keeps_other dev i (Z.of_nat j) mh ltac:(lia) _ _ _ H) as Hk.
  simpl in Hk. unfold tower_at in Hk. rewrite Nat2Z.id in Hk.
  destruct (tower (cx_out s') !! j) as [b'|] eqn:E';
    destruct (tower (cx_out s) !! j) as [b|] eqn:E; simpl in Hk.
  - congruence.
  - apply lookup_lt_Some in E'. apply lookup_ge_None in E. lia.
  - apply lookup_lt_Some in E. apply lookup_ge_None in E'. lia.
  - reflexivity.
Qed.

Lemma take_tower_any dev i mh s r s' (j : nat) :
  (j <= Z.to_nat i)%nat ->
  load_block dev i mh s = (r, s') ->
  take j (tower (cx_out s')) = take j (tower (cx_out s)).
Proof.
  intros Hj H. apply list_eq. intros k.
  destruct (decide (k < j)%nat) as [Hk|Hk].
  - rewrite !lookup_take_lt by assumption.
    apply (tower_other_any dev i mh s r s'); [lia | exact H].
  - rewrite !lookup_take_ge by lia. reflexivity.
Qed.

Lemma drop_tower_any dev i mh s r s' (j : nat) :
  (Z.to_nat i < j)%nat ->
  load_block dev i mh s = (r, s') ->
  drop j (tower (cx_out s')) = drop j (tower (cx_out s)).
Proof.
  intros Hj H. apply list_eq. intros k. rewrite !lookup_drop.
  apply (tower_other_any dev i mh s r s'); [lia | exact H].
Qed.

Lemma block_init_null : all_null (block_ptrs block_init).
Proof. repeat constructor. Qed.

Lemma blocks_init_null n : all_null (replicate n block_init ≫= block_ptrs).
Proof.
  induction n as [|n IH]; [constructor|].
  simpl. repeat constructor. exact IH.
Qed.

Lemma tower_add_params p n : tower (add_params p n) = tower n.
Proof. reflexivity. Qed.

Lemma tower_at_add_params p n i : tower_at (add_params p n) i = tower_at n i.
Proof. reflexivity. Qed.

Ltac valid_index Hi :=
  rewrite ?tower_length_update, ?tower_add_params, ?tower_length_update; exact Hi.

Lemma block_ptrs_c1 c :
  block_ptrs (set_conv1 c block_init) = conv_ptrs c ++ [nullptr; nullptr].
Proof. reflexivity. Qed.

Lemma block_ptrs_c2 c1 c2 :
  block_ptrs (set_conv2 c2 (set_conv1 c1 block_init)) = conv_ptrs c1 ++ conv_ptrs c2.
Proof. reflexivity. Qed.

Lemma block_ptrs_se c1 c2 sx :
  block_ptrs (set_se sx (set_conv2 c2 (set_conv1 c1 block_init)))
  = conv_ptrs c1 ++ conv_ptrs c2.
Proof. reflexivity. Qed.

(** A failing [load_block] on a fresh entry: nothing leaks, because a
    squeeze-excite unit that fails has allocated nothing. *)
Lemma load_block_fail dev i mh s s' :
  oracle (cx_q s) = [] -> 0 < brk (cx_q s) ->
  (Z.to_nat i < length (tower (cx_out s)))%nat ->
  tower_at (cx_out s) i = block_init ->
  load_block dev i mh s = (Fail, s') ->
  tidy (cx_q s) (cx_q s') (block_ptrs (tower_at (cx_out s') i)).
Proof.
  intros Ho Hb Hi Hinit H. unfold load_block in H. unfold bind at 1 in H.
  destruct (zoom _ _ (load_conv dev) s) as [[u1| |] s1] eqn:E1; [| |discriminate H].
  2:{ inversion H; subst. apply zoom_inv in E1 as (t1 & Hc1 & ->). simpl.
      apply load_conv_fails_clean in Hc1 as [Hq Hn]; simpl; try assumption.
      - simpl in Hq. rewrite Hq, tower_at_update_valid, Hinit by exact Hi.
        rewrite block_ptrs_c1. apply tidy_nulls.
        apply all_null_app. split; [exact Hn | repeat constructor].
      - rewrite Hinit. repeat constructor. }
  pose proof (quiet_zoom _ _ _ (load_conv_quiet dev) _ _ _ Ho E1) as Ho1.
  apply zoom_inv in E1 as (t1 & Hc1 & ->).
  apply conv_extends in Hc1. simpl in Hc1, Ho1.
  pose proof (extends_by_brk _ _ _ Hc1) as Hb1.
  unfold bind at 1 in H.
  match type of H with
  | match zoom ?g ?st _ ?S with _ => _ end = _ =>
      destruct (zoom g st (load_conv dev) S) as [[u2| |] s2] eqn:E2; [| |discriminate H]
  end.
  2:{ inversion H; subst. apply zoom_inv in E2 as (t2 & Hc2 & ->). simpl.
      apply load_conv_fails_clean in Hc2 as [Hq Hn]; simpl; try assumption; try lia.
      - simpl in Hq. rewrite Hq.
        rewrite !tower_at_update_valid, Hinit
          by (rewrite ?tower_length_update; exact Hi).
        rewrite block_ptrs_c2.
        apply tidy_append; [apply tidy_of_extends, Hc1 | exact Hn].
      - simpl. rewrite tower_at_update_valid, Hinit by exact Hi. repeat constructor. }
  match type of E2 with
  | zoom _ _ _ ?S = _ =>
      pose proof (quiet_zoom _ _ _ (load_conv_quiet dev) S _ _ Ho1 E2) as Ho2
  end.
  apply zoom_inv in E2 as (t2 & Hc2 & ->).
  apply conv_extends in Hc2. simpl in Hc2, Ho2.
  pose proof (extends_by_brk _ _ _ Hc2) as Hb2.
  unfold bind at 1 in H. unfold get_out at 1 in H. cbn [cx_out cx_f cx_q] in H.
  unfold bind at 1 in H. unfold modify at 1 in H. cbn [cx_out cx_f cx_q] in H.
  unfold bind at 1 in H.
  match type of H with
  | match zoom ?g ?st ?m ?S with _ => _ end = _ =>
      destruct (zoom g st m S) as [[u3| |] s3] eqn:E3; [| |discriminate H]
  end.
  - exfalso. unfold bind, modify, get_out in H. cbn [cx_out cx_f cx_q] in H.
    destruct (fst u3); discriminate H.
  - inversion H; subst. apply zoom_inv in E3 as (t3 & Hc3 & ->).
    cbn [cx_f cx_q cx_out] in *.
    apply load_se_fails_clean in Hc3 as [Hq Hn]; cbn [cx_f cx_q cx_out];
      try assumption; try lia.
    + simpl in Hq. rewrite Hq.
      rewrite tower_at_update_valid by valid_index Hi.
      rewrite tower_at_add_params.
      rewrite !tower_at_update_valid, Hinit by valid_index Hi.
      rewrite block_ptrs_se.
      apply tidy_of_extends. eapply extends_by_app; eassumption.
    + rewrite tower_at_add_params.
      rewrite !tower_at_update_valid, Hinit by valid_index Hi.
      repeat constructor.
Qed.

Lemma load_tower_outcome dev hd s r s' :
  0 <= h_blocks hd ->
  oracle (cx_q s) = [] -> 0 < brk (cx_q s) ->
  tower (cx_out s) = replicate (Z.to_nat (h_blocks hd)) block_init ->
  load_tower dev hd s = (r, s') ->
  match r with
  | Ok _ => extends_by (cx_q s) (cx_q s') (tower (cx_out s') ≫= block_ptrs)
            /\ oracle (cx_q s') = []
  | Fail => tidy (cx_q s) (cx_q s') (tower (cx_out s') ≫= block_ptrs)
  | Throw => True
  end.
Proof.
  intros Hblocks Ho Hb Htower H. unfold load_tower in H. unfold bind in H.
  set (N := Z.to_nat (h_blocks hd)) in *.
  destruct (for_each (load_block dev) (seqZ 0 (h_blocks hd)) 0 s) as [r1 s1] eqn:Hloop.
  pose proof (for_each_inv (load_block dev)
                (fun k t => oracle (cx_q t) = []
                            /\ length (tower (cx_out t)) = N
                            /\ extends_by (cx_q s) (cx_q t)
                                          (take k (tower (cx_out t)) ≫= block_ptrs)
                            /\ drop k (tower (cx_out t)) = replicate (N - k) block_init)
                (fun t => tidy (cx_q s) (cx_q t) (tower (cx_out t) ≫= block_ptrs))
                (seqZ 0 (h_blocks hd)) 0%nat 0 s r1 s1 Hloop) as Hinv.
  simpl in Hinv. rewrite length_seqZ in Hinv. fold N in Hinv.
  assert (Hfin : match r1 with
                 | Ok _ => oracle (cx_q s1) = []
                           /\ length (tower (cx_out s1)) = N
                           /\ extends_by (cx_q s) (cx_q s1)
                                (take N (tower (cx_out s1)) ≫= block_ptrs)
                           /\ drop N (tower (cx_out s1)) = replicate (N - N) block_init
                 | Fail => tidy (cx_q s) (cx_q s1) (tower (cx_out s1) ≫= block_ptrs)
                 | Throw => True
                 end).
  { apply Hinv; clear Hinv.
    - split; [exact Ho|]. split; [rewrite Htower; apply length_replicate|].
      split; [apply extends_by_nil|].
      rewrite drop_0, Htower, Nat.sub_0_r. reflexivity.
    - intros j x b t1 rj t2 Hj (Ho1 & Hl1 & He1 & Hd1) Hbody.
      apply lookup_seqZ in Hj as [-> Hjlt]. simpl in Hbody.
      assert (HjN : (j < N)%nat) by lia.
      pose proof (load_block_keeps_length dev (Z.of_nat j) b _ _ _ Hbody) as Hl2.
      simpl in Hl2.
      assert (Hin : (Z.to_nat (Z.of_nat j) < length (tower (cx_out t1)))%nat) by lia.
      assert (Hinit : tower_at (cx_out t1) (Z.of_nat j) = block_init).
      { unfold tower_at. rewrite Nat2Z.id.
        rewrite <- (Nat.add_0_r j), <- lookup_drop, Hd1.
        rewrite lookup_replicate_2 by lia. reflexivity. }
      pose proof (extends_by_brk _ _ _ He1) as Hb1.
      destruct (lookup_lt_is_Some_2 (tower (cx_out t2)) j ltac:(lia)) as [b2 Hb2].
      assert (Htake : take j (tower (cx_out t2)) = take j (tower (cx_out t1))).
      { apply (take_tower_any dev (Z.of_nat j) b t1 rj t2); [lia | exact Hbody]. }
      assert (Hdrop : drop (S j) (tower (cx_out t2)) = replicate (N - S j) block_init).
      { rewrite (drop_tower_any dev (Z.of_nat j) b t1 rj t2) by (first [lia | exact Hbody]).
        replace (S j) with (j + 1)%nat at 1 by lia. rewrite <- drop_drop, Hd1.
        rewrite drop_replicate. f_equal. lia. }
      assert (Hat : tower_at (cx_out t2) (Z.of_nat j) = b2).
      { unfold tower_at. rewrite Nat2Z.id, Hb2. reflexivity. }
      destruct rj as [rv| |]; [| |exact Logic.I].
      + pose proof (load_block_extends dev _ b _ _ _ Hin Hbody) as He2.
        rewrite Hat in He2.
        split; [eapply load_block_quiet; eassumption|].
        split; [lia|]. split; [|exact Hdrop].
        rewrite (take_S_r _ _ _ Hb2), bind_app, Htake.
        eapply extends_by_app; [exact He1|].
        simpl. rewrite app_nil_r. exact He2.
      + pose proof (load_block_fail dev _ b _ _ Ho1 ltac:(lia) Hin Hinit Hbody) as Ht.
        rewrite Hat in Ht.
        rewrite <- (take_drop_middle _ _ _ Hb2), bind_app, bind_cons, Htake, Hdrop.
        apply (tidy_prepend _ _ _ _ _ He1).
        apply tidy_append; [exact Ht | apply blocks_init_null]. }
  destruct r1 as [mh| |].
  - destruct Hfin as (Ho1 & Hl1 & He1 & _).
    inversion H; subst. simpl.
    rewrite take_ge in He1 by lia. split; assumption.
  - inversion H; subst. exact Hfin.
  - inversion H; subst. exact Logic.I.
Qed.

Lemma tower_stage_local dev hd :
  - 2 ^ 31 <= h_blocks hd < 2 ^ 31 ->
  local (fun n => tower n ≫= block_ptrs) (resize_tower hd ;; load_tower dev hd).
Proof.
  intros Hr s r s' Ho Hb _ H. unfold bind, resize_tower, raise_if, modify in H.
  cbn [cx_f cx_q cx_out] in H.
  destruct (vector_max_size sizeof_ResidualBlock <? to_size_t (h_blocks hd)) eqn:C.
  - inversion H; subst. exact I.
  - apply max_size_below_negative_cast in C; [|reflexivity|exact Hr].
    cbn [cx_f cx_q cx_out] in H.
    rewrite to_size_t_small in H by lia.
    apply (load_tower_outcome dev hd _ r s' C) in H; try assumption.
    reflexivity.
Qed.

(** ** All of [load_net] *)

Lemma bind_assoc {T A B C} (m : M T A) (k : A -> M T B) (k' : B -> M T C) s :
  bind m (fun a => bind (k a) k') s = bind (bind m k) k' s.
Proof.
  unfold bind. destruct (m s) as [[a| |] s1]; reflexivity.
Qed.

Lemma load_layers_local dev hd :
  - 2 ^ 31 <= h_blocks hd < 2 ^ 31 ->
  local layer_ptrs (load_layers dev hd).
Proof.
  intros Hr. unfold load_layers.
  apply (local_ext
           (fun n => conv_ptrs (inputLayer n)
                     ++ (tower n ≫= block_ptrs)
                     ++ (conv_ptrs (policyStem n) ++ conv_ptrs (policyOut n)
                         ++ conv_ptrs (valueConv n) ++ dense_ptrs (valueFc1 n)
                         ++ dense_ptrs (valueFc2 n))
                     ++ [d_policyMap n])).
  { intros n. unfold layer_ptrs. rewrite <- !app_assoc. reflexivity. }
  apply (local_seq (fun n => conv_ptrs (inputLayer n)));
    [intros _ | apply load_input_local
     | apply keeps_keeps_null; unfold load_input; solve_keeps
     | intros; unfold resize_tower, load_tower, load_block, load_heads, load_policy_map;
       keeps_all].
  eapply local_eqv; [intros s; symmetry; apply bind_assoc|].
  apply (local_seq (fun n => tower n ≫= block_ptrs));
    [intros _ | apply tower_stage_local, Hr
     | apply keeps_keeps_null; unfold resize_tower, load_tower, load_block; keeps_all
     | intros; unfold load_heads, load_policy_map; keeps_all].
  apply local_seq;
    [intros _; apply load_policy_map_local | apply load_heads_local
     | apply keeps_keeps_null; unfold load_heads; solve_keeps
     | intros; unfold load_policy_map; solve_keeps].
Qed.

Lemma load_net_local dev hd :
  - 2 ^ 31 <= h_blocks hd < 2 ^ 31 ->
  local alloc_ptrs (load_net dev hd).
Proof.
  intros Hr. unfold load_net.
  apply (local_seq layer_ptrs (fun n => ws_ptrs n ++ [d_policyMapped n]));
    [intros _; apply alloc_workspace_local | apply load_layers_local, Hr
     | apply keeps_keeps_null;
       unfold load_layers, load_input, resize_tower, load_tower, load_block, load_heads,
         load_policy_map; keeps_all
     | intros; apply alloc_workspace_keeps_layers].
Qed.

(** [create_net] without scheduled device failures: a call that returns null
    has given back everything it allocated. *)
Lemma create_net_rollback pf file h0 h' :
  heap_ok h0 -> oracle h0 = [] ->
  create_net pf file h0 = (Returned None, h') ->
  mem h' = mem h0 /\ bad_frees h' = bad_frees h0.
Proof.
  intros Hok Ho H. unfold create_net in H.
  destruct (device_count pf <=? 0); [inversion H; auto|].
  destruct (select_intel_gpu pf) as [dev|]; [|inversion H; auto].
  destruct (negb (queue_ctor_ok pf)); [inversion H; auto|].
  destruct file as [bytes|]; [|inversion H; auto].
  destruct (read_prelude (mkCtx bytes h0 tt)) as [rp s] eqn:Hp.
  pose proof (read_prelude_host_only _ _ _ Hp) as Hq.
  destruct s as [f q o]. simpl in Hq. subst q.
  destruct rp as [hd| |]; [|inversion H; auto ..].
  apply read_prelude_ok in Hp as (_ & _ & Hr & _).
  cbn [cx_f cx_q cx_out] in H.
  destruct (load_net dev hd _) as [rl s'] eqn:Hl.
  apply (load_net_local dev hd Hr) in Hl; cbn [cx_q cx_out] in *.
  - destruct rl as [u| |]; [discriminate H | | discriminate H].
    inversion H; subst. apply (tidy_destroy h0 _ _ Hok Hl).
  - exact Ho.
  - apply Hok.
  - repeat constructor.
Qed.

(** X19.  A rejected file leaks nothing.  On a device on which no operation
    fails, whenever [nativeCreate] returns the zero handle (no Intel GPU, no
    queue, a null or unreadable path, a bad magic, version or header, a
    truncated or ill-shaped layer record, a negative array length, a wrong
    squeeze-excite channel count, trailing bytes, ...), the live device
    allocations are exactly those from before the call and no [sycl::free]
    of an address that is not live has happened: every buffer allocated up
    to the point of failure has been released.  (A call that leaves through
    an uncaught exception is a different outcome.) *)
Theorem create_rejection_leaks_nothing pf fs utf_ok jpath h0 h' :
  heap_ok h0 -> oracle h0 = [] ->
  nativeCreate pf fs utf_ok jpath h0 = (Returned None, h') ->
  mem h' = mem h0 /\ bad_frees h' = bad_frees h0.
Proof.
  intros Hok Ho H. unfold nativeCreate, backend_nativeCreate in H.
  destruct jpath as [path|]; [|inversion H; auto].
  destruct (negb utf_ok); [inversion H; auto|].
  apply (create_net_rollback pf (fs path) h0 h' Hok Ho H).
Qed.

Lemma create_rejection_leaks_nothing_witness :
  exists h',
    nativeCreate sample_platform (fun _ => Some trailing_byte_file) true (Some "net.bin"%string)
                 empty_mem = (Returned None, h')
    /\ mem h' = mem empty_mem /\ bad_frees h' = bad_frees empty_mem.
Proof.
  eexists. split; [vm_compute; reflexivity|].
  apply (create_rejection_leaks_nothing sample_platform (fun _ => Some trailing_byte_file)
           true (Some "net.bin"%string) empty_mem).
  - split; [reflexivity | intros q _; apply lookup_empty].
  - reflexivity.
  - vm_compute. reflexivity.
Defined.

(** ** Bytes after the policy map *)

Section Framed.
Context {T : Type}.

Lemma framed_ret {A} (a : A) : framed (@ret T A a).
Proof. intros s a' s' extra H. inversion H; subst. reflexivity. Qed.

Lemma framed_bind {A B} (m : M T A) (k : A -> M T B) :
  framed m -> (forall a, framed (k a)) -> framed (bind m k).
Proof.
  intros Hm Hk s b s' extra H. apply bind_ok in H as (a & s1 & H1 & H2).
  unfold bind. rewrite (Hm _ _ _ extra H1). apply (Hk a _ _ _ extra H2).
Qed.

Lemma framed_guard b : framed (@guard T b).
Proof. intros s a s' extra H. unfold guard in *. destruct b; inversion H; reflexivity. Qed.

Lemma framed_raise_if b : framed (@raise_if T b).
Proof.
  intros s a s' extra H. unfold raise_if in *. destruct b; inversion H; reflexivity.
Qed.

Lemma framed_get_out : framed (@get_out T).
Proof. intros s a s' extra H. inversion H; subst. reflexivity. Qed.

Lemma framed_modify g : framed (@modify T g).
Proof. intros s a s' extra H. inversion H; subst. reflexivity. Qed.

Lemma framed_read_u8 : framed (@read_u8 T).
Proof.
  intros s a s' extra. unfold read_u8. simpl.
  destruct (cx_f s) as [|b rest]; intros H; inversion H; subst. reflexivity.
Qed.

Lemma framed_read_i32 : framed (@read_i32 T).
Proof.
  intros s a s' extra. unfold read_i32. simpl.
  destruct (cx_f s) as [|b0 [|b1 [|b2 [|b3 rest]]]]; intros H; inversion H; subst.
  reflexivity.
Qed.

Lemma framed_read_bytes n : framed (@read_bytes T n).
Proof.
  intros s a s' extra. unfold read_bytes. simpl.
  destruct (Z.ltb_spec (Z.of_nat (length (cx_f s))) n) as [Hlt0|Hge0];
    intros H; inversion H; subst.
  destruct (Z.ltb_spec (Z.of_nat (length (cx_f s ++ extra))) n) as [Hlt|_].
  { rewrite length_app in Hlt. lia. }
  simpl. rewrite take_app_le, drop_app_le by lia. reflexivity.
Qed.

Lemma framed_read_float_array : framed (@read_float_array T).
Proof.
  unfold read_float_array.
  repeat first [ apply framed_bind; [|intros] | apply framed_read_i32 | apply framed_guard
               | apply framed_read_bytes | apply framed_ret ].
Qed.

Lemma framed_alloc dev t c (store : Z -> T -> T) : framed (alloc dev t c store).
Proof.
  intros s a s' extra. unfold alloc. simpl.
  destruct (sycl_alloc dev t c (cx_q s)) as [p h].
  destruct (p =? nullptr); intros H; inversion H; subst. reflexivity.
Qed.

Lemma framed_upload (dst : T -> Z) src : framed (upload dst src).
Proof.
  intros s a s' extra. unfold upload. simpl.
  destruct (sycl_copy_to_device _ _ _) as [ok h].
  destruct ok; intros H; inversion H; subst. reflexivity.
Qed.

Lemma framed_zoom {U A} (get : T -> U) (set : U -> T -> T) (m : M U A) :
  framed m -> framed (zoom get set m).
Proof.
  intros Hm s a s' extra H. apply zoom_ok in H as (u & Hu & ->).
  pose proof (Hm (mkCtx (cx_f s) (cx_q s) (get (cx_out s))) _ _ extra Hu) as Hx.
  cbn [cx_f cx_q cx_out] in Hx.
  unfold zoom. cbn [cx_f cx_q cx_out]. rewrite Hx. reflexivity.
Qed.

Lemma framed_for_each {A B} (body : A -> B -> M T B) l acc :
  (forall x b, framed (body x b)) -> framed (for_each body l acc).
Proof.
  intros Hb. revert acc. induction l as [|x l IH]; intros acc; simpl.
  - apply framed_ret.
  - apply framed_bind; [apply Hb | intros; apply IH].
Qed.

Lemma rejects_bind {A B} (m : M T A) (k : A -> M T B) :
  framed m -> (forall a, rejects_extra (k a)) -> rejects_extra (bind m k).
Proof.
  intros Hm Hk s b s' extra Hne H. apply bind_ok in H as (a & s1 & H1 & H2).
  unfold bind. rewrite (Hm _ _ _ extra H1). apply (Hk a _ _ _ extra Hne H2).
Qed.

Lemma rejects_then {A B} (m : M T A) (k : A -> M T B) :
  rejects_extra m -> rejects_extra (bind m k).
Proof.
  intros Hm s b s' extra Hne H. apply bind_ok in H as (a & s1 & H1 & H2).
  destruct (Hm _ _ _ extra Hne H1) as [s'' E].
  exists s''. unfold bind. rewrite E. reflexivity.
Qed.

Lemma rejects_eof : rejects_extra (eof <- @at_eof T ;; guard eof).
Proof.
  intros s a s' extra Hne H. unfold bind, at_eof, guard in *. simpl in *.
  destruct (cx_f s) as [|b rest]; [|discriminate H].
  destruct extra as [|e extra]; [contradiction|]. simpl. eauto.
Qed.
End Framed.

Ltac framed_step :=
  first
    [ apply framed_bind; [|intros]
    | apply framed_ret | apply framed_guard | apply framed_raise_if | apply framed_get_out
    | apply framed_modify | apply framed_read_u8 | apply framed_read_i32
    | apply framed_read_bytes | apply framed_read_float_array
    | apply framed_alloc | apply framed_upload | apply framed_zoom
    | apply framed_for_each; intros
    | match goal with
      | |- framed (if ?b then _ else _) => destruct b
      end ].

Ltac solve_framed := repeat framed_step.

Lemma read_prelude_framed : framed read_prelude.
Proof. unfold read_prelude. solve_framed. Qed.

Lemma load_net_rejects_extra dev hd : rejects_extra (load_net dev hd).
Proof.
  unfold load_net. apply rejects_then. unfold load_layers.
  apply rejects_bind; [unfold load_input, load_conv; solve_framed | intros _].
  apply rejects_bind; [unfold resize_tower; solve_framed | intros _].
  apply rejects_bind;
    [unfold load_tower, load_block, load_conv, load_se; solve_framed | intros _].
  apply rejects_bind;
    [unfold load_heads, load_conv, load_dense; solve_framed | intros _].
  unfold load_policy_map.
  do 6 (apply rejects_bind; [solve_framed | intros]).
  apply rejects_eof.
Qed.

(** X20.  The file must end with the policy map.  When [create_net] loads a
    file, it rejects the same file followed by any further bytes: the call
    returns null, and (on a device on which no operation fails) it leaves
    the device allocations as they were. *)
Theorem trailing_bytes_rejected pf bytes extra h0 net h :
  heap_ok h0 -> oracle h0 = [] ->
  create_net pf (Some bytes) h0 = (Returned (Some net), h) ->
  extra <> [] ->
  exists h',
    create_net pf (Some (bytes ++ extra)) h0 = (Returned None, h')
    /\ mem h' = mem h0 /\ bad_frees h' = bad_frees h0.
Proof.
  intros Hok Ho Hc Hne.
  assert (Hrej : exists h', create_net pf (Some (bytes ++ extra)) h0 = (Returned None, h')).
  { unfold create_net in *.
    destruct (device_count pf <=? 0); [discriminate Hc|].
    destruct (select_intel_gpu pf) as [dev|]; [|discriminate Hc].
    destruct (negb (queue_ctor_ok pf)); [discriminate Hc|].
    destruct (read_prelude (mkCtx bytes h0 tt)) as [[hd| |] s] eqn:Hp;
      try discriminate Hc.
    pose proof (read_prelude_framed _ _ _ extra Hp) as Hp'. simpl in Hp'.
    rewrite Hp'. cbn [cx_f cx_q cx_out].
    destruct (load_net dev hd (mkCtx (cx_f s) (cx_q s) (net_of_header dev hd)))
      as [[u| |] s'] eqn:Hl; try discriminate Hc.
    destruct (load_net_rejects_extra dev hd _ _ _ extra Hne Hl) as [s'' E].
    simpl in E. rewrite E. eauto. }
  destruct Hrej as [h' Hr]. exists h'. split; [exact Hr|].
  apply (create_net_rollback pf (Some (bytes ++ extra)) h0 h' Hok Ho Hr).
Qed.

Lemma trailing_bytes_rejected_witness :
  exists h',
    create_net sample_platform (Some (se_file ++ [Byte.x2a])) empty_mem
    = (Returned None, h')
    /\ mem h' = mem empty_mem /\ bad_frees h' = bad_frees empty_mem.
Proof.
  eapply (trailing_bytes_rejected sample_platform se_file [Byte.x2a] empty_mem).
  - split; [reflexivity | intros q _; apply lookup_empty].
  - reflexivity.
  - vm_compute. reflexivity.
  - discriminate.
Defined.

(* ================================================================== *)
(** * What a loaded network has been checked for *)

Lemma load_heads_validates dev hd s u s' :
  load_heads dev hd s = (Ok u, s') ->
  heads_view (cx_out s') = [h_policyC hd; h_valueC hd; h_valueHidden hd; 3].
Proof.
  unfold load_heads. intros H.
  apply bind_ok in H as (? & s1 & Hz1 & H). apply zoom_ok in Hz1 as (u1 & Hc1 & ->).
  apply bind_ok in H as (? & s2 & Hz2 & H). apply zoom_ok in Hz2 as (u2 & Hc2 & ->).
  apply bind_ok in H as (? & s3 & Hz3 & H). apply zoom_ok in Hz3 as (u3 & Hc3 & ->).
  apply bind_ok in H as (n & s4 & Hg & H). apply get_out_ok in Hg as [-> ->].
  apply bind_ok in H as (? & ? & Hg1 & H). apply guard_ok in Hg1 as [Hg1 ->].
  apply bind_ok in H as (? & ? & Hg2 & H). apply guard_ok in Hg2 as [Hg2 ->].
  apply bind_ok in H as (? & s5 & Hm & H). apply modify_ok in Hm. subst s5.
  apply bind_ok in H as (? & s6 & Hz4 & H). apply zoom_ok in Hz4 as (u4 & Hc4 & ->).
  apply bind_ok in H as (? & s7 & Hz5 & H). apply zoom_ok in Hz5 as (u5 & Hc5 & ->).
  apply bind_ok in H as (n' & s8 & Hg & H). apply get_out_ok in Hg as [-> ->].
  apply modify_ok in H. subst s'.
  apply load_dense_spec in Hc4 as (? & ? & _ & _ & Hd4 & _).
  apply load_dense_spec in Hc5 as (? & ? & _ & _ & Hd5 & _).
  apply Z.eqb_eq in Hg1, Hg2. cbn [cx_out] in *.
  unfold heads_view.
  change (Conv.outC (policyOut _)) with (Conv.outC (cx_out u2)) in *.
  change (Conv.outC (valueConv _)) with (Conv.outC (cx_out u3)) in *.
  change (Dense.outD (valueFc1 _)) with (Dense.outD (cx_out u4)).
  change (Dense.outD (valueFc2 _)) with (Dense.outD (cx_out u5)).
  congruence.
Qed.

Lemma load_policy_map_validates dev hd s u s' :
  load_policy_map dev hd s = (Ok u, s') ->
  0 <= h_policyMapLen hd
  /\ len (ibuf (cx_q s') (d_policyMap (cx_out s'))) = h_policyMapLen hd
  /\ d_policyMap (cx_out s') < brk (cx_q s').
Proof.
  intros H0. pose proof (load_policy_map_extends dev hd _ _ _ H0) as [(Es & Hbrk & _) _].
  assert (Hlt : d_policyMap (cx_out s') < brk (cx_q s')).
  { change (len [d_policyMap (cx_out s')]) with 1 in Es, Hbrk.
    rewrite seqZ_1 in Es. inversion Es as [Ep]. rewrite Ep at 1. lia. }
  clear Es Hbrk. revert Hlt H0. unfold load_policy_map. intros Hlt H.
  apply bind_ok in H as (me & s1 & Hr & H).
  apply read_i32_ok in Hr as (b0 & b1 & b2 & b3 & _ & Hme & Hq1 & Ho1).
  apply bind_ok in H as (? & ? & Hg & H). apply guard_ok in Hg as [Hg ->].
  apply bind_ok in H as (? & ? & Hx & H). apply raise_if_ok in Hx as [Hx ->].
  apply bind_ok in H as (bs & s2 & Hb & H).
  apply read_bytes_ok in Hb as (_ & _ & Hq2 & Ho2).
  apply bind_ok in H as (? & s3 & Ha & H).
  apply alloc_ok_full in Ha as (_ & Ho3 & _ & Hm3 & _).
  apply bind_ok in H as (? & s4 & Hu & H).
  apply upload_ok in Hu as (Hc & Hf4 & Ho4).
  apply bind_ok in H as (eof & s5 & He5 & H).
  assert (s5 = s4) as -> by (unfold at_eof in He5; inversion He5; auto).
  apply guard_ok in H as [_ ->].
  apply Z.eqb_eq in Hg.
  assert (Hpos : 0 <= me).
  { apply (max_size_below_negative_cast sizeof_int32); [reflexivity | | exact Hx].
    rewrite Hme. apply le_i32_range. }
  rewrite <- Hg. split; [exact Hpos|].
  rewrite to_size_t_small in * by (pose proof (le_i32_range b0 b1 b2 b3); lia).
  apply copy_to_device_ok in Hc as (_ & _ & old & Hold & Hlen & Hmem).
  rewrite Ho3 in Hold, Hmem. simpl in Hold, Hmem.
  rewrite Hm3, lookup_insert_eq in Hold. inversion Hold as [Hold'].
  split.
  - unfold ibuf. rewrite Ho4, Ho3. simpl. rewrite Hmem, lookup_insert_eq.
    unfold len. rewrite length_app, length_drop, <- Hold', length_replicate in *. lia.
  - exact Hlt.
Qed.

Lemma load_net_keeps_header dev hd : keeps header_view (load_net dev hd).
Proof.
  unfold load_net, load_layers, load_input, resize_tower, load_tower, load_block,
    load_heads, load_policy_map, alloc_workspace.
  keeps_all.
Qed.

(** X21.  What [create] has checked.  In a network that [create_net]
    returns, the last layer of the policy head has [policyC] output
    channels, the value convolution [valueC], the first value dense layer
    [valueHidden] outputs and the second one 3; the policy size is the
    header's policy-map length, it is not negative, and the policy map on
    the device, the mapped-policy buffer and the logits buffer hold
    [policySize], [policySize] and 3 elements. *)
Theorem create_net_validates pf bytes h0 net h :
  create_net pf (Some bytes) h0 = (Returned (Some net), h) ->
  Conv.outC (policyOut net) = policyC net
  /\ Conv.outC (valueConv net) = valueC net
  /\ Dense.outD (valueFc1 net) = valueHidden net
  /\ Dense.outD (valueFc2 net) = 3
  /\ 0 <= policySize net
  /\ policyMapLen net = policySize net
  /\ len (ibuf h (d_policyMap net)) = policySize net
  /\ len (fbuf h (d_policyMapped net)) = policySize net
  /\ len (fbuf h (d_logits net)) = 3.
Proof.
  intros Hc. pose proof (create_net_ready _ _ _ _ _ Hc) as (_ & Rpm & Rlg).
  apply create_net_ok in Hc as (dev & hd & s & s' & _ & Hp & Hl & -> & ->).
  apply read_prelude_ok in Hp as (_ & _ & _ & Hrange).
  pose proof (load_net_keeps_header dev hd _ _ _ Hl) as Hhv.
  unfold header_view in Hhv. simpl in Hhv. injection Hhv as V1 V2 V3 V4 V5.
  unfold load_net in Hl. apply bind_ok in Hl as (? & s1 & Hlay & Hws).
  assert (Hheads : heads_view (cx_out s1)
                   = [h_policyC hd; h_valueC hd; h_valueHidden hd; 3]
                   /\ 0 <= h_policyMapLen hd
                   /\ len (ibuf (cx_q s1) (d_policyMap (cx_out s1))) = h_policyMapLen hd
                   /\ d_policyMap (cx_out s1) < brk (cx_q s1)).
  { unfold load_layers in Hlay.
    apply bind_ok in Hlay as (? & t1 & _ & Hlay).
    apply bind_ok in Hlay as (? & t2 & _ & Hlay).
    apply bind_ok in Hlay as (? & t3 & _ & Hlay).
    apply bind_ok in Hlay as (? & t4 & Hh & Hpm).
    apply load_heads_validates in Hh.
    assert (K : keeps heads_view (load_policy_map dev hd))
      by (unfold load_policy_map; solve_keeps).
    rewrite (K _ _ _ Hpm). split; [exact Hh|].
    apply (load_policy_map_validates dev hd _ _ _ Hpm). }
  destruct Hheads as (Hh & Hpos & Hmap & Hlt).
  assert (K : keeps (fun n => (heads_view n, d_policyMap n)) (alloc_workspace dev hd))
    by (unfold alloc_workspace; solve_keeps).
  pose proof (K _ _ _ Hws) as Hk. cbv beta in Hk. unfold heads_view in Hk, Hh.
  injection Hk as K1 K2 K3 K4 K5. injection Hh as E1 E2 E3 E4.
  pose proof (alloc_workspace_extends dev hd _ _ _ Hws) as (_ & _ & _ & Hold & _).
  assert (Hsame : ibuf (cx_q s') (d_policyMap (cx_out s'))
                  = ibuf (cx_q s1) (d_policyMap (cx_out s1))).
  { unfold ibuf. rewrite K5, Hold by lia. reflexivity. }
  assert (Hfl : forall p n, holds_floats (cx_q s') p n -> len (fbuf (cx_q s') p) = Z.of_nat n).
  { intros p n Hn. apply holds_floats_mem in Hn as (l & Hl & <-).
    unfold fbuf. rewrite Hl. reflexivity. }
  rewrite (Hfl _ _ Rpm), (Hfl _ _ Rlg), Hsame.
  rewrite V1, V2, V3, V4, V5, K1, K2, K3, K4.
  rewrite to_size_t_small by lia.
  repeat split; try congruence; lia.
Qed.

Lemma create_net_validates_witness :
  exists net h,
    create_net sample_platform (Some se_file) empty_mem = (Returned (Some net), h)
    /\ Conv.outC (policyOut net) = policyC net
    /\ Conv.outC (valueConv net) = valueC net
    /\ Dense.outD (valueFc1 net) = valueHidden net
    /\ Dense.outD (valueFc2 net) = 3
    /\ 0 <= policySize net
    /\ policyMapLen net = policySize net
    /\ len (ibuf h (d_policyMap net)) = policySize net
    /\ len (fbuf h (d_policyMapped net)) = policySize net
    /\ len (fbuf h (d_logits net)) = 3.
Proof.
  eexists _, _. split; [vm_compute; reflexivity|].
  apply (create_net_validates sample_platform se_file empty_mem).
  vm_compute. reflexivity.
Defined.

(* ================================================================== *)
(** * Choosing the convolution kernel *)

Lemma conv3x3_stores h input w inC outC out n oc sq :
  holds_floats h out n ->
  outC * 64 <= Z.of_nat n ->
  0 < inC -> 0 < outC ->
  outC * inC * 9 < 2 ^ 31 -> inC * 64 < 2 ^ 31 -> outC * 64 < 2 ^ 31 ->
  0 <= oc < outC -> 0 <= sq < 64 ->
  fget (fbuf (k_conv3x3_no_bias input w inC outC out h) out) (oc * 64 + sq)
  = conv3x3_sum (fbuf h input) (fbuf h w) inC oc (sq / 8) (sq mod 8).
Proof.
  intros Hout Hn HinC HoutC Hw Hi Ho Hoc Hsq.
  unfold k_conv3x3_no_bias.
  rewrite (to_size_t_small outC), to_size_t_small by lia.
  rewrite (parallel_for_stores _ _ _ _ n
             (fun tid => conv3x3_sum (fbuf h input) (fbuf h w) inC
                           (tid / 64) (tid mod 64 / 8) (tid mod 64 mod 8)));
    try assumption; try lia.
  - rewrite div_mod_square by lia.
    replace ((oc * 64 + sq) mod 64) with sq; [reflexivity|].
    apply (Z.mod_unique _ 64 oc sq); lia.
  - intros tid Ht. apply conv3x3_item_spec; lia.
Qed.

Lemma conv1x1_stores h input w inC outC out n oc sq :
  holds_floats h out n ->
  outC * 64 <= Z.of_nat n ->
  0 < inC -> 0 < outC ->
  outC * inC < 2 ^ 31 -> inC * 64 < 2 ^ 31 -> outC * 64 < 2 ^ 31 ->
  0 <= oc < outC -> 0 <= sq < 64 ->
  fget (fbuf (k_conv1x1_no_bias input w inC outC out h) out) (oc * 64 + sq)
  = conv1x1_sum (fbuf h input) (fbuf h w) inC oc sq.
Proof.
  intros Hout Hn HinC HoutC Hw Hi Ho Hoc Hsq.
  unfold k_conv1x1_no_bias.
  rewrite (to_size_t_small outC), to_size_t_small by lia.
  rewrite (parallel_for_stores _ _ _ _ n
             (fun tid => conv1x1_sum (fbuf h input) (fbuf h w) inC
                           (tid / 64) (tid mod 64)));
    try assumption; try lia.
  - rewrite div_mod_square by lia.
    replace ((oc * 64 + sq) mod 64) with sq; [reflexivity|].
    apply (Z.mod_unique _ 64 oc sq); lia.
  - intros tid Ht. apply conv1x1_item_spec; lia.
Qed.

(** X23.  [launch_conv_no_bias] picks the kernel by the layer's kernel size:
    with [k = 3] the output at channel [oc] and square [sq] is the
    zero-padded 3x3 sum at row [sq / 8] and column [sq mod 8], with [k = 1]
    it is the 1x1 channel mix of square [sq], and with any other [k] nothing
    is launched and device memory stays as it is.  The layers that
    [load_conv] accepts have [k = 1] or [k = 3].  The hypotheses say that
    the output buffer has room and that the index arithmetic fits an
    [int]. *)
Theorem launch_conv_dispatch h layer input out n oc sq :
  holds_floats h out n ->
  let inC := Conv.inC layer in
  let outC := Conv.outC layer in
  outC * 64 <= Z.of_nat n ->
  0 < inC -> 0 < outC ->
  outC * inC * 9 < 2 ^ 31 -> inC * 64 < 2 ^ 31 -> outC * 64 < 2 ^ 31 ->
  0 <= oc < outC -> 0 <= sq < 64 ->
  let h' := launch_conv_no_bias layer input out h in
  (Conv.k layer = 3 ->
   fget (fbuf h' out) (oc * 64 + sq)
   = conv3x3_sum (fbuf h input) (fbuf h (Conv.d_w layer)) inC oc (sq / 8) (sq mod 8))
  /\ (Conv.k layer = 1 ->
      fget (fbuf h' out) (oc * 64 + sq)
      = conv1x1_sum (fbuf h input) (fbuf h (Conv.d_w layer)) inC oc sq)
  /\ (Conv.k layer <> 3 -> Conv.k layer <> 1 -> h' = h).
Proof.
  intros Hout inC outC Hn HinC HoutC Hw Hi Ho Hoc Hsq h'.
  subst h'. unfold launch_conv_no_bias. split; [|split].
  - intros ->. simpl. apply (conv3x3_stores _ _ _ _ _ _ n); assumption.
  - intros ->. simpl. apply (conv1x1_stores _ _ _ _ _ _ n); try assumption.
    fold inC outC. nia.
  - intros H3 H1.
    destruct (Z.eqb_spec (Conv.k layer) 3); [contradiction|].
    destruct (Z.eqb_spec (Conv.k layer) 1); [contradiction|]. reflexivity.
Qed.

Lemma launch_conv_dispatch_witness :
  let h := mkMem (<[3 := FloatBuf (zeros 64)]>
                  (<[2 := FloatBuf [fone; fone]]>
                   (<[1 := FloatBuf (replicate 128 fone)]> ∅))) 4 [] [] in
  let layer := Conv.mk 2 1 1 2 0 0 in
  fget (fbuf (launch_conv_no_bias layer 1 3 h) 3) (0 * 64 + 5)
  = conv1x1_sum (fbuf h 1) (fbuf h 2) 2 0 5.
Proof.
  intros h layer.
  apply (proj1 (proj2 (launch_conv_dispatch h layer 1 3 64%nat 0 5
                         ltac:(reflexivity) ltac:(vm_compute; discriminate)
                         ltac:(reflexivity) ltac:(reflexivity) ltac:(reflexivity)
                         ltac:(reflexivity) ltac:(reflexivity)
                         ltac:(vm_compute; split; [discriminate | reflexivity])
                         ltac:(lia)))).
  reflexivity.
Defined.

(* ================================================================== *)
(** * The parameter count *)

Lemma wrap64_add_l a b : wrap64 (wrap64 a + b) = wrap64 (a + b).
Proof.
  unfold wrap64. f_equal.
  replace ((a + 2 ^ 63) mod 2 ^ 64 - 2 ^ 63 + b + 2 ^ 63)
    with ((a + 2 ^ 63) mod 2 ^ 64 + b) by lia.
  rewrite Zplus_mod_idemp_l. f_equal. lia.
Qed.

Lemma wrap64_add_r a b : wrap64 (a + wrap64 b) = wrap64 (a + b).
Proof. rewrite (Z.add_comm a), wrap64_add_l. f_equal. lia. Qed.

Lemma wrap64_idem a : wrap64 (wrap64 a) = wrap64 a.
Proof. pose proof (wrap64_add_l a 0) as H. rewrite !Z.add_0_r in H. exact H. Qed.

Lemma wrap64_step p p' x : wrap64 p' = wrap64 (p + x) -> forall q,
  wrap64 p = wrap64 q -> wrap64 p' = wrap64 (q + x).
Proof. intros H q Hq. rewrite H, <- wrap64_add_l, Hq, wrap64_add_l. reflexivity. Qed.

Lemma sum_len_app h a b : sum_len h (a ++ b) = sum_len h a + sum_len h b.
Proof.
  induction a as [|p a IH]; [reflexivity|].
  change (len (fbuf h p) + sum_len h (a ++ b)
          = len (fbuf h p) + sum_len h a + sum_len h b).
  rewrite IH. lia.
Qed.

Lemma sum_len_nonneg h ps : 0 <= sum_len h ps.
Proof.
  induction ps as [|p ps IH]; [unfold sum_len; simpl; lia|].
  change (0 <= len (fbuf h p) + sum_len h ps). unfold len. lia.
Qed.

Lemma extends_below h h' ps : extends_by h h' ps -> Forall (fun p => p < brk h') ps.
Proof.
  intros (Es & Hb & _). apply Forall_forall. intros p Hp.
  rewrite Es in Hp. apply elem_of_seqZ in Hp. lia.
Qed.

Lemma fbuf_frame h h' qs p : extends_by h h' qs -> p < brk h -> fbuf h' p = fbuf h p.
Proof.
  intros (_ & _ & _ & Hold & _) Hp. unfold fbuf. rewrite Hold by lia. reflexivity.
Qed.

Lemma sum_len_frame h h' qs ps :
  extends_by h h' qs -> Forall (fun p => p < brk h) ps -> sum_len h' ps = sum_len h ps.
Proof.
  intros He Hps. induction Hps as [|p ps Hp _ IH]; [reflexivity|].
  change (len (fbuf h' p) + sum_len h' ps = len (fbuf h p) + sum_len h ps).
  rewrite IH, (fbuf_frame h h' qs p He Hp). reflexivity.
Qed.

Lemma tally_nil h : tally h [] 0.
Proof. split; [constructor | reflexivity]. Qed.

Lemma tally_app h a b x y : tally h a x -> tally h b y -> tally h (a ++ b) (x + y).
Proof.
  intros [Fa Sa] [Fb Sb]. split; [apply Forall_app; auto|].
  rewrite sum_len_app, Sa, Sb. reflexivity.
Qed.

(** Later allocations leave a tally as it is. *)
Lemma tally_later h h' qs ps x :
  tally h ps x -> Forall (fun p => p < brk h) ps -> extends_by h h' qs ->
  tally h' ps x.
Proof.
  intros [Hf Hs] Hps He. split.
  - apply Forall_forall. intros p Hp.
    rewrite Forall_forall in Hf, Hps.
    destruct (Hf p Hp) as [l Hl]. exists l.
    pose proof (Hps p Hp) as Hlt.
    destruct He as (_ & _ & _ & Hold & _). rewrite Hold by lia. exact Hl.
  - rewrite (sum_len_frame _ _ _ _ He Hps). exact Hs.
Qed.

(** The floats of the buffers a record loader fills are the parameters it
    reports. *)
Lemma conv_counted dev s u s' :
  load_conv dev s = (Ok u, s') ->
  tally (cx_q s') (conv_ptrs (cx_out s')) (Conv.params (cx_out s')).
Proof.
  intros H. apply load_conv_spec in H as (w & b & H). cbv zeta in H.
  destruct H as (_ & _ & _ & _ & _ & Hp & Dw & Db & _ & _ & _ & Hm & _).
  unfold tally, sum_len, conv_ptrs, fbuf, is_float. simpl. rewrite Dw, Db, Hm. split.
  - repeat constructor; simpl_inserts; eauto.
  - simpl_inserts. lia.
Qed.

Lemma dense_counted dev e s u s' :
  load_dense dev e s = (Ok u, s') ->
  tally (cx_q s') (dense_ptrs (cx_out s')) (Dense.params (cx_out s')).
Proof.
  intros H. apply load_dense_spec in H as (w & b & H). cbv zeta in H.
  destruct H as (_ & _ & _ & _ & _ & Hp & Dw & Db & _ & _ & _ & Hm & _).
  unfold tally, sum_len, dense_ptrs, fbuf, is_float. simpl. rewrite Dw, Db, Hm. split.
  - repeat constructor; simpl_inserts; eauto.
  - simpl_inserts. lia.
Qed.

Lemma se_counted dev ch mh s r s' :
  load_se dev ch mh s = (Ok r, s') -> r.1 = true ->
  tally (cx_q s') (se_ptrs (cx_out s')) (Se.params (cx_out s')).
Proof.
  intros H Hr. apply load_se_spec in H. cbv zeta in H.
  destruct H as [(-> & _) | (w1 & b1 & w2 & b2 & H)]; [discriminate Hr|].
  destruct H as (_ & _ & Hp & D1 & D2 & D3 & D4 & _ & _ & Hm & _).
  unfold tally, sum_len, se_ptrs, fbuf, is_float. simpl. rewrite D1, D2, D3, D4, Hm. split.
  - repeat constructor; simpl_inserts; eauto.
  - simpl_inserts. lia.
Qed.

(** ** Stage by stage *)

Lemma load_input_counts dev : counts (fun n => conv_ptrs (inputLayer n)) (load_input dev).
Proof.
  intros s u s' H. split; [eapply load_input_extends, H|].
  unfold load_input in H.
  apply bind_ok in H as (? & s1 & Hz & H). apply zoom_ok in Hz as (u1 & Hc & ->).
  apply bind_ok in H as (n & s2 & Hg & H). apply get_out_ok in Hg as [-> ->].
  apply modify_ok in H. subst s'.
  pose proof (conv_counted _ _ _ _ Hc) as Hn. cbn [cx_q cx_out] in Hn |- *.
  change (inputLayer (add_params ?p ?n)) with (inputLayer n).
  change (inputLayer (set_inputLayer ?c ?n)) with c.
  exists (Conv.params (cx_out u1)). split; [exact Hn | apply wrap64_idem].
Qed.

Lemma load_heads_counts dev hd :
  counts (fun n => conv_ptrs (policyStem n) ++ conv_ptrs (policyOut n)
                   ++ conv_ptrs (valueConv n) ++ dense_ptrs (valueFc1 n)
                   ++ dense_ptrs (valueFc2 n))
         (load_heads dev hd).
Proof.
  intros s u s' H0. split; [apply (load_heads_extends dev hd _ _ _ H0)|].
  revert H0. unfold load_heads. intros H.
  apply bind_ok in H as (? & s1 & Hz1 & H). apply zoom_ok in Hz1 as (u1 & Hc1 & ->).
  apply bind_ok in H as (? & s2 & Hz2 & H). apply zoom_ok in Hz2 as (u2 & Hc2 & ->).
  apply bind_ok in H as (? & s3 & Hz3 & H). apply zoom_ok in Hz3 as (u3 & Hc3 & ->).
  apply bind_ok in H as (n & s4 & Hg & H). apply get_out_ok in Hg as [-> ->].
  apply bind_ok in H as (? & ? & Hg1 & H). apply guard_ok in Hg1 as [_ ->].
  apply bind_ok in H as (? & ? & Hg2 & H). apply guard_ok in Hg2 as [_ ->].
  apply bind_ok in H as (? & s5 & Hm & H). apply modify_ok in Hm. subst s5.
  apply bind_ok in H as (? & s6 & Hz4 & H). apply zoom_ok in Hz4 as (u4 & Hc4 & ->).
  apply bind_ok in H as (? & s7 & Hz5 & H). apply zoom_ok in Hz5 as (u5 & Hc5 & ->).
  apply bind_ok in H as (n' & s8 & Hg & H). apply get_out_ok in Hg as [-> ->].
  apply modify_ok in H. subst s'.
  pose proof (conv_counted _ _ _ _ Hc1) as N1. pose proof (conv_counted _ _ _ _ Hc2) as N2.
  pose proof (conv_counted _ _ _ _ Hc3) as N3. pose proof (dense_counted _ _ _ _ _ Hc4) as N4.
  pose proof (dense_counted _ _ _ _ _ Hc5) as N5.
  apply conv_extends in Hc1, Hc2, Hc3. apply dense_extends in Hc4, Hc5.
  cbn [cx_f cx_q cx_out] in *.
  pose proof (extends_below _ _ _ Hc1) as B1. pose proof (extends_below _ _ _ Hc2) as B2.
  pose proof (extends_below _ _ _ Hc3) as B3. pose proof (extends_below _ _ _ Hc4) as B4.
  pose proof (extends_by_app _ _ _ _ _ Hc2 Hc3) as E13.
  pose proof (extends_by_app _ _ _ _ _ E13 Hc4) as E14.
  pose proof (extends_by_app _ _ _ _ _ E14 Hc5) as E15.
  pose proof (extends_by_app _ _ _ _ _ Hc3 Hc4) as E24.
  pose proof (extends_by_app _ _ _ _ _ E24 Hc5) as E25.
  pose proof (extends_by_app _ _ _ _ _ Hc4 Hc5) as E35.
  pose proof (tally_later _ _ _ _ _ N1 B1 E15) as M1.
  pose proof (tally_later _ _ _ _ _ N2 B2 E25) as M2.
  pose proof (tally_later _ _ _ _ _ N3 B3 E35) as M3.
  pose proof (tally_later _ _ _ _ _ N4 B4 Hc5) as M4.
  eexists. split.
  - exact (tally_app _ _ _ _ _ M1 (tally_app _ _ _ _ _ M2 (tally_app _ _ _ _ _ M3
             (tally_app _ _ _ _ _ M4 N5)))).
  - change (wrap64 (wrap64 (wrap64 (paramCount (cx_out s)
                                    + wrap64 (Conv.params (cx_out u1) + Conv.params (cx_out u2)
                                              + Conv.params (cx_out u3)))
                            + wrap64 (Dense.params (cx_out u4) + Dense.params (cx_out u5))))
            = wrap64 (paramCount (cx_out s)
                      + (Conv.params (cx_out u1) + (Conv.params (cx_out u2)
                         + (Conv.params (cx_out u3) + (Dense.params (cx_out u4)
                            + Dense.params (cx_out u5))))))).
    rewrite wrap64_idem, wrap64_add_l, wrap64_add_r, Z.add_shuffle0, wrap64_add_r.
    apply (f_equal wrap64). lia.
Qed.

Lemma load_block_counts dev i mh s r s' :
  (Z.to_nat i < length (tower (cx_out s)))%nat ->
  load_block dev i mh s = (Ok r, s') ->
  exists x, tally (cx_q s') (block_ptrs (tower_at (cx_out s') i)) x
            /\ wrap64 (paramCount (cx_out s')) = wrap64 (paramCount (cx_out s) + x).
Proof.
  intros Hi H. unfold load_block in H.
  apply bind_ok in H as (? & s1 & Hz1 & H).
  apply zoom_ok in Hz1 as (u1 & Hc1 & ->).
  apply bind_ok in H as (? & s2 & Hz2 & H).
  apply zoom_ok in Hz2 as (u2 & Hc2 & ->).
  apply bind_ok in H as (n & s3 & Hg & H). apply get_out_ok in Hg as [-> ->].
  apply bind_ok in H as (? & s4 & Hm & H). apply modify_ok in Hm. subst s4.
  apply bind_ok in H as (rs & s5 & Hz3 & H).
  apply zoom_ok in Hz3 as (u3 & Hc3 & ->).
  apply bind_ok in H as (? & s6 & Hm & H). apply modify_ok in Hm. subst s6.
  apply bind_ok in H as (n' & s7 & Hg & H). apply get_out_ok in Hg as [-> ->].
  apply bind_ok in H as (? & s8 & Hp & H).
  inversion H; subst r s'. clear H.
  pose proof (conv_counted _ _ _ _ Hc1) as N1. pose proof (conv_counted _ _ _ _ Hc2) as N2.
  pose proof (se_counted _ _ _ _ _ _ Hc3) as N3.
  apply conv_extends in Hc1, Hc2. apply se_extends in Hc3.
  destruct rs as [present mh']. cbn [cx_f cx_q cx_out fst snd] in *.
  pose proof (extends_below _ _ _ Hc1) as B1. pose proof (extends_below _ _ _ Hc2) as B2.
  pose proof (extends_by_app _ _ _ _ _ Hc2 Hc3) as E13.
  pose proof (tally_later _ _ _ _ _ N1 B1 E13) as M1.
  pose proof (tally_later _ _ _ _ _ N2 B2 Hc3) as M2.
  destruct (lookup_lt_is_Some_2 (tower (cx_out s)) (Z.to_nat i) Hi) as [b0 Hb0].
  set (c1 := cx_out u1) in *. set (c2 := cx_out u2) in *. set (se3 := cx_out u3) in *.
  set (n2 := update_block i (set_conv2 c2) (update_block i (set_conv1 c1) (cx_out s))) in *.
  assert (Hn2 : tower_at n2 i = set_conv2 c2 (set_conv1 c1 b0)).
  { unfold n2. rewrite !tower_at_update_valid by valid_index Hi.
    unfold tower_at. rewrite Hb0. reflexivity. }
  assert (Hl2 : (Z.to_nat i < length (tower n2))%nat).
  { unfold n2. valid_index Hi. }
  set (X := wrap64 (Conv.params (conv1 (tower_at n2 i))
                    + Conv.params (conv2 (tower_at n2 i)))) in *.
  assert (HX : X = wrap64 (Conv.params c1 + Conv.params c2)).
  { unfold X. rewrite Hn2. reflexivity. }
  set (n6 := update_block i (set_hasSe present)
               (update_block i (set_se se3) (add_params X n2))) in *.
  assert (Hn6 : tower_at n6 i
                = set_hasSe present (set_se se3 (set_conv2 c2 (set_conv1 c1 b0)))).
  { unfold n6. rewrite !tower_at_update_valid by valid_index Hl2.
    rewrite tower_at_add_params, Hn2. reflexivity. }
  assert (Hp6 : paramCount n6 = wrap64 (paramCount (cx_out s) + X)) by reflexivity.
  assert (Hfin : cx_q s8 = cx_q u3
                 /\ tower_at (cx_out s8) i = tower_at n6 i
                 /\ paramCount (cx_out s8)
                    = if present then wrap64 (paramCount n6 + Se.params se3)
                      else paramCount n6).
  { destruct present; [apply modify_ok in Hp | inversion Hp]; subst s8;
      cbn [cx_q cx_out]; repeat split.
    unfold add_params. cbn [paramCount set_paramCount]. rewrite Hn6. reflexivity. }
  destruct Hfin as (Hq8 & Ht8 & Hp8).
  rewrite Hq8, Ht8, Hn6, Hp8, Hp6, HX.
  change (block_ptrs (set_hasSe present (set_se se3 (set_conv2 c2 (set_conv1 c1 b0)))))
    with (conv_ptrs c1 ++ conv_ptrs c2 ++ (if present then se_ptrs se3 else [])).
  destruct present.
  - eexists. split.
    + exact (tally_app _ _ _ _ _ M1 (tally_app _ _ _ _ _ M2 (N3 eq_refl))).
    + rewrite wrap64_idem, !wrap64_add_l, Z.add_shuffle0, wrap64_add_r.
      apply (f_equal wrap64). lia.
  - eexists. split.
    + exact (tally_app _ _ _ _ _ M1 (tally_app _ _ _ _ _ M2 (tally_nil _))).
    + rewrite wrap64_idem, wrap64_add_r. apply (f_equal wrap64). lia.
Qed.

Lemma load_tower_counts dev hd s u s' :
  0 <= h_blocks hd ->
  length (tower (cx_out s)) = Z.to_nat (h_blocks hd) ->
  load_tower dev hd s = (Ok u, s') ->
  exists x, tally (cx_q s') (tower (cx_out s') ≫= block_ptrs) x
            /\ wrap64 (paramCount (cx_out s')) = wrap64 (paramCount (cx_out s) + x).
Proof.
  intros Hb Hlen H. unfold load_tower in H.
  apply bind_ok in H as (mh & s1 & Hloop & H). apply modify_ok in H. subst s'.
  cbn [cx_q cx_out].
  change (paramCount (set_seMaxHidden mh (cx_out s1))) with (paramCount (cx_out s1)).
  change (tower (set_seMaxHidden mh (cx_out s1))) with (tower (cx_out s1)).
  pose proof (for_each_ok_inv (load_block dev)
                (fun k t => length (tower (cx_out t)) = Z.to_nat (h_blocks hd)
                            /\ extends_by (cx_q s) (cx_q t)
                                          (take k (tower (cx_out t)) ≫= block_ptrs)
                            /\ exists x,
                                 tally (cx_q t) (take k (tower (cx_out t)) ≫= block_ptrs) x
                                 /\ wrap64 (paramCount (cx_out t))
                                    = wrap64 (paramCount (cx_out s) + x))
                (seqZ 0 (h_blocks hd)) 0%nat 0 s mh s1 Hloop) as Hinv.
  cbn beta in Hinv. rewrite length_seqZ, Nat.add_0_l in Hinv.
  destruct Hinv as (Hlen1 & _ & Hcnt).
  - split; [exact Hlen|]. split; [apply extends_by_nil|].
    rewrite take_0. exists 0. split; [apply tally_nil|].
    rewrite Z.add_0_r. reflexivity.
  - intros j x b t1 r1 t2 Hj (Hl1 & He1 & y & Ht1 & Hn1) Hbody.
    apply lookup_seqZ in Hj as [-> Hjlt]. rewrite Nat.add_0_l in *. rewrite Z.add_0_l in *.
    pose proof (load_block_keeps_length dev (Z.of_nat j) b _ _ _ Hbody) as Hl2.
    cbn beta in Hl2.
    assert (Hin : (Z.to_nat (Z.of_nat j) < length (tower (cx_out t1)))%nat) by lia.
    pose proof (load_block_extends dev _ b _ _ _ Hin Hbody) as He2.
    destruct (load_block_counts dev _ b _ _ _ Hin Hbody) as (z & Ht2 & Hn2).
    destruct (lookup_lt_is_Some_2 (tower (cx_out t2)) j ltac:(lia)) as [b2 Hb2].
    unfold tower_at in He2, Ht2. rewrite Nat2Z.id, Hb2 in He2, Ht2.
    cbn [default from_option id] in He2, Ht2.
    rewrite (take_S_r _ _ _ Hb2), bind_app.
    rewrite (take_tower_other dev (Z.of_nat j) b t1 r1 t2 j ltac:(lia) Hbody).
    change ([b2] ≫= block_ptrs) with (block_ptrs b2 ++ []). rewrite app_nil_r.
    split; [lia|]. split; [eapply extends_by_app; [exact He1 | exact He2]|].
    exists (y + z). split.
    + apply tally_app; [|exact Ht2].
      exact (tally_later _ _ _ _ _ Ht1 (extends_below _ _ _ He1) He2).
    + rewrite Z.add_assoc. exact (wrap64_step _ _ _ Hn2 _ Hn1).
  - rewrite take_ge in Hcnt by lia. exact Hcnt.
Qed.

Lemma load_heads_wrapped dev hd s u s' :
  load_heads dev hd s = (Ok u, s') ->
  wrap64 (paramCount (cx_out s')) = paramCount (cx_out s').
Proof.
  unfold load_heads. intros H.
  apply bind_ok in H as (? & s1 & Hz1 & H). apply zoom_ok in Hz1 as (u1 & Hc1 & ->).
  apply bind_ok in H as (? & s2 & Hz2 & H). apply zoom_ok in Hz2 as (u2 & Hc2 & ->).
  apply bind_ok in H as (? & s3 & Hz3 & H). apply zoom_ok in Hz3 as (u3 & Hc3 & ->).
  apply bind_ok in H as (n & s4 & Hg & H). apply get_out_ok in Hg as [-> ->].
  apply bind_ok in H as (? & ? & Hg1 & H). apply guard_ok in Hg1 as [_ ->].
  apply bind_ok in H as (? & ? & Hg2 & H). apply guard_ok in Hg2 as [_ ->].
  apply bind_ok in H as (? & s5 & Hm & H). apply modify_ok in Hm. subst s5.
  apply bind_ok in H as (? & s6 & Hz4 & H). apply zoom_ok in Hz4 as (u4 & Hc4 & ->).
  apply bind_ok in H as (? & s7 & Hz5 & H). apply zoom_ok in Hz5 as (u5 & Hc5 & ->).
  apply bind_ok in H as (n' & s8 & Hg & H). apply get_out_ok in Hg as [-> ->].
  apply modify_ok in H. subst s'. cbn [cx_out].
  unfold add_params at 1. cbn [paramCount set_paramCount]. apply wrap64_idem.
Qed.

Lemma load_policy_map_keeps_count dev hd :
  keeps (fun n => (paramCount n, weight_ptrs n)) (load_policy_map dev hd).
Proof. unfold load_policy_map. keeps_all. Qed.

Lemma alloc_workspace_keeps_count dev hd :
  keeps (fun n => (paramCount n, weight_ptrs n)) (alloc_workspace dev hd).
Proof. unfold alloc_workspace. keeps_all. Qed.

Lemma load_layers_counts dev hd s u s' :
  - 2 ^ 31 <= h_blocks hd < 2 ^ 31 ->
  load_layers dev hd s = (Ok u, s') ->
  Forall (fun p => p < brk (cx_q s')) (weight_ptrs (cx_out s'))
  /\ exists x, tally (cx_q s') (weight_ptrs (cx_out s')) x
               /\ paramCount (cx_out s') = wrap64 (paramCount (cx_out s) + x).
Proof.
  intros Hrange H. unfold load_layers in H.
  apply bind_ok in H as (? & s1 & H1 & H).
  assert (KK1 : keeps inputLayer (resize_tower hd ;; load_tower dev hd ;;
                                  load_heads dev hd ;; load_policy_map dev hd)).
  { unfold resize_tower, load_tower, load_block, load_heads, load_policy_map. keeps_all. }
  pose proof (KK1 _ _ _ H) as K1. clear KK1.
  destruct (load_input_counts dev _ _ _ H1) as (E1 & n1 & T1 & P1).
  apply bind_ok in H as (? & s2 & H2 & H).
  unfold resize_tower in H2.
  apply bind_ok in H2 as (? & ? & Hr & H2). apply raise_if_ok in Hr as [Hr ->].
  apply modify_ok in H2. subst s2.
  assert (Hb : 0 <= h_blocks hd).
  { apply (max_size_below_negative_cast sizeof_ResidualBlock); [reflexivity | lia | exact Hr]. }
  rewrite to_size_t_small in H by lia.
  apply bind_ok in H as (? & s3 & H3 & H).
  assert (P3 := H3).
  apply load_tower_counts in P3 as (n3 & T3 & P3); [|exact Hb | apply length_replicate].
  apply load_tower_extends in H3 as E3; [|exact Hb | apply length_replicate].
  cbn [cx_q cx_out] in E3, P3.
  change (paramCount (set_tower ?t ?n)) with (paramCount n) in P3.
  assert (KK3 : keeps tower (load_heads dev hd ;; load_policy_map dev hd)).
  { unfold load_heads, load_policy_map. keeps_all. }
  pose proof (KK3 _ _ _ H) as K3. clear KK3.
  apply bind_ok in H as (? & s4 & H4 & H5).
  assert (KK4 : keeps (fun n => (policyStem n, policyOut n, valueConv n, valueFc1 n,
                                 valueFc2 n)) (load_policy_map dev hd)).
  { unfold load_policy_map. keeps_all. }
  pose proof (KK4 _ _ _ H5) as K4. clear KK4.
  cbn beta in K4. inversion K4 as [[Ka Kb Kc Kd Ke]]. clear K4.
  pose proof (load_policy_map_keeps_count dev hd _ _ _ H5) as K5.
  cbn beta in K5. injection K5 as Kp _.
  pose proof (load_heads_wrapped dev hd _ _ _ H4) as W4.
  destruct (load_heads_counts dev hd _ _ _ H4) as (E4 & n4 & T4 & P4).
  apply load_policy_map_extends in H5 as [E5 _].
  pose proof (extends_by_app _ _ _ _ _ E4 E5) as E35.
  pose proof (extends_by_app _ _ _ _ _ E3 E35) as E15.
  pose proof (tally_later _ _ _ _ _ T1 (extends_below _ _ _ E1) E15) as U1.
  pose proof (tally_later _ _ _ _ _ T3 (extends_below _ _ _ E3) E35) as U3.
  pose proof (tally_later _ _ _ _ _ T4 (extends_below _ _ _ E4) E5) as U4.
  assert (Hw : weight_ptrs (cx_out s')
               = conv_ptrs (inputLayer (cx_out s1)) ++ (tower (cx_out s3) ≫= block_ptrs)
                 ++ conv_ptrs (policyStem (cx_out s4)) ++ conv_ptrs (policyOut (cx_out s4))
                 ++ conv_ptrs (valueConv (cx_out s4)) ++ dense_ptrs (valueFc1 (cx_out s4))
                 ++ dense_ptrs (valueFc2 (cx_out s4))).
  { unfold weight_ptrs. rewrite K1, K3, Ka, Kb, Kc, Kd, Ke. reflexivity. }
  rewrite Hw. split.
  - pose proof (extends_below _ _ _ (extends_by_app _ _ _ _ _ E1 (extends_by_app _ _ _ _ _ E3 E4)))
      as Hlt.
    destruct E5 as (_ & Hbrk & _). unfold len in Hbrk.
    eapply Forall_impl; [exact Hlt|]. cbn beta. intros p Hp. lia.
  - exists (n1 + (n3 + n4)). split.
    + exact (tally_app _ _ _ _ _ U1 (tally_app _ _ _ _ _ U3 U4)).
    + rewrite Kp, <- W4, !Z.add_assoc.
      apply (wrap64_step _ _ _ P4). apply (wrap64_step _ _ _ P3). exact P1.
Qed.

(** X24.  The parameter count is the number of weights on the device.  For a
    network that [create] returned, every weight and bias pointer of the
    input layer, of the tower blocks (with the squeeze-excite arrays of the
    blocks that have them) and of the policy and value heads is a live buffer
    of floats, and [paramCount], the seventh entry that [getInfo] reports, is
    the total number of floats in these buffers taken as an [int64_t]: that
    number itself when it is below 2^63.  The policy map and the workspace
    are not counted. *)
Theorem param_count_counts_weights pf bytes h0 net h :
  create_net pf (Some bytes) h0 = (Returned (Some net), h) ->
  let total := sum_len h (weight_ptrs net) in
  Forall (is_float h) (weight_ptrs net)
  /\ paramCount net = wrap64 total
  /\ nativeGetInfo true (Some net) = Some (info_view net ++ [wrap64 total])
  /\ (total < 2 ^ 63 -> paramCount net = total).
Proof.
  intros Hc. apply create_net_ok in Hc as (dev & hd & s & s' & _ & Hp & Hl & -> & ->).
  apply read_prelude_ok in Hp as (_ & _ & Hrange & _).
  unfold load_net in Hl. apply bind_ok in Hl as (? & s1 & Hlay & Hws).
  apply load_layers_counts in Hlay as (Hlt & tot & Ht & Hn); [|exact Hrange].
  pose proof (alloc_workspace_keeps_count dev hd _ _ _ Hws) as K.
  cbn beta in K. pose proof (f_equal fst K) as Kp. pose proof (f_equal snd K) as Kw.
  cbn [fst snd] in Kp, Kw. clear K.
  apply alloc_workspace_extends in Hws. cbv zeta in Hws.
  destruct (tally_later _ _ _ _ _ Ht Hlt Hws) as [Hf Hs].
  cbn [cx_out cx_q] in Hn. change (paramCount (net_of_header dev hd)) with 0 in Hn.
  rewrite Z.add_0_l in Hn.
  cbv zeta. rewrite Kw, Hs.
  assert (Hpc : paramCount (cx_out s') = wrap64 tot) by (rewrite Kp; exact Hn).
  split; [exact Hf|]. split; [exact Hpc|]. split.
  - unfold nativeGetInfo, info_view. rewrite Hpc. reflexivity.
  - intros Hx. rewrite Hpc. apply wrap64_small.
    pose proof (sum_len_nonneg (cx_q s') (weight_ptrs (cx_out s1))) as Hnn.
    rewrite Hs in Hnn. lia.
Qed.

Lemma param_count_counts_weights_witness :
  exists net h,
    create_net sample_platform (Some se_file) empty_mem = (Returned (Some net), h)
    /\ paramCount net = 1116
    /\ let total := sum_len h (weight_ptrs net) in
       Forall (is_float h) (weight_ptrs net)
       /\ paramCount net = wrap64 total
       /\ nativeGetInfo true (Some net) = Some (info_view net ++ [wrap64 total])
       /\ (total < 2 ^ 63 -> paramCount net = total).
Proof.
  eexists _, _. split; [vm_compute; reflexivity|]. split; [vm_compute; reflexivity|].
  apply (param_count_counts_weights sample_platform se_file empty_mem).
  vm_compute. reflexivity.
Defined.

(* ================================================================== *)
(** * The WDL triple of a [predict] call *)

(** What a blocking copy hands to the host is what the buffer holds after
    the call. *)
Lemma copy_to_host_take src count h l h' :
  sycl_copy_to_host src count h = (Some l, h') ->
  l = take (Z.to_nat count) (fbuf h' src).
Proof.
  unfold sycl_copy_to_host. destruct (next_ok h) as [ok h1] eqn:En.
  destruct (negb ok); [discriminate|].
  unfold fbuf. destruct (mem h1 !! src) as [[b|b]|] eqn:Em; try discriminate.
  destruct ((0 <=? count) && (count <=? Z.of_nat (length b))); [|discriminate].
  intros H. inversion H; subst. rewrite Em. reflexivity.
Qed.

(** A [predict] that runs to its end has read three logits back and hands
    out their [softmax3]. *)
Lemma predict_done_softmax lm handle jencoded joutPolicy joutWdl h :
  let r := nativePredict lm handle jencoded joutPolicy joutWdl h in
  p_done r = true ->
  exists net',
    p_net r = Some net'
    /\ p_wdlOut r = Some (softmax3 lm (logits_of net' (p_mem r))).1
    /\ p_value r = (softmax3 lm (logits_of net' (p_mem r))).2.
Proof.
  unfold nativePredict.
  destruct handle as [net|]; [|discriminate].
  destruct jencoded as [enc|], joutPolicy as [pol|], joutWdl as [wdl|]; try discriminate.
  destruct (len enc =? int_mul (inputC net) 64); [|discriminate].
  destruct (len pol =? policySize net); [|discriminate].
  destruct (len wdl =? 3) eqn:E3; [|discriminate]. simpl negb. cbv iota.
  unfold eval_one.
  destruct (negb (inputC net =? 112)); [discriminate|].
  destruct (sycl_copy_to_device _ _ h) as [[] h1]; [|discriminate]. simpl negb. cbv iota.
  destruct (run_trunk lm net h1) as [net1 h2].
  destruct (sycl_copy_to_host _ _ (run_policy_head net1 h2)) as [[pol'|] h3];
    [|discriminate].
  destruct (sycl_copy_to_host _ _ (run_value_head net1 h3)) as [[lg|] h4] eqn:Ec;
    [|discriminate].
  apply copy_to_host_take in Ec. change (Z.to_nat 3) with 3%nat in Ec.
  fold (logits_of net1 h4) in Ec. subst lg.
  destruct (softmax3_value lm (logits_of net1 h4)) as (w & d & l & Hw & Hv).
  destruct (softmax3 lm (logits_of net1 h4)) as [t v] eqn:Esm. cbn [fst snd] in Hw, Hv.
  intros _. cbn [p_net p_wdlOut p_value p_mem ev_wdl ev_value]. exists net1.
  rewrite Esm. cbn [fst snd].
  split; [reflexivity|]. split; [|reflexivity].
  f_equal. apply set_region_all; [apply Z.eqb_eq, E3 | rewrite Hw; simpl; lia].
Qed.

(** C5, amended.  For every [predict] call that runs to its end, with the
    three logits read back from [d_logits], [m] their maximum,
    [e_i = exp(logit_i - m)] and [s = e_0 + e_1 + e_2] in binary32:
    - the returned scalar is exactly [wdlOut[0] - wdlOut[2]];
    - when [s > 0], the triple is [(e_0 / s, e_1 / s, e_2 / s)];
    - otherwise the triple is [(0, 0, 0)];
    - for finite logits, and an exponential that is 1 at [+0.0] and between 0
      and 1 on values that are not positive, [s > 0] holds, the three entries
      are finite and not negative, and their exact sum differs from 1 by at
      most [2 ^ -20]. *)
Theorem predict_wdl_softmax lm handle jencoded joutPolicy joutWdl h :
  let r := nativePredict lm handle jencoded joutPolicy joutWdl h in
  p_done r = true ->
  exists net' w d l,
    p_net r = Some net'
    /\ p_wdlOut r = Some [w; d; l]
    /\ p_value r = fsub w l
    /\ let logits := logits_of net' (p_mem r) in
       let m := fmax (fget logits 0) (fmax (fget logits 1) (fget logits 2)) in
       let e0 := std_exp lm (fsub (fget logits 0) m) in
       let e1 := std_exp lm (fsub (fget logits 1) m) in
       let e2 := std_exp lm (fsub (fget logits 2) m) in
       let s := fadd (fadd e0 e1) e2 in
       (flt fzero s = true -> w = fdiv e0 s /\ d = fdiv e1 s /\ l = fdiv e2 s)
       /\ (flt fzero s = false -> w = fzero /\ d = fzero /\ l = fzero)
       /\ (exp_spec lm ->
           finite_logit (fget logits 0) -> finite_logit (fget logits 1) ->
           finite_logit (fget logits 2) ->
           flt fzero s = true
           /\ nonneg_fin w /\ nonneg_fin d /\ nonneg_fin l
           /\ 2 ^ 20 * Z.abs (scaled w + scaled d + scaled l - 2 ^ 149) <= 2 ^ 149).
Proof.
  intros r Hd.
  destruct (predict_done_softmax lm handle jencoded joutPolicy joutWdl h Hd)
    as (net' & Hn & Hw & Hv).
  fold r in Hn, Hw, Hv.
  set (logits := logits_of net' (p_mem r)) in *.
  set (m := fmax (fget logits 0) (fmax (fget logits 1) (fget logits 2))).
  set (e0 := std_exp lm (fsub (fget logits 0) m)).
  set (e1 := std_exp lm (fsub (fget logits 1) m)).
  set (e2 := std_exp lm (fsub (fget logits 2) m)).
  set (s := fadd (fadd e0 e1) e2).
  assert (Hsm : softmax3 lm logits
                = (if flt fzero s then [fdiv e0 s; fdiv e1 s; fdiv e2 s]
                   else [fzero; fzero; fzero],
                   if flt fzero s then fsub (fdiv e0 s) (fdiv e2 s)
                   else fsub fzero fzero)).
  { unfold softmax3. fold m e0 e1 e2 s. destruct (flt fzero s); reflexivity. }
  rewrite Hsm in Hw, Hv. cbn [fst snd] in Hw, Hv.
  destruct (flt fzero s) eqn:Hs.
  - exists net', (fdiv e0 s), (fdiv e1 s), (fdiv e2 s).
    split; [exact Hn|]. split; [exact Hw|]. split; [exact Hv|].
    cbv zeta. fold logits m e0 e1 e2 s. rewrite Hs.
    split; [auto|]. split; [discriminate|].
    intros Hexp F0 F1 F2.
    destruct (softmax3_sum lm _ _ _ Hexp F0 F1 F2) as (_ & Nw & Nd & Nl & Hsum).
    fold m e0 e1 e2 s in Nw, Nd, Nl, Hsum. auto.
  - exists net', fzero, fzero, fzero.
    split; [exact Hn|]. split; [exact Hw|]. split; [exact Hv|].
    cbv zeta. fold logits m e0 e1 e2 s. rewrite Hs.
    split; [discriminate|]. split; [auto|].
    intros Hexp F0 F1 F2.
    destruct (softmax3_sum lm _ _ _ Hexp F0 F1 F2) as (Hpos & _).
    fold m e0 e1 e2 s in Hpos. congruence.
Qed.


Lemma predict_wdl_softmax_witness :
  exists net h,
    create_net sample_platform (Some se_file) empty_mem = (Returned (Some net), h)
    /\ let r := nativePredict sample_libm (Some net) (Some (zeros 7168)) (Some (zeros 2))
                  (Some (zeros 3)) h in
       p_done r = true
       /\ exists net' w d l,
            p_net r = Some net'
            /\ p_wdlOut r = Some [w; d; l]
            /\ p_value r = fsub w l
            /\ let logits := logits_of net' (p_mem r) in
               let m := fmax (fget logits 0) (fmax (fget logits 1) (fget logits 2)) in
               let e0 := std_exp sample_libm (fsub (fget logits 0) m) in
               let e1 := std_exp sample_libm (fsub (fget logits 1) m) in
               let e2 := std_exp sample_libm (fsub (fget logits 2) m) in
               let s := fadd (fadd e0 e1) e2 in
               (flt fzero s = true -> w = fdiv e0 s /\ d = fdiv e1 s /\ l = fdiv e2 s)
               /\ (flt fzero s = false -> w = fzero /\ d = fzero /\ l = fzero)
               /\ (exp_spec sample_libm ->
                   finite_logit (fget logits 0) -> finite_logit (fget logits 1) ->
                   finite_logit (fget logits 2) ->
                   flt fzero s = true
                   /\ nonneg_fin w /\ nonneg_fin d /\ nonneg_fin l
                   /\ 2 ^ 20 * Z.abs (scaled w + scaled d + scaled l - 2 ^ 149)
                      <= 2 ^ 149).
Proof.
  eexists _, _. split; [vm_compute; reflexivity|].
  match goal with
  | |- let r := ?R in _ => assert (Hd : p_done R = true) by (vm_compute; reflexivity)
  end.
  split; [exact Hd|].
  exact (predict_wdl_softmax sample_libm _ _ _ _ _ Hd).
Defined.

(** The claim C5 fails on a model whose value head yields NaN:
    [nan_logit_file] loads, the call runs to its end with no device failure,
    the three logits are NaN, and the triple written to [wdlOut] is
    [(0, 0, 0)] while the quotient [e_0 / s] of the softmax is NaN. *)
Lemma predict_nan_logits_zero_wdl :
  exists net h,
    create_net sample_platform (Some nan_logit_file) empty_mem = (Returned (Some net), h)
    /\ oracle h = []
    /\ let r := nativePredict nan_libm (Some net) (Some (zeros 7168)) (Some (zeros 2))
                  (Some (zeros 3)) h in
       let logits := logits_of net (p_mem r) in
       let m := fmax (fget logits 0) (fmax (fget logits 1) (fget logits 2)) in
       let e0 := std_exp nan_libm (fsub (fget logits 0) m) in
       let e1 := std_exp nan_libm (fsub (fget logits 1) m) in
       let e2 := std_exp nan_libm (fsub (fget logits 2) m) in
       let s := fadd (fadd e0 e1) e2 in
       p_done r = true
       /\ logits = [S754_nan; S754_nan; S754_nan]
       /\ fdiv e0 s = S754_nan
       /\ p_wdlOut r = Some [fzero; fzero; fzero]
       /\ p_value r = fzero.
Proof.
  eexists _, _. split; [vm_compute; reflexivity|].
  vm_compute. repeat split.
Qed.

(* ================================================================== *)
(** * Exceptions bypass the rollback *)

Lemma grows_refl h : grows h h.
Proof. repeat split; [lia | auto | intros p Hp; lia]. Qed.

Lemma grows_trans h1 h2 h3 : grows h1 h2 -> grows h2 h3 -> grows h1 h3.
Proof.
  intros (B1 & F1 & L1 & N1) (B2 & F2 & L2 & N2).
  split; [lia|]. split; [congruence|]. split; [auto|].
  intros p Hp. destruct (Z.lt_ge_cases p (brk h2)).
  - apply L2, N1. lia.
  - apply N2. lia.
Qed.

Lemma grows_next_ok h ok h1 : next_ok h = (ok, h1) -> grows h h1.
Proof.
  intros H. apply next_ok_spec in H as (_ & Hm & Hb & Hf & _).
  split; [lia|]. split; [exact Hf|]. split.
  - intros p Hp. rewrite Hm. exact Hp.
  - intros p Hp. lia.
Qed.

Lemma grows_mem_store h p b :
  is_Some (mem h !! p) -> grows h (mem_store p b h).
Proof.
  intros Hp. unfold mem_store. split; [simpl; lia|]. split; [reflexivity|]. split.
  - intros q Hq. simpl. destruct (Z.eq_dec q p) as [->|Hne].
    + rewrite lookup_insert_eq. eauto.
    + rewrite lookup_insert_ne by congruence. exact Hq.
  - intros q Hq. simpl in Hq. lia.
Qed.

Section FreesNothing.
Context {T : Type}.

Lemma host_only_frees_nothing {A} (m : M T A) : host_only m -> frees_nothing m.
Proof. intros Hm s r s' H. rewrite (Hm _ _ _ H). apply grows_refl. Qed.

Lemma frees_nothing_bind {A B} (m : M T A) (k : A -> M T B) :
  frees_nothing m -> (forall a, frees_nothing (k a)) -> frees_nothing (bind m k).
Proof.
  intros Hm Hk s r s'. unfold bind.
  destruct (m s) as [[a| |] s1] eqn:E; intros H.
  - eapply grows_trans; [eapply Hm, E | eapply Hk, H].
  - inversion H; subst. eapply Hm, E.
  - inversion H; subst. eapply Hm, E.
Qed.

Lemma frees_nothing_alloc dev t count (store : Z -> T -> T) :
  frees_nothing (alloc dev t count store).
Proof.
  intros s r s'. unfold alloc.
  destruct (sycl_alloc dev t count (cx_q s)) as [p h] eqn:E.
  intros H. inversion H; subst. cbn [cx_q]. clear H.
  unfold sycl_alloc, usm_malloc in E.
  destruct (next_ok (cx_q s)) as [ok h1] eqn:En.
  pose proof (grows_next_ok _ _ _ En) as G1.
  assert (G2 : grows h1 (mkMem (<[brk h1 := fresh_buffer t count]> (mem h1)) (brk h1 + 1)
                               (oracle h1) (bad_frees h1))).
  { split; [simpl; lia|]. split; [reflexivity|]. split.
    - intros q Hq. simpl. destruct (Z.eq_dec q (brk h1)) as [->|Hne].
      + rewrite lookup_insert_eq. eauto.
      + rewrite lookup_insert_ne by congruence. exact Hq.
    - intros q Hq. simpl in *. assert (q = brk h1) as -> by lia.
      rewrite lookup_insert_eq. eauto. }
  destruct (usm_device_allocations dev); [|destruct (usm_shared_allocations dev)];
    try destruct ok; inversion E; subst;
    first [ exact (grows_trans _ _ _ G1 G2) | exact G1 | apply grows_refl ].
Qed.

Lemma frees_nothing_upload (dst : T -> Z) src : frees_nothing (upload dst src).
Proof.
  intros s r s'. unfold upload.
  destruct (sycl_copy_to_device (dst (cx_out s)) src (cx_q s)) as [ok h] eqn:E.
  intros H. inversion H; subst. cbn [cx_q]. clear H.
  unfold sycl_copy_to_device in E.
  destruct (next_ok (cx_q s)) as [ok1 h1] eqn:En.
  pose proof (grows_next_ok _ _ _ En) as G1.
  destruct (negb ok1); [inversion E; subst; exact G1|].
  destruct (mem h1 !! dst (cx_out s)) as [[old|old]|] eqn:Em; destruct src as [l|l];
    try (inversion E; subst; exact G1).
  - destruct (_ <=? _)%nat; inversion E; subst; [|exact G1].
    eapply grows_trans; [exact G1 | apply grows_mem_store; rewrite Em; eauto].
  - destruct (_ <=? _)%nat; inversion E; subst; [|exact G1].
    eapply grows_trans; [exact G1 | apply grows_mem_store; rewrite Em; eauto].
Qed.

Lemma frees_nothing_zoom {U A} (get : T -> U) (set : U -> T -> T) (m : M U A) :
  frees_nothing m -> frees_nothing (zoom get set m).
Proof.
  intros Hm s r s'. unfold zoom.
  destruct (m _) as [r1 s1] eqn:E. intros H. inversion H; subst. simpl.
  apply (Hm (mkCtx (cx_f s) (cx_q s) (get (cx_out s))) _ _ E).
Qed.

Lemma frees_nothing_for_each {A B} (body : A -> B -> M T B) l acc :
  (forall x b, frees_nothing (body x b)) -> frees_nothing (for_each body l acc).
Proof.
  intros Hb. revert acc. induction l as [|x l IH]; intros acc; simpl.
  - apply host_only_frees_nothing, host_only_ret.
  - apply frees_nothing_bind; [apply Hb | intros; apply IH].
Qed.
End FreesNothing.

Ltac frees_step :=
  first
    [ apply frees_nothing_bind; [|intros]
    | apply frees_nothing_alloc | apply frees_nothing_upload
    | apply frees_nothing_zoom
    | apply frees_nothing_for_each; intros
    | apply host_only_frees_nothing; solve [solve_host]
    | match goal with
      | |- frees_nothing (if ?b then _ else _) => destruct b
      end ].

Ltac solve_frees := repeat frees_step.

(** The loader itself never calls [sycl_free]: only [destroy_net] does. *)
Lemma load_net_frees_nothing dev hd : frees_nothing (load_net dev hd).
Proof.
  unfold load_net, load_layers, load_input, resize_tower, load_tower, load_block,
    load_heads, load_policy_map, alloc_workspace, load_conv, load_dense, load_se.
  solve_frees.
Qed.

(** X22.  An exception bypasses the rollback.  When [create_net] leaves
    through an exception (the [std::vector] constructions sized by a header
    count throw on a negative count, lines 697 and 726), [destroy_net] has
    not run: every buffer that was live before the call is still live, every
    address handed out during the call is a live buffer, and no [sycl::free]
    has been issued on a dead address. *)
Theorem create_throw_frees_nothing pf file h0 h' :
  create_net pf file h0 = (Thrown, h') ->
  brk h0 <= brk h'
  /\ bad_frees h' = bad_frees h0
  /\ (forall p, is_Some (mem h0 !! p) -> is_Some (mem h' !! p))
  /\ (forall p, brk h0 <= p < brk h' -> is_Some (mem h' !! p)).
Proof.
  intros H. unfold create_net in H.
  destruct (device_count pf <=? 0); [discriminate H|].
  destruct (select_intel_gpu pf) as [dev|]; [|discriminate H].
  destruct (negb (queue_ctor_ok pf)); [discriminate H|].
  destruct file as [bytes|]; [|discriminate H].
  destruct (read_prelude (mkCtx bytes h0 tt)) as [[hd| |] s] eqn:Hp; try discriminate H.
  pose proof (read_prelude_host_only _ _ _ Hp) as Hq. cbn [cx_q] in Hq.
  destruct (load_net dev hd _) as [[u| |] s'] eqn:Hl; try discriminate H.
  inversion H; subst h'.
  pose proof (load_net_frees_nothing dev hd _ _ _ Hl) as G. cbn [cx_q] in G.
  rewrite Hq in G. exact G.
Qed.

Lemma create_throw_frees_nothing_witness :
  exists h',
    create_net sample_platform (Some negative_map_file) empty_mem = (Thrown, h')
    /\ brk h' = 13
    /\ brk empty_mem <= brk h'
    /\ bad_frees h' = bad_frees empty_mem
    /\ (forall p, is_Some (mem empty_mem !! p) -> is_Some (mem h' !! p))
    /\ (forall p, brk empty_mem <= p < brk h' -> is_Some (mem h' !! p)).
Proof.
  eexists. split; [vm_compute; reflexivity|]. split; [reflexivity|].
  apply (create_throw_frees_nothing sample_platform (Some negative_map_file) empty_mem).
  vm_compute. reflexivity.
Defined.
